(** * GraphAlgorithmsLab: graphs, shortest paths, files, tic-tac-toe

    A shallow embedding of [graph_algorithms.h] (the listing that follows
    [main.cpp] in [src/src/main.cpp]), of the priority-queue contract of
    [src/Interface/ipriority_queue.h] and of [src/src/tictactoe_graph.h],
    followed by the properties that the specification states about them
    and by further properties of the code.

    Conventions of the embedding.
    - [Vertex] is C++ [int], embedded as [Z]; no arithmetic on vertices other
      than loop increments occurs, so wrap-around never comes into play.
      Sizes ([std::size_t]) are non-negative [Z].
    - [Weight] is C++ [double]. The specification describes it as "a real
      number or the infinite sentinel"; it is embedded as an exact rational
      or [+inf], and [wadd] is the exact sum. The tolerance test of the
      comparator is embedded with the rounding of binary64 ([round64]).
      The properties of least costs and of shortest paths are stated for
      weights whose sums [double] addition does not round ([exact_sums]).
      NaN and [-inf] are outside the model.
    - C++ exceptions are the [Throw] outcome of the [result] type; a member
      function that mutates its object returns the object after the call
      next to the outcome.
    - Loops with a static bound are structural recursions over their index
      range. The [while (!pq.IsEmpty())] loop of [dijkstra] and the walk of
      [restore_path] run on an iteration budget; [dijkstra_ok] and
      [walk_back_no_timeout] show that the budget is never used up. The
      recursion of [ttt_minimax] runs on the budget [max_depth - depth].
    - Randomness and the clock are inputs: the sequence of canonical draws
      of the engine, and the successive readings of the clock. So are the
      files and the console: what is read is the sequence of outcomes of
      the extractions, what is written is the sequence of values or the
      text.

    The definitions come first: the embedding of the code that the
    specification speaks of and the vocabulary of its statements, then the
    rest of the code and further vocabulary. The properties follow: those
    the specification states, then further properties of the code. *)

From Stdlib Require Import ZArith QArith Qabs Lia Lqa String Ascii Sorted.
From stdpp Require Import base option list list_numbers.

Local Open Scope Z_scope.

(** ** Outcomes *)

Inductive exn : Type :=
  | out_of_range
  | invalid_argument.

(** [Ok a]: normal return; [Throw e]: a C++ exception reaches the caller;
    [Timeout]: the iteration budget of a modelled [while] loop ran out. *)
Inductive result (A : Type) : Type :=
  | Ok (a : A)
  | Throw (e : exn)
  | Timeout.
Arguments Ok {A} a.
Arguments Throw {A} e.
Arguments Timeout {A}.

Global Instance result_ret : MRet result := λ A a, Ok a.
Global Instance result_bind : MBind result := λ A B f m,
  match m with
  | Ok a => f a
  | Throw e => Throw e
  | Timeout => Timeout
  end.

(** ** Common types *)

(** [using Vertex = int;] *)
Abbreviation Vertex := Z (only parsing).

Inductive Weight : Type :=
  | Fin (q : Q)
  | PInf.

Definition INF : Weight := PInf.

Definition Qltb (x y : Q) : bool := negb (Qle_bool y x).

(** [a + b] on weights: the exact sum. [double] addition gives this sum
    when it is a binary64 number, as it is for integers that stay within
    [2^53], and the nearest binary64 number otherwise. *)
Definition wadd (a b : Weight) : Weight :=
  match a, b with
  | Fin x, Fin y => Fin (x + y)
  | _, _ => PInf
  end.

(** [a < b] on weights. *)
Definition wltb (a b : Weight) : bool :=
  match a, b with
  | Fin x, Fin y => Qltb x y
  | Fin _, PInf => true
  | PInf, _ => false
  end.

(** [a == INF]. *)
Definition is_INF (a : Weight) : bool :=
  match a with
  | PInf => true
  | Fin _ => false
  end.

Definition W0 : Weight := Fin 0.

(** ** Containers the header includes but the sources do not ship

    [LibrarySequence/LinkedList.h], [LibrarySequence/DynamicArray.h] and
    [Realization/IPriorityQueue/hash_priority_queue.h] are included by
    [graph_algorithms.h] and absent from the sources. *)

Module LinkedList.
(** Modelled from the spec: [LinkedList<T>] is missing. The graph "owns n
    adjacency lists (ordered sequence of Edge per vertex)"; a Rocq list is
    that sequence, the enumerator visits it in order and [Append] adds at
    its end. *)
Definition Append {A} (l : list A) (x : A) : list A := l ++ [x].

(** Modelled from the spec: [LinkedList<T>::GetLength] is missing; the
    number of entries of the sequence. *)
Definition GetLength {A} (l : list A) : Z := Z.of_nat (length l).
End LinkedList.

Module DynamicArray.
(** Modelled from the spec: the constructor [DynamicArray<T>(n)] is missing.
    The specification speaks of "fixed-capacity arrays indexed by vertex,
    with construction-time sizing": [n] slots, here all holding [x]. *)
Definition make {A} (n : Z) (x : A) : list A := replicate (Z.to_nat n) x.

(** Modelled from the spec: [DynamicArray<T>::GetSize] is missing; the
    number of slots. *)
Definition GetSize {A} (a : list A) : Z := Z.of_nat (length a).

(** Modelled from the spec: [DynamicArray<T>::Get] is missing. An index
    outside [0, GetSize) raises [out_of_range], so that every "no error"
    statement has to establish that its indices are in bounds. *)
Definition Get {A} (a : list A) (i : Z) : result A :=
  if bool_decide (0 ≤ i < GetSize a) then
    match a !! Z.to_nat i with
    | Some x => Ok x
    | None => Throw out_of_range
    end
  else Throw out_of_range.

(** Modelled from the spec: [DynamicArray<T>::Set] is missing. It
    overwrites one slot and, like [Get], raises [out_of_range] for an
    index outside [0, GetSize). *)
Definition Set_ {A} (a : list A) (i : Z) (x : A) : result (list A) :=
  if bool_decide (0 ≤ i < GetSize a) then Ok (<[Z.to_nat i := x]> a)
  else Throw out_of_range.
End DynamicArray.

Module HashTablePriorityQueue.
(** Modelled from the spec: [HashTablePriorityQueue<Vertex, Weight>] is
    missing; only the interface [IPriorityQueue] is in the sources. The
    model keeps the (element, priority) entries in insertion order. *)
Definition t : Type := list (Vertex * Weight).

(** Modelled from the spec: the default constructor, an empty queue. *)
Definition empty : t := [].

(** Modelled from the spec: [IsEmpty() -> bool]. *)
Definition IsEmpty (q : t) : bool :=
  match q with
  | [] => true
  | _ :: _ => false
  end.

(** Modelled from the spec: [Size() -> count], [GetSize] in the interface. *)
Definition GetSize (q : t) : Z := Z.of_nat (length q).

(** Modelled from the spec: [Enqueue(element, priority)] "inserts
    unconditionally (no decrease-key)". *)
Definition Enqueue (q : t) (item : Vertex) (priority : Weight) : t :=
  q ++ [(item, priority)].

(** Modelled from the spec: the entry that [Dequeue] removes, one of least
    priority. Ties "may be broken arbitrarily but consistently"; the model
    takes the earliest such entry. *)
Fixpoint extract_min (q : t) : option ((Vertex * Weight) * t) :=
  match q with
  | [] => None
  | x :: r =>
      match extract_min r with
      | None => Some (x, [])
      | Some (y, r') =>
          if wltb (snd y) (snd x) then Some (y, x :: r') else Some (x, r)
      end
  end.

(** Modelled from the spec: [Dequeue() -> element] "removes and returns the
    minimum-priority element"; on an empty queue it throws
    [std::out_of_range], as the interface prescribes. *)
Definition Dequeue (q : t) : result (Vertex * t) :=
  match extract_min q with
  | Some ((item, _), q') => Ok (item, q')
  | None => Throw out_of_range
  end.
End HashTablePriorityQueue.

(** ** Graph *)

Record Edge : Type := mkEdge { to : Vertex; weight : Weight }.

Record Graph : Type := mkGraph {
  n_ : Z;
  directed_ : bool;
  adj_ : list (list Edge)
}.

(** [Graph(int n, bool directed)]: [n] empty lists, none at all if [n <= 0]. *)
Definition Graph_new (n : Z) (directed : bool) : Graph :=
  {| n_ := n; directed_ := directed; adj_ := replicate (Z.to_nat n) [] |}.

Definition vertex_count (g : Graph) : Z := n_ g.
Definition is_directed (g : Graph) : bool := directed_ g.

(** [adj_[u]], a raw array access; used only with [0 <= u < n_]. *)
Definition neighbors (g : Graph) (u : Vertex) : list Edge :=
  default [] (adj_ g !! Z.to_nat u).

(** [adj_[u].Append(e)]. *)
Definition append_adj (g : Graph) (u : Vertex) (e : Edge) : Graph :=
  {| n_ := n_ g; directed_ := directed_ g;
     adj_ := alter (λ l, LinkedList.Append l e) (Z.to_nat u) (adj_ g) |}.

(** [Graph::add_edge]. The function mutates [*this]; the embedding returns
    the graph after the call together with the outcome of the call. *)
Definition add_edge (u v : Vertex) (w : Weight) (g : Graph)
    : Graph * result unit :=
  if (u <? 0) || (v <? 0) || (u >=? vertex_count g) || (v >=? vertex_count g)
  then (g, Throw out_of_range)
  else
    let g1 := append_adj g u (mkEdge v w) in
    if negb (directed_ g) && negb (u =? v)
    then (append_adj g1 v (mkEdge u w), Ok tt)
    else (g1, Ok tt).

(** The sum of [adj_[i].GetLength()] for [i = 0 .. n_-1]. *)
Definition total_entries (g : Graph) : Z :=
  fold_left (λ m i, m + LinkedList.GetLength (neighbors g i))
            (seqZ 0 (n_ g)) 0.

(** [Graph::edge_count]. *)
Definition edge_count (g : Graph) : Z :=
  let m := total_entries g in
  if negb (directed_ g) then m / 2 else m.

(** A run of [add_edge] calls; the first exception ends the run. *)
Fixpoint add_edges (es : list (Vertex * Vertex * Weight)) (g : Graph)
    : Graph * result unit :=
  match es with
  | [] => (g, Ok tt)
  | (u, v, w) :: es' =>
      match add_edge u v w g with
      | (g', Ok _) => add_edges es' g'
      | (g', r) => (g', r)
      end
  end.

(** [v] is a vertex of an [n]-vertex graph. *)
Definition in_range (n : Z) (v : Vertex) : Prop := 0 ≤ v < n.

(** Representation invariant of [Graph]: a non-negative vertex count, one
    adjacency list per vertex, and (as [add_edge] enforces) every stored
    target in [0, n_). The constructor with [n >= 0] establishes it and
    [add_edge] keeps it. *)
Definition wf_graph (g : Graph) : Prop :=
  0 ≤ n_ g ∧
  length (adj_ g) = Z.to_nat (n_ g) ∧
  Forall (Forall (λ e, in_range (n_ g) (to e))) (adj_ g).

(** ** Shortest paths *)

Record ShortestPathResult : Type := mkResult {
  dist : list Weight;
  parent : list Vertex;
  has_negative_cycle : bool
}.

(** A [for]/[while] loop over a sequence whose body may throw. *)
Fixpoint for_each {A S : Type} (body : S → A → result S) (l : list A) (s : S)
    : result S :=
  match l with
  | [] => Ok s
  | x :: l' => s' ← body s x; for_each body l' s'
  end.

(** [ShortestPathResult res(n)] followed by the loop that sets every
    distance to [INF] and every parent to [-1]; what the fresh slots hold
    before the loop is overwritten and plays no role. *)
Definition init_result (n : Z) : result ShortestPathResult :=
  for_each
    (λ res i,
       d ← DynamicArray.Set_ (dist res) i INF;
       p ← DynamicArray.Set_ (parent res) i (-1);
       Ok (mkResult d p (has_negative_cycle res)))
    (seqZ 0 n)
    (mkResult (DynamicArray.make n W0) (DynamicArray.make n 0) false).

(** *** Dijkstra *)

Record DState : Type := mkDState {
  d_dist : list Weight;
  d_parent : list Vertex;
  d_pq : HashTablePriorityQueue.t;
  d_used : list bool
}.

(** Body of the enumerator loop of [dijkstra] for one edge [e] leaving [u]. *)
Definition dijkstra_relax (u : Vertex) (st : DState) (e : Edge)
    : result DState :=
  if wltb (weight e) W0 then Ok st
  else
    du ← DynamicArray.Get (d_dist st) u;
    if is_INF du then Ok st
    else
      let nd := wadd du (weight e) in
      cur ← DynamicArray.Get (d_dist st) (to e);
      if wltb nd cur then
        d ← DynamicArray.Set_ (d_dist st) (to e) nd;
        p ← DynamicArray.Set_ (d_parent st) (to e) u;
        Ok (mkDState d p
              (HashTablePriorityQueue.Enqueue (d_pq st) (to e) nd)
              (d_used st))
      else Ok st.

(** [used[u]], a raw [bool] array read. *)
Definition used_at (used : list bool) (u : Vertex) : bool :=
  default false (used !! Z.to_nat u).

(** The [while (!pq.IsEmpty())] loop, on a budget of [fuel] iterations. *)
Fixpoint dijkstra_loop (fuel : nat) (g : Graph) (st : DState)
    : result DState :=
  if HashTablePriorityQueue.IsEmpty (d_pq st) then Ok st
  else
    match fuel with
    | O => Timeout
    | S fuel' =>
        '(u, pq') ← HashTablePriorityQueue.Dequeue (d_pq st);
        let st1 := mkDState (d_dist st) (d_parent st) pq' (d_used st) in
        if (u <? 0) || (u >=? vertex_count g) then dijkstra_loop fuel' g st1
        else if used_at (d_used st1) u then dijkstra_loop fuel' g st1
        else
          let st2 := mkDState (d_dist st1) (d_parent st1) (d_pq st1)
                       (<[Z.to_nat u := true]> (d_used st1)) in
          st3 ← for_each (dijkstra_relax u) (neighbors g u) st2;
          dijkstra_loop fuel' g st3
    end.

(** Iteration budget of the main loop: one dequeue for the source and one
    per adjacency entry, plus one per vertex. *)
Definition dijkstra_budget (g : Graph) : nat :=
  Z.to_nat (1 + n_ g + total_entries g).

(** [dijkstra(g, source)]. *)
Definition dijkstra (g : Graph) (source : Vertex) : result ShortestPathResult :=
  let n := vertex_count g in
  res ← init_result n;
  if (source <? 0) || (source >=? n) then Ok res
  else
    d0 ← DynamicArray.Set_ (dist res) source W0;
    let pq := HashTablePriorityQueue.Enqueue HashTablePriorityQueue.empty
                source W0 in
    let used := replicate (Z.to_nat n) false in
    st ← dijkstra_loop (dijkstra_budget g) g (mkDState d0 (parent res) pq used);
    Ok (mkResult (d_dist st) (d_parent st) (has_negative_cycle res)).

(** *** Bellman-Ford *)

Record BFEdge : Type := mkBFEdge { bf_u : Vertex; bf_v : Vertex; bf_w : Weight }.

(** The enumerator loop that copies the entries of [adj_[u]] into [edges];
    [idx] is the number of entries stored so far, [m] the capacity. *)
Fixpoint collect_from (m : Z) (u : Vertex) (neigh : list Edge)
    (edges : list BFEdge) : list BFEdge :=
  match neigh with
  | [] => edges
  | e :: neigh' =>
      let idx := Z.of_nat (length edges) in
      collect_from m u neigh'
        (if idx <? m then edges ++ [mkBFEdge u (to e) (weight e)] else edges)
  end.

(** The flattening loop of [bellman_ford]: the first [idx] slots of the
    array [edges], whose capacity is [m = g.edge_count()]. *)
Definition bf_edge_list (g : Graph) : list BFEdge :=
  let m := edge_count g in
  fold_left (λ edges u, collect_from m u (neighbors g u) edges)
            (seqZ 0 (vertex_count g)) [].

(** Body of a relaxation pass for one edge; the state carries [changed]. *)
Definition bf_relax (st : list Weight * list Vertex * bool) (e : BFEdge)
    : result (list Weight * list Vertex * bool) :=
  let '(d, p, changed) := st in
  du ← DynamicArray.Get d (bf_u e);
  if is_INF du then Ok st
  else
    dv ← DynamicArray.Get d (bf_v e);
    if wltb (wadd du (bf_w e)) dv then
      d' ← DynamicArray.Set_ d (bf_v e) (wadd du (bf_w e));
      p' ← DynamicArray.Set_ p (bf_v e) (bf_u e);
      Ok (d', p', true)
    else Ok st.

(** The loop [for (i = 0; i < n - 1; ++i)] with its early [break];
    [passes] is the number of passes still allowed. *)
Fixpoint bf_main (passes : nat) (edges : list BFEdge)
    (st : list Weight * list Vertex) : result (list Weight * list Vertex) :=
  match passes with
  | O => Ok st
  | S passes' =>
      r ← for_each bf_relax edges (fst st, snd st, false);
      let '(d, p, changed) := (r : list Weight * list Vertex * bool) in
      if changed then bf_main passes' edges (d, p) else Ok (d, p)
  end.

(** The final pass, which only reads [dist] and stops at the first edge
    that could still be relaxed. *)
Fixpoint bf_detect (edges : list BFEdge) (d : list Weight) : result bool :=
  match edges with
  | [] => Ok false
  | e :: edges' =>
      du ← DynamicArray.Get d (bf_u e);
      if is_INF du then bf_detect edges' d
      else
        dv ← DynamicArray.Get d (bf_v e);
        if wltb (wadd du (bf_w e)) dv then Ok true else bf_detect edges' d
  end.

(** [bellman_ford(g, source)]. *)
Definition bellman_ford (g : Graph) (source : Vertex)
    : result ShortestPathResult :=
  let n := vertex_count g in
  res ← init_result n;
  if (source <? 0) || (source >=? n) then Ok res
  else
    d0 ← DynamicArray.Set_ (dist res) source W0;
    let edges := bf_edge_list g in
    r ← bf_main (Z.to_nat (n - 1)) edges (d0, parent res);
    let '(d, p) := (r : list Weight * list Vertex) in
    neg ← bf_detect edges d;
    Ok (mkResult d p neg).

(** ** Random graphs *)

(** The engine [gen] is the sequence of canonical draws in [0, 1) that the
    two distributions consume, one per call; the state of the engine is the
    number of draws taken so far. The function seeds its [std::mt19937]
    itself, and a canonical draw is put together from two successive
    32-bit outputs of that engine: it is [0] only if both are [0]. *)
Definition Engine : Type := nat → Q.

(** [std::uniform_real_distribution(a, b)] applied to the canonical draw
    [r]: the value [a + r (b - a)], which the library computes in [double]
    and so rounds. The statements about the generator are about the edges
    that are inserted; none depends on the weight that is drawn. *)
Definition uniform_real (a b : Weight) (r : Q) : Weight :=
  match a, b with
  | Fin x, Fin y => Fin (x + r * (y - x))
  | _, _ => PInf
  end.

(** Body of the inner loop of [generate_random_graph] for the pair [(u, v)];
    [prob_dist(gen)], uniform on [0, 1), is the canonical draw itself. *)
Definition generate_step (gen : Engine) (edge_probability : Q)
    (min_w max_w : Weight) (directed : bool) (u : Vertex)
    (st : Graph * nat) (v : Vertex) : result (Graph * nat) :=
  let '(g, k) := st in
  if negb directed && (v <=? u) then Ok st
  else if u =? v then Ok st
  else if Qle_bool (gen k) edge_probability
  then
    match add_edge u v (uniform_real min_w max_w (gen (S k))) g with
    | (g', Ok _) => Ok (g', S (S k))
    | (_, Throw e) => Throw e
    | (_, Timeout) => Timeout
    end
  else Ok (g, S k).

(** [generate_random_graph(n, edge_probability, min_w, max_w, directed)],
    with the engine that [std::random_device] seeds made explicit. *)
Definition generate_random_graph (gen : Engine) (n : Z) (edge_probability : Q)
    (min_w max_w : Weight) (directed : bool) : result Graph :=
  if n <? 0 then Throw invalid_argument
  else if Qltb edge_probability 0 || Qltb 1 edge_probability
  then Throw invalid_argument
  else
    let '(min_w, max_w) :=
      if wltb max_w min_w then (max_w, min_w) else (min_w, max_w) in
    st ← for_each
           (λ st u,
              for_each (generate_step gen edge_probability min_w max_w
                          directed u)
                       (seqZ 0 n) st)
           (seqZ 0 n) (Graph_new n directed, 0%nat);
    Ok (fst st).

(** ** Path reconstruction *)

(** The loop [for (v = target; v != -1; v = parent.Get(v))] of
    [restore_path]. Every iteration writes [rev[len]] and [rev] has [n]
    slots, so [n + 1] iterations are never completed; [fuel] is that bound. *)
Fixpoint walk_back (fuel : nat) (source : Vertex) (parent : list Vertex)
    (v : Vertex) (rev : list Vertex) (len : Z) : result (list Vertex * Z) :=
  if v =? -1 then Ok (rev, len)
  else
    match fuel with
    | O => Timeout
    | S fuel' =>
        rev' ← DynamicArray.Set_ rev len v;
        let len' := len + 1 in
        if v =? source then Ok (rev', len')
        else
          v' ← DynamicArray.Get parent v;
          walk_back fuel' source parent v' rev' len'
    end.

(** [restore_path(source, target, parent)]. *)
Definition restore_path (source target : Vertex) (parent : list Vertex)
    : result (list Vertex) :=
  let n := DynamicArray.GetSize parent in
  if (target <? 0) || (target >=? n) then Ok []
  else
    pt ← DynamicArray.Get parent target;
    if (pt =? -1) && negb (target =? source) then Ok []
    else
      r ← walk_back (S (Z.to_nat n)) source parent target
            (DynamicArray.make n 0) 0;
      let '(rev, len) := (r : list Vertex * Z) in
      if len =? 0 then Ok []
      else
        last ← DynamicArray.Get rev (len - 1);
        if negb (last =? source) then Ok []
        else
          for_each
            (λ path i,
               x ← DynamicArray.Get rev (len - 1 - i);
               DynamicArray.Set_ path i x)
            (seqZ 0 len) (DynamicArray.make len 0).

(** ** Comparator *)

Record BenchmarkRecord : Type := mkRecord {
  vertices : Z;
  edges : Z;
  algorithm : string;
  time_ms : Q;
  ok : bool
}.

(** The comparator subtracts two distances and compares the result with
    a constant; both steps depend on the binary64 format of [double]. *)

(** The integer nearest to [n / d], the even one of two that are equally
    near; for [0 <= n] and [0 < d]. *)
Definition round_half_even (n d : Z) : Z :=
  let q := n / d in
  let r := n mod d in
  if 2 * r <? d then q
  else if d <? 2 * r then q + 1
  else if Z.even q then q else q + 1.

(** [n / d] divided by [2 ^ e], as numerator and denominator. *)
Definition scaled (n d e : Z) : Z * Z :=
  if 0 <=? e then (n, d * 2 ^ e) else (n * 2 ^ (- e), d).

(** The exponent of the last binary digit that binary64 keeps of the
    positive number [n / d]: 52 places below its leading digit, and never
    below [-1074], where the subnormal numbers end. *)
Definition ulp_exponent (n d : Z) : Z :=
  let k := Z.log2 n - Z.log2 d in
  let '(a, b) := scaled n d k in
  let fl := if b <=? a then k else k - 1 in
  Z.max (fl - 52) (-1074).

(** The binary64 number nearest to [q >= 0], ties to even, as the
    operations of IEEE 754 and the conversion of a literal give it;
    [+inf] from [2^1024 - 2^970] on. *)
Definition round64 (q : Q) : Weight :=
  if Qle_bool q 0 then Fin 0
  else
    let n := Qnum q in
    let d := Z.pos (Qden q) in
    let e := ulp_exponent n d in
    let '(a, b) := scaled n d e in
    let m := round_half_even a b in
    if 0 <=? e then
      if 2 ^ 1024 <=? m * 2 ^ e then PInf else Fin (inject_Z (m * 2 ^ e))
    else Fin (m # Z.to_pos (2 ^ (- e))).

(** The tolerance of the specification, [10^-6]. *)
Definition tolerance : Q := 1 # 1000000.

(** The constant [1e-6] of type [double]. *)
Definition tolerance64 : Weight := round64 tolerance.

(** [std::abs(x - y) > 1e-6]; the comparator evaluates it on finite
    distances only. The difference is rounded to binary64, its absolute
    value is exact. *)
Definition abs_diff_exceeds (x y : Weight) : bool :=
  match x, y with
  | Fin a, Fin b => wltb tolerance64 (round64 (Qabs (a - b)))
  | _, _ => false
  end.

(** The loop that computes [same], with its two [break]s. *)
Fixpoint same_loop (idx : list Z) (d b : list Weight) : result bool :=
  match idx with
  | [] => Ok true
  | i :: idx' =>
      x ← DynamicArray.Get d i;
      y ← DynamicArray.Get b i;
      let inf1 := is_INF x in
      let inf2 := is_INF y in
      if negb (Bool.eqb inf1 inf2) then Ok false
      else if negb inf1 && abs_diff_exceeds x y then Ok false
      else same_loop idx' d b
  end.

Definition same_dist (d b : list Weight) : result bool :=
  if DynamicArray.GetSize d =? DynamicArray.GetSize b
  then same_loop (seqZ 0 (DynamicArray.GetSize d)) d b
  else Ok false.

(** Elapsed milliseconds between two readings of the monotonic clock, which
    are given in microseconds. *)
Definition elapsed_ms (start finish : Z) : Q := (finish - start) # 1000.

(** [compare_algorithms_on_graph]; [clock k] is the [k]-th reading of
    [std::chrono::steady_clock::now()]. *)
Definition compare_algorithms_on_graph (clock : nat → Z) (g : Graph)
    (source : Vertex) : result (list BenchmarkRecord) :=
  let blank := mkRecord 0 0 EmptyString 0 false in
  let records := DynamicArray.make 2 blank in
  res_d ← dijkstra g source;
  let time_d_ms := elapsed_ms (clock 0%nat) (clock 1%nat) in
  res_b ← bellman_ford g source;
  let time_b_ms := elapsed_ms (clock 2%nat) (clock 3%nat) in
  same ← same_dist (dist res_d) (dist res_b);
  records ← DynamicArray.Set_ records 0
    (mkRecord (vertex_count g) (edge_count g) "Dijkstra" time_d_ms
       (0 <? DynamicArray.GetSize (dist res_d)));
  DynamicArray.Set_ records 1
    (mkRecord (vertex_count g) (edge_count g) "Bellman-Ford" time_b_ms
       (negb (has_negative_cycle res_b) && same)).

Global Instance in_range_dec n v : Decision (in_range n v).
Proof. unfold in_range. apply _. Defined.

Global Instance wf_graph_dec g : Decision (wf_graph g).
Proof. unfold wf_graph. apply _. Defined.

(** * Vocabulary of the statements *)

(** ** Graphs and edges *)

(** An undirected edge without self-loop between vertices of an [n]-vertex
    graph. *)
Definition proper_pair (n : Z) (e : Vertex * Vertex * Weight) : Prop :=
  in_range n e.1.1 ∧ in_range n e.1.2 ∧ e.1.1 ≠ e.1.2.

(** [e.weight < 0]. *)
Definition negative (e : Edge) : Prop := wltb (weight e) W0 = true.

Global Instance negative_dec e : Decision (negative e).
Proof. unfold negative. apply _. Defined.

(** The graph [g] without its adjacency entries of negative weight. *)
Definition drop_negative (g : Graph) : Graph :=
  {| n_ := n_ g; directed_ := directed_ g;
     adj_ := filter (λ e, ¬ negative e) <$> adj_ g |}.

(** An entry of the edge array of [bellman_ford] whose endpoints are
    vertices of an [n]-vertex graph. *)
Definition bf_edge_ok (n : Z) (e : BFEdge) : Prop :=
  in_range n (bf_u e) ∧ in_range n (bf_v e).

(** The adjacency entries of [u] as edge records, and all adjacency entries
    of the graph in the order the flattening loop visits them. *)
Definition entries_from (u : Vertex) (neigh : list Edge) : list BFEdge :=
  (λ e, mkBFEdge u (to e) (weight e)) <$> neigh.

Definition all_entries (g : Graph) : list BFEdge :=
  concat (imap (λ u neigh, entries_from (Z.of_nat u) neigh) (adj_ g)).

(** The edge [e] can still be relaxed against the distances [d]:
    [d[u] != INF && d[u] + w < d[v]]. *)
Definition relaxable (d : list Weight) (e : BFEdge) : Prop :=
  ∃ du dv,
    d !! Z.to_nat (bf_u e) = Some du ∧ d !! Z.to_nat (bf_v e) = Some dv ∧
    is_INF du = false ∧ wltb (wadd du (bf_w e)) dv = true.

(** [bf_main] without the early [break]: always the full number of passes. *)
Fixpoint bf_main_no_break (passes : nat) (edges : list BFEdge)
    (st : list Weight * list Vertex) : result (list Weight * list Vertex) :=
  match passes with
  | O => Ok st
  | S passes' =>
      r ← for_each bf_relax edges (fst st, snd st, false);
      let '(d, p, _) := (r : list Weight * list Vertex * bool) in
      bf_main_no_break passes' edges (d, p)
  end.

(** ** Path reconstruction *)

(** The backward walk from [v] along [parent] arrives at the sentinel [-1],
    and no vertex on it, [v] included, is [source]. *)
Inductive reaches_none (source : Vertex) (parent : list Vertex)
    : Vertex → Prop :=
  | reaches_none_here v :
      v ≠ source → 0 ≤ v → parent !! Z.to_nat v = Some (-1) →
      reaches_none source parent v
  | reaches_none_next v p :
      v ≠ source → 0 ≤ v → parent !! Z.to_nat v = Some p →
      reaches_none source parent p →
      reaches_none source parent v.

(** The same walk together with the vertices it visits, in order. *)
Inductive back_trace (source : Vertex) (parent : list Vertex)
    : Vertex → list Vertex → Prop :=
  | back_trace_here v :
      v ≠ source → 0 ≤ v → parent !! Z.to_nat v = Some (-1) →
      back_trace source parent v [v]
  | back_trace_next v p l :
      v ≠ source → 0 ≤ v → parent !! Z.to_nat v = Some p →
      back_trace source parent p l →
      back_trace source parent v (v :: l).

(** ** Agreement of distance vectors *)

(** Agreement of two distance vectors in the words of the specification:
    "for every vertex, both are infinite or both are finite and within a
    small absolute tolerance (1e-6) of each other; a size mismatch is
    automatic disagreement". *)
Definition close (x y : Weight) : Prop :=
  (x = INF ∧ y = INF) ∨
  (∃ p q, x = Fin p ∧ y = Fin q ∧ (Qabs (p - q) <= tolerance)%Q).

Definition agree (d b : list Weight) : Prop :=
  length d = length b ∧
  ∀ (i : nat) x y, d !! i = Some x → b !! i = Some y → close x y.

(** ** Order on weights *)

(** [a <= b] on weights, that is [!(b < a)]. *)
Definition wle (a b : Weight) : Prop := wltb b a = false.

(** Equality of weights as numbers (rationals are compared by value). *)
Definition weq (a b : Weight) : Prop := wle a b ∧ wle b a.

(** Closeness of two distances with the tolerance test as [double]
    arithmetic evaluates it: the difference rounded to binary64 does not
    exceed the constant [1e-6] of type [double]. *)
Definition close64 (x y : Weight) : Prop :=
  (x = INF ∧ y = INF) ∨
  (∃ p q, x = Fin p ∧ y = Fin q ∧
          wle (round64 (Qabs (p - q))) tolerance64).

(** Agreement of two distance vectors as the comparator tests it. *)
Definition agree64 (d b : list Weight) : Prop :=
  length d = length b ∧
  ∀ (i : nat) x y, d !! i = Some x → b !! i = Some y → close64 x y.

(** ** Walks and their cost *)

(** The cost of traversing the edges [es] one after the other, starting
    from cost [c]: the value the relaxations [dist[u] + w] accumulate. *)
Definition cost (c : Weight) (es : list BFEdge) : Weight :=
  fold_left (λ c e, wadd c (bf_w e)) es c.

(** The edges [es] lead from [s] to [v], each starting where the previous
    one ends. *)
Fixpoint chain (s : Z) (es : list BFEdge) (v : Z) : Prop :=
  match es with
  | [] => s = v
  | e :: es' => bf_u e = s ∧ chain (bf_v e) es' v
  end.

(** A walk from [s] to [v] along edges of [E]. *)
Definition walk (E : list BFEdge) (s : Z) (es : list BFEdge) (v : Z) : Prop :=
  Forall (λ e, e ∈ E) es ∧ chain s es v.

(** Every finite distance is the cost of some walk from the source. *)
Definition sound (E : list BFEdge) (s : Z) (d : list Weight) : Prop :=
  ∀ v q, 0 ≤ v → d !! Z.to_nat v = Some (Fin q) →
         ∃ es, walk E s es v ∧ cost W0 es = Fin q.

(** No distance exceeds the cost of a walk of at most [k] edges. *)
Definition below (k : nat) (E : list BFEdge) (s : Z) (d : list Weight) : Prop :=
  ∀ es v x, walk E s es v → (length es ≤ k)%nat → 0 ≤ v →
            d !! Z.to_nat v = Some x → wle x (cost W0 es).

(** No distance exceeds the cost of any walk. *)
Definition below_all (E : list BFEdge) (s : Z) (d : list Weight) : Prop :=
  ∀ k, below k E s d.

(** No edge of [E] can be relaxed. *)
Definition closed (E : list BFEdge) (d : list Weight) : Prop :=
  ∀ e, e ∈ E → ¬ relaxable d e.

(** Pointwise [d' <= d]. *)
Definition dle (d' d : list Weight) : Prop :=
  length d' = length d ∧
  ∀ (i : nat) x' x, d' !! i = Some x' → d !! i = Some x → wle x' x.

(** All weights of [E] are non-negative. *)
Definition nonnegative (E : list BFEdge) : Prop :=
  Forall (λ e, wltb (bf_w e) W0 = false) E.

(** ** Loop invariants *)

(** The arrays [dist] and [parent] of a relaxation state have [n] slots. *)
Definition bf_sized (n : Z) (st : list Weight * list Vertex * bool) : Prop :=
  Z.of_nat (length st.1.1) = n ∧ Z.of_nat (length st.1.2) = n.

(** The arrays of a state of [dijkstra] have [n] slots each. *)
Definition dsized (n : Z) (st : DState) : Prop :=
  Z.of_nat (length (d_dist st)) = n ∧
  Z.of_nat (length (d_parent st)) = n ∧
  Z.of_nat (length (d_used st)) = n.

(** Work that [dijkstra] may still have to do for the vertices not yet
    finalised: one dequeue each, and one enqueue per adjacency entry. *)
Definition pending (adj : list (list Edge)) (used : list bool) : nat :=
  sum_list (zip_with (λ l (b : bool), if b then 0%nat else S (length l))
              adj used).

(** [dist[v]], read as [INF] where there is no such slot. *)
Definition dist_at (d : list Weight) (v : Z) : Weight :=
  default INF (d !! Z.to_nat v).

(** The state of [dijkstra] between two steps, for the edge set [E] of an
    [n]-vertex graph and the source [s]; [settled] holds of the edges that
    have been relaxed for good. *)
Record dijkstra_inv (E : list BFEdge) (n s : Z) (settled : BFEdge → Prop)
    (st : DState) : Prop := mk_dijkstra_inv {
  inv_sized : dsized n st;
  inv_sound : sound E s (d_dist st);
  inv_source : wle (dist_at (d_dist st) s) W0;
  inv_queue : ∀ v pr, (v, pr) ∈ d_pq st →
    in_range n v ∧ is_INF pr = false ∧ wle (dist_at (d_dist st) v) pr;
  inv_covered : ∀ v, in_range n v → used_at (d_used st) v = false →
    is_INF (dist_at (d_dist st) v) = false →
    (v, dist_at (d_dist st) v) ∈ d_pq st;
  inv_used_queue : ∀ u v pr, in_range n u → used_at (d_used st) u = true →
    (v, pr) ∈ d_pq st → wle (dist_at (d_dist st) u) pr;
  inv_used_finite : ∀ u, in_range n u → used_at (d_used st) u = true →
    is_INF (dist_at (d_dist st) u) = false;
  inv_settled : ∀ e, settled e →
    e ∈ E ∧ used_at (d_used st) (bf_u e) = true ∧
    wle (dist_at (d_dist st) (bf_v e))
        (wadd (dist_at (d_dist st) (bf_u e)) (bf_w e))
}.

(** No finalised vertex is farther than [u]. *)
Definition inv_top (n : Z) (u : Z) (st : DState) : Prop :=
  ∀ u', in_range n u' → used_at (d_used st) u' = true →
        wle (dist_at (d_dist st) u') (dist_at (d_dist st) u).

(** The edges that leave a finalised vertex. *)
Definition settled_by (E : list BFEdge) (used : list bool) (e : BFEdge) : Prop :=
  e ∈ E ∧ used_at used (bf_u e) = true.

(** ** Example graphs *)

(** The directed example graph of the repository's own tests:
    [0→1 (2), 0→2 (5), 1→2 (1), 1→3 (2), 2→3 (1), 3→4 (3)]. *)
Definition test_graph : Graph :=
  fst (add_edges [(0, 1, Fin 2); (0, 2, Fin 5); (1, 2, Fin 1);
                  (1, 3, Fin 2); (2, 3, Fin 1); (3, 4, Fin 3)]
         (Graph_new 5 true)).

(** The directed graph [0→1 (1), 1→2 (-2), 0→2 (4)] of the repository's
    test for negative weights without a negative cycle. *)
Definition negative_edge_graph : Graph :=
  fst (add_edges [(0, 1, Fin 1); (1, 2, Fin (-2)); (0, 2, Fin 4)]
         (Graph_new 3 true)).

(** The directed 3-cycle [0→1 (1), 1→2 (-2), 2→0 (-1)] of total weight [-2]. *)
Definition negative_cycle_graph : Graph :=
  fst (add_edges [(0, 1, Fin 1); (1, 2, Fin (-2)); (2, 0, Fin (-1))]
         (Graph_new 3 true)).

(** The undirected graph on two vertices with the single edge [{0, 1}] of
    weight [1]. *)
Definition single_edge_graph : Graph :=
  fst (add_edges [(0, 1, Fin 1)] (Graph_new 2 false)).

(** The directed graph [0→1 (1e-6), 0→2 (0), 2→1 (-2^-74)]; the first
    weight is the binary64 number that the literal [1e-6] denotes,
    [4722366482869645 / 2^72]. No sum that the two algorithms form on it
    is rounded: one of the two terms is always [0]. *)
Definition rounding_graph : Graph :=
  fst (add_edges
         [(0, 1, Fin (4722366482869645 # 4722366482869645213696));
          (0, 2, Fin 0);
          (2, 1, Fin (-1 # 18889465931478580854784))]
         (Graph_new 3 true)).

(** * The rest of the code

    The parts of [graph_algorithms.h] and [tictactoe_graph.h] that the
    preceding embedding leaves out. *)

(** ** Graph, continued *)

(** [Graph::resize]. The lists of the vertices that stay are copied, the
    new ones are empty; entries that point to a removed vertex are not
    touched. *)
Definition resize (n : Z) (g : Graph) : Graph :=
  if n =? n_ g then g
  else
    let new_adj :=
      if 0 <? n then
        let copy_n := if n <? n_ g then n else n_ g in
        fold_left (λ a i, <[Z.to_nat i := neighbors g i]> a)
                  (seqZ 0 copy_n) (replicate (Z.to_nat n) [])
      else [] in
    {| n_ := n; directed_ := directed_ g; adj_ := new_adj |}.

(** ** Path reconstruction, continued *)

(** The writes [rev.Set(len, v)] of the loop of [restore_path], in order,
    as pairs of the index and the vertex; [steps] is the number of
    iterations that are followed. The loop goes on while the vertex is not
    [-1] and has not just been found to be [source]. *)
Fixpoint rev_writes (steps : nat) (source : Vertex) (parent : list Vertex)
    (v : Vertex) (len : Z) : list (Z * Vertex) :=
  match steps with
  | O => []
  | S steps' =>
      if v =? -1 then []
      else
        (len, v) ::
        (if v =? source then []
         else
           match DynamicArray.Get parent v with
           | Ok v' => rev_writes steps' source parent v' (len + 1)
           | _ => []
           end)
  end.

(** The writes to [rev], an array of [n = parent.GetSize()] slots, in the
    first [n + 1] iterations of the loop of [restore_path]; none if one of
    the two tests before the loop returns. *)
Definition restore_path_writes (source target : Vertex)
    (parent : list Vertex) : list (Z * Vertex) :=
  let n := DynamicArray.GetSize parent in
  if (target <? 0) || (target >=? n) then []
  else
    match DynamicArray.Get parent target with
    | Ok pt =>
        if (pt =? -1) && negb (target =? source) then []
        else rev_writes (S (Z.to_nat n)) source parent target 0
    | _ => []
    end.

(** ** Files

    The streams [std::ofstream] and [std::ifstream] are outside the
    sources. A file that is written is the sequence of numbers handed to
    [operator<<], a header and the lines that follow it. A file that is read
    is the sequence of outcomes of the extractions [in >> ...], [None]
    standing for an extraction that fails (the text ends, or is not a
    number of the requested type). Whether a file can be opened is an
    input. *)

Record GraphFile : Type := mkGraphFile {
  file_header : Z * Z * Z;
  file_lines : list (Vertex * Vertex * Weight)
}.

Record GraphInput : Type := mkGraphInput {
  in_header : option (Z * Z * Z);
  in_lines : list (option (Vertex * Vertex * Weight))
}.

(** The enumerator loop of [save_graph_to_file] for the list of [u]; an
    entry of an undirected graph is skipped if [u > e.to]. *)
Definition save_entries (directed : bool) (u : Vertex) (neigh : list Edge)
    (out : list (Vertex * Vertex * Weight)) : list (Vertex * Vertex * Weight) :=
  fold_left
    (λ out e,
       if negb directed && (to e <? u) then out
       else out ++ [(u, to e, weight e)])
    neigh out.

(** [save_graph_to_file(g, filename)]. [None]: the file could not be opened
    and the function returns [false]; [Some f]: it wrote [f] and returns
    [true]. *)
Definition save_graph_to_file (opened : bool) (g : Graph) : option GraphFile :=
  if negb opened then None
  else
    Some (mkGraphFile
            (vertex_count g, edge_count g, if is_directed g then 1 else 0)
            (fold_left
               (λ out u, save_entries (is_directed g) u (neighbors g u) out)
               (seqZ 0 (vertex_count g)) [])).

(** The loop [for (i = 0; i < m; ++i)] of [load_graph_from_file] with [m]
    iterations to go; [tmp] is the graph under construction and [g] the
    caller's graph, which an early return or an exception leaves as it is. *)
Fixpoint load_loop (m : nat) (input : list (option (Vertex * Vertex * Weight)))
    (tmp g : Graph) : Graph * result bool :=
  match m with
  | O => (tmp, Ok true)
  | S m' =>
      match input with
      | Some (u, v, w) :: input' =>
          match add_edge u v w tmp with
          | (tmp', Ok _) => load_loop m' input' tmp' g
          | (_, Throw e) => (g, Throw e)
          | (_, Timeout) => (g, Timeout)
          end
      | _ => (g, Ok false)
      end
  end.

(** [load_graph_from_file(g, filename)]: the caller's graph after the call
    and the outcome of the call. [file] is [None] if the file cannot be
    opened. The edge count of the header is a [std::size_t], so it is not
    negative. *)
Definition load_graph_from_file (file : option GraphInput) (g : Graph)
    : Graph * result bool :=
  match file with
  | None => (g, Ok false)
  | Some f =>
      match in_header f with
      | None => (g, Ok false)
      | Some (n, m, directed_flag) =>
          load_loop (Z.to_nat m) (in_lines f)
            (Graph_new n (negb (directed_flag =? 0))) g
      end
  end.

(** ** Tic-tac-toe as a graph of positions ([tictactoe_graph.h])

    A vertex is a position, an arc a move. Cells are C++ [char]s:
    ["."] for a free cell, ["X"] and ["O"] for the players. The constructor
    computes [n * n] in [int]; the product is embedded as it is in [Z], and
    the properties of the console advisor, which takes the size from the
    user, are stated for sizes with [n * n <= INT_MAX]. *)

Record TTTBoard : Type := mkBoard {
  size : Z;
  cells : list ascii
}.

(** [TTTBoard(int n)]: [n * n] cells, each set to ["."]. *)
Definition TTTBoard_new (n : Z) : result TTTBoard :=
  cs ← for_each (λ cs i, DynamicArray.Set_ cs i "."%char)
        (seqZ 0 (n * n)) (DynamicArray.make (n * n) "000"%char);
  Ok (mkBoard n cs).

(** [TTTBoard::get]. *)
Definition get (b : TTTBoard) (r c : Z) : result ascii :=
  DynamicArray.Get (cells b) (r * size b + c).

(** [TTTBoard::set]; the board after the call. *)
Definition set (b : TTTBoard) (r c : Z) (v : ascii) : result TTTBoard :=
  cs ← DynamicArray.Set_ (cells b) (r * size b + c) v;
  Ok (mkBoard (size b) cs).

(** The inner loop of a check in [ttt_check_win]: [ok] stays [true] until
    a cell of the line differs from [p], and the loop breaks there. *)
Fixpoint line_all (b : TTTBoard) (p : ascii) (line : list (Z * Z))
    : result bool :=
  match line with
  | [] => Ok true
  | (r, c) :: line' =>
      v ← get b r c;
      if negb (Ascii.eqb v p) then Ok false else line_all b p line'
  end.

(** The outer loop over rows or columns: it returns at the first line
    that [p] fills. *)
Fixpoint any_line (b : TTTBoard) (p : ascii) (lines : list (list (Z * Z)))
    : result bool :=
  match lines with
  | [] => Ok false
  | line :: lines' =>
      full ← line_all b p line;
      if (full : bool) then Ok true else any_line b p lines'
  end.

(** [ttt_check_win(b, p)]: rows, then columns, then the main diagonal,
    then the other diagonal. *)
Definition ttt_check_win (b : TTTBoard) (p : ascii) : result bool :=
  let n := size b in
  rows ← any_line b p ((λ r, (λ c, (r, c)) <$> seqZ 0 n) <$> seqZ 0 n);
  if (rows : bool) then Ok true
  else
    cols ← any_line b p ((λ c, (λ r, (r, c)) <$> seqZ 0 n) <$> seqZ 0 n);
    if (cols : bool) then Ok true
    else
      main ← line_all b p ((λ i, (i, i)) <$> seqZ 0 n);
      if (main : bool) then Ok true
      else
        anti ← line_all b p ((λ i, (i, n - 1 - i)) <$> seqZ 0 n);
        if (anti : bool) then Ok true else Ok false.

(** The loop of [ttt_has_empty]. *)
Fixpoint has_dot (cs : list ascii) (idx : list Z) : result bool :=
  match idx with
  | [] => Ok false
  | i :: idx' =>
      v ← DynamicArray.Get cs i;
      if Ascii.eqb v "."%char then Ok true else has_dot cs idx'
  end.

(** [ttt_has_empty(b)]. *)
Definition ttt_has_empty (b : TTTBoard) : result bool :=
  has_dot (cells b) (seqZ 0 (size b * size b)).

(** [ttt_static_eval(b)]: [+10] if O has won, [-10] if X has won (and O
    has not), [0] otherwise. *)
Definition ttt_static_eval (b : TTTBoard) : result Z :=
  o ← ttt_check_win b "O"%char;
  if (o : bool) then Ok 10
  else
    x ← ttt_check_win b "X"%char;
    if (x : bool) then Ok (-10) else Ok 0.

(** The reference parameters of [ttt_compute_active_box]. *)
Record Box : Type := mkBox {
  r_min : Z;
  r_max : Z;
  c_min : Z;
  c_max : Z
}.

(** Body of the scan of [ttt_compute_active_box] for the cell [(r, c)];
    the state is the flag [any] and the box so far. *)
Definition box_step (b : TTTBoard) (r : Z) (st : bool * Box) (c : Z)
    : result (bool * Box) :=
  let '(any, box) := st in
  v ← get b r c;
  if Ascii.eqb v "."%char || Ascii.eqb v " "%char then Ok st
  else if negb any then Ok (true, mkBox r r c c)
  else
    Ok (true,
        mkBox (if r <? r_min box then r else r_min box)
              (if r_max box <? r then r else r_max box)
              (if c <? c_min box then c else c_min box)
              (if c_max box <? c then c else c_max box)).

(** [ttt_compute_active_box(b, r_min, r_max, c_min, c_max)]: the bounding
    box of the occupied cells widened by one cell on every side where the
    board allows it; the whole board if no cell is occupied. *)
Definition ttt_compute_active_box (b : TTTBoard) : result Box :=
  let n := size b in
  st ← for_each (λ st r, for_each (box_step b r) (seqZ 0 n) st)
         (seqZ 0 n) (false, mkBox n (-1) n (-1));
  let '(any, box) := (st : bool * Box) in
  if negb any then Ok (mkBox 0 (n - 1) 0 (n - 1))
  else
    Ok (mkBox (if 0 <? r_min box then r_min box - 1 else r_min box)
              (if r_max box + 1 <? n then r_max box + 1 else r_max box)
              (if 0 <? c_min box then c_min box - 1 else c_min box)
              (if c_max box + 1 <? n then c_max box + 1 else c_max box)).

(** [std::numeric_limits<int>::min()] and [max()]. *)
Definition INT_MIN : Z := -2147483648.
Definition INT_MAX : Z := 2147483647.

(** The double loop over the active box that both branches of
    [ttt_minimax] run: every free cell is tried with [mark], valued by
    [value] (the recursive call, which may change the board), and freed
    again; [better val best] decides whether [val] replaces [best]. *)
Definition try_moves (box : Box) (mark : ascii)
    (value : TTTBoard → result (Z * TTTBoard)) (better : Z → Z → bool)
    (st : Z * TTTBoard) : result (Z * TTTBoard) :=
  for_each
    (λ st r,
       for_each
         (λ st c,
            let '(best, b) := (st : Z * TTTBoard) in
            v ← get b r c;
            if negb (Ascii.eqb v "."%char) then Ok st
            else
              b1 ← set b r c mark;
              r1 ← value b1;
              let '(val, b2) := (r1 : Z * TTTBoard) in
              b3 ← set b2 r c "."%char;
              Ok (if better val best then val else best, b3))
         (seqZ (c_min box) (c_max box - c_min box + 1)) st)
    (seqZ (r_min box) (r_max box - r_min box + 1)) st.

(** [ttt_minimax(b, o_turn, depth, max_depth)] on a budget of [fuel]
    nested calls. The board is passed by reference: the result carries the
    board after the call. *)
Fixpoint ttt_minimax_fuel (fuel : nat) (b : TTTBoard) (o_turn : bool)
    (depth max_depth : Z) : result (Z * TTTBoard) :=
  score ← ttt_static_eval b;
  if ((score : Z) =? 10) || (score =? -10)
  then Ok (if 0 <? score then score - depth else score + depth, b)
  else
    e ← ttt_has_empty b;
    if negb (e : bool) || (depth >=? max_depth) then Ok (0, b)
    else
      match fuel with
      | O => Timeout
      | S fuel' =>
          box ← ttt_compute_active_box b;
          if o_turn then
            try_moves box "O"%char
              (λ b1, ttt_minimax_fuel fuel' b1 false (depth + 1) max_depth)
              (λ val best, best <? val) (INT_MIN, b)
          else
            try_moves box "X"%char
              (λ b1, ttt_minimax_fuel fuel' b1 true (depth + 1) max_depth)
              (λ val best, val <? best) (INT_MAX, b)
      end.

(** A call recurses only while [depth < max_depth], so [max_depth - depth]
    nested calls are a budget that is never used up. *)
Definition ttt_minimax (b : TTTBoard) (o_turn : bool) (depth max_depth : Z)
    : result (Z * TTTBoard) :=
  ttt_minimax_fuel (Z.to_nat (max_depth - depth)) b o_turn depth max_depth.

(** The loop of [ttt_recommend_move_O] that counts the free cells. *)
Definition count_empty (b : TTTBoard) : result Z :=
  for_each
    (λ cnt i,
       v ← DynamicArray.Get (cells b) i;
       Ok (if Ascii.eqb v "."%char then cnt + 1 else cnt))
    (seqZ 0 (size b * size b)) 0.

(** The state of the search loop of [ttt_recommend_move_O]. *)
Record Advice : Type := mkAdvice {
  work : TTTBoard;
  found : bool;
  best_val : Z;
  best_r : Z;
  best_c : Z
}.

(** [ttt_recommend_move_O(b, best_r, best_c)]: the return value and the
    two reference parameters after the call; [r0] and [c0] are what they
    hold before it. *)
Definition ttt_recommend_move_O (b : TTTBoard) (r0 c0 : Z)
    : result (bool * Z * Z) :=
  let work0 := b in
  box ← ttt_compute_active_box work0;
  max_depth ← count_empty work0;
  st ← for_each
         (λ st r,
            for_each
              (λ st c,
                 v ← get (work st) r c;
                 if negb (Ascii.eqb v "."%char) then Ok st
                 else
                   w1 ← set (work st) r c "O"%char;
                   r1 ← ttt_minimax w1 false 1 max_depth;
                   let '(val, w2) := (r1 : Z * TTTBoard) in
                   w3 ← set w2 r c "."%char;
                   if negb (found st) || (best_val st <? val)
                   then Ok (mkAdvice w3 true val r c)
                   else Ok (mkAdvice w3 (found st) (best_val st)
                              (best_r st) (best_c st)))
              (seqZ (c_min box) (c_max box - c_min box + 1)) st)
         (seqZ (r_min box) (r_max box - r_min box + 1))
         (mkAdvice work0 false INT_MIN r0 c0);
  Ok (found st, best_r st, best_c st).

(** ** The console advisor *)

(** The text of a line break. *)
Definition newline : string := String "010"%char EmptyString.

(** [ttt_print_board(b)]: the text written to the output. *)
Definition ttt_print_board (b : TTTBoard) : result string :=
  for_each
    (λ out r,
       out ← for_each
               (λ out c,
                  v ← get b r c;
                  Ok (String.append out
                        (String v (if c + 1 <? size b then " "%string
                                   else EmptyString))))
               (seqZ 0 (size b)) out;
       Ok (String.append out newline))
    (seqZ 0 (size b)) EmptyString.

(** What [run_tictactoe_advisor] reports before it returns; the boards are
    given by the text that [ttt_print_board] writes. *)
Inductive Report : Type :=
  | BadSize
  | ShortRow
  | BadSymbol (ch : ascii) (r c : Z)
  | NoFreeCell (shown : string)
  | NoMove (shown : string)
  | Recommended (shown : string) (br bc : Z) (after : string).

(** The loops of [run_tictactoe_advisor] that read the position. The
    [r]-th extraction [std::cin >> row] gives [rows !! r], and leaves the
    string empty once the input has no further word. A [return] inside
    the loops is the state [inl]: the iterations that remain do nothing.
    [row[c]] is only evaluated for [c] below the length of the row. *)
Definition read_rows (n : Z) (rows : list string) (board : TTTBoard)
    : result (Report + TTTBoard) :=
  for_each
    (λ st r,
       match st with
       | inl rep => Ok (inl rep)
       | inr b =>
           let row := default EmptyString (rows !! Z.to_nat r) in
           if Z.of_nat (String.length row) <? n then Ok (inl ShortRow)
           else
             for_each
               (λ st c,
                  match st with
                  | inl rep => Ok (inl rep)
                  | inr b =>
                      match String.get (Z.to_nat c) row with
                      | None => Throw out_of_range
                      | Some ch =>
                          if negb (Ascii.eqb ch "X"%char)
                             && negb (Ascii.eqb ch "O"%char)
                             && negb (Ascii.eqb ch "."%char)
                          then Ok (inl (BadSymbol ch r c))
                          else
                            b' ← set b r c ch;
                            Ok (inr b')
                      end
                  end)
               (seqZ 0 n) (inr b)
       end)
    (seqZ 0 n) (inr board).

(** [run_tictactoe_advisor()]. [size_in] is what [std::cin >> n] gives,
    [None] if the extraction fails; [rows] are the words that follow in
    the input. *)
Definition run_tictactoe_advisor (size_in : option Z) (rows : list string)
    : result Report :=
  match size_in with
  | None => Ok BadSize
  | Some n =>
      if n <=? 0 then Ok BadSize
      else
        board0 ← TTTBoard_new n;
        st ← read_rows n rows board0;
        match st with
        | inl rep => Ok rep
        | inr board =>
            shown ← ttt_print_board board;
            e ← ttt_has_empty board;
            if negb e then Ok (NoFreeCell shown)
            else
              rec ← ttt_recommend_move_O board (-1) (-1);
              let '(fnd, br, bc) := (rec : bool * Z * Z) in
              if negb fnd then Ok (NoMove shown)
              else
                board' ← set board br bc "O"%char;
                after ← ttt_print_board board';
                Ok (Recommended shown br bc after)
        end
  end.

(** * Further vocabulary *)

(** ** Sums that are not rounded

    The algorithms add weights in [double]. Integers up to [2^53] in
    magnitude are binary64 numbers, and the sum of two of them is exact
    if it stays in that range. *)

(** [w] is an integer of magnitude at most [B]. *)
Definition integral (B : Z) (w : Weight) : Prop :=
  match w with
  | Fin q => Qden q = 1%positive ∧ Z.abs (Qnum q) ≤ B
  | PInf => False
  end.

Global Instance integral_dec B w : Decision (integral B w).
Proof. destruct w; simpl; apply _. Defined.

(** Every weight of [g] is an integer of magnitude at most [B], and [k]
    times [B] does not exceed [2^53]: a sum of up to [k] weights of [g],
    formed one addition after the other, is never rounded. *)
Definition exact_sums (B k : Z) (g : Graph) : Prop :=
  Forall (Forall (λ e, integral B (weight e))) (adj_ g) ∧
  0 ≤ B ∧ B * k ≤ 2 ^ 53.

Global Instance exact_sums_dec B k g : Decision (exact_sums B k g).
Proof. unfold exact_sums. apply _. Defined.

(** Every distance is infinite or an integer of magnitude at most [b]. *)
Definition integral_or_INF (b : Z) (d : list Weight) : Prop :=
  Forall (λ x, x = INF ∨ integral b x) d.

(** ** Cycles and parent chains *)

(** No cycle of [E] that a walk of finite cost from [s] leads to has
    negative cost. *)
Definition no_negative_cycle_from (E : list BFEdge) (s : Z) : Prop :=
  ∀ es1 x es2,
    walk E s es1 x → is_INF (cost W0 es1) = false → walk E x es2 x →
    wle W0 (cost W0 es2).

(** The backward walk from [v] along [parent] arrives at [source]; [l] lists
    the vertices it visits, [v] first and [source] last. *)
Inductive source_trace (source : Vertex) (parent : list Vertex)
    : Vertex → list Vertex → Prop :=
  | source_trace_here :
      source ≠ -1 → source_trace source parent source [source]
  | source_trace_next v p l :
      v ≠ source → v ≠ -1 → 0 ≤ v → parent !! Z.to_nat v = Some p →
      source_trace source parent p l →
      source_trace source parent v (v :: l).

(** The vertex [k] steps up the parent chain of [v]; [-1] where the chain
    leaves the array. *)
Fixpoint ancestor (parent : list Vertex) (k : nat) (v : Vertex) : Vertex :=
  match k with
  | O => v
  | S k' => ancestor parent k' (default (-1) (parent !! Z.to_nat v))
  end.

(** ** The parent array of Dijkstra *)

(** The arrays [dist], [parent] and [used] of a state of [dijkstra], for
    the edge set [E] of an [n]-vertex graph and the source [s]. The source
    keeps distance [0] and no parent; a vertex with parent [p] was reached
    over an edge out of the finalised vertex [p] and lies that edge farther
    than [p]; vertices without parent, other than the source, are at
    infinite distance and the other way round; [rank] numbers the finalised
    vertices in the order they were finalised, [bound] being the next free
    number. *)
Record parent_inv (E : list BFEdge) (n s : Z) (rank : Z → nat) (bound : nat)
    (st : DState) : Prop := mk_parent_inv {
  pi_source_dist : dist_at (d_dist st) s = W0;
  pi_source_parent : d_parent st !! Z.to_nat s = Some (-1);
  pi_edge : ∀ v p, in_range n v → d_parent st !! Z.to_nat v = Some p →
    p ≠ -1 →
    in_range n p ∧ used_at (d_used st) p = true ∧
    ∃ w, mkBFEdge p v w ∈ E ∧
         dist_at (d_dist st) v = wadd (dist_at (d_dist st) p) w;
  pi_none : ∀ v, in_range n v → d_parent st !! Z.to_nat v = Some (-1) →
    v = s ∨ is_INF (dist_at (d_dist st) v) = true;
  pi_inf : ∀ v, in_range n v → is_INF (dist_at (d_dist st) v) = true →
    d_parent st !! Z.to_nat v = Some (-1);
  pi_bound : ∀ u, in_range n u → used_at (d_used st) u = true →
    (rank u < bound)%nat;
  pi_rank : ∀ v p, in_range n v → used_at (d_used st) v = true →
    d_parent st !! Z.to_nat v = Some p → p ≠ -1 → (rank p < rank v)%nat
}.

(** ** Graphs built by a run of insertions *)

(** What a run of [add_edge] calls for the triples [es] appends to the
    adjacency list of [u], in order. *)
Fixpoint incident (directed : bool) (u : Vertex)
    (es : list (Vertex * Vertex * Weight)) : list Edge :=
  match es with
  | [] => []
  | (a, b, w) :: es' =>
      (if a =? u then [mkEdge b w] else []) ++
      (if negb directed && negb (a =? b) && (b =? u) then [mkEdge a w] else []) ++
      incident directed u es'
  end.

(** Both endpoints of the triple are vertices of an [n]-vertex graph. *)
Definition valid_pair (n : Z) (e : Vertex * Vertex * Weight) : Prop :=
  in_range n e.1.1 ∧ in_range n e.1.2.

(** The number of self-loops among the triples. *)
Definition loops (es : list (Vertex * Vertex * Weight)) : Z :=
  Z.of_nat (length (filter (λ e, e.1.1 = e.1.2) es)).

(** ** Files read back *)

(** The file [f] as it is read back: integers are extracted as they were
    written, and [reread w] is the outcome of extracting a [double] from the
    text that [operator<<] produced for [w]. *)
Definition read_back (reread : Weight → option Weight) (f : GraphFile)
    : GraphInput :=
  mkGraphInput (Some (file_header f))
    ((λ l, w ← reread l.2; Some (l.1, w)) <$> file_lines f).

(** The adjacency entries of [u] as lines of a file. *)
Definition lines_from (u : Vertex) (neigh : list Edge)
    : list (Vertex * Vertex * Weight) :=
  (λ e, (u, to e, weight e)) <$> neigh.

(** The lines that [save_graph_to_file] writes for the list of [u]. *)
Definition kept_lines (directed : bool) (u : Vertex) (neigh : list Edge)
    : list (Vertex * Vertex * Weight) :=
  lines_from u (filter (λ e, directed = true ∨ u ≤ to e) neigh).

(** The lines for all lists, in the order of the vertices. *)
Definition all_lines (g : Graph) : list (Vertex * Vertex * Weight) :=
  concat (imap (λ u neigh, kept_lines (is_directed g) (Z.of_nat u) neigh)
            (adj_ g)).

(** The graph [g] with every weight [w] replaced by [h w]. *)
Definition with_weights (h : Weight → Weight) (g : Graph) : Graph :=
  {| n_ := n_ g; directed_ := directed_ g;
     adj_ := (λ l : list Edge, (λ e, mkEdge (to e) (h (weight e))) <$> l)
               <$> adj_ g |}.

(** The line by which [save_graph_to_file] represents the edge that
    [add_edge(a, b, w)] inserted: as given in a directed graph, smaller
    endpoint first in an undirected one. *)
Definition stored_line (directed : bool) (t : Vertex * Vertex * Weight)
    : Vertex * Vertex * Weight :=
  if directed || (t.1.1 <=? t.1.2) then t else (t.1.2, t.1.1, t.2).

(** ** Tic-tac-toe positions *)

(** Representation invariant of [TTTBoard]: a non-negative size [n] and
    [n * n] cells; the constructor establishes it and [set] keeps it. *)
Definition wf_board (b : TTTBoard) : Prop :=
  0 ≤ size b ∧ length (cells b) = Z.to_nat (size b * size b).

(** [(r, c)] is a cell of the board. *)
Definition on_board (b : TTTBoard) (r c : Z) : Prop :=
  0 ≤ r < size b ∧ 0 ≤ c < size b.

(** The content of the cell [(r, c)]. *)
Definition cell (b : TTTBoard) (r c : Z) : option ascii :=
  cells b !! Z.to_nat (r * size b + c).

(** [p] fills a row, a column or one of the two diagonals. *)
Definition wins (b : TTTBoard) (p : ascii) : Prop :=
  (∃ r, 0 ≤ r < size b ∧ ∀ c, 0 ≤ c < size b → cell b r c = Some p) ∨
  (∃ c, 0 ≤ c < size b ∧ ∀ r, 0 ≤ r < size b → cell b r c = Some p) ∨
  (∀ i, 0 ≤ i < size b → cell b i i = Some p) ∨
  (∀ i, 0 ≤ i < size b → cell b i (size b - 1 - i) = Some p).

(** The cell [(r, c)] of the board holds a mark: neither ["."] nor [" "]. *)
Definition occupied (b : TTTBoard) (r c : Z) : Prop :=
  on_board b r c ∧
  ∃ v, cell b r c = Some v ∧ v ≠ "."%char ∧ v ≠ " "%char.

(** The cell [(r, c)] of the board is free. *)
Definition free (b : TTTBoard) (r c : Z) : Prop :=
  on_board b r c ∧ cell b r c = Some "."%char.

Definition in_box (box : Box) (r c : Z) : Prop :=
  r_min box ≤ r ≤ r_max box ∧ c_min box ≤ c ≤ c_max box.

(** Every cell is free or holds the mark of a player. *)
Definition proper_board (b : TTTBoard) : Prop :=
  Forall (λ v, v = "."%char ∨ v = "X"%char ∨ v = "O"%char) (cells b).

(** The board with [v] in the cell [(r, c)]. *)
Definition place (b : TTTBoard) (r c : Z) (v : ascii) : TTTBoard :=
  mkBoard (size b) (<[Z.to_nat (r * size b + c) := v]> (cells b)).

(** The cell [(r', c')] comes before [(r, c)] in the row-by-row scan. *)
Definition scanned (r c r' c' : Z) : Prop := r' < r ∨ (r' = r ∧ c' < c).

(** The state of the scan of [ttt_compute_active_box] when it arrives at
    the cell [(r, c)]: nothing found among the cells scanned, or the
    bounding box of the occupied cells scanned. *)
Record box_inv (b : TTTBoard) (r c : Z) (st : bool * Box) : Prop :=
  mk_box_inv {
  bi_none : st.1 = false →
    ∀ r' c', scanned r c r' c' → ¬ occupied b r' c';
  bi_inside : st.1 = true →
    ∀ r' c', scanned r c r' c' → occupied b r' c' → in_box st.2 r' c';
  bi_top : st.1 = true →
    ∃ c', scanned r c (r_min st.2) c' ∧ occupied b (r_min st.2) c';
  bi_bottom : st.1 = true →
    ∃ c', scanned r c (r_max st.2) c' ∧ occupied b (r_max st.2) c';
  bi_left : st.1 = true →
    ∃ r', scanned r c r' (c_min st.2) ∧ occupied b r' (c_min st.2);
  bi_right : st.1 = true →
    ∃ r', scanned r c r' (c_max st.2) ∧ occupied b r' (c_max st.2)
}.

(** The number of free cells. *)
Definition free_count (b : TTTBoard) : Z :=
  Z.of_nat (count_occ ascii_dec (cells b) "."%char).

(** [v] is the value that [ttt_minimax] gives to the move of O to the cell
    [(r, c)], searched from depth [1] up to the depth limit [k]. *)
Definition move_value (b : TTTBoard) (k r c v : Z) : Prop :=
  ttt_minimax (place b r c "O"%char) false 1 k
  = Ok (v, place b r c "O"%char).

(** The state of the search of [ttt_recommend_move_O] when it arrives at
    the cell [(r, c)] of the box: no free cell among the cells tried, or
    the first of the free cells tried whose value is the greatest. *)
Definition best_so_far (b : TTTBoard) (box : Box) (k r0 c0 r c : Z)
    (st : Advice) : Prop :=
  work st = b ∧
  if found st then
    in_box box (best_r st) (best_c st) ∧
    scanned r c (best_r st) (best_c st) ∧
    free b (best_r st) (best_c st) ∧
    move_value b k (best_r st) (best_c st) (best_val st) ∧
    ∀ r' c' v, in_box box r' c' → scanned r c r' c' → free b r' c' →
      move_value b k r' c' v →
      v ≤ best_val st ∧
      (scanned (best_r st) (best_c st) r' c' → v < best_val st)
  else
    best_r st = r0 ∧ best_c st = c0 ∧
    ∀ r' c', in_box box r' c' → scanned r c r' c' → ¬ free b r' c'.

(** The loops of [generate_random_graph] have been through the pair that
    gives the entry [x → y] when they arrive at the pair [(u, v)]. *)
Definition tried (directed : bool) (u v x y : Z) : Prop :=
  if directed then x < u ∨ (x = u ∧ y < v)
  else Z.min x y < u ∨ (Z.min x y = u ∧ Z.max x y < v).

(** The graph of [generate_random_graph] when the loops arrive at the
    pair [(u, v)]. *)
Record gen_inv (n : Z) (directed : bool) (u v : Z) (g : Graph) : Prop :=
  mk_gen_inv {
  gi_wf : wf_graph g;
  gi_n : n_ g = n;
  gi_directed : directed_ g = directed;
  gi_sorted : ∀ x, 0 ≤ x → StronglySorted Z.lt (to <$> neighbors g x);
  gi_entry : ∀ x e, 0 ≤ x → e ∈ neighbors g x →
    to e ≠ x ∧ tried directed u v x (to e) ∧
    (directed = false → mkEdge x (weight e) ∈ neighbors g (to e))
}.

(** The character that the input gives for the cell [(r, c)]. *)
Definition typed (rows : list string) (r c : Z) : option ascii :=
  row ← rows !! Z.to_nat r; String.get (Z.to_nat c) row.

(** The input gives a mark or a dot for every cell of an [n × n] board. *)
Definition valid_rows (n : Z) (rows : list string) : Prop :=
  ∀ r c, 0 ≤ r < n → 0 ≤ c < n →
    ∃ ch, typed rows r c = Some ch ∧
          (ch = "."%char ∨ ch = "X"%char ∨ ch = "O"%char).

(** The state of the loops of [read_rows] when they arrive at the cell
    [(r, c)]: a report, or the board with the cells read so far. *)
Definition read_inv (n : Z) (rows : list string) (r c : Z)
    (st : Report + TTTBoard) : Prop :=
  match st with
  | inl rep =>
      ¬ valid_rows n rows ∧
      (rep = ShortRow ∨ ∃ ch r' c', rep = BadSymbol ch r' c')
  | inr b =>
      wf_board b ∧ size b = n ∧ proper_board b ∧
      ∀ r' c', on_board b r' c' → scanned r c r' c' →
        cell b r' c' = typed rows r' c'
  end.

(** ** The parent array of Bellman-Ford *)

(** The parent chain of [v] ends at a vertex without parent; [l] lists the
    vertices on it, [v] first. *)
Inductive rooted (parent : list Vertex) : Vertex → list Vertex → Prop :=
  | rooted_root v :
      0 ≤ v → parent !! Z.to_nat v = Some (-1) → rooted parent v [v]
  | rooted_next v u l :
      0 ≤ v → parent !! Z.to_nat v = Some u → u ≠ -1 →
      rooted parent u l → rooted parent v (v :: l).

(** The arrays [dist] and [parent] of [bellman_ford] between two
    relaxations, for the edge array [E] of an [n]-vertex graph and the
    source [s], where no negative cycle can be reached. The source keeps
    distance [0] and no parent; a vertex with parent [u] has an edge from
    [u] and lies at least that edge farther than [u]; the vertices without
    parent, other than the source, are those at infinite distance; and
    every parent chain ends. *)
Record bf_tree (E : list BFEdge) (n s : Z) (d : list Weight)
    (p : list Vertex) : Prop := mk_bf_tree {
  bt_dist_len : Z.of_nat (length d) = n;
  bt_parent_len : Z.of_nat (length p) = n;
  bt_sound : sound E s d;
  bt_source_dist : dist_at d s = W0;
  bt_source_parent : p !! Z.to_nat s = Some (-1);
  bt_edge : ∀ v u, in_range n v → p !! Z.to_nat v = Some u → u ≠ -1 →
    in_range n u ∧
    ∃ w, mkBFEdge u v w ∈ E ∧ is_INF (dist_at d v) = false ∧
         wle (wadd (dist_at d u) w) (dist_at d v);
  bt_inf : ∀ v, in_range n v → is_INF (dist_at d v) = true →
    p !! Z.to_nat v = Some (-1);
  bt_none : ∀ v, in_range n v → p !! Z.to_nat v = Some (-1) →
    v = s ∨ is_INF (dist_at d v) = true;
  bt_rooted : ∀ v, in_range n v → ∃ l, rooted p v l
}.
(** * Properties *)

(** Reduce a bind whose first computation is already a value. *)
Ltac monad_step := cbn [mbind mret result_bind result_ret].

(** Settle a decidable statement about concrete data by evaluation. *)
Ltac by_evaluation := apply (bool_decide_unpack _); vm_compute; exact I.

(** ** Arrays *)

Section arrays.
Context {A : Type}.
Implicit Types (a : list A) (i : Z) (x : A).

Lemma Get_inv a i x :
  DynamicArray.Get a i = Ok x →
  0 ≤ i < Z.of_nat (length a) ∧ a !! Z.to_nat i = Some x.
Proof.
  unfold DynamicArray.Get, DynamicArray.GetSize.
  case_bool_decide; [|done].
  destruct (a !! Z.to_nat i) eqn:E; [|done].
  by intros [= ->].
Qed.

Lemma Get_in_range a i :
  0 ≤ i < Z.of_nat (length a) →
  ∃ x, DynamicArray.Get a i = Ok x ∧ a !! Z.to_nat i = Some x.
Proof.
  intros Hi. unfold DynamicArray.Get, DynamicArray.GetSize.
  rewrite bool_decide_eq_true_2 by done.
  destruct (lookup_lt_is_Some_2 a (Z.to_nat i)) as [x Hx]; [lia|].
  exists x. by rewrite Hx.
Qed.

Lemma Get_lookup a i x :
  0 ≤ i → a !! Z.to_nat i = Some x → DynamicArray.Get a i = Ok x.
Proof.
  intros Hi Hx. apply lookup_lt_Some in Hx as Hlt.
  unfold DynamicArray.Get, DynamicArray.GetSize.
  rewrite bool_decide_eq_true_2 by lia. by rewrite Hx.
Qed.

Lemma Get_out_of_range a i :
  ¬ (0 ≤ i < Z.of_nat (length a)) → DynamicArray.Get a i = Throw out_of_range.
Proof.
  intros Hi. unfold DynamicArray.Get, DynamicArray.GetSize.
  by rewrite bool_decide_eq_false_2.
Qed.

Lemma Set_in_range a i x :
  0 ≤ i < Z.of_nat (length a) →
  DynamicArray.Set_ a i x = Ok (<[Z.to_nat i := x]> a).
Proof.
  intros Hi. unfold DynamicArray.Set_, DynamicArray.GetSize.
  by rewrite bool_decide_eq_true_2.
Qed.

Lemma Set_out_of_range a i x :
  ¬ (0 ≤ i < Z.of_nat (length a)) →
  DynamicArray.Set_ a i x = Throw out_of_range.
Proof.
  intros Hi. unfold DynamicArray.Set_, DynamicArray.GetSize.
  by rewrite bool_decide_eq_false_2.
Qed.

Lemma Set_inv a i x a' :
  DynamicArray.Set_ a i x = Ok a' →
  0 ≤ i < Z.of_nat (length a) ∧ a' = <[Z.to_nat i := x]> a.
Proof.
  unfold DynamicArray.Set_, DynamicArray.GetSize.
  case_bool_decide; [|done]. by intros [= <-].
Qed.
End arrays.

(** Folding with an invariant that every visited element maintains. *)
Lemma fold_left_invariant {A B} (P : B → Prop) (f : B → A → B) l b :
  P b → (∀ b x, x ∈ l → P b → P (f b x)) → P (fold_left f l b).
Proof.
  revert b. induction l as [|x l IH]; intros b Hb Hf; [done|].
  simpl. apply IH.
  - apply Hf; [left|done].
  - intros b' y Hy. apply Hf. by right.
Qed.

Lemma for_each_invariant {A S} (P : S → Prop) (body : S → A → result S) l s :
  P s →
  (∀ s x, x ∈ l → P s → ∃ s', body s x = Ok s' ∧ P s') →
  ∃ s', for_each body l s = Ok s' ∧ P s'.
Proof.
  revert s. induction l as [|x l IH]; intros s Hs Hbody; simpl.
  - by exists s.
  - destruct (Hbody s x) as (s1 & -> & Hs1); [left|done|].
    simpl. apply IH; [done|].
    intros s2 y Hy. apply Hbody. by right.
Qed.

Lemma for_each_app {A S} (body : S → A → result S) l1 l2 s :
  for_each body (l1 ++ l2) s = s' ← for_each body l1 s; for_each body l2 s'.
Proof.
  revert s. induction l1 as [|x l1 IH]; intros s; simpl; [done|].
  destruct (body s x); simpl; [apply IH|done..].
Qed.

(** ** Graph container *)

Lemma neighbors_append_same g u e :
  0 ≤ u < Z.of_nat (length (adj_ g)) →
  neighbors (append_adj g u e) u = neighbors g u ++ [e].
Proof.
  intros Hu. unfold neighbors, append_adj; simpl.
  destruct (lookup_lt_is_Some_2 (adj_ g) (Z.to_nat u)) as [l Hl]; [lia|].
  rewrite list_lookup_alter_eq, Hl. done.
Qed.

Lemma neighbors_append_other g u e x :
  0 ≤ u → 0 ≤ x → x ≠ u →
  neighbors (append_adj g u e) x = neighbors g x.
Proof.
  intros Hu Hx Hne. unfold neighbors, append_adj; simpl.
  rewrite list_lookup_alter_ne by lia. done.
Qed.

Lemma concat_alter_length {A} (ls : list (list A)) (i : nat) x :
  (i < length ls)%nat →
  length (concat (alter (λ l, l ++ [x]) i ls)) = S (length (concat ls)).
Proof.
  revert i. induction ls as [|l ls IH]; intros i Hi; simpl in *; [lia|].
  destruct i as [|i]; simpl.
  - rewrite !length_app. simpl. lia.
  - rewrite !length_app. change (list_alter ?f i ls) with (alter f i ls).
    rewrite IH by lia. lia.
Qed.

Lemma total_entries_fold (adj : list (list Edge)) k acc :
  (k ≤ length adj)%nat →
  fold_left (λ m i, m + LinkedList.GetLength (default [] (adj !! Z.to_nat i)))
            (seqZ 0 (Z.of_nat k)) acc
  = acc + Z.of_nat (length (concat (take k adj))).
Proof.
  induction k as [|k IH]; intros Hk.
  - simpl. lia.
  - rewrite seqZ_S, fold_left_app, IH by lia. simpl.
    destruct (lookup_lt_is_Some_2 adj k) as [l Hl]; [lia|].
    replace (Z.to_nat (0 + Z.of_nat k)) with k by lia. rewrite Hl. simpl.
    rewrite (take_S_r _ _ _ Hl), concat_app, length_app. simpl.
    unfold LinkedList.GetLength. rewrite length_app. simpl. lia.
Qed.

(** The loop of [edge_count] sums the lengths of all adjacency lists. *)
Lemma total_entries_concat g :
  0 ≤ n_ g → length (adj_ g) = Z.to_nat (n_ g) →
  total_entries g = Z.of_nat (length (concat (adj_ g))).
Proof.
  intros Hn Hlen. unfold total_entries, neighbors.
  rewrite <-(Z2Nat.id (n_ g)) at 1 by done.
  rewrite total_entries_fold by lia.
  rewrite <-Hlen, firstn_all. lia.
Qed.

Lemma wf_graph_new n d : 0 ≤ n → wf_graph (Graph_new n d).
Proof.
  intros Hn. repeat split; simpl; [done|by rewrite length_replicate|].
  apply Forall_replicate. constructor.
Qed.

Lemma wf_append_adj g u e :
  wf_graph g → in_range (n_ g) (to e) → wf_graph (append_adj g u e).
Proof.
  intros (Hn & Hlen & Hall) He. repeat split; simpl; [done| |].
  - by rewrite length_alter.
  - apply Forall_alter; [done|].
    intros l _ Hl. unfold LinkedList.Append.
    apply Forall_app. split; [done|by constructor].
Qed.

Lemma total_entries_append g u e :
  wf_graph g → in_range (n_ g) u →
  total_entries (append_adj g u e) = total_entries g + 1.
Proof.
  intros Hwf Hu. pose proof Hwf as (Hn & Hlen & _).
  rewrite (total_entries_concat g) by done.
  rewrite total_entries_concat; simpl; [|done|by rewrite length_alter].
  unfold LinkedList.Append. rewrite concat_alter_length; [lia|].
  unfold in_range in Hu. lia.
Qed.

Lemma add_edge_in_range u v w g :
  in_range (n_ g) u → in_range (n_ g) v →
  add_edge u v w g =
    (if negb (directed_ g) && negb (u =? v)
     then append_adj (append_adj g u (mkEdge v w)) v (mkEdge u w)
     else append_adj g u (mkEdge v w), Ok tt).
Proof.
  unfold in_range, add_edge, vertex_count. intros Hu Hv.
  replace (u <? 0) with false by lia. replace (v <? 0) with false by lia.
  replace (u >=? n_ g) with false by lia.
  replace (v >=? n_ g) with false by lia. simpl.
  by destruct (negb (directed_ g) && negb (u =? v)).
Qed.

Lemma add_edge_wf u v w g g' r :
  wf_graph g → add_edge u v w g = (g', r) → wf_graph g' ∧ n_ g' = n_ g ∧
  directed_ g' = directed_ g.
Proof.
  intros Hwf. unfold add_edge, vertex_count.
  destruct (_ || _) eqn:Hb; [by intros [= <- <-]|].
  assert (in_range (n_ g) u ∧ in_range (n_ g) v) as [Hu Hv]
    by (unfold in_range; lia).
  destruct (_ && _); intros [= <- <-]; (split; [|done]);
    repeat apply wf_append_adj; done.
Qed.

(** Graphs built by the constructor and [add_edge] are well formed. *)
Lemma add_edges_wf es g g' r :
  wf_graph g → add_edges es g = (g', r) → wf_graph g'.
Proof.
  revert g. induction es as [|[[u v] w] es IH]; intros g Hwf; simpl.
  - by intros [= <- _].
  - destruct (add_edge u v w g) as [g1 r1] eqn:Hadd.
    apply add_edge_wf in Hadd as (Hwf1 & _); [|done].
    destruct r1; [by apply IH|by intros [= <- _]..].
Qed.

(** C6. On an [n]-vertex graph, [add_edge(u, v, w)] with [u] or [v] outside
    [0, n) throws [out_of_range] to the caller and leaves the graph, hence
    every adjacency list, exactly as it was. *)
Theorem add_edge_out_of_range (g : Graph) (u v : Vertex) (w : Weight) :
  ¬ in_range (vertex_count g) u ∨ ¬ in_range (vertex_count g) v →
  add_edge u v w g = (g, Throw out_of_range) ∧
  ∀ x, neighbors (fst (add_edge u v w g)) x = neighbors g x.
Proof.
  intros H. assert (add_edge u v w g = (g, Throw out_of_range)) as ->; [|done].
  unfold add_edge, in_range in *.
  destruct (_ || _) eqn:Hb; [done|]. lia.
Qed.

Lemma add_edge_out_of_range_witness :
  add_edge 0 3 (Fin 1) (Graph_new 3 false)
    = (Graph_new 3 false, Throw out_of_range) ∧
  ∀ x, neighbors (fst (add_edge 0 3 (Fin 1) (Graph_new 3 false))) x
       = neighbors (Graph_new 3 false) x.
Proof.
  apply (add_edge_out_of_range (Graph_new 3 false) 0 3 (Fin 1)).
  right. unfold in_range, vertex_count. simpl. lia.
Defined.

Lemma total_entries_new n d : 0 ≤ n → total_entries (Graph_new n d) = 0.
Proof.
  intros Hn. rewrite total_entries_concat; simpl;
    [|done|by rewrite length_replicate].
  induction (Z.to_nat n) as [|k IH]; simpl; [done|]. apply IH.
Qed.

Lemma add_edges_undirected es g :
  wf_graph g → directed_ g = false → Forall (proper_pair (n_ g)) es →
  ∃ g', add_edges es g = (g', Ok tt) ∧ wf_graph g' ∧ n_ g' = n_ g ∧
        directed_ g' = false ∧
        total_entries g' = total_entries g + 2 * Z.of_nat (length es).
Proof.
  revert g. induction es as [|[[a b] w] es IH]; intros g Hwf Hd Hes.
  - exists g. simpl. split_and!; try done. lia.
  - apply Forall_cons in Hes as [(Ha & Hb & Hab) Hes]. simpl in Ha, Hb, Hab.
    simpl. rewrite add_edge_in_range by done.
    rewrite Hd. replace (a =? b) with false by lia. simpl.
    set (g1 := append_adj (append_adj g a _) b _).
    assert (wf_graph g1) as Hwf1 by (repeat apply wf_append_adj; done).
    destruct (IH g1) as (g' & -> & Hwf' & Hn' & Hd' & Ht'); [done..|].
    exists g'. split_and!; try done.
    rewrite Ht'. unfold g1.
    rewrite total_entries_append; [|by apply wf_append_adj|done].
    rewrite total_entries_append by done. lia.
Qed.

(** C5. On an undirected graph, [add_edge(u, v, w)] appends [(v, w)] to the
    list of [u]; when [u ≠ v] it also appends the mirror entry [(u, w)] to
    the list of [v], and when [u = v] the entry [(u, w)] is the only one it
    adds; no other list changes. After a run of [k] insertions of undirected
    edges without self-loops into a fresh undirected graph, [edge_count()]
    is [k] (the count does not depend on the pairs being distinct). *)
Theorem add_edge_undirected (g : Graph) (u v : Vertex) (w : Weight)
    (es : list (Vertex * Vertex * Weight)) :
  wf_graph g → is_directed g = false →
  in_range (vertex_count g) u → in_range (vertex_count g) v →
  Forall (proper_pair (vertex_count g)) es →
  (∃ g', add_edge u v w g = (g', Ok tt) ∧
     neighbors g' u = neighbors g u ++ [mkEdge v w] ∧
     (u ≠ v → neighbors g' v = neighbors g v ++ [mkEdge u w]) ∧
     (∀ x, 0 ≤ x → x ≠ u → x ≠ v → neighbors g' x = neighbors g x)) ∧
  (∃ gk, add_edges es (Graph_new (vertex_count g) false) = (gk, Ok tt) ∧
     edge_count gk = Z.of_nat (length es)).
Proof.
  unfold is_directed, vertex_count. intros Hwf Hd Hu Hv Hes.
  pose proof Hwf as (Hn & Hlen & _). split.
  - rewrite add_edge_in_range, Hd by done. simpl.
    assert (0 ≤ u < Z.of_nat (length (adj_ g))) by (unfold in_range in Hu; lia).
    assert (0 ≤ v < Z.of_nat (length (adj_ g))) by (unfold in_range in Hv; lia).
    destruct (Z.eqb_spec u v) as [->|Hne]; simpl; eexists; (split; [done|]).
    + split_and!; [by apply neighbors_append_same|done|].
      intros x Hx Hxv _. apply neighbors_append_other; lia.
    + split_and!.
      * rewrite neighbors_append_other by lia. by apply neighbors_append_same.
      * intros _. rewrite neighbors_append_same by (simpl; by rewrite length_alter).
        rewrite neighbors_append_other by lia. done.
      * intros x Hx Hxu Hxv. rewrite !neighbors_append_other by lia. done.
  - destruct (add_edges_undirected es (Graph_new (n_ g) false))
      as (gk & Hrun & Hwfk & Hnk & Hdk & Htk); [by apply wf_graph_new|done..|].
    exists gk. split; [done|].
    unfold edge_count. rewrite Hdk, Htk, total_entries_new by done. simpl.
    rewrite Z.add_0_l, Z.mul_comm, Z.div_mul by done. done.
Qed.

Lemma add_edge_undirected_witness :
  let g := Graph_new 3 false in
  let es := [(0, 1, Fin 1); (1, 2, Fin (5 # 2)%Q)] in
  (∃ g', add_edge 2 0 (Fin 4) g = (g', Ok tt) ∧
     neighbors g' 2 = neighbors g 2 ++ [mkEdge 0 (Fin 4)] ∧
     (2 ≠ 0 → neighbors g' 0 = neighbors g 0 ++ [mkEdge 2 (Fin 4)]) ∧
     (∀ x, 0 ≤ x → x ≠ 2 → x ≠ 0 → neighbors g' x = neighbors g x)) ∧
  (∃ gk, add_edges es (Graph_new (vertex_count g) false) = (gk, Ok tt) ∧
     edge_count gk = Z.of_nat (length es)).
Proof.
  intros g es.
  apply (add_edge_undirected g 2 0 (Fin 4) es).
  - apply wf_graph_new. lia.
  - reflexivity.
  - unfold in_range. simpl. lia.
  - unfold in_range. simpl. lia.
  - repeat constructor; simpl; lia.
Defined.

(** ** Initialisation and invalid sources *)

Lemma insert_replicate_boundary {A} (x y : A) (k n : nat) :
  (k < n)%nat →
  <[k := x]> (replicate k x ++ replicate (n - k) y)
  = replicate (S k) x ++ replicate (n - S k) y.
Proof.
  intros Hk. rewrite insert_app_r_alt by (rewrite length_replicate; lia).
  rewrite length_replicate, Nat.sub_diag.
  replace (n - k)%nat with (S (n - S k)) by lia. simpl.
  assert (∀ j, replicate j x ++ [x] = x :: replicate j x) as Hend.
  { intros j. induction j as [|j IH]; simpl; [done|]. by rewrite IH. }
  by rewrite (cons_middle x), app_assoc, Hend.
Qed.

Lemma init_result_loop (k n : nat) :
  (k ≤ n)%nat →
  for_each
    (λ res i,
       d ← DynamicArray.Set_ (dist res) i INF;
       p ← DynamicArray.Set_ (parent res) i (-1);
       Ok (mkResult d p (has_negative_cycle res)))
    (seqZ 0 (Z.of_nat k))
    (mkResult (replicate n W0) (replicate n 0) false)
  = Ok (mkResult (replicate k INF ++ replicate (n - k) W0)
          (replicate k (-1) ++ replicate (n - k) 0) false).
Proof.
  induction k as [|k IH]; intros Hk.
  - simpl. by rewrite Nat.sub_0_r.
  - rewrite seqZ_S, for_each_app, IH by lia. simpl.
    rewrite !Set_in_range
      by (rewrite length_app, !length_replicate; lia).
    simpl. replace (Z.to_nat (0 + Z.of_nat k)) with k by lia.
    rewrite !insert_replicate_boundary by lia. done.
Qed.

(** The initialisation loop leaves [n] distances [INF] and [n] parents [-1]. *)
Lemma init_result_ok n :
  0 ≤ n →
  init_result n =
    Ok (mkResult (replicate (Z.to_nat n) INF) (replicate (Z.to_nat n) (-1)) false).
Proof.
  intros Hn. unfold init_result, DynamicArray.make.
  rewrite <-(Z2Nat.id n) at 1 by done.
  rewrite init_result_loop by done.
  by rewrite Nat.sub_diag, !app_nil_r.
Qed.

Lemma invalid_source_result (g : Graph) (source : Vertex) :
  0 ≤ vertex_count g → ¬ in_range (vertex_count g) source →
  let res := mkResult (replicate (Z.to_nat (vertex_count g)) INF)
               (replicate (Z.to_nat (vertex_count g)) (-1)) false in
  dijkstra g source = Ok res ∧ bellman_ford g source = Ok res.
Proof.
  intros Hn Hs. unfold dijkstra, bellman_ford.
  rewrite init_result_ok by done. monad_step.
  assert ((source <? 0) || (source >=? vertex_count g) = true) as ->
    by (unfold in_range in Hs; lia).
  done.
Qed.

(** C10. For a source outside [0, n), [dijkstra] and [bellman_ford] both
    return normally: the result has [n] distances, all [INF], [n] parents,
    all [-1], and the negative-cycle flag is false. *)
Theorem invalid_source (g : Graph) (source : Vertex) :
  0 ≤ vertex_count g → ¬ in_range (vertex_count g) source →
  ∃ res,
    dijkstra g source = Ok res ∧ bellman_ford g source = Ok res ∧
    DynamicArray.GetSize (dist res) = vertex_count g ∧
    DynamicArray.GetSize (parent res) = vertex_count g ∧
    Forall (λ d, d = INF) (dist res) ∧
    Forall (λ p, p = -1) (parent res) ∧
    has_negative_cycle res = false.
Proof.
  intros Hn Hs.
  destruct (invalid_source_result g source Hn Hs) as [Hd Hb].
  eexists. split; [exact Hd|]. split; [exact Hb|].
  unfold DynamicArray.GetSize. simpl. rewrite !length_replicate.
  split_and!; try lia; try done; by apply Forall_replicate.
Qed.

Lemma invalid_source_witness :
  ∃ res,
    dijkstra (Graph_new 2 true) 2 = Ok res ∧
    bellman_ford (Graph_new 2 true) 2 = Ok res ∧
    DynamicArray.GetSize (dist res) = vertex_count (Graph_new 2 true) ∧
    DynamicArray.GetSize (parent res) = vertex_count (Graph_new 2 true) ∧
    Forall (λ d, d = INF) (dist res) ∧
    Forall (λ p, p = -1) (parent res) ∧
    has_negative_cycle res = false.
Proof.
  apply (invalid_source (Graph_new 2 true) 2).
  - simpl. lia.
  - unfold in_range. simpl. lia.
Defined.

(** ** Dijkstra: negative weights *)

Lemma dijkstra_relax_negative u st e :
  negative e → dijkstra_relax u st e = Ok st.
Proof. unfold negative, dijkstra_relax. by intros ->. Qed.

Lemma dijkstra_relax_filter u neigh st :
  for_each (dijkstra_relax u) neigh st
  = for_each (dijkstra_relax u) (filter (λ e, ¬ negative e) neigh) st.
Proof.
  revert st. induction neigh as [|x l IH]; intros st; [done|].
  rewrite filter_cons. destruct (decide (¬ negative x)) as [Hx|Hx].
  - simpl. destruct (dijkstra_relax u st x); simpl; [apply IH|done..].
  - simpl. rewrite dijkstra_relax_negative by by apply dec_stable.
    simpl. apply IH.
Qed.


(** ** Path reconstruction *)

Section back_walk.
Variables (source : Vertex) (parent : list Vertex).

Lemma reaches_none_trace v :
  reaches_none source parent v → ∃ l, back_trace source parent v l.
Proof.
  induction 1 as [v Hs Hv Hp|v p Hs Hv Hp _ [l IH]].
  - exists [v]. by constructor.
  - exists (v :: l). by econstructor.
Qed.

Lemma back_trace_head v l :
  back_trace source parent v l → ∃ l', l = v :: l'.
Proof. destruct 1; eauto. Qed.

Lemma back_trace_deterministic v l1 l2 :
  back_trace source parent v l1 → back_trace source parent v l2 → l1 = l2.
Proof.
  intros H1. revert l2.
  induction H1 as [v Hs Hv Hp|v p l Hs Hv Hp H1 IH]; intros l2 H2.
  - inversion H2; simplify_eq; [done|].
    match goal with H : back_trace _ _ (-1) _ |- _ => inversion H; lia end.
  - inversion H2; simplify_eq.
    + inversion H1; lia.
    + f_equal. by apply IH.
Qed.

Lemma back_trace_suffix v l x :
  back_trace source parent v l → x ∈ l →
  ∃ l', back_trace source parent x l' ∧ (length l' ≤ length l)%nat.
Proof.
  induction 1 as [v Hs Hv Hp|v p l Hs Hv Hp H1 IH]; intros Hx.
  - apply list_elem_of_singleton in Hx as ->.
    exists [v]. split; [by constructor|done].
  - apply elem_of_cons in Hx as [->|Hx].
    + exists (v :: l). split; [by econstructor|done].
    + destruct (IH Hx) as (l' & Hl' & Hlen). exists l'. split; [done|].
      simpl. lia.
Qed.

Lemma back_trace_NoDup v l : back_trace source parent v l → NoDup l.
Proof.
  induction 1 as [v Hs Hv Hp|v p l Hs Hv Hp H1 IH].
  - apply NoDup_singleton.
  - apply NoDup_cons. split; [|done]. intros Hin.
    destruct (back_trace_suffix _ _ _ H1 Hin) as (l' & Hl' & Hlen).
    assert (l' = v :: l) as ->
      by (eapply back_trace_deterministic; [done|by econstructor]).
    simpl in Hlen. lia.
Qed.

Lemma back_trace_in_range v l x :
  back_trace source parent v l → x ∈ l →
  x ≠ source ∧ 0 ≤ x < Z.of_nat (length parent).
Proof.
  induction 1 as [v Hs Hv Hp|v p l Hs Hv Hp H1 IH]; intros Hx.
  - apply list_elem_of_singleton in Hx as ->.
    apply lookup_lt_Some in Hp. lia.
  - apply elem_of_cons in Hx as [->|Hx]; [|by apply IH].
    apply lookup_lt_Some in Hp. lia.
Qed.

(** A walk that ends visits no vertex twice, so it is no longer than the
    array. *)
Lemma back_trace_length v l :
  back_trace source parent v l → (length l ≤ length parent)%nat.
Proof.
  intros H.
  assert (l ⊆+ seqZ 0 (Z.of_nat (length parent))) as Hsub.
  { apply NoDup_submseteq; [by eapply back_trace_NoDup|].
    intros x Hx. apply elem_of_seqZ.
    destruct (back_trace_in_range _ _ _ H Hx). lia. }
  apply submseteq_length in Hsub. rewrite length_seqZ in Hsub. lia.
Qed.

Lemma walk_back_trace v l :
  back_trace source parent v l →
  ∀ fuel rev len,
    (length l ≤ fuel)%nat → 0 ≤ len →
    len + Z.of_nat (length l) ≤ Z.of_nat (length rev) →
    ∃ rev' x,
      walk_back fuel source parent v rev len
        = Ok (rev', len + Z.of_nat (length l)) ∧
      length rev' = length rev ∧
      rev' !! Z.to_nat (len + Z.of_nat (length l) - 1) = Some x ∧
      x ≠ source.
Proof.
  induction 1 as [v Hs Hv Hp|v p l Hs Hv Hp H1 IH];
    intros fuel rev len Hfuel Hlen Hrev; simpl in Hfuel, Hrev;
    (destruct fuel as [|fuel]; [lia|]); simpl;
    replace (v =? -1) with false by lia;
    rewrite Set_in_range by lia; simpl;
    replace (v =? source) with false by lia;
    rewrite (Get_lookup _ _ _ Hv Hp); simpl.
  - destruct fuel; simpl; exists (<[Z.to_nat len := v]> rev), v;
      (split_and!; [done|by rewrite length_insert| |done]);
      (replace (len + Z.of_nat 1 - 1) with len by lia;
       apply list_lookup_insert_eq; lia).
  - destruct (IH fuel (<[Z.to_nat len := v]> rev) (len + 1))
      as (rev' & x & Hrun & Hlen' & Hx & Hxs);
      [lia|lia|rewrite length_insert; lia|].
    exists rev', x. rewrite Hrun. rewrite length_insert in Hlen'.
    split_and!; [f_equal; f_equal; lia|done| |done].
    rewrite <-Hx. f_equal. lia.
Qed.
End back_walk.

(** The budget of [walk_back] is never used up: the write to [rev] fails
    first. *)
Lemma walk_back_no_timeout fuel source parent v rev len :
  (Z.to_nat (Z.of_nat (length rev) - len) < fuel)%nat →
  walk_back fuel source parent v rev len ≠ Timeout.
Proof.
  revert v rev len. induction fuel as [|fuel IH]; intros v rev len Hfuel; [lia|].
  simpl. destruct (v =? -1); [done|].
  destruct (decide (0 ≤ len < Z.of_nat (length rev))) as [Hlen|Hlen];
    [|by rewrite Set_out_of_range].
  rewrite Set_in_range by done. monad_step.
  destruct (v =? source); [done|].
  destruct (decide (0 ≤ v < Z.of_nat (length parent))) as [Hv|Hv];
    [|by rewrite Get_out_of_range].
  destruct (Get_in_range parent v Hv) as (v' & -> & _). monad_step.
  apply IH. rewrite length_insert. lia.
Qed.

Lemma restore_path_out_of_range source target parent :
  ¬ in_range (DynamicArray.GetSize parent) target →
  restore_path source target parent = Ok [].
Proof.
  unfold in_range, restore_path. intros H.
  by replace ((target <? 0) || (target >=? DynamicArray.GetSize parent))
    with true by lia.
Qed.

Lemma restore_path_reaches_none source target parent :
  reaches_none source parent target →
  restore_path source target parent = Ok [].
Proof.
  intros H. apply reaches_none_trace in H as [l Hl].
  pose proof (back_trace_length _ _ _ _ Hl) as Hlen.
  pose proof (walk_back_trace _ _ _ _ Hl) as Hwalk.
  unfold restore_path, DynamicArray.GetSize, DynamicArray.make.
  destruct Hl as [v Hs Hv Hp|v p l Hs Hv Hp Hl];
    apply lookup_lt_Some in Hp as Hlt;
    replace ((v <? 0) || (v >=? Z.of_nat (length parent))) with false by lia;
    rewrite (Get_lookup _ _ _ Hv Hp); monad_step.
  - by replace (v =? source) with false by lia.
  - assert (0 ≤ p) by (inversion Hl; done).
    replace (p =? -1) with false by lia. cbn [andb].
    destruct (Hwalk (S (Z.to_nat (Z.of_nat (length parent))))
                (replicate (Z.to_nat (Z.of_nat (length parent))) 0) 0)
      as (rev' & x & -> & Hrev' & Hx & Hxs);
      [simpl in *; lia|done|rewrite length_replicate; simpl in *; lia|].
    monad_step. rewrite Z.add_0_l in *.
    replace (Z.of_nat (length (v :: l)) =? 0) with false by (simpl; lia).
    rewrite (Get_lookup _ _ x) by (done || (simpl; lia)). monad_step.
    by replace (x =? source) with false by lia.
Qed.

Lemma restore_path_self source parent :
  in_range (DynamicArray.GetSize parent) source →
  restore_path source source parent = Ok [source].
Proof.
  unfold in_range, restore_path, DynamicArray.GetSize, DynamicArray.make.
  intros Hs.
  replace ((source <? 0) || (source >=? Z.of_nat (length parent)))
    with false by lia.
  destruct (Get_in_range parent source) as (pt & -> & _); [done|]. simpl.
  rewrite !Z.eqb_refl, andb_false_r.
  replace (source =? -1) with false by lia.
  rewrite Set_in_range by (rewrite length_replicate; lia). monad_step.
  set (rev := <[Z.to_nat 0 := source]> _).
  assert (rev !! Z.to_nat 0 = Some source) as Hrev
    by (apply list_lookup_insert_eq; rewrite length_replicate; lia).
  change (0 + 1 =? 0) with false. cbn match.
  change (0 + 1 - 1) with 0. rewrite (Get_lookup _ _ _ (Z.le_refl 0) Hrev).
  monad_step. rewrite Z.eqb_refl. cbn [negb].
  change (seqZ 0 (0 + 1)) with [0]. cbn [for_each].
  change (0 - 0) with 0. rewrite (Get_lookup _ _ _ (Z.le_refl 0) Hrev).
  done.
Qed.

(** C7, amended. If [target] is outside [0, n), or the backward walk from
    [target] reaches [-1] without passing through [source], [restore_path]
    returns the empty sequence and throws nothing; and whenever [target]
    equals [source] and lies in [0, n), it returns [[source]]. *)
Theorem restore_path_spec (source target : Vertex) (parent : list Vertex) :
  (¬ in_range (DynamicArray.GetSize parent) target ∨
   reaches_none source parent target →
   restore_path source target parent = Ok []) ∧
  (target = source → in_range (DynamicArray.GetSize parent) target →
   restore_path source target parent = Ok [source]).
Proof.
  split.
  - intros [H|H]; [by apply restore_path_out_of_range|].
    by apply restore_path_reaches_none.
  - intros -> H. by apply restore_path_self.
Qed.

Lemma restore_path_spec_witness :
  restore_path 0 3 [-1; 0; -1; 2] = Ok [] ∧
  restore_path 1 1 [-1; 0; -1; 2] = Ok [1].
Proof.
  split.
  - apply (restore_path_spec 0 3 [-1; 0; -1; 2]). right.
    eapply reaches_none_next; [lia|lia|reflexivity|].
    apply reaches_none_here; [lia|lia|reflexivity].
  - apply (restore_path_spec 1 1 [-1; 0; -1; 2]); [reflexivity|].
    unfold in_range, DynamicArray.GetSize. simpl. lia.
Defined.

(** Without the range condition the second half of C7 fails: for
    [target = source] out of range the range check comes first and the path
    is empty. *)
Lemma restore_path_self_out_of_range :
  ¬ in_range (DynamicArray.GetSize [-1; -1; -1]) 5 ∧
  restore_path 5 5 [-1; -1; -1] = Ok [] ∧
  restore_path 5 5 [-1; -1; -1] ≠ Ok [5].
Proof.
  split; [unfold in_range, DynamicArray.GetSize; simpl; lia|].
  split; [reflexivity|discriminate].
Qed.

(** ** Bellman-Ford *)

Lemma wf_neighbors g u e :
  wf_graph g → e ∈ neighbors g u → in_range (n_ g) (to e).
Proof.
  intros (_ & _ & Hall) He. unfold neighbors in He.
  destruct (adj_ g !! Z.to_nat u) as [l|] eqn:Hl; simpl in He;
    [|by apply elem_of_nil in He].
  eapply Forall_lookup_1 in Hall; [|done].
  by eapply Forall_forall in Hall.
Qed.

Lemma collect_from_ok n m u neigh edges :
  in_range n u → Forall (λ e, in_range n (to e)) neigh →
  Forall (bf_edge_ok n) edges →
  Forall (bf_edge_ok n) (collect_from m u neigh edges).
Proof.
  intros Hu Hneigh. revert edges.
  induction Hneigh as [|e neigh He _ IH]; intros edges Hedges; simpl; [done|].
  apply IH. destruct (_ <? m); [|done].
  apply Forall_app. split; [done|]. apply Forall_singleton. by split.
Qed.

(** The endpoints of every entry of the edge array are vertices. *)
Lemma bf_edge_list_ok g :
  wf_graph g → Forall (bf_edge_ok (n_ g)) (bf_edge_list g).
Proof.
  intros Hwf. unfold bf_edge_list, vertex_count.
  apply fold_left_invariant; [done|].
  intros edges u Hu Hedges. apply elem_of_seqZ in Hu.
  apply collect_from_ok; [unfold in_range; lia| |done].
  apply Forall_forall. intros e He. by eapply wf_neighbors.
Qed.

Section relaxation.
Variable n : Z.

Lemma bf_relax_ok st e :
  bf_sized n st → bf_edge_ok n e → ∃ st', bf_relax st e = Ok st' ∧ bf_sized n st'.
Proof.
  destruct st as [[d p] c]. intros [Hd Hp] [Hu Hv]. simpl in Hd, Hp.
  unfold bf_relax, in_range in *.
  destruct (Get_in_range d (bf_u e)) as (du & -> & _); [lia|]. monad_step.
  destruct (is_INF du); [by eexists|].
  destruct (Get_in_range d (bf_v e)) as (dv & -> & _); [lia|]. monad_step.
  destruct (wltb _ dv); [|by eexists].
  rewrite !Set_in_range by lia. monad_step.
  eexists. split; [done|]. split; simpl; rewrite length_insert; done.
Qed.

Lemma bf_pass_ok edges st :
  bf_sized n st → Forall (bf_edge_ok n) edges →
  ∃ st', for_each bf_relax edges st = Ok st' ∧ bf_sized n st'.
Proof.
  intros Hst Hedges. apply for_each_invariant; [done|].
  intros s e He Hs. apply bf_relax_ok; [done|].
  by eapply Forall_forall in Hedges.
Qed.

Lemma bf_main_ok passes edges d p :
  bf_sized n (d, p, false) → Forall (bf_edge_ok n) edges →
  ∃ d' p', bf_main passes edges (d, p) = Ok (d', p') ∧
           bf_sized n (d', p', false).
Proof.
  intros Hst Hedges. revert d p Hst.
  induction passes as [|passes IH]; intros d p Hst; simpl; [by eexists _, _|].
  destruct (bf_pass_ok edges (d, p, false)) as ([[d1 p1] c] & -> & Hst1);
    [done..|].
  monad_step. destruct c; [by apply IH|by eexists _, _].
Qed.

Lemma bf_detect_ok edges d :
  Z.of_nat (length d) = n → Forall (bf_edge_ok n) edges →
  ∃ b, bf_detect edges d = Ok b ∧
       (b = true ↔ ∃ e, e ∈ edges ∧ relaxable d e).
Proof.
  intros Hd. induction 1 as [|e edges [Hu Hv] _ (b & IH & Hb)]; simpl.
  - exists false. split; [done|]. split; [done|].
    intros (e & He & _). by apply elem_of_nil in He.
  - unfold in_range in *.
    destruct (Get_in_range d (bf_u e)) as (du & -> & Hdu); [lia|].
    monad_step.
    assert (¬ relaxable d e → (∃ e', e' ∈ e :: edges ∧ relaxable d e')
              ↔ ∃ e', e' ∈ edges ∧ relaxable d e') as Hskip.
    { intros Hne. split; intros (e' & He' & Hr).
      - apply elem_of_cons in He' as [->|He']; [done|by exists e'].
      - exists e'. split; [by right|done]. }
    destruct (is_INF du) eqn:Hinf.
    { exists b. split; [done|]. rewrite Hb, Hskip; [done|].
      intros (du' & dv' & Hdu' & _ & Hinf' & _). congruence. }
    destruct (Get_in_range d (bf_v e)) as (dv & -> & Hdv); [lia|].
    monad_step. destruct (wltb _ dv) eqn:Hlt.
    + exists true. split; [done|]. split; [|done]. intros _.
      exists e. split; [by left|]. by exists du, dv.
    + exists b. split; [done|]. rewrite Hb, Hskip; [done|].
      intros (du' & dv' & Hdu' & Hdv' & _ & Hlt'). congruence.
Qed.
End relaxation.

(** [bellman_ford] on a well-formed graph from a valid source: no exception,
    and the flag records whether an entry of the edge array is relaxable. *)
Lemma bellman_ford_run (g : Graph) (source : Vertex) :
  wf_graph g → in_range (vertex_count g) source →
  ∃ res d0,
    bellman_ford g source = Ok res ∧
    DynamicArray.Set_ (replicate (Z.to_nat (vertex_count g)) INF) source W0
      = Ok d0 ∧
    bf_main (Z.to_nat (vertex_count g - 1)) (bf_edge_list g)
      (d0, replicate (Z.to_nat (vertex_count g)) (-1))
      = Ok (dist res, parent res) ∧
    (has_negative_cycle res = true ↔
     ∃ e, e ∈ bf_edge_list g ∧ relaxable (dist res) e).
Proof.
  intros Hwf Hs. pose proof Hwf as (Hn & _ & _).
  unfold bellman_ford, vertex_count, in_range in *.
  rewrite init_result_ok by done. monad_step.
  replace ((source <? 0) || (source >=? n_ g)) with false by lia.
  cbn [dist parent].
  rewrite Set_in_range by (rewrite length_replicate; lia). monad_step.
  pose proof (bf_edge_list_ok g Hwf) as Hedges.
  destruct (bf_main_ok (n_ g) (Z.to_nat (n_ g - 1)) (bf_edge_list g)
              (<[Z.to_nat source := W0]> (replicate (Z.to_nat (n_ g)) INF))
              (replicate (Z.to_nat (n_ g)) (-1)))
    as (d & p & Hmain & Hd & Hp); [|done|].
  { split; simpl; rewrite ?length_insert, length_replicate; lia. }
  rewrite Hmain. monad_step.
  destruct (bf_detect_ok (n_ g) (bf_edge_list g) d) as (b & -> & Hb);
    [done..|].
  monad_step. by eexists (mkResult d p b), _.
Qed.

(** C3. For a well-formed graph and a valid source, [bellman_ford] returns a
    result whose [dist] and [parent] are the arrays left by the main
    relaxation passes, and whose flag [has_negative_cycle] is true exactly
    when some entry of the edge array can still be relaxed against that
    [dist]. On the 3-cycle [0→1 (1), 1→2 (-2), 2→0 (-1)] from source [0] the
    call returns a result and the flag is true. *)
Theorem bellman_ford_negative_cycle_flag :
  (∀ (g : Graph) (source : Vertex),
     wf_graph g → in_range (vertex_count g) source →
     ∃ res d0,
       bellman_ford g source = Ok res ∧
       DynamicArray.Set_ (replicate (Z.to_nat (vertex_count g)) INF) source W0
         = Ok d0 ∧
       bf_main (Z.to_nat (vertex_count g - 1)) (bf_edge_list g)
         (d0, replicate (Z.to_nat (vertex_count g)) (-1))
         = Ok (dist res, parent res) ∧
       (has_negative_cycle res = true ↔
        ∃ e, e ∈ bf_edge_list g ∧ relaxable (dist res) e)) ∧
  bellman_ford negative_cycle_graph 0
    = Ok (mkResult [Fin (-4); Fin (-1); Fin (-3)] [2; 0; 1] true).
Proof. split; [apply bellman_ford_run|reflexivity]. Qed.

Lemma bellman_ford_negative_cycle_flag_witness :
  ∃ res d0,
    bellman_ford negative_cycle_graph 0 = Ok res ∧
    DynamicArray.Set_
      (replicate (Z.to_nat (vertex_count negative_cycle_graph)) INF) 0 W0
      = Ok d0 ∧
    bf_main (Z.to_nat (vertex_count negative_cycle_graph - 1))
      (bf_edge_list negative_cycle_graph)
      (d0, replicate (Z.to_nat (vertex_count negative_cycle_graph)) (-1))
      = Ok (dist res, parent res) ∧
    (has_negative_cycle res = true ↔
     ∃ e, e ∈ bf_edge_list negative_cycle_graph ∧ relaxable (dist res) e).
Proof.
  apply (proj1 bellman_ford_negative_cycle_flag negative_cycle_graph 0).
  - by_evaluation.
  - by_evaluation.
Defined.

(** ** Dijkstra: the main loop ends within its budget *)

Lemma extract_min_length q x q' :
  HashTablePriorityQueue.extract_min q = Some (x, q') →
  length q = S (length q').
Proof.
  revert x q'. induction q as [|y q IH]; intros x q'; simpl; [done|].
  destruct (HashTablePriorityQueue.extract_min q) as [[z r]|] eqn:E.
  - specialize (IH _ _ eq_refl).
    destruct (wltb z.2 y.2); intros [= <- <-]; simpl; lia.
  - intros [= <- <-]. destruct q as [|? q]; [done|].
    simpl in E. by destruct (HashTablePriorityQueue.extract_min q) as [[??]|];
      [destruct (wltb _ _)|].
Qed.

Lemma Dequeue_nonempty q :
  HashTablePriorityQueue.IsEmpty q = false →
  ∃ u q', HashTablePriorityQueue.Dequeue q = Ok (u, q') ∧
          length q = S (length q').
Proof.
  intros Hq. unfold HashTablePriorityQueue.Dequeue.
  destruct (HashTablePriorityQueue.extract_min q) as [[[u w] q']|] eqn:E.
  - exists u, q'. split; [done|]. by eapply extract_min_length.
  - destruct q as [|y q]; [done|]. simpl in E.
    by destruct (HashTablePriorityQueue.extract_min q) as [[??]|];
      [destruct (wltb _ _)|].
Qed.

Lemma pending_mark adj used (i : nat) l :
  adj !! i = Some l → used !! i = Some false →
  (pending adj (<[i := true]> used) + S (length l))%nat = pending adj used.
Proof.
  unfold pending. revert used i.
  induction adj as [|l' adj IH]; intros [|b used] [|i] Hl Hu;
    simplify_eq/=; [lia|].
  rewrite <-(IH used i) by done. destruct b; lia.
Qed.

Lemma pending_init adj :
  pending adj (replicate (length adj) false)
  = (length adj + length (concat adj))%nat.
Proof.
  unfold pending. induction adj as [|l adj IH]; simpl; [done|].
  rewrite IH, length_app. lia.
Qed.

Section dijkstra_total.
Variable g : Graph.
Hypothesis Hwf : wf_graph g.

Lemma dijkstra_relax_ok u st e :
  dsized (n_ g) st → in_range (n_ g) u → in_range (n_ g) (to e) →
  ∃ st', dijkstra_relax u st e = Ok st' ∧ dsized (n_ g) st' ∧
         d_used st' = d_used st ∧
         (length (d_pq st') ≤ S (length (d_pq st)))%nat.
Proof.
  intros (Hd & Hp & Hused) Hu He. unfold dijkstra_relax, in_range in *.
  destruct (wltb (weight e) W0); [exists st; split_and!; (done || lia)|].
  destruct (Get_in_range (d_dist st) u) as (du & -> & _); [lia|]. monad_step.
  destruct (is_INF du); [exists st; split_and!; (done || lia)|].
  destruct (Get_in_range (d_dist st) (to e)) as (cur & -> & _); [lia|].
  monad_step.
  destruct (wltb _ cur); [|exists st; split_and!; (done || lia)].
  rewrite !Set_in_range by lia. monad_step.
  eexists. split; [done|]. unfold dsized; simpl.
  rewrite !length_insert. unfold HashTablePriorityQueue.Enqueue.
  rewrite length_app. simpl. split_and!; (done || lia).
Qed.

Lemma dijkstra_relax_all_ok u neigh st :
  dsized (n_ g) st → in_range (n_ g) u →
  Forall (λ e, in_range (n_ g) (to e)) neigh →
  ∃ st', for_each (dijkstra_relax u) neigh st = Ok st' ∧
         dsized (n_ g) st' ∧ d_used st' = d_used st ∧
         (length (d_pq st') ≤ length (d_pq st) + length neigh)%nat.
Proof.
  intros Hst Hu Hneigh. revert st Hst.
  induction Hneigh as [|e neigh He _ IH]; intros st Hst; simpl.
  - exists st. split_and!; (done || lia).
  - destruct (dijkstra_relax_ok u st e) as (st1 & -> & Hst1 & Hu1 & Hq1);
      [done..|].
    monad_step. destruct (IH st1 Hst1) as (st2 & -> & Hst2 & Hu2 & Hq2).
    exists st2. split_and!; [done|done|congruence|lia].
Qed.

(** Each iteration dequeues one entry, and only the first visit of a vertex
    enqueues, at most once per adjacency entry: [queue length + pending]
    bounds the number of iterations left. *)
Lemma dijkstra_loop_ok fuel st :
  dsized (n_ g) st →
  (length (d_pq st) + pending (adj_ g) (d_used st) ≤ fuel)%nat →
  ∃ st', dijkstra_loop fuel g st = Ok st' ∧ dsized (n_ g) st'.
Proof.
  pose proof Hwf as (Hn & Hlen & _).
  revert st. induction fuel as [|fuel IH]; intros st Hst Hfuel;
    destruct (HashTablePriorityQueue.IsEmpty (d_pq st)) eqn:Hq;
    simpl; rewrite Hq; [by exists st| |by exists st|].
  { destruct (d_pq st); [done|simpl in Hfuel; lia]. }
  destruct (Dequeue_nonempty _ Hq) as (u & pq' & -> & Hpq). monad_step.
  unfold vertex_count. destruct Hst as (Hd & Hp & Hused).
  destruct ((u <? 0) || (u >=? n_ g)) eqn:Hu.
  { apply IH; [done|simpl; lia]. }
  cbn [d_used]. unfold used_at.
  destruct (lookup_lt_is_Some_2 (d_used st) (Z.to_nat u)) as [b Hb]; [lia|].
  rewrite Hb. simpl. destruct b.
  { apply IH; [done|simpl; lia]. }
  destruct (lookup_lt_is_Some_2 (adj_ g) (Z.to_nat u)) as [l Hl]; [lia|].
  pose proof (pending_mark _ _ _ _ Hl Hb) as Hmark.
  destruct (dijkstra_relax_all_ok u (neighbors g u)
              (mkDState (d_dist st) (d_parent st) pq'
                 (<[Z.to_nat u := true]> (d_used st))))
    as (st3 & -> & Hst3 & Hu3 & Hq3).
  - unfold dsized; simpl. by rewrite length_insert.
  - unfold in_range. lia.
  - apply Forall_forall. intros e He. by eapply wf_neighbors.
  - monad_step. apply IH; [done|].
    simpl in Hu3, Hq3. rewrite Hu3.
    unfold neighbors in Hq3. rewrite Hl in Hq3. simpl in Hq3. lia.
Qed.

(** [dijkstra] returns on every well-formed graph: no exception, and the
    budget of the main loop is not used up. *)
Lemma dijkstra_ok source :
  ∃ res, dijkstra g source = Ok res ∧
         Z.of_nat (length (dist res)) = n_ g ∧
         Z.of_nat (length (parent res)) = n_ g ∧
         has_negative_cycle res = false.
Proof.
  pose proof Hwf as (Hn & Hlen & _).
  unfold dijkstra, vertex_count. rewrite init_result_ok by done. monad_step.
  destruct ((source <? 0) || (source >=? n_ g)) eqn:Hs.
  { eexists. split; [done|]. simpl. rewrite !length_replicate. lia. }
  cbn [dist parent has_negative_cycle].
  rewrite Set_in_range by (rewrite length_replicate; lia). monad_step.
  edestruct dijkstra_loop_ok as (st & -> & Hd & Hp & _).
  - unfold dsized; simpl. rewrite length_insert, !length_replicate. lia.
  - simpl. rewrite <-Hlen, pending_init. unfold dijkstra_budget.
    rewrite total_entries_concat by done. lia.
  - monad_step. by eexists.
Qed.
End dijkstra_total.

Lemma bellman_ford_ok g source :
  wf_graph g →
  ∃ res, bellman_ford g source = Ok res ∧
         Z.of_nat (length (dist res)) = n_ g ∧
         Z.of_nat (length (parent res)) = n_ g.
Proof.
  intros Hwf. pose proof Hwf as (Hn & _ & _).
  destruct (decide (in_range (vertex_count g) source)) as [Hs|Hs].
  - destruct (bellman_ford_run g source Hwf Hs)
      as (res & d0 & Hres & Hd0 & Hmain & _).
    exists res. split; [done|].
    apply Set_inv in Hd0 as [_ ->].
    destruct (bf_main_ok (n_ g) (Z.to_nat (vertex_count g - 1)) (bf_edge_list g)
                (<[Z.to_nat source := W0]>
                   (replicate (Z.to_nat (vertex_count g)) INF))
                (replicate (Z.to_nat (vertex_count g)) (-1)))
      as (d & p & Hmain' & Hd & Hp).
    + unfold vertex_count. split; simpl;
        rewrite ?length_insert, length_replicate; lia.
    + by apply bf_edge_list_ok.
    + rewrite Hmain in Hmain'. injection Hmain' as -> ->. done.
  - destruct (invalid_source_result g source Hn Hs) as [_ Hres].
    eexists. split; [exact Hres|]. simpl. rewrite !length_replicate.
    unfold vertex_count in *. lia.
Qed.

(** ** Comparator *)

Lemma same_step_close64 x y :
  (negb (Bool.eqb (is_INF x) (is_INF y)) = false ∧
   negb (is_INF x) && abs_diff_exceeds x y = false) ↔ close64 x y.
Proof.
  unfold close64, wle, INF. destruct x as [p|], y as [q|]; simpl.
  - split.
    + intros [_ H]. right. by exists p, q.
    + intros [[? _]|(p' & q' & [= <-] & [= <-] & H)]; done.
  - split; [by intros [? _]|]. intros [[? _]|(? & ? & _ & ? & _)]; done.
  - split; [by intros [? _]|]. intros [[_ ?]|(? & ? & ? & _)]; done.
  - split; [by left|done].
Qed.

Lemma same_loop_spec idx d b :
  Forall (λ i, 0 ≤ i < Z.of_nat (length d) ∧ 0 ≤ i < Z.of_nat (length b)) idx →
  ∃ s, same_loop idx d b = Ok s ∧
       (s = true ↔
        ∀ i x y, i ∈ idx → d !! Z.to_nat i = Some x →
                 b !! Z.to_nat i = Some y → close64 x y).
Proof.
  induction 1 as [|i idx [Hd Hb] _ (s & IH & Hs)]; simpl.
  - exists true. split; [done|]. split; [|done].
    intros _ i x y Hi. by apply elem_of_nil in Hi.
  - destruct (Get_in_range d i Hd) as (x & -> & Hx).
    destruct (Get_in_range b i Hb) as (y & -> & Hy). monad_step.
    pose proof (same_step_close64 x y) as Hstep.
    destruct (negb (Bool.eqb (is_INF x) (is_INF y))) eqn:E1.
    { exists false. split; [done|]. split; [done|]. intros Hall.
      assert (close64 x y) as Hc by (eapply Hall; [by left|done..]).
      apply Hstep in Hc as [? _]. done. }
    destruct (negb (is_INF x) && abs_diff_exceeds x y) eqn:E2.
    { exists false. split; [done|]. split; [done|]. intros Hall.
      assert (close64 x y) as Hc by (eapply Hall; [by left|done..]).
      apply Hstep in Hc as [_ ?]. done. }
    exists s. split; [done|]. rewrite Hs. split.
    + intros Hall j x' y' Hj Hx' Hy'.
      apply elem_of_cons in Hj as [->|Hj]; [|by eapply Hall].
      simplify_eq. by apply Hstep.
    + intros Hall j x' y' Hj. apply Hall. by right.
Qed.

(** The loop that computes [same] decides agreement as [double]
    arithmetic tests it. *)
Lemma same_dist_agree d b :
  ∃ s, same_dist d b = Ok s ∧ (s = true ↔ agree64 d b).
Proof.
  unfold same_dist, DynamicArray.GetSize, agree64.
  destruct (Z.eqb_spec (Z.of_nat (length d)) (Z.of_nat (length b))) as [E|E].
  - destruct (same_loop_spec (seqZ 0 (Z.of_nat (length d))) d b)
      as (s & -> & Hs).
    { apply Forall_forall. intros i Hi. apply elem_of_seqZ in Hi. lia. }
    exists s. split; [done|]. rewrite Hs. split.
    + intros Hall. split; [lia|]. intros i x y Hx Hy.
      apply (Hall (Z.of_nat i)); rewrite ?Nat2Z.id; [|done..].
      apply elem_of_seqZ. apply lookup_lt_Some in Hx. lia.
    + intros [_ Hall] i x y _. apply Hall.
  - exists false. split; [done|]. split; [done|]. intros [? _]. lia.
Qed.

(** C8. For a well-formed graph and any source, both algorithms return and
    the comparator returns exactly two records, the first for Dijkstra and
    the second for Bellman-Ford. [ok] of the first is true exactly when the
    distance vector of the Dijkstra result is non-empty; [ok] of the second
    is true exactly when no negative cycle was flagged and the two distance
    vectors agree, the tolerance being tested as [double] arithmetic does:
    the vectors have the same length and, for every vertex, both distances
    are infinite, or both are finite and their difference, rounded to
    binary64, does not exceed the constant [1e-6] of type [double]. *)
Theorem comparator_records (clock : nat → Z) (g : Graph) (source : Vertex) :
  wf_graph g →
  ∃ res_d res_b rec_d rec_b,
    dijkstra g source = Ok res_d ∧ bellman_ford g source = Ok res_b ∧
    compare_algorithms_on_graph clock g source = Ok [rec_d; rec_b] ∧
    algorithm rec_d = "Dijkstra"%string ∧
    algorithm rec_b = "Bellman-Ford"%string ∧
    (ok rec_d = true ↔ dist res_d ≠ []) ∧
    (ok rec_b = true ↔
     has_negative_cycle res_b = false ∧ agree64 (dist res_d) (dist res_b)).
Proof.
  intros Hwf.
  destruct (dijkstra_ok g Hwf source) as (res_d & Hd & _).
  destruct (bellman_ford_ok g source Hwf) as (res_b & Hb & _).
  destruct (same_dist_agree (dist res_d) (dist res_b)) as (s & Hsame & Hs).
  exists res_d, res_b. eexists _, _.
  unfold compare_algorithms_on_graph. rewrite Hd, Hb. monad_step.
  rewrite Hsame. monad_step.
  split_and!; [done..| |].
  - simpl. unfold DynamicArray.GetSize. destruct (dist res_d); simpl; [done|].
    split; [done|]. intros _. apply Z.ltb_lt. lia.
  - simpl. rewrite andb_true_iff, negb_true_iff, Hs. done.
Qed.

Lemma comparator_records_witness :
  ∃ res_d res_b rec_d rec_b,
    dijkstra negative_cycle_graph 0 = Ok res_d ∧
    bellman_ford negative_cycle_graph 0 = Ok res_b ∧
    compare_algorithms_on_graph (λ k, Z.of_nat k) negative_cycle_graph 0
      = Ok [rec_d; rec_b] ∧
    algorithm rec_d = "Dijkstra"%string ∧
    algorithm rec_b = "Bellman-Ford"%string ∧
    (ok rec_d = true ↔ dist res_d ≠ []) ∧
    (ok rec_b = true ↔
     has_negative_cycle res_b = false ∧ agree64 (dist res_d) (dist res_b)).
Proof.
  apply (comparator_records (λ k, Z.of_nat k) negative_cycle_graph 0).
  by_evaluation.
Defined.

(** With the tolerance of C8 read as the exact [10^-6] the second
    equivalence fails. On the graph [0→1 (1e-6), 0→2 (0),
    2→1 (-2^-74)] from source [0], [dijkstra] skips the negative edge and
    leaves vertex [1] at [1e-6], [bellman_ford] brings it to [-2^-74] and
    flags nothing. The two distances differ by more than [10^-6], but
    their difference rounds to the [double] [1e-6], which does not exceed
    itself: the comparator reports Bellman-Ford as ok although the vectors
    do not agree within [10^-6]. *)
Lemma comparator_tolerance_rounded :
  wf_graph rounding_graph ∧
  ∃ res_d res_b rec_d rec_b,
    dijkstra rounding_graph 0 = Ok res_d ∧
    bellman_ford rounding_graph 0 = Ok res_b ∧
    compare_algorithms_on_graph (λ k, Z.of_nat k) rounding_graph 0
      = Ok [rec_d; rec_b] ∧
    ok rec_b = true ∧
    ¬ (has_negative_cycle res_b = false ∧ agree (dist res_d) (dist res_b)).
Proof.
  split; [by_evaluation|].
  eexists _, _, _, _.
  split_and!; [vm_compute; reflexivity..|].
  intros [_ [_ H]].
  destruct (H 1%nat _ _ eq_refl eq_refl)
    as [[? _]|(p & q & [= <-] & [= <-] & Hle)]; [done|].
  revert Hle. apply Qlt_not_le. vm_compute. reflexivity.
Qed.

(** ** The edge array of Bellman-Ford *)

Lemma collect_from_take m u neigh edges :
  collect_from m u neigh edges
  = edges ++ take (Z.to_nat m - length edges) (entries_from u neigh).
Proof.
  revert edges. induction neigh as [|e neigh IH]; intros edges; simpl.
  - by rewrite take_nil, app_nil_r.
  - rewrite IH. destruct (Z.ltb_spec (Z.of_nat (length edges)) m) as [Hlt|Hge].
    + rewrite length_app, <-app_assoc. simpl.
      replace (Z.to_nat m - length edges)%nat
        with (S (Z.to_nat m - (length edges + 1))) by lia.
      done.
    + replace (Z.to_nat m - length edges)%nat with 0%nat by lia. done.
Qed.

Lemma bf_edge_list_fold m (adj : list (list Edge)) (k : nat) :
  (k ≤ length adj)%nat →
  fold_left (λ edges u, collect_from m u (default [] (adj !! Z.to_nat u)) edges)
            (seqZ 0 (Z.of_nat k)) []
  = take (Z.to_nat m)
      (concat (imap (λ u neigh, entries_from (Z.of_nat u) neigh) (take k adj))).
Proof.
  induction k as [|k IH]; intros Hk.
  - simpl. by rewrite take_nil.
  - rewrite seqZ_S, fold_left_app, IH by lia. simpl.
    destruct (lookup_lt_is_Some_2 adj k) as [l Hl]; [lia|].
    replace (Z.to_nat (0 + Z.of_nat k)) with k by lia. rewrite Hl. simpl.
    rewrite (take_S_r _ _ _ Hl), imap_app, concat_app. simpl.
    rewrite length_take_le, Nat.add_0_r, app_nil_r by lia.
    rewrite collect_from_take, Z.add_0_l, take_app.
    set (A := concat _). f_equal. rewrite length_take.
    destruct (decide (length A ≤ Z.to_nat m)%nat) as [Hle|Hgt].
    + by rewrite Nat.min_r.
    + rewrite Nat.min_l by lia.
      replace (Z.to_nat m - length A)%nat with 0%nat by lia.
      by rewrite Nat.sub_diag.
Qed.

Lemma length_all_entries g :
  length (all_entries g) = length (concat (adj_ g)).
Proof.
  unfold all_entries.
  assert (∀ (f : nat → list Edge → list BFEdge) adj,
            (∀ i l, length (f i l) = length l) →
            length (concat (imap f adj)) = length (concat adj)) as Hgen.
  { intros f adj. revert f. induction adj as [|l adj IH]; intros f Hf; [done|].
    simpl. rewrite !length_app, Hf, IH; [done|]. intros i l'. apply Hf. }
  apply Hgen. intros i l. unfold entries_from. by rewrite length_fmap.
Qed.

(** The edge array holds the first [edge_count()] adjacency entries. *)
Lemma bf_edge_list_take g :
  wf_graph g →
  bf_edge_list g = take (Z.to_nat (edge_count g)) (all_entries g).
Proof.
  intros (Hn & Hlen & _). unfold bf_edge_list, neighbors, vertex_count.
  rewrite <-(Z2Nat.id (n_ g)) at 1 by done.
  rewrite bf_edge_list_fold by lia.
  by rewrite <-Hlen, firstn_all.
Qed.

(** On a directed graph the edge array holds every adjacency entry. *)
Lemma bf_edge_list_directed g :
  wf_graph g → directed_ g = true → bf_edge_list g = all_entries g.
Proof.
  intros Hwf Hd. rewrite bf_edge_list_take by done.
  destruct Hwf as (Hn & Hlen & _).
  unfold edge_count. rewrite Hd. simpl.
  rewrite total_entries_concat, <-length_all_entries by done.
  rewrite Nat2Z.id. apply firstn_all.
Qed.

(** On an undirected graph it holds only the first half of them. *)
Lemma bf_edge_list_undirected_length g :
  wf_graph g → directed_ g = false →
  Z.of_nat (length (bf_edge_list g)) = Z.of_nat (length (all_entries g)) / 2.
Proof.
  intros Hwf Hd. rewrite bf_edge_list_take by done.
  destruct Hwf as (Hn & Hlen & _).
  unfold edge_count. rewrite Hd. simpl.
  rewrite total_entries_concat, <-length_all_entries by done.
  rewrite length_take.
  assert (0 ≤ Z.of_nat (length (all_entries g)) / 2
            ≤ Z.of_nat (length (all_entries g))).
  { split; [apply Z.div_pos; lia|]. apply Z.div_le_upper_bound; lia. }
  lia.
Qed.

Lemma elem_of_concat {A} (x : A) (ls : list (list A)) :
  x ∈ concat ls ↔ ∃ l, x ∈ l ∧ l ∈ ls.
Proof.
  induction ls as [|l ls IH]; simpl.
  - split; [by intros ?%elem_of_nil|]. by intros (? & _ & ?%elem_of_nil).
  - rewrite elem_of_app, IH. split.
    + intros [H|(l' & H & Hl')]; [exists l; split; [done|by left]|].
      exists l'. split; [done|by right].
    + intros (l' & H & [->|Hl']%elem_of_cons); [by left|].
      right. by exists l'.
Qed.

Lemma elem_of_all_entries g e :
  e ∈ all_entries g ↔
  ∃ u x, 0 ≤ u ∧ adj_ g !! Z.to_nat u = Some (neighbors g u) ∧
         x ∈ neighbors g u ∧ e = mkBFEdge u (to x) (weight x).
Proof.
  unfold all_entries. rewrite elem_of_concat. split.
  - intros (l & He & Hl).
    apply elem_of_lookup_imap in Hl as (i & neigh & -> & Hi).
    unfold entries_from in He. apply list_elem_of_fmap in He as (x & -> & Hx).
    exists (Z.of_nat i), x. unfold neighbors. rewrite Nat2Z.id, Hi. simpl.
    split_and!; (done || lia).
  - intros (u & x & Hu & Hl & Hx & ->).
    exists (entries_from u (neighbors g u)). split.
    + unfold entries_from. apply list_elem_of_fmap. by exists x.
    + apply elem_of_lookup_imap. exists (Z.to_nat u), (neighbors g u).
      rewrite Z2Nat.id by done. done.
Qed.

(** ** Early exit of the main loop *)

Lemma bf_relax_changed st e st' :
  bf_relax st e = Ok st' →
  (st.2 = true → st'.2 = true) ∧ (st'.2 = false → st' = st).
Proof.
  destruct st as [[d p] c]. unfold bf_relax.
  destruct (DynamicArray.Get d (bf_u e)) as [du| |]; [|done..]. monad_step.
  destruct (is_INF du); [by intros [= <-]|].
  destruct (DynamicArray.Get d (bf_v e)) as [dv| |]; [|done..]. monad_step.
  destruct (wltb _ dv); [|by intros [= <-]].
  destruct (DynamicArray.Set_ d _ _); [|done..]. monad_step.
  destruct (DynamicArray.Set_ p _ _); [|done..]. monad_step.
  by intros [= <-].
Qed.

Lemma bf_pass_changed edges st st' :
  for_each bf_relax edges st = Ok st' →
  (st.2 = true → st'.2 = true) ∧ (st'.2 = false → st' = st).
Proof.
  revert st. induction edges as [|e edges IH]; intros st; simpl.
  - by intros [= <-].
  - destruct (bf_relax st e) as [st1| |] eqn:E; [|done..]. monad_step.
    intros Hrun. apply bf_relax_changed in E as [E1 E2].
    apply IH in Hrun as [H1 H2]. split; [tauto|].
    intros Hc. specialize (H2 Hc). subst st'. by apply E2.
Qed.

Lemma bf_main_no_break_fixed passes edges d p :
  for_each bf_relax edges (d, p, false) = Ok (d, p, false) →
  bf_main_no_break passes edges (d, p) = Ok (d, p).
Proof.
  intros Hpass. induction passes as [|passes IH]; simpl; [done|].
  rewrite Hpass. monad_step. done.
Qed.

(** Leaving the main loop after a pass without change gives the same
    [dist] and [parent] as running all [n - 1] passes. *)
Lemma bf_main_early_exit passes edges st :
  bf_main passes edges st = bf_main_no_break passes edges st.
Proof.
  revert st. induction passes as [|passes IH]; intros [d p]; simpl; [done|].
  destruct (for_each bf_relax edges (d, p, false)) as [[[d' p'] c]| |] eqn:E;
    [|done..].
  monad_step. destruct c; [apply IH|].
  pose proof (bf_pass_changed _ _ _ E) as [_ E']. specialize (E' eq_refl).
  injection E' as -> ->. symmetry. by apply bf_main_no_break_fixed.
Qed.

(** ** Random graphs *)



(** With probability [1] every pair [u < v] of an undirected graph gets its
    edge, whatever the draws (they never exceed [1]). *)
Section full_probability.
Variables (gen : Engine) (min_w max_w : Weight).
Hypothesis Hgen : ∀ j, (gen j <= 1)%Q.





End full_probability.




(** ** The order on weights *)

Lemma Qltb_lt x y : Qltb x y = true ↔ (x < y)%Q.
Proof.
  unfold Qltb. rewrite negb_true_iff, <-not_true_iff_false, Qle_bool_iff.
  split; [apply Qnot_le_lt|apply Qlt_not_le].
Qed.

Lemma Qltb_ge x y : Qltb x y = false ↔ (y <= x)%Q.
Proof. unfold Qltb. by rewrite negb_false_iff, Qle_bool_iff. Qed.

Ltac weight_order :=
  unfold weq, wle, negative, W0, INF in *;
  repeat match goal with
         | x : Weight |- _ => destruct x
         end;
  simpl in *;
  repeat match goal with
         | H : Qltb _ _ = true |- _ => apply Qltb_lt in H
         | H : Qltb _ _ = false |- _ => apply Qltb_ge in H
         | H : _ ∧ _ |- _ => destruct H
         | H : ¬ (Qltb _ _ = true) |- _ => rewrite Qltb_lt in H
         | H : Fin _ = Fin _ |- _ => injection H as H
         end;
  try discriminate; try done;
  rewrite ?Qltb_lt, ?Qltb_ge;
  try split; rewrite ?Qltb_lt, ?Qltb_ge; subst; try lra.

Lemma wle_refl a : wle a a.
Proof. weight_order. Qed.

Lemma wle_trans a b c : wle a b → wle b c → wle a c.
Proof. intros. weight_order. Qed.

Lemma wltb_wle a b : wltb a b = true → wle a b.
Proof. intros. weight_order. Qed.

Lemma wle_INF a : wle a INF.
Proof. weight_order. Qed.

Lemma wle_Fin_inv a q : wle a (Fin q) → is_INF a = false.
Proof. intros. weight_order. Qed.

Lemma wadd_mono a b w : wle a b → wle (wadd a w) (wadd b w).
Proof. intros. weight_order. Qed.

Lemma weq_close a b : weq a b → close a b.
Proof.
  unfold close. intros [H1 H2]. destruct a as [p|], b as [q|].
  - right. exists p, q. split_and!; [done..|].
    assert ((p <= q)%Q ∧ (q <= p)%Q) as [Hpq Hqp] by weight_order.
    unfold tolerance. apply Qabs_case; intros _; lra.
  - weight_order.
  - weight_order.
  - by left.
Qed.

(** The constant [1e-6] of type [double] is [4722366482869645 / 2^72], a
    little below [10^-6]. *)
Lemma tolerance64_value :
  tolerance64 = Fin (4722366482869645 # 4722366482869645213696).
Proof. vm_compute. reflexivity. Qed.

Lemma round64_zero q : (q <= 0)%Q → round64 q = Fin 0.
Proof.
  intros Hq. unfold round64. apply Qle_bool_iff in Hq. by rewrite Hq.
Qed.

Lemma weq_close64 a b : weq a b → close64 a b.
Proof.
  unfold close64. intros [H1 H2]. destruct a as [p|], b as [q|].
  - right. exists p, q. split_and!; [done..|].
    assert ((p <= q)%Q ∧ (q <= p)%Q) as [Hpq Hqp] by weight_order.
    rewrite round64_zero; [reflexivity|].
    apply Qabs_case; intros _; lra.
  - weight_order.
  - weight_order.
  - by left.
Qed.

(** Vectors that are equal as numbers agree, in exact terms and as the
    comparator tests it. *)
Lemma weq_agree d b :
  length d = length b →
  (∀ (i : nat) x y, d !! i = Some x → b !! i = Some y → weq x y) →
  agree d b ∧ agree64 d b.
Proof.
  intros Hlen Hall. split; (split; [done|]); intros i x y Hx Hy.
  - apply weq_close. by eapply Hall.
  - apply weq_close64. by eapply Hall.
Qed.

(** ** Walks *)

Lemma cost_app c es1 es2 : cost c (es1 ++ es2) = cost (cost c es1) es2.
Proof. apply fold_left_app. Qed.

Lemma cost_snoc c es e : cost c (es ++ [e]) = wadd (cost c es) (bf_w e).
Proof. by rewrite cost_app. Qed.

Lemma cost_mono c c' es : wle c c' → wle (cost c es) (cost c' es).
Proof.
  revert c c'. induction es as [|e es IH]; intros c c' H; simpl; [done|].
  by apply IH, wadd_mono.
Qed.

Lemma cost_nonneg E c es :
  nonnegative E → Forall (λ e, e ∈ E) es → wle c (cost c es).
Proof.
  intros HE. revert c. induction es as [|e es IH]; intros c Hes; simpl.
  - apply wle_refl.
  - apply Forall_cons in Hes as [He Hes].
    eapply wle_trans; [|by apply IH].
    eapply Forall_forall in HE; [|done]. revert HE. generalize (bf_w e).
    clear. intros w HE. weight_order.
Qed.

Lemma chain_app s es1 es2 v :
  chain s (es1 ++ es2) v ↔ ∃ x, chain s es1 x ∧ chain x es2 v.
Proof.
  revert s. induction es1 as [|e es1 IH]; intros s; simpl.
  - split; [by exists s|]. by intros (x & -> & H).
  - rewrite IH. split.
    + intros (Hu & x & H1 & H2). exists x. done.
    + intros (x & (Hu & H1) & H2). split; [done|]. by exists x.
Qed.

Lemma walk_nil E s : walk E s [] s.
Proof. by split. Qed.

Lemma walk_snoc E s es e :
  walk E s es (bf_u e) → e ∈ E → walk E s (es ++ [e]) (bf_v e).
Proof.
  intros [Hes Hc] He. split.
  - apply Forall_app. split; [done|]. by apply Forall_singleton.
  - apply chain_app. exists (bf_u e). by split.
Qed.

Lemma walk_snoc_inv E s es e v :
  walk E s (es ++ [e]) v → walk E s es (bf_u e) ∧ e ∈ E ∧ bf_v e = v.
Proof.
  intros [Hes Hc]. apply Forall_app in Hes as [Hes He].
  rewrite Forall_singleton in He.
  apply chain_app in Hc as (x & Hx & Hu & Hv). simpl in Hv. subst x.
  split_and!; [by split|done..].
Qed.

(** *** A walk through more than [n] vertices repeats one of them *)

Lemma repeated_element (l : list Z) :
  ¬ NoDup l →
  ∃ (i j : nat) x, (i < j)%nat ∧ l !! i = Some x ∧ l !! j = Some x.
Proof.
  induction l as [|a l IH]; intros Hdup.
  - destruct Hdup. constructor.
  - destruct (decide (a ∈ l)) as [Hin|Hnin].
    + apply list_elem_of_lookup in Hin as [j Hj].
      exists 0%nat, (S j), a. split_and!; [lia|done..].
    + destruct IH as (i & j & x & Hij & Hi & Hj).
      { intros Hl. apply Hdup. by constructor. }
      exists (S i), (S j), x. split_and!; [lia|done..].
Qed.

Lemma chain_split s es v (i : nat) :
  chain s es v → (i ≤ length es)%nat →
  ∃ x, (s :: (bf_v <$> es)) !! i = Some x ∧
       chain s (take i es) x ∧ chain x (drop i es) v.
Proof.
  revert s i. induction es as [|e es IH]; intros s i Hc Hi; simpl in *.
  - assert (i = 0%nat) as -> by lia. exists s. by subst.
  - destruct i as [|i]; [by exists s|]. destruct Hc as [Hu Hc].
    destruct (IH (bf_v e) i Hc) as (x & Hx & H1 & H2); [lia|].
    exists x. simpl. done.
Qed.

Lemma chain_repeat n s es v :
  in_range n s → Forall (λ e, in_range n (bf_v e)) es → chain s es v →
  (Z.to_nat n ≤ length es)%nat →
  ∃ es1 es2 es3 x,
    es = es1 ++ es2 ++ es3 ∧ es2 ≠ [] ∧
    chain s es1 x ∧ chain x es2 x ∧ chain x es3 v.
Proof.
  intros Hs Hes Hc Hlen.
  destruct (repeated_element (s :: (bf_v <$> es))) as (i & j & x & Hij & Hi & Hj).
  { intros Hnd.
    assert (s :: (bf_v <$> es) ⊆+ seqZ 0 n) as Hsub.
    { apply NoDup_submseteq; [done|]. intros y Hy. apply elem_of_seqZ.
      apply elem_of_cons in Hy as [->|Hy]; [unfold in_range in Hs; lia|].
      apply list_elem_of_fmap in Hy as (e & -> & He).
      eapply Forall_forall in Hes; [|done]. unfold in_range in Hes. lia. }
    apply submseteq_length in Hsub.
    rewrite length_seqZ in Hsub. simpl in Hsub. rewrite length_fmap in Hsub.
    lia. }
  assert (j ≤ length es)%nat as Hjlen.
  { apply lookup_lt_Some in Hj. simpl in Hj. rewrite length_fmap in Hj. lia. }
  destruct (chain_split s es v i Hc) as (x1 & Hx1 & Hc1 & Hc2); [lia|].
  assert (x1 = x) as -> by congruence.
  destruct (chain_split x (drop i es) v (j - i) Hc2) as (x2 & Hx2 & Hc3 & Hc4).
  { rewrite length_drop. lia. }
  assert (x2 = x) as ->.
  { destruct (j - i)%nat as [|d] eqn:Hd; [lia|]. simpl in Hx2.
    rewrite fmap_drop, lookup_drop in Hx2.
    replace j with (S (i + d)) in Hj by lia. simpl in Hj. congruence. }
  exists (take i es), (take (j - i) (drop i es)), (drop (j - i) (drop i es)), x.
  split_and!; [|  |done..].
  - by rewrite !take_drop.
  - intros Hnil. apply (f_equal length) in Hnil.
    rewrite length_take, length_drop in Hnil. simpl in Hnil. lia.
Qed.

(** With non-negative weights a walk can be cut down to fewer than [n]
    edges without raising its cost. *)
Lemma walk_shorten E n s :
  nonnegative E → Forall (bf_edge_ok n) E → in_range n s →
  ∀ es v, walk E s es v →
    ∃ es', walk E s es' v ∧ (length es' < Z.to_nat n)%nat ∧
           wle (cost W0 es') (cost W0 es).
Proof.
  intros Hnn HE Hs es. remember (length es) as k eqn:Hk. revert es Hk.
  induction k as [k IH] using lt_wf_ind. intros es -> v Hw.
  destruct (decide (length es < Z.to_nat n)%nat) as [Hlt|Hge].
  { exists es. split_and!; [done|done|apply wle_refl]. }
  destruct Hw as [Hes Hc].
  destruct (chain_repeat n s es v)
    as (es1 & es2 & es3 & x & -> & Hne & H1 & H2 & H3); [done| |done|lia|].
  { eapply Forall_impl; [exact Hes|]. intros e He. simpl in He.
    eapply Forall_forall in HE; [|done]. by destruct HE. }
  apply Forall_app in Hes as [Hes1 Hes23].
  apply Forall_app in Hes23 as [Hes2 Hes3].
  destruct (IH (length (es1 ++ es3))) with (es := es1 ++ es3) (v := v)
    as (es' & Hw' & Hlen' & Hcost').
  - rewrite !length_app. destruct es2; [done|simpl; lia].
  - done.
  - split; [by apply Forall_app|]. apply chain_app. by exists x.
  - exists es'. split_and!; [done..|]. eapply wle_trans; [done|].
    rewrite !cost_app. apply cost_mono. by eapply cost_nonneg.
Qed.

(** ** Bellman-Ford computes least walk costs *)

Lemma dle_refl d : dle d d.
Proof. split; [done|]. intros i x' x H1 H2. simplify_eq. apply wle_refl. Qed.

Lemma dle_trans d1 d2 d3 : dle d1 d2 → dle d2 d3 → dle d1 d3.
Proof.
  intros [L1 H1] [L2 H2]. split; [congruence|]. intros i x1 x3 Hx1 Hx3.
  destruct (lookup_lt_is_Some_2 d2 i) as [x2 Hx2].
  { apply lookup_lt_Some in Hx1. lia. }
  eapply wle_trans; [by eapply H1|by eapply H2].
Qed.

Lemma dle_insert d (i : nat) x y :
  d !! i = Some x → wle y x → dle (<[i := y]> d) d.
Proof.
  intros Hx Hy. split; [by rewrite length_insert|]. intros j a b Ha Hb.
  destruct (decide (i = j)) as [->|Hne].
  - rewrite list_lookup_insert_eq in Ha by (by eapply lookup_lt_Some).
    by simplify_eq.
  - rewrite list_lookup_insert_ne in Ha by done. simplify_eq. apply wle_refl.
Qed.

Section bellman_ford_correct.
Variables (E : list BFEdge) (n : Z) (s : Z).
Hypothesis HE : Forall (bf_edge_ok n) E.
Hypothesis Hs : in_range n s.

Lemma sound_insert d e du q :
  sound E s d → e ∈ E → d !! Z.to_nat (bf_u e) = Some du →
  is_INF du = false → wadd du (bf_w e) = Fin q →
  sound E s (<[Z.to_nat (bf_v e) := Fin q]> d).
Proof.
  intros Hd He Hdu Hfin Hq v q' Hv Hlook.
  eapply Forall_forall in HE as [Hu Hv']; [|done]. unfold in_range in *.
  destruct (decide (v = bf_v e)) as [->|Hne].
  - apply lookup_lt_Some in Hlook as Hlt. rewrite length_insert in Hlt.
    rewrite list_lookup_insert_eq in Hlook by done. simplify_eq.
    destruct du as [qu|]; [|done].
    destruct (Hd (bf_u e) qu) as (es & Hw & Hc); [lia|done|].
    exists (es ++ [e]). split; [by apply walk_snoc|].
    by rewrite cost_snoc, Hc.
  - rewrite list_lookup_insert_ne in Hlook by lia. by apply Hd.
Qed.

Lemma bf_relax_spec d p c e d' p' c' :
  bf_relax (d, p, c) e = Ok (d', p', c') → e ∈ E →
  dle d' d ∧
  (sound E s d → sound E s d') ∧
  (∀ du x, d !! Z.to_nat (bf_u e) = Some du →
           d' !! Z.to_nat (bf_v e) = Some x → wle x (wadd du (bf_w e))).
Proof.
  intros Hrun He. unfold bf_relax in Hrun.
  destruct (DynamicArray.Get d (bf_u e)) as [du| |] eqn:Hdu; [|done..].
  apply Get_inv in Hdu as [Hu Hdu]. revert Hrun. monad_step.
  destruct (is_INF du) eqn:Hinf.
  { intros [= <- <- <-]. split_and!; [apply dle_refl|done|].
    intros du' x Hdu' _. assert (du' = du) as -> by congruence.
    destruct du; [done|]. apply wle_INF. }
  destruct (DynamicArray.Get d (bf_v e)) as [dv| |] eqn:Hdv; [|done..].
  apply Get_inv in Hdv as [Hv Hdv]. monad_step.
  destruct (wltb (wadd du (bf_w e)) dv) eqn:Hlt.
  - rewrite (Set_in_range d) by done. monad_step.
    destruct (DynamicArray.Set_ p _ _); [|done..]. monad_step.
    intros [= <- <- <-]. split_and!.
    + eapply dle_insert; [done|]. by apply wltb_wle.
    + intros Hsound. destruct (wadd du (bf_w e)) as [q|] eqn:Hq.
      * by eapply sound_insert.
      * by destruct dv.
    + intros du' x Hdu' Hx. assert (du' = du) as -> by congruence.
      rewrite list_lookup_insert_eq in Hx by lia.
      injection Hx as <-. apply wle_refl.
  - intros [= <- <- <-]. split_and!; [apply dle_refl|done|].
    intros du' x Hdu' Hx. assert (du' = du) as -> by congruence.
    assert (x = dv) as -> by congruence. done.
Qed.

Lemma bf_pass_spec k d0 E0 d p c d' p' c' :
  for_each bf_relax E0 (d, p, c) = Ok (d', p', c') →
  Forall (λ e, e ∈ E) E0 → Z.of_nat (length d0) = n → dle d d0 →
  below k E s d0 →
  dle d' d ∧
  (sound E s d → sound E s d') ∧
  (∀ e es x, e ∈ E0 → walk E s es (bf_u e) → (length es ≤ k)%nat →
             d' !! Z.to_nat (bf_v e) = Some x →
             wle x (cost W0 (es ++ [e]))).
Proof.
  revert d p c.
  induction E0 as [|e0 E0 IH]; intros d p c Hrun HE0 Hn Hd0 Hbelow;
    cbn [for_each] in Hrun.
  - injection Hrun as <- <- <-. split_and!; [apply dle_refl|done|].
    intros e es x He. by apply elem_of_nil in He.
  - apply Forall_cons in HE0 as [He0 HE0].
    destruct (bf_relax (d, p, c) e0) as [[[d1 p1] c1]| |] eqn:Hstep; [|done..].
    revert Hrun. monad_step. intros Hrun.
    destruct (bf_relax_spec _ _ _ _ _ _ _ Hstep He0) as (Hle1 & Hs1 & Hr1).
    destruct (IH d1 p1 c1 Hrun HE0) as (Hle' & Hs' & Hr');
      [done|by eapply dle_trans|done|].
    split_and!; [by eapply dle_trans|by auto|].
    intros e es x He Hw Hlen Hx.
    apply elem_of_cons in He as [->|He]; [|by eapply Hr'].
    pose proof HE as HE'. eapply Forall_forall in HE' as [Hu Hv]; [|exact He0].
    unfold in_range in Hu, Hv.
    destruct Hle' as [Hlen' Hle'], Hle1 as [Hlen1 Hle1], Hd0 as [Hlen0 Hd0].
    destruct (lookup_lt_is_Some_2 d1 (Z.to_nat (bf_v e0))) as [x1 Hx1]; [lia|].
    destruct (lookup_lt_is_Some_2 d (Z.to_nat (bf_u e0))) as [du Hdu]; [lia|].
    destruct (lookup_lt_is_Some_2 d0 (Z.to_nat (bf_u e0))) as [du0 Hdu0]; [lia|].
    rewrite cost_snoc.
    eapply wle_trans; [by eapply Hle'|].
    eapply wle_trans; [by eapply Hr1|].
    eapply wle_trans; [by eapply wadd_mono, Hd0|].
    apply wadd_mono. eapply Hbelow; [done|done|lia|done].
Qed.

(** A full pass extends the bound from walks of [k] edges to walks of
    [k + 1] edges. *)
Lemma bf_full_pass_below k d0 p c d' p' c' :
  for_each bf_relax E (d0, p, c) = Ok (d', p', c') →
  Z.of_nat (length d0) = n → below k E s d0 →
  dle d' d0 ∧ (sound E s d0 → sound E s d') ∧ below (S k) E s d'.
Proof.
  intros Hrun Hn Hbelow.
  destruct (bf_pass_spec k d0 E d0 p c d' p' c' Hrun)
    as (Hle & Hsound & Hlast); [by apply Forall_forall|done|apply dle_refl|done|].
  split_and!; [done..|].
  intros es v x Hw Hlen Hv Hx.
  destruct es as [|e es _] using rev_ind.
  - destruct Hle as [Hlen' Hle].
    destruct (lookup_lt_is_Some_2 d0 (Z.to_nat v)) as [x0 Hx0].
    { apply lookup_lt_Some in Hx. lia. }
    eapply wle_trans; [by eapply Hle|].
    eapply Hbelow; [done|simpl; lia|done|done].
  - apply walk_snoc_inv in Hw as (Hw & He & <-).
    rewrite length_app in Hlen. simpl in Hlen.
    eapply Hlast; [done|done|lia|done].
Qed.

Lemma bf_main_no_break_spec passes k d0 p0 d p :
  bf_main_no_break passes E (d0, p0) = Ok (d, p) →
  Z.of_nat (length d0) = n → sound E s d0 → below k E s d0 →
  Z.of_nat (length d) = n ∧ sound E s d ∧ below (passes + k) E s d.
Proof.
  revert k d0 p0. induction passes as [|passes IH]; intros k d0 p0; simpl.
  - by intros [= <- <-].
  - destruct (for_each bf_relax E (d0, p0, false)) as [[[d1 p1] c1]| |] eqn:Hpass;
      [|done..].
    monad_step. intros Hrun Hn Hsound Hbelow.
    destruct (bf_full_pass_below k d0 p0 false d1 p1 c1 Hpass Hn Hbelow)
      as ([Hlen1 Hle1] & Hsound1 & Hbelow1).
    replace (S (passes + k)) with (passes + S k)%nat by lia.
    eapply IH; [done|lia|by auto|done].
Qed.

Lemma source_initial :
  let d0 := <[Z.to_nat s := W0]> (replicate (Z.to_nat n) INF) in
  Z.of_nat (length d0) = n ∧ sound E s d0 ∧ below 0 E s d0.
Proof.
  unfold in_range in Hs. simpl. split_and!.
  - rewrite length_insert, length_replicate. lia.
  - intros v q Hv Hlook.
    destruct (decide (v = s)) as [->|Hne].
    + rewrite list_lookup_insert_eq in Hlook by (rewrite length_replicate; lia).
      injection Hlook as <-. exists []. split; [apply walk_nil|done].
    + rewrite list_lookup_insert_ne in Hlook by lia.
      apply lookup_replicate in Hlook as [? _]. done.
  - intros es v x [_ Hc] Hlen Hv Hx.
    destruct es; [|simpl in Hlen; lia]. simpl in Hc. subst v.
    rewrite list_lookup_insert_eq in Hx by (rewrite length_replicate; lia).
    injection Hx as <-. apply wle_refl.
Qed.

(** With non-negative weights, [n - 1] passes suffice. *)
Lemma below_all_of_below d :
  nonnegative E → Z.of_nat (length d) = n →
  below (Z.to_nat n - 1) E s d → below_all E s d.
Proof.
  intros Hnn Hlen Hbelow k es v x Hw _ Hv Hx.
  destruct (walk_shorten E n s Hnn HE Hs es v Hw) as (es' & Hw' & Hlen' & Hc).
  eapply wle_trans; [|done]. eapply Hbelow; [done|lia|done|done].
Qed.
End bellman_ford_correct.

(** ** Dijkstra computes least walk costs *)

Lemma extract_min_spec q y q' :
  HashTablePriorityQueue.extract_min q = Some (y, q') →
  (∀ z, z ∈ q ↔ z = y ∨ z ∈ q') ∧ (∀ z, z ∈ q' → wle y.2 z.2).
Proof.
  revert y q'. induction q as [|x q IH]; intros y q'; simpl; [done|].
  destruct (HashTablePriorityQueue.extract_min q) as [[m r]|] eqn:Hmin.
  - destruct (IH m r eq_refl) as [Hmem Hle].
    destruct (wltb m.2 x.2) eqn:Hlt; intros [= <- <-].
    + split.
      * intros z. rewrite !elem_of_cons, Hmem. tauto.
      * intros z [->|Hz]%elem_of_cons; [by apply wltb_wle|by apply Hle].
    + split.
      * intros z. by rewrite elem_of_cons.
      * intros z [->|Hz]%Hmem; [done|].
        eapply wle_trans; [exact Hlt|by apply Hle].
  - intros [= <- <-]. destruct q as [|x' q]; simpl in Hmin.
    + split; [|by intros z ?%elem_of_nil].
      intros z. rewrite elem_of_cons. tauto.
    + by destruct (HashTablePriorityQueue.extract_min q) as [[??]|];
        [destruct (wltb _ _)|].
Qed.

Lemma dist_at_lookup d v :
  0 ≤ v < Z.of_nat (length d) → d !! Z.to_nat v = Some (dist_at d v).
Proof.
  intros Hv. unfold dist_at.
  destruct (lookup_lt_is_Some_2 d (Z.to_nat v)) as [x ->]; [lia|done].
Qed.

Lemma dist_at_insert_eq d v x :
  0 ≤ v < Z.of_nat (length d) → dist_at (<[Z.to_nat v := x]> d) v = x.
Proof.
  intros Hv. unfold dist_at. by rewrite list_lookup_insert_eq by lia.
Qed.

Lemma dist_at_insert_ne d v v' x :
  0 ≤ v → 0 ≤ v' → v ≠ v' →
  dist_at (<[Z.to_nat v := x]> d) v' = dist_at d v'.
Proof.
  intros Hv Hv' Hne. unfold dist_at. by rewrite list_lookup_insert_ne by lia.
Qed.

Lemma dist_at_insert_le d v v' x :
  0 ≤ v < Z.of_nat (length d) → 0 ≤ v' → wle x (dist_at d v) →
  wle (dist_at (<[Z.to_nat v := x]> d) v') (dist_at d v').
Proof.
  intros Hv Hv' Hx. destruct (decide (v = v')) as [<-|Hne].
  - by rewrite dist_at_insert_eq.
  - rewrite dist_at_insert_ne by lia. apply wle_refl.
Qed.

Lemma used_at_insert_eq used u :
  0 ≤ u < Z.of_nat (length used) →
  used_at (<[Z.to_nat u := true]> used) u = true.
Proof.
  intros Hu. unfold used_at. by rewrite list_lookup_insert_eq by lia.
Qed.

Lemma used_at_insert_ne used u u' :
  0 ≤ u → 0 ≤ u' → u ≠ u' →
  used_at (<[Z.to_nat u := true]> used) u' = used_at used u'.
Proof.
  intros Hu Hu' Hne. unfold used_at. by rewrite list_lookup_insert_ne by lia.
Qed.

Lemma dijkstra_inv_weaken E n s (settled settled' : BFEdge → Prop) st :
  (∀ e, settled' e → settled e) →
  dijkstra_inv E n s settled st → dijkstra_inv E n s settled' st.
Proof. intros Himp []. split; auto. Qed.

Section dijkstra_correct.
Variables (E : list BFEdge) (n : Z) (s : Z).
Hypothesis HE : Forall (bf_edge_ok n) E.
Hypothesis Hnn : nonnegative E.
Hypothesis Hs : in_range n s.

Lemma Get_dist_at d v :
  0 ≤ v < Z.of_nat (length d) → DynamicArray.Get d v = Ok (dist_at d v).
Proof. intros Hv. apply Get_lookup; [lia|by apply dist_at_lookup]. Qed.

(** Relaxing one edge out of the vertex [u] being finalised keeps the
    invariant and settles that edge. *)
Lemma dijkstra_relax_inv settled u st e st' :
  dijkstra_inv E n s settled st → inv_top n u st →
  in_range n u → used_at (d_used st) u = true →
  mkBFEdge u (to e) (weight e) ∈ E →
  dijkstra_relax u st e = Ok st' →
  dijkstra_inv E n s (λ x, settled x ∨ x = mkBFEdge u (to e) (weight e)) st' ∧
  inv_top n u st' ∧ d_used st' = d_used st.
Proof.
  intros Hinv Htop Hu Hused He.
  pose proof (proj1 (Forall_forall _ _) HE _ He) as [_ Hv].
  pose proof (proj1 (Forall_forall _ _) Hnn _ He) as Hw. simpl in Hv, Hw.
  destruct Hinv as [(Hd & Hp & Hus) Hsound Hsrc Hq Hcov Huq Hfin Hset].
  unfold in_range in Hu, Hv, Hs.
  unfold dijkstra_relax. rewrite Hw, (Get_dist_at _ u) by lia. monad_step.
  rewrite (Hfin u) by done. rewrite (Get_dist_at _ (to e)) by lia. monad_step.
  set (du := dist_at (d_dist st) u). set (cur := dist_at (d_dist st) (to e)).
  assert (wle du (wadd du (weight e))) as Hnd.
  { revert Hw. generalize (weight e), du. clear. intros w du Hw. weight_order. }
  destruct (wltb (wadd du (weight e)) cur) eqn:Hlt; cycle 1.
  { intros [= <-]. split_and!; [|done..]. split; try done.
    intros x [Hx| ->]; [by apply Hset|]. split_and!; done. }
  rewrite !Set_in_range by lia. monad_step. intros [= <-].
  assert (used_at (d_used st) (to e) = false) as Hfresh.
  { destruct (used_at (d_used st) (to e)) eqn:Hue; [|done].
    pose proof (Htop (to e) Hv Hue) as Hle. fold cur du in Hle.
    assert (wle cur (wadd du (weight e))) as Habs by (by eapply wle_trans).
    unfold wle in Habs. congruence. }
  assert (to e ≠ u) as Hne by (intros Heq; rewrite Heq in Hfresh; congruence).
  assert (∀ v', 0 ≤ v' →
            wle (dist_at (<[Z.to_nat (to e) := wadd du (weight e)]> (d_dist st)) v')
                (dist_at (d_dist st) v')) as Hdec.
  { intros v' Hv'. apply dist_at_insert_le; [lia|done|by apply wltb_wle]. }
  assert (∀ u', in_range n u' → used_at (d_used st) u' = true →
            dist_at (<[Z.to_nat (to e) := wadd du (weight e)]> (d_dist st)) u'
            = dist_at (d_dist st) u') as Hkeep.
  { intros u' Hu' Hused'.
    apply dist_at_insert_ne; [lia|unfold in_range in Hu'; lia|].
    intros Heq. rewrite Heq in Hfresh. congruence. }
  assert (is_INF (wadd du (weight e)) = false) as Hndfin.
  { destruct (wadd du (weight e)); [done|]. by destruct cur. }
  split_and!; [split|..]; simpl.
  - unfold dsized; simpl. rewrite !length_insert. done.
  - destruct (wadd du (weight e)) as [q|] eqn:Hq'; [|done].
    eapply (sound_insert E n s HE (d_dist st) (mkBFEdge u (to e) (weight e)));
      [done|done|by apply dist_at_lookup; simpl; lia|by apply Hfin|done].
  - eapply wle_trans; [apply Hdec; lia|done].
  - intros v' pr [Hin|Hin]%elem_of_app.
    + destruct (Hq v' pr Hin) as (Hv' & Hpr & Hle). split_and!; [done..|].
      eapply wle_trans; [apply Hdec; unfold in_range in Hv'; lia|done].
    + apply list_elem_of_singleton in Hin as [= -> ->].
      split_and!; [done..|]. rewrite dist_at_insert_eq by lia. apply wle_refl.
  - intros v' Hv' Hun Hfin'. apply elem_of_app.
    destruct (decide (v' = to e)) as [->|Hne'].
    + right. rewrite dist_at_insert_eq by lia. by apply list_elem_of_singleton.
    + left. unfold in_range in Hv'.
      rewrite dist_at_insert_ne in Hfin' |- * by lia. by apply Hcov.
  - intros u' v' pr Hu' Hused' [Hin|Hin]%elem_of_app; rewrite Hkeep by done.
    + by eapply Huq.
    + apply list_elem_of_singleton in Hin as [= -> ->].
      eapply wle_trans; [by apply Htop|done].
  - intros u' Hu' Hused'. rewrite Hkeep by done. by apply Hfin.
  - intros x [Hx| ->].
    + destruct (Hset x Hx) as (HxE & Hxu & Hxle). split_and!; [done..|].
      pose proof (proj1 (Forall_forall _ _) HE _ HxE) as [Hxu' Hxv'].
      rewrite (Hkeep (bf_u x)) by done.
      eapply wle_trans; [apply Hdec; unfold in_range in Hxv'; lia|done].
    + simpl. split_and!; [done..|].
      rewrite dist_at_insert_eq, (Hkeep u) by (done || lia). apply wle_refl.
  - intros u' Hu' Hused'. simpl in *. rewrite !Hkeep by done. by apply Htop.
  - done.
Qed.

Lemma dijkstra_relax_all_inv settled u neigh st st' :
  dijkstra_inv E n s settled st → inv_top n u st →
  in_range n u → used_at (d_used st) u = true →
  Forall (λ e, mkBFEdge u (to e) (weight e) ∈ E) neigh →
  for_each (dijkstra_relax u) neigh st = Ok st' →
  dijkstra_inv E n s (λ x, settled x ∨ x ∈ entries_from u neigh) st' ∧
  inv_top n u st' ∧ d_used st' = d_used st.
Proof.
  intros Hinv Htop Hu Hused Hneigh. revert settled st Hinv Htop Hused.
  induction Hneigh as [|e neigh He _ IH]; intros settled st Hinv Htop Hused;
    cbn [for_each].
  - intros [= <-]. split_and!; [|done..].
    eapply dijkstra_inv_weaken; [|done]. by intros x [?|?%elem_of_nil].
  - destruct (dijkstra_relax u st e) as [st1| |] eqn:Hstep; [|done..].
    monad_step. intros Hrun.
    destruct (dijkstra_relax_inv settled u st e st1) as (Hinv1 & Htop1 & Hu1);
      [done..|].
    destruct (IH _ st1 Hinv1 Htop1) as (Hinv' & Htop' & Hu'); [congruence|done|].
    split_and!; [|done|congruence].
    eapply dijkstra_inv_weaken; [|done]. simpl.
    intros x [?|[->|?]%elem_of_cons]; auto.
Qed.

Lemma dijkstra_pop_used settled st u pr pq' :
  dijkstra_inv E n s settled st →
  HashTablePriorityQueue.extract_min (d_pq st) = Some ((u, pr), pq') →
  used_at (d_used st) u = true →
  dijkstra_inv E n s settled
    (mkDState (d_dist st) (d_parent st) pq' (d_used st)).
Proof.
  intros [Hsz Hsound Hsrc Hq Hcov Huq Hfin Hset] Hmin Hused.
  apply extract_min_spec in Hmin as [Hmem _].
  split; simpl; try done.
  - intros v q Hin. apply Hq, Hmem. by right.
  - intros v Hv Hun Hfinv.
    destruct (proj1 (Hmem _) (Hcov v Hv Hun Hfinv)) as [[= ->]|Hin]; [|done].
    congruence.
  - intros u' v q Hu' Hused' Hin. eapply Huq; [done..|]. apply Hmem. by right.
Qed.

(** Dequeuing a vertex [u] that is not yet finalised: its queue priority is
    its distance, and no finalised vertex is farther. *)
Lemma dijkstra_pop_fresh settled st u pr pq' :
  dijkstra_inv E n s settled st →
  HashTablePriorityQueue.extract_min (d_pq st) = Some ((u, pr), pq') →
  used_at (d_used st) u = false →
  let st2 := mkDState (d_dist st) (d_parent st) pq'
               (<[Z.to_nat u := true]> (d_used st)) in
  in_range n u ∧ dijkstra_inv E n s settled st2 ∧ inv_top n u st2 ∧
  used_at (d_used st2) u = true.
Proof.
  intros [(Hd & Hp & Hus) Hsound Hsrc Hq Hcov Huq Hfin Hset] Hmin Hfresh.
  apply extract_min_spec in Hmin as [Hmem Hle]. simpl in Hle.
  destruct (Hq u pr) as (Hu & Hpr & Hx); [apply Hmem; by left|].
  set (x := dist_at (d_dist st) u) in *.
  assert (is_INF x = false) as Hxfin.
  { destruct pr; [|done]. by eapply wle_Fin_inv. }
  assert (wle pr x) as Hprx.
  { destruct (proj1 (Hmem _) (Hcov u Hu Hfresh Hxfin)) as [[= <-]|Hin];
      [apply wle_refl|by apply (Hle (u, x))]. }
  unfold in_range in Hu.
  assert (used_at (<[Z.to_nat u := true]> (d_used st)) u = true) as Hnow
    by (apply used_at_insert_eq; lia).
  assert (∀ u', in_range n u' → u' ≠ u →
            used_at (<[Z.to_nat u := true]> (d_used st)) u'
            = used_at (d_used st) u') as Hother.
  { intros u' Hu' Hne. unfold in_range in Hu'.
    apply used_at_insert_ne; lia. }
  split_and!; [done|split|..]; simpl; try done.
  - unfold dsized; simpl. by rewrite length_insert.
  - intros v q Hin. apply Hq, Hmem. by right.
  - intros v Hv Hun Hfinv.
    assert (v ≠ u) as Hne by (intros ->; congruence).
    rewrite Hother in Hun by done.
    destruct (proj1 (Hmem _) (Hcov v Hv Hun Hfinv)) as [[= ->]|Hin]; done.
  - intros u' v q Hu' Hused' Hin.
    destruct (decide (u' = u)) as [->|Hne].
    + eapply wle_trans; [exact Hx|]. by apply (Hle (v, q)).
    + rewrite Hother in Hused' by done.
      eapply Huq; [done..|]. apply Hmem. by right.
  - intros u' Hu' Hused'.
    destruct (decide (u' = u)) as [->|Hne]; [done|].
    rewrite Hother in Hused' by done. by apply Hfin.
  - intros e He. destruct (Hset e He) as (HeE & Heu & Hele).
    split_and!; [done| |done].
    destruct (decide (bf_u e = u)) as [->|Hne]; [done|].
    rewrite Hother; [done| |done].
    by destruct (proj1 (Forall_forall _ _) HE _ HeE).
  - intros u' Hu' Hused'. simpl in *.
    destruct (decide (u' = u)) as [->|Hne]; [apply wle_refl|].
    rewrite Hother in Hused' by done.
    eapply wle_trans; [|exact Hprx].
    eapply Huq; [done..|]. apply Hmem. by left.
Qed.

Lemma closed_of_dijkstra_inv st :
  dijkstra_inv E n s (settled_by E (d_used st)) st → d_pq st = [] →
  closed E (d_dist st).
Proof.
  intros [(Hd & _) _ _ _ Hcov _ _ Hset] Hempty e He
    (du & dv & Hdu & Hdv & Hfin & Hlt).
  pose proof (proj1 (Forall_forall _ _) HE _ He) as [Hu Hv].
  assert (dist_at (d_dist st) (bf_u e) = du) as Hdu'
    by (unfold dist_at; by rewrite Hdu).
  assert (dist_at (d_dist st) (bf_v e) = dv) as Hdv'
    by (unfold dist_at; by rewrite Hdv).
  destruct (used_at (d_used st) (bf_u e)) eqn:Hused.
  - destruct (Hset e) as (_ & _ & Hle); [by split|].
    rewrite Hdu', Hdv' in Hle. unfold wle in Hle. congruence.
  - pose proof (Hcov (bf_u e) Hu Hused) as Hin.
    rewrite Hdu', Hempty in Hin. specialize (Hin Hfin).
    by apply elem_of_nil in Hin.
Qed.

Lemma below_all_of_closed d :
  closed E d → Z.of_nat (length d) = n → wle (dist_at d s) W0 →
  below_all E s d.
Proof.
  intros Hclosed Hlen Hsrc.
  assert (∀ es v x, walk E s es v → 0 ≤ v → d !! Z.to_nat v = Some x →
                    wle x (cost W0 es)) as Hall; [|by intros k es v x ? _; eauto].
  intros es. induction es as [|e es IH] using rev_ind; intros v x Hw Hv Hx.
  - destruct Hw as [_ Hc]. simpl in Hc. subst v.
    unfold dist_at in Hsrc. by rewrite Hx in Hsrc.
  - apply walk_snoc_inv in Hw as (Hw & He & <-).
    pose proof (proj1 (Forall_forall _ _) HE _ He) as [Hu _].
    unfold in_range in Hu. rewrite cost_snoc.
    assert (d !! Z.to_nat (bf_u e) = Some (dist_at d (bf_u e))) as Hdu
      by (apply dist_at_lookup; lia).
    specialize (IH (bf_u e) _ Hw (proj1 Hu) Hdu).
    destruct (is_INF (dist_at d (bf_u e))) eqn:Hinf.
    + destruct (dist_at d (bf_u e)); [done|].
      destruct (cost W0 es); [done|]. simpl. destruct x; done.
    + eapply wle_trans; [|by apply wadd_mono, IH].
      destruct (wltb (wadd (dist_at d (bf_u e)) (bf_w e)) x) eqn:Hlt; [|done].
      destruct (Hclosed e He). exists (dist_at d (bf_u e)), x.
      split_and!; done.
Qed.
End dijkstra_correct.

(** ** Agreement of the two algorithms on directed graphs *)

Section agreement.
Variable g : Graph.
Hypothesis Hwf : wf_graph g.
Hypothesis Hnonneg : Forall (Forall (λ e, ¬ negative e)) (adj_ g).

Lemma all_entries_ok : Forall (bf_edge_ok (n_ g)) (all_entries g).
Proof.
  apply Forall_forall. intros e (u & x & Hu & Hl & Hx & ->)%elem_of_all_entries.
  destruct Hwf as (Hn & Hlen & _). apply lookup_lt_Some in Hl.
  split; simpl; [unfold in_range; lia|by eapply wf_neighbors].
Qed.

Lemma all_entries_nonnegative : nonnegative (all_entries g).
Proof.
  apply Forall_forall. intros e (u & x & Hu & Hl & Hx & ->)%elem_of_all_entries.
  simpl. eapply Forall_lookup_1 in Hnonneg; [|done].
  eapply Forall_forall in Hnonneg; [|done].
  unfold negative in Hnonneg. by destruct (wltb (weight x) W0).
Qed.

Lemma neighbors_entries u :
  in_range (n_ g) u →
  Forall (λ e, mkBFEdge u (to e) (weight e) ∈ all_entries g) (neighbors g u).
Proof.
  intros Hu. apply Forall_forall. intros e He. apply elem_of_all_entries.
  exists u, e. destruct Hwf as (Hn & Hlen & _). unfold in_range in Hu.
  split_and!; [lia| |done..]. unfold neighbors.
  destruct (lookup_lt_is_Some_2 (adj_ g) (Z.to_nat u)) as [l ->]; [lia|done].
Qed.

Lemma entries_of_vertex e :
  e ∈ all_entries g → e ∈ entries_from (bf_u e) (neighbors g (bf_u e)).
Proof.
  intros (u & x & Hu & Hl & Hx & ->)%elem_of_all_entries. simpl.
  unfold entries_from. apply list_elem_of_fmap. by exists x.
Qed.

(** The invariant holds when the main loop ends, with an empty queue. *)
Lemma dijkstra_loop_inv s fuel st st' :
  in_range (n_ g) s →
  dijkstra_inv (all_entries g) (n_ g) s
    (settled_by (all_entries g) (d_used st)) st →
  dijkstra_loop fuel g st = Ok st' →
  dijkstra_inv (all_entries g) (n_ g) s
    (settled_by (all_entries g) (d_used st')) st' ∧
  d_pq st' = [].
Proof.
  intros Hs. revert st.
  induction fuel as [|fuel IH]; intros st Hinv; simpl;
    destruct (HashTablePriorityQueue.IsEmpty (d_pq st)) eqn:Hq.
  - intros [= <-]. split; [done|]. by destruct (d_pq st).
  - done.
  - intros [= <-]. split; [done|]. by destruct (d_pq st).
  - unfold HashTablePriorityQueue.Dequeue.
    destruct (HashTablePriorityQueue.extract_min (d_pq st))
      as [[[u pr] pq']|] eqn:Hmin; [|done].
    monad_step. unfold vertex_count.
    assert (in_range (n_ g) u) as Hu.
    { eapply (inv_queue _ _ _ _ _ Hinv u pr).
      apply (extract_min_spec _ _ _ Hmin). by left. }
    replace ((u <? 0) || (u >=? n_ g)) with false
      by (unfold in_range in Hu; lia).
    cbn [d_used d_dist d_parent d_pq].
    destruct (used_at (d_used st) u) eqn:Hused.
    { apply IH. simpl. by eapply dijkstra_pop_used. }
    destruct (dijkstra_pop_fresh (all_entries g) (n_ g) s all_entries_ok
                _ st u pr pq' Hinv Hmin Hused) as (_ & Hinv2 & Htop2 & Hused2).
    destruct (for_each (dijkstra_relax u) (neighbors g u) _)
      as [st3| |] eqn:Hinner; [|done..].
    monad_step.
    destruct (dijkstra_relax_all_inv (all_entries g) (n_ g) s all_entries_ok
                all_entries_nonnegative Hs _ u (neighbors g u) _ st3
                Hinv2 Htop2 Hu Hused2 (neighbors_entries u Hu) Hinner)
      as (Hinv3 & _ & Hused3).
    apply IH. eapply dijkstra_inv_weaken; [|exact Hinv3].
    intros e [He Heu]. rewrite Hused3 in Heu. simpl in Heu.
    destruct (decide (bf_u e = u)) as [<-|Hne].
    + right. by apply entries_of_vertex.
    + left. split; [done|].
      pose proof (proj1 (Forall_forall _ _) all_entries_ok _ He) as [Hue _].
      unfold in_range in Hu, Hue.
      by rewrite used_at_insert_ne in Heu by lia.
Qed.

Lemma dijkstra_initial_inv s :
  in_range (n_ g) s →
  let used := replicate (Z.to_nat (n_ g)) false in
  dijkstra_inv (all_entries g) (n_ g) s (settled_by (all_entries g) used)
    (mkDState (<[Z.to_nat s := W0]> (replicate (Z.to_nat (n_ g)) INF))
       (replicate (Z.to_nat (n_ g)) (-1))
       (HashTablePriorityQueue.Enqueue HashTablePriorityQueue.empty s W0)
       used).
Proof.
  intros Hs used. pose proof Hwf as (Hn & _).
  destruct (source_initial (all_entries g) (n_ g) s Hs) as (Hlen & Hsound & _).
  assert (∀ v, used_at used v = false) as Hunused.
  { intros v. unfold used_at.
    destruct (used !! Z.to_nat v) eqn:Hl; [|done].
    by apply lookup_replicate in Hl as [-> _]. }
  unfold in_range in Hs.
  assert (dist_at (<[Z.to_nat s := W0]> (replicate (Z.to_nat (n_ g)) INF)) s
          = W0) as Hds
    by (apply dist_at_insert_eq; rewrite length_replicate; lia).
  split; simpl.
  - unfold dsized, used; simpl. rewrite length_insert, !length_replicate. lia.
  - done.
  - rewrite Hds. apply wle_refl.
  - intros v pr [= -> ->]%list_elem_of_singleton. rewrite Hds.
    split_and!; [done..|apply wle_refl].
  - intros v Hv _ Hfin. destruct (decide (v = s)) as [->|Hne].
    + rewrite Hds. by apply list_elem_of_singleton.
    + unfold in_range in Hv. rewrite dist_at_insert_ne in Hfin by lia.
      unfold dist_at in Hfin.
      destruct (replicate _ _ !! _) eqn:Hl; [|done].
      by apply lookup_replicate in Hl as [-> _].
  - intros u v pr _ Hu. by rewrite Hunused in Hu.
  - intros u _ Hu. by rewrite Hunused in Hu.
  - intros e [_ Hu]. by rewrite Hunused in Hu.
Qed.

Lemma dijkstra_least s res :
  in_range (n_ g) s → dijkstra g s = Ok res →
  Z.of_nat (length (dist res)) = n_ g ∧
  sound (all_entries g) s (dist res) ∧ below_all (all_entries g) s (dist res).
Proof.
  intros Hs. pose proof Hwf as (Hn & _).
  unfold dijkstra, vertex_count. rewrite init_result_ok by done. monad_step.
  replace ((s <? 0) || (s >=? n_ g)) with false by (unfold in_range in Hs; lia).
  cbn [dist parent has_negative_cycle].
  rewrite Set_in_range by (unfold in_range in Hs; rewrite length_replicate; lia).
  monad_step.
  destruct (dijkstra_loop _ g _) as [st| |] eqn:Hloop; [|done..].
  monad_step. intros [= <-]. simpl.
  pose proof (dijkstra_initial_inv s Hs) as Hinit. cbv zeta in Hinit.
  eapply dijkstra_loop_inv in Hloop as [Hinv Hempty]; [|done|exact Hinit].
  pose proof (inv_sized _ _ _ _ _ Hinv) as (Hlen & _).
  split_and!; [done|by eapply inv_sound|].
  eapply below_all_of_closed;
    [apply all_entries_ok| |done|by eapply inv_source].
  eapply closed_of_dijkstra_inv; [apply all_entries_ok|done..].
Qed.

Lemma bellman_ford_least s res :
  directed_ g = true → in_range (n_ g) s → bellman_ford g s = Ok res →
  Z.of_nat (length (dist res)) = n_ g ∧
  sound (all_entries g) s (dist res) ∧ below_all (all_entries g) s (dist res).
Proof.
  intros Hdir Hs Hrun. pose proof Hwf as (Hn & _).
  destruct (bellman_ford_run g s Hwf Hs) as (res' & d0 & Hres & Hd0 & Hmain & _).
  assert (res' = res) as -> by congruence.
  apply Set_inv in Hd0 as [_ ->].
  rewrite bf_main_early_exit, bf_edge_list_directed in Hmain by done.
  destruct (source_initial (all_entries g) (n_ g) s Hs) as (Hlen0 & Hsound0 & Hb0).
  destruct (bf_main_no_break_spec (all_entries g) (n_ g) s all_entries_ok
              _ 0 _ _ _ _ Hmain Hlen0 Hsound0 Hb0) as (Hlen & Hsound & Hbelow).
  split_and!; [done..|].
  eapply below_all_of_below;
    [apply all_entries_ok|done|apply all_entries_nonnegative|done|].
  unfold vertex_count in Hbelow.
  replace (Z.to_nat (n_ g) - 1)%nat with (Z.to_nat (n_ g - 1) + 0)%nat by lia.
  done.
Qed.
End agreement.

(** Two vectors of least walk costs are equal as numbers. *)
Lemma least_costs_agree E s n d1 d2 :
  Z.of_nat (length d1) = n → Z.of_nat (length d2) = n →
  sound E s d1 → below_all E s d1 → sound E s d2 → below_all E s d2 →
  ∀ (i : nat) x y, d1 !! i = Some x → d2 !! i = Some y → weq x y.
Proof.
  intros Hl1 Hl2 Hs1 Hb1 Hs2 Hb2 i x y Hx Hy.
  assert (∀ d d' a b, sound E s d' → below_all E s d →
            d !! i = Some a → d' !! i = Some b → wle a b) as Hhalf.
  { intros d d' a b Hs' Hb Ha Hb'. destruct b as [q|]; [|apply wle_INF].
    destruct (Hs' (Z.of_nat i) q) as (es & Hw & <-);
      [lia|by rewrite Nat2Z.id|].
    eapply (Hb (length es) es (Z.of_nat i));
      [done|lia|lia|by rewrite Nat2Z.id]. }
  split; eauto.
Qed.

(** X1. On a directed graph without negative weights, for every source,
    the two algorithms return and their distance vectors agree; the
    comparator's loop finds them the same. *)
Theorem dijkstra_bellman_ford_agree_directed (g : Graph) (source : Vertex) :
  wf_graph g → is_directed g = true →
  Forall (Forall (λ e, ¬ negative e)) (adj_ g) →
  ∃ res_d res_b,
    dijkstra g source = Ok res_d ∧ bellman_ford g source = Ok res_b ∧
    agree (dist res_d) (dist res_b) ∧
    same_dist (dist res_d) (dist res_b) = Ok true.
Proof.
  intros Hwf Hdir Hnn. pose proof Hwf as (Hn & _).
  destruct (dijkstra_ok g Hwf source) as (res_d & Hd & Hld & _).
  destruct (bellman_ford_ok g source Hwf) as (res_b & Hb & Hlb & _).
  exists res_d, res_b. split; [done|]. split; [done|].
  assert (agree (dist res_d) (dist res_b) ∧
          agree64 (dist res_d) (dist res_b)) as [Hagree Hagree64].
  { apply weq_agree; [lia|]. intros i x y Hx Hy.
    destruct (decide (in_range (vertex_count g) source)) as [Hs|Hs].
    - destruct (dijkstra_least g Hwf Hnn source res_d Hs Hd)
        as (_ & Hsd & Hbd).
      destruct (bellman_ford_least g Hwf Hnn source res_b Hdir Hs Hb)
        as (_ & Hsb & Hbb).
      by eapply (least_costs_agree (all_entries g) source (n_ g)
                   (dist res_d) (dist res_b)).
    - destruct (invalid_source_result g source Hn Hs) as [Hd' Hb'].
      rewrite Hd in Hd'. rewrite Hb in Hb'.
      injection Hd' as ->. injection Hb' as ->. simpl in Hx, Hy.
      apply lookup_replicate in Hx as [-> _].
      apply lookup_replicate in Hy as [-> _]. split; apply wle_refl. }
  split; [done|].
  destruct (same_dist_agree (dist res_d) (dist res_b)) as (b & -> & Hb').
  f_equal. by apply Hb'.
Qed.

Lemma dijkstra_bellman_ford_agree_directed_witness :
  ∃ res_d res_b,
    dijkstra test_graph 0 = Ok res_d ∧ bellman_ford test_graph 0 = Ok res_b ∧
    agree (dist res_d) (dist res_b) ∧
    same_dist (dist res_d) (dist res_b) = Ok true.
Proof.
  apply (dijkstra_bellman_ford_agree_directed test_graph 0).
  - by_evaluation.
  - reflexivity.
  - by_evaluation.
Defined.

(** ** Dijkstra never looks at negative entries *)

Lemma neighbors_drop_negative g u :
  neighbors (drop_negative g) u = filter (λ e, ¬ negative e) (neighbors g u).
Proof.
  unfold neighbors, drop_negative. simpl. rewrite list_lookup_fmap.
  by destruct (adj_ g !! Z.to_nat u).
Qed.

Lemma wf_drop_negative g : wf_graph g → wf_graph (drop_negative g).
Proof.
  intros (Hn & Hlen & Hall). split_and!; simpl; [done|by rewrite length_fmap|].
  apply Forall_fmap. eapply Forall_impl; [done|]. intros l Hl. simpl.
  apply Forall_forall. intros e [_ He]%list_elem_of_filter.
  by eapply Forall_forall in Hl.
Qed.

Lemma dijkstra_loop_drop_negative fuel g st :
  dijkstra_loop fuel g st = dijkstra_loop fuel (drop_negative g) st.
Proof.
  revert st. induction fuel as [|fuel IH]; intros st; simpl; [done|].
  destruct (HashTablePriorityQueue.IsEmpty (d_pq st)); [done|].
  destruct (HashTablePriorityQueue.Dequeue (d_pq st)) as [[u pq']| |];
    [|done..].
  monad_step. unfold vertex_count. simpl.
  destruct ((u <? 0) || (u >=? n_ g)); [apply IH|].
  destruct (used_at (d_used st) u); [apply IH|].
  rewrite neighbors_drop_negative, <-dijkstra_relax_filter.
  destruct (for_each _ _ _); monad_step; [apply IH|done..].
Qed.

Lemma dijkstra_loop_more_fuel fuel fuel' g st st' :
  dijkstra_loop fuel g st = Ok st' → (fuel ≤ fuel')%nat →
  dijkstra_loop fuel' g st = Ok st'.
Proof.
  revert fuel' st. induction fuel as [|fuel IH]; intros fuel' st; simpl.
  - destruct (HashTablePriorityQueue.IsEmpty (d_pq st)) eqn:Hq; [|done].
    intros [= <-] _. destruct fuel'; simpl; by rewrite Hq.
  - destruct (HashTablePriorityQueue.IsEmpty (d_pq st)) eqn:Hq.
    { intros [= <-] _. destruct fuel'; simpl; by rewrite Hq. }
    intros Hrun Hle. destruct fuel' as [|fuel']; [lia|]. simpl. rewrite Hq.
    destruct (HashTablePriorityQueue.Dequeue (d_pq st)) as [[u pq']| |];
      [|done..].
    revert Hrun. monad_step.
    destruct ((u <? 0) || (u >=? vertex_count g)); [intros; apply IH; [done|lia]|].
    destruct (used_at _ u); [intros; apply IH; [done|lia]|].
    destruct (for_each _ _ _); monad_step; [|done..].
    intros; apply IH; [done|lia].
Qed.

Lemma dijkstra_budget_drop_negative g :
  wf_graph g → (dijkstra_budget (drop_negative g) ≤ dijkstra_budget g)%nat.
Proof.
  intros Hwf. pose proof (wf_drop_negative g Hwf) as Hwf'.
  destruct Hwf as (Hn & Hlen & _), Hwf' as (Hn' & Hlen' & _).
  unfold dijkstra_budget. rewrite !total_entries_concat by done. simpl.
  assert (length (concat (filter (λ e, ¬ negative e) <$> adj_ g))
          ≤ length (concat (adj_ g)))%nat; [|lia].
  clear. induction (adj_ g) as [|l adj IH]; [done|].
  rewrite fmap_cons. simpl. rewrite !length_app.
  pose proof (length_filter (λ e, ¬ negative e) l). lia.
Qed.

(** [dijkstra] returns on [g] what it returns on [g] without its negative
    entries. *)
Lemma dijkstra_drop_negative g source :
  wf_graph g → dijkstra g source = dijkstra (drop_negative g) source.
Proof.
  intros Hwf. pose proof (wf_drop_negative g Hwf) as Hwf'.
  destruct (dijkstra_ok (drop_negative g) Hwf' source) as (res & Hres & _).
  rewrite Hres. revert Hres. unfold dijkstra, vertex_count. simpl.
  destruct (init_result (n_ g)) as [res0| |]; [|done..]. monad_step.
  destruct ((source <? 0) || (source >=? n_ g)); [done|].
  destruct (DynamicArray.Set_ (dist res0) source W0) as [d0| |]; [|done..].
  monad_step.
  destruct (dijkstra_loop (dijkstra_budget (drop_negative g)) _ _)
    as [st| |] eqn:Hloop; [|done..].
  monad_step. intros [= <-].
  rewrite dijkstra_loop_drop_negative.
  erewrite dijkstra_loop_more_fuel;
    [done|exact Hloop|by apply dijkstra_budget_drop_negative].
Qed.

(** C4. In [dijkstra], an edge [e] of negative weight met while the
    neighbours of [u] are enumerated is skipped: the step returns normally
    and [dist], [parent], the queue and [used] are all as before, so the
    enumeration goes on as if the entry were absent. As a whole, [dijkstra]
    returns on [g] what it returns on [g] without its negative entries. *)
Theorem dijkstra_skips_negative (g : Graph) (source u : Vertex) (st : DState)
    (e : Edge) :
  wf_graph g → negative e →
  dijkstra_relax u st e = Ok st ∧
  (∀ before after,
     for_each (dijkstra_relax u) (before ++ e :: after) st
     = for_each (dijkstra_relax u) (before ++ after) st) ∧
  dijkstra g source = dijkstra (drop_negative g) source.
Proof.
  intros Hwf He. split; [by apply dijkstra_relax_negative|].
  split; [|by apply dijkstra_drop_negative].
  intros before after. rewrite !for_each_app.
  destruct (for_each _ before st); simpl; [|done..].
  by rewrite dijkstra_relax_negative.
Qed.

Lemma dijkstra_skips_negative_witness :
  let st := mkDState [Fin 0; PInf] [-1; -1] [] [true; false] in
  let e := mkEdge 1 (Fin (-2)) in
  dijkstra_relax 0 st e = Ok st ∧
  (∀ before after,
     for_each (dijkstra_relax 0) (before ++ e :: after) st
     = for_each (dijkstra_relax 0) (before ++ after) st) ∧
  dijkstra negative_cycle_graph 0
    = dijkstra (drop_negative negative_cycle_graph) 0.
Proof.
  intros st e.
  apply (dijkstra_skips_negative negative_cycle_graph 0 0 st e).
  - by_evaluation.
  - reflexivity.
Defined.

(** ** The examples of the repository's tests *)

Example test_graph_distances :
  dijkstra test_graph 0
    = Ok (mkResult [Fin 0; Fin 2; Fin 3; Fin 4; Fin 7] [-1; 0; 1; 1; 3] false) ∧
  bellman_ford test_graph 0
    = Ok (mkResult [Fin 0; Fin 2; Fin 3; Fin 4; Fin 7] [-1; 0; 1; 1; 3] false).
Proof. split; reflexivity. Qed.

Example test_graph_path :
  restore_path 0 4 [-1; 0; 1; 1; 3] = Ok [0; 1; 3; 4].
Proof. reflexivity. Qed.

Example negative_edge_distances :
  bellman_ford negative_edge_graph 0
    = Ok (mkResult [Fin 0; Fin 1; Fin (-1)] [-1; 0; 1] false).
Proof. reflexivity. Qed.

Example unreachable_vertex :
  let g := fst (add_edge 0 1 (Fin 1) (Graph_new 3 true)) in
  dijkstra g 0 = Ok (mkResult [Fin 0; Fin 1; PInf] [-1; 0; -1] false) ∧
  bellman_ford g 0 = Ok (mkResult [Fin 0; Fin 1; PInf] [-1; 0; -1] false).
Proof. split; reflexivity. Qed.

(** ** Where the code departs from the specification *)

(** C2. The edge array of [bellman_ford] has capacity [g.edge_count()],
    which for an undirected graph is half the number of adjacency entries,
    and the copy loop stops storing at that capacity. For the undirected
    graph with the single edge [{0, 1}] the adjacency lists hold [0→1] and
    [1→0], the edge array holds [0→1] only, and so from source [1] vertex
    [0] is never relaxed. *)
Theorem bellman_ford_edge_list_undirected :
  adj_ single_edge_graph = [[mkEdge 1 (Fin 1)]; [mkEdge 0 (Fin 1)]] ∧
  edge_count single_edge_graph = 1 ∧
  bf_edge_list single_edge_graph = [mkBFEdge 0 1 (Fin 1)] ∧
  ¬ (mkBFEdge 1 0 (Fin 1) ∈ bf_edge_list single_edge_graph) ∧
  bellman_ford single_edge_graph 1
    = Ok (mkResult [PInf; Fin 0] [-1; -1] false).
Proof.
  split_and!; [reflexivity..| |reflexivity].
  change (bf_edge_list single_edge_graph) with [mkBFEdge 0 1 (Fin 1)].
  intros H. apply list_elem_of_singleton in H. discriminate.
Qed.

(** C1. The graph with the single undirected edge [{0, 1}] of weight [1] has
    no negative weight, yet from source [1] the two algorithms disagree:
    [dijkstra] reaches vertex [0] at distance [1], [bellman_ford] leaves it
    at [INF], because its edge array lacks the entry [1→0]. *)
Theorem dijkstra_bellman_ford_disagree :
  wf_graph single_edge_graph ∧
  Forall (Forall (λ e, ¬ negative e)) (adj_ single_edge_graph) ∧
  in_range (vertex_count single_edge_graph) 1 ∧
  dijkstra single_edge_graph 1 = Ok (mkResult [Fin 1; Fin 0] [1; -1] false) ∧
  bellman_ford single_edge_graph 1
    = Ok (mkResult [PInf; Fin 0] [-1; -1] false) ∧
  ¬ agree [Fin 1; Fin 0] [PInf; Fin 0].
Proof.
  split_and!; [by_evaluation|by_evaluation|by_evaluation|reflexivity..|].
  intros [_ H]. destruct (H 0%nat (Fin 1) PInf eq_refl eq_refl)
    as [[? _]|(? & ? & _ & ? & _)]; discriminate.
Qed.

(** The same defect from source [0]: on the undirected path [0 - 1 - 2] the
    edge array holds [0→1] and [1→0] and misses the edge [{1, 2}] in both
    directions. *)
Example path_graph_disagree :
  let g := fst (add_edges [(0, 1, Fin 1); (1, 2, Fin 1)] (Graph_new 3 false)) in
  bf_edge_list g = [mkBFEdge 0 1 (Fin 1); mkBFEdge 1 0 (Fin 1)] ∧
  dijkstra g 0 = Ok (mkResult [Fin 0; Fin 1; Fin 2] [-1; 0; 1] false) ∧
  bellman_ford g 0 = Ok (mkResult [Fin 0; Fin 1; PInf] [-1; 0; -1] false).
Proof. split_and!; reflexivity. Qed.

(** * Further properties of the code *)

(** ** Loops over an index range *)

(** A loop over an index range with an invariant that depends on the
    index. *)
Lemma for_each_seqZ {St} (P : Z → St → Prop) (body : St → Z → result St)
    (a len : Z) (s : St) :
  0 ≤ len → P a s →
  (∀ i s, a ≤ i < a + len → P i s → ∃ s', body s i = Ok s' ∧ P (i + 1) s') →
  ∃ s', for_each body (seqZ a len) s = Ok s' ∧ P (a + len) s'.
Proof.
  intros Hlen. rewrite <-(Z2Nat.id len) by done.
  generalize (Z.to_nat len). clear Hlen len. intros k. revert a s.
  induction k as [|k IH]; intros a s Hs Hbody.
  - exists s. simpl. by rewrite Z.add_0_r.
  - rewrite seqZ_cons by lia. cbn [for_each].
    destruct (Hbody a s) as (s1 & -> & Hs1); [lia|done|]. monad_step.
    replace (Z.pred (Z.of_nat (S k))) with (Z.of_nat k) by lia.
    replace (Z.succ a) with (a + 1) by lia.
    destruct (IH (a + 1) s1 Hs1) as (s' & Hrun & Hs').
    { intros i s2 Hi. apply Hbody. lia. }
    exists s'. split; [done|].
    by replace (a + Z.of_nat (S k)) with (a + 1 + Z.of_nat k) by lia.
Qed.

(** ** Sums that are not rounded *)

Lemma integral_nonneg B w : integral B w → 0 ≤ B.
Proof. destruct w as [q|]; simpl; [lia|done]. Qed.

Lemma integral_mono B B' w : B ≤ B' → integral B w → integral B' w.
Proof. destruct w as [q|]; simpl; [lia|done]. Qed.

Lemma integral_wadd B B' a w :
  integral B a → integral B' w → integral (B + B') (wadd a w).
Proof.
  destruct a as [p|], w as [q|]; simpl; try done.
  intros [Hp1 Hp2] [Hq1 Hq2]. unfold Qplus. simpl.
  rewrite Hp1, Hq1. simpl. split; [done|lia].
Qed.

Lemma integral_or_INF_mono b b' d :
  b ≤ b' → integral_or_INF b d → integral_or_INF b' d.
Proof.
  intros Hb Hd. eapply Forall_impl; [exact Hd|].
  intros x [?|Hx]; [by left|right]. by eapply integral_mono.
Qed.

Section bellman_ford_range.
Variable B : Z.
Hypothesis HB : 0 ≤ B.

Lemma bf_relax_range b d p c e d' p' c' :
  bf_relax (d, p, c) e = Ok (d', p', c') → integral B (bf_w e) →
  integral_or_INF b d → integral_or_INF (b + B) d'.
Proof.
  intros Hrun Hw Hd.
  assert (integral_or_INF (b + B) d) as Hd'
    by (eapply integral_or_INF_mono; [|done]; lia).
  unfold bf_relax in Hrun.
  destruct (DynamicArray.Get d (bf_u e)) as [du| |] eqn:Hdu; [|done..].
  apply Get_inv in Hdu as [Hu Hdu]. revert Hrun. monad_step.
  destruct (is_INF du) eqn:Hfin; [by intros [= <- <- <-]|].
  destruct (DynamicArray.Get d (bf_v e)) as [dv| |]; [|done..]. monad_step.
  destruct (wltb (wadd du (bf_w e)) dv); [|by intros [= <- <- <-]].
  destruct (DynamicArray.Set_ d (bf_v e) _) as [d1| |] eqn:Hset; [|done..].
  apply Set_inv in Hset as [_ ->]. monad_step.
  destruct (DynamicArray.Set_ p _ _); [|done..]. monad_step.
  intros [= <- <- <-]. apply Forall_insert; [done|]. right.
  apply integral_wadd; [|done].
  eapply Forall_lookup_1 in Hd; [|exact Hdu].
  destruct Hd as [->|Hd]; done.
Qed.

Lemma bf_pass_range edges b d p c d' p' c' :
  for_each bf_relax edges (d, p, c) = Ok (d', p', c') →
  Forall (λ e, integral B (bf_w e)) edges →
  integral_or_INF b d →
  integral_or_INF (b + B * Z.of_nat (length edges)) d'.
Proof.
  revert b d p c.
  induction edges as [|e edges IH]; intros b d p c; cbn [for_each length].
  - intros [= <- <- <-] _ Hd. by rewrite Z.mul_0_r, Z.add_0_r.
  - destruct (bf_relax (d, p, c) e) as [[[d1 p1] c1]| |] eqn:Hstep; [|done..].
    monad_step. intros Hrun Hes Hd. apply Forall_cons in Hes as [He Hes].
    replace (b + B * Z.of_nat (S (length edges)))
      with (b + B + B * Z.of_nat (length edges)) by lia.
    eapply IH; [done..|]. by eapply bf_relax_range.
Qed.

Lemma bf_main_range passes edges b d p d' p' :
  bf_main passes edges (d, p) = Ok (d', p') →
  Forall (λ e, integral B (bf_w e)) edges →
  integral_or_INF b d →
  integral_or_INF
    (b + B * (Z.of_nat passes * Z.of_nat (length edges))) d'.
Proof.
  revert b d p.
  induction passes as [|passes IH]; intros b d p; cbn [bf_main fst snd].
  - intros [= <- <-] _ Hd. by rewrite Z.mul_0_l, Z.mul_0_r, Z.add_0_r.
  - destruct (for_each bf_relax edges (d, p, false))
      as [[[d1 p1] c1]| |] eqn:Hpass; [|done..].
    monad_step. intros Hrun Hes Hd.
    pose proof (bf_pass_range _ _ _ _ _ _ _ _ Hpass Hes Hd) as Hd1.
    destruct c1.
    + eapply integral_or_INF_mono; [|by eapply IH]. nia.
    + injection Hrun as <- <-. eapply integral_or_INF_mono; [|done]. nia.
Qed.
End bellman_ford_range.

(** The entries of a graph whose weights are integers up to [B]. *)
Lemma exact_sums_entries B k g e :
  exact_sums B k g → e ∈ all_entries g → integral B (bf_w e).
Proof.
  intros (Hall & _) He.
  apply elem_of_all_entries in He as (u & x & Hu & Hl & Hx & ->). simpl.
  eapply Forall_lookup_1 in Hall; [|exact Hl].
  by eapply Forall_forall in Hall.
Qed.

(** While [bellman_ford] runs, every sum it forms is an integer of
    magnitude at most [2^53]; so are the distances it returns. *)
Lemma bellman_ford_range B g source res :
  wf_graph g → in_range (vertex_count g) source →
  exact_sums B (vertex_count g * (edge_count g + 1)) g →
  bellman_ford g source = Ok res →
  integral_or_INF (2 ^ 53) (dist res).
Proof.
  intros Hwf Hs Hex Hres. pose proof Hex as (_ & HB & Hk).
  destruct (bellman_ford_run g source Hwf Hs)
    as (res' & d0 & Hres' & Hd0 & Hmain & _).
  rewrite Hres in Hres'. injection Hres' as <-.
  apply Set_inv in Hd0 as [_ ->].
  assert (Forall (λ e, integral B (bf_w e)) (bf_edge_list g)) as Hes.
  { apply Forall_forall. intros e He. apply (exact_sums_entries B _ g e Hex).
    rewrite bf_edge_list_take in He by done.
    apply elem_of_take in He as (i & Hi & _). by eapply list_elem_of_lookup_2. }
  assert (0 ≤ edge_count g) as Hm0.
  { destruct Hwf as (Hn & Hlen & _). unfold edge_count. cbv zeta.
    rewrite total_entries_concat by done.
    destruct (negb (directed_ g)); [apply Z.div_pos|]; lia. }
  assert (Z.of_nat (length (bf_edge_list g)) ≤ edge_count g) as Hm.
  { rewrite bf_edge_list_take, length_take by done. lia. }
  eapply integral_or_INF_mono;
    [|eapply (bf_main_range B HB _ _ 0); [exact Hmain|done|]].
  - unfold vertex_count, in_range in *. nia.
  - apply Forall_insert; [|right; simpl; lia].
    apply Forall_replicate. by left.
Qed.

Lemma cost_integral B es :
  0 ≤ B → Forall (λ e, integral B (bf_w e)) es →
  integral (B * Z.of_nat (length es)) (cost W0 es).
Proof.
  intros HB. induction es as [|e es IH] using rev_ind; intros Hes.
  - simpl. lia.
  - apply Forall_app in Hes as [Hes He]. rewrite Forall_singleton in He.
    rewrite cost_snoc, length_app. simpl.
    replace (B * Z.of_nat (length es + 1))
      with (B * Z.of_nat (length es) + B) by lia.
    apply integral_wadd; [by apply IH|done].
Qed.

(** Weights that are equal as numbers and integers are of the same
    magnitude. *)
Lemma integral_weq b b' x y :
  integral b x → integral b' y → weq x y → integral b' x.
Proof.
  destruct x as [p|], y as [q|]; simpl; try done.
  intros [Hp1 Hp2] [Hq1 Hq2] Heq.
  assert (p == q)%Q as Hpq by (clear Hp1 Hp2 Hq1 Hq2; weight_order).
  unfold Qeq in Hpq. rewrite Hp1, Hq1 in Hpq. split; [done|lia].
Qed.

(** ** Least costs, whatever the weights *)

(** Costs add up: traversing [es] from cost [c] costs [c] more than
    traversing it from [0]. *)
Lemma cost_shift c es : weq (cost c es) (wadd c (cost W0 es)).
Proof.
  induction es as [|e es IH] using rev_ind.
  - simpl. weight_order.
  - rewrite !cost_snoc. revert IH.
    generalize (cost c es), (cost W0 es), (bf_w e). clear.
    intros a b w IH. weight_order.
Qed.

Lemma cost_INF es : cost INF es = INF.
Proof. induction es as [|e es IH]; simpl; [done|]. exact IH. Qed.

(** Where no negative cycle can be reached, a walk can be cut down to fewer
    than [n] edges without raising its cost. *)
Lemma walk_shorten_cycles E n s :
  no_negative_cycle_from E s → Forall (bf_edge_ok n) E → in_range n s →
  ∀ es v, walk E s es v →
    ∃ es', walk E s es' v ∧ (length es' < Z.to_nat n)%nat ∧
           wle (cost W0 es') (cost W0 es).
Proof.
  intros Hnc HE Hs es. remember (length es) as k eqn:Hk. revert es Hk.
  induction k as [k IH] using lt_wf_ind. intros es -> v Hw.
  destruct (decide (length es < Z.to_nat n)%nat) as [Hlt|Hge].
  { exists es. split_and!; [done|done|apply wle_refl]. }
  destruct Hw as [Hes Hc].
  destruct (chain_repeat n s es v)
    as (es1 & es2 & es3 & x & -> & Hne & H1 & H2 & H3); [done| |done|lia|].
  { eapply Forall_impl; [exact Hes|]. intros e He. simpl in He.
    eapply Forall_forall in HE; [|done]. by destruct HE. }
  apply Forall_app in Hes as [Hes1 Hes23].
  apply Forall_app in Hes23 as [Hes2 Hes3].
  destruct (IH (length (es1 ++ es3))) with (es := es1 ++ es3) (v := v)
    as (es' & Hw' & Hlen' & Hcost').
  - rewrite !length_app. destruct es2; [done|simpl; lia].
  - done.
  - split; [by apply Forall_app|]. apply chain_app. by exists x.
  - exists es'. split_and!; [done..|]. eapply wle_trans; [done|].
    rewrite !cost_app. apply cost_mono.
    destruct (is_INF (cost W0 es1)) eqn:Hinf.
    + destruct (cost W0 es1); [done|]. rewrite cost_INF. apply wle_INF.
    + pose proof (Hnc es1 x es2 (conj Hes1 H1) Hinf (conj Hes2 H2)) as Hcyc.
      pose proof (cost_shift (cost W0 es1) es2) as Hshift.
      assert (∀ a b c, wle W0 c → weq a (wadd b c) → wle b a) as Hord
        by (clear; intros a b c ??; weight_order).
      by eapply Hord.
Qed.

(** Least costs leave no edge to relax. *)
Lemma closed_of_least E n s d :
  Forall (bf_edge_ok n) E → sound E s d → below_all E s d → closed E d.
Proof.
  intros HE Hsound Hbelow e He (du & dv & Hdu & Hdv & Hfin & Hlt).
  pose proof (proj1 (Forall_forall _ _) HE _ He) as [[Hu _] [Hv _]].
  destruct du as [q|]; [|done].
  destruct (Hsound (bf_u e) q Hu Hdu) as (es & Hw & Hc).
  pose proof (Hbelow (S (length es)) (es ++ [e]) (bf_v e) dv) as Hle.
  rewrite cost_snoc, Hc in Hle. unfold wle in Hle. rewrite Hle in Hlt; [done| | |done..].
  - by apply walk_snoc.
  - rewrite length_app. simpl. lia.
Qed.

(** Against distances that leave no edge to relax, a walk costs at least
    the difference of the distances of its ends. *)
Lemma closed_potential E n d u es v :
  Forall (bf_edge_ok n) E → Z.of_nat (length d) = n → closed E d →
  in_range n u → walk E u es v →
  wle (dist_at d v) (wadd (dist_at d u) (cost W0 es)).
Proof.
  intros HE Hlen Hclosed Hu. revert v.
  induction es as [|e es IH] using rev_ind; intros v Hw.
  - destruct Hw as [_ Hc]. simpl in Hc. subst v. simpl.
    generalize (dist_at d u). clear. intros a. weight_order.
  - apply walk_snoc_inv in Hw as (Hw & He & <-).
    pose proof (proj1 (Forall_forall _ _) HE _ He) as [Hue Hve].
    unfold in_range in Hue, Hve. rewrite cost_snoc.
    specialize (IH _ Hw).
    destruct (wltb (wadd (dist_at d (bf_u e)) (bf_w e)) (dist_at d (bf_v e)))
      eqn:Hlt.
    + destruct (is_INF (dist_at d (bf_u e))) eqn:Hinf.
      * revert IH Hinf. generalize (dist_at d (bf_u e)), (dist_at d (bf_v e)),
          (dist_at d u), (cost W0 es), (bf_w e). clear.
        intros a b c k w IH Hinf. destruct a; [done|]. weight_order.
      * destruct (Hclosed e He).
        exists (dist_at d (bf_u e)), (dist_at d (bf_v e)).
        split_and!; [apply dist_at_lookup; lia|apply dist_at_lookup; lia|done..].
    + revert IH Hlt. generalize (dist_at d (bf_u e)), (dist_at d (bf_v e)),
        (dist_at d u), (cost W0 es), (bf_w e). clear.
      intros a b c k w IH Hlt. weight_order.
Qed.

Lemma walk_end_in_range E n s es v :
  Forall (bf_edge_ok n) E → in_range n s → walk E s es v → in_range n v.
Proof.
  intros HE Hs Hw. destruct es as [|e es _] using rev_ind.
  - destruct Hw as [_ Hc]. simpl in Hc. by subst.
  - apply walk_snoc_inv in Hw as (_ & He & <-).
    by apply (proj1 (Forall_forall _ _) HE _ He).
Qed.

Lemma drop_negative_nonnegative g :
  Forall (Forall (λ e, ¬ negative e)) (adj_ (drop_negative g)).
Proof.
  simpl. apply Forall_fmap, Forall_forall. intros l _. simpl.
  apply Forall_forall. intros e He. by apply list_elem_of_filter in He as [? _].
Qed.

(** What the passes of [bellman_ford] leave behind, for the edge array [E]
    the function works on. *)
Lemma bellman_ford_passes g source :
  wf_graph g → in_range (vertex_count g) source →
  ∃ res,
    bellman_ford g source = Ok res ∧
    Z.of_nat (length (dist res)) = n_ g ∧
    sound (bf_edge_list g) source (dist res) ∧
    below (Z.to_nat (n_ g) - 1) (bf_edge_list g) source (dist res) ∧
    (has_negative_cycle res = false ↔ closed (bf_edge_list g) (dist res)).
Proof.
  intros Hwf Hs.
  destruct (bellman_ford_run g source Hwf Hs)
    as (res & d0 & Hres & Hd0 & Hmain & Hflag).
  exists res. split; [done|].
  apply Set_inv in Hd0 as [_ ->]. rewrite bf_main_early_exit in Hmain.
  destruct (source_initial (bf_edge_list g) (n_ g) source Hs)
    as (Hlen0 & Hsound0 & Hb0).
  destruct (bf_main_no_break_spec (bf_edge_list g) (n_ g) source
              (bf_edge_list_ok g Hwf) _ 0 _ _ _ _ Hmain Hlen0 Hsound0 Hb0)
    as (Hlen & Hsound & Hbelow).
  split_and!; [done..| |].
  - unfold vertex_count in Hbelow.
    replace (Z.to_nat (n_ g) - 1)%nat with (Z.to_nat (n_ g - 1) + 0)%nat by lia.
    done.
  - split.
    + intros Hno e He Hrel.
      assert (has_negative_cycle res = true) as Hyes by (apply Hflag; eauto).
      congruence.
    + intros Hclosed. destruct (has_negative_cycle res) eqn:Hyes; [|done].
      destruct (proj1 Hflag eq_refl) as (e & He & Hrel).
      by destruct (Hclosed e He).
Qed.

Lemma below_source_zero k E s d :
  0 ≤ s < Z.of_nat (length d) → below k E s d → wle (dist_at d s) W0.
Proof.
  intros Hs Hbelow.
  apply (Hbelow [] s (dist_at d s)); [apply walk_nil|simpl; lia|lia|].
  by apply dist_at_lookup.
Qed.

(** X2. Take a well-formed graph with [n] vertices and [m] edges whose
    weights are integers of magnitude at most [B], with
    [B * n * (m + 1) <= 2^53], and a valid source. The [n - 1] passes over
    at most [m] stored edges and the final pass then form only sums of
    integers that stay within [2^53], which [double] addition does not
    round. [bellman_ford] returns; every distance is infinite or an integer
    within [2^53]; every finite distance is the cost of a walk from the
    source along the edges it stored; and if it reports no negative cycle,
    no walk from the source to a vertex costs less than the distance of
    that vertex. On a directed graph the stored edges are all adjacency
    entries. *)
Theorem bellman_ford_least_costs (B : Z) (g : Graph) (source : Vertex) :
  wf_graph g → in_range (vertex_count g) source →
  exact_sums B (vertex_count g * (edge_count g + 1)) g →
  ∃ res,
    bellman_ford g source = Ok res ∧
    DynamicArray.GetSize (dist res) = vertex_count g ∧
    integral_or_INF (2 ^ 53) (dist res) ∧
    sound (bf_edge_list g) source (dist res) ∧
    (has_negative_cycle res = false →
     below_all (bf_edge_list g) source (dist res)) ∧
    (is_directed g = true → bf_edge_list g = all_entries g).
Proof.
  intros Hwf Hs Hex.
  destruct (bellman_ford_passes g source Hwf Hs)
    as (res & Hres & Hlen & Hsound & Hbelow & Hflag).
  exists res.
  split_and!; [done|done|by eapply bellman_ford_range|done|
               |by apply bf_edge_list_directed].
  intros Hno. apply (below_all_of_closed _ (n_ g));
    [by apply bf_edge_list_ok|by apply Hflag|done|].
  eapply below_source_zero; [|done]. unfold in_range, vertex_count in Hs. lia.
Qed.

Lemma bellman_ford_least_costs_witness :
  ∃ res,
    bellman_ford negative_edge_graph 0 = Ok res ∧
    DynamicArray.GetSize (dist res) = vertex_count negative_edge_graph ∧
    integral_or_INF (2 ^ 53) (dist res) ∧
    sound (bf_edge_list negative_edge_graph) 0 (dist res) ∧
    (has_negative_cycle res = false →
     below_all (bf_edge_list negative_edge_graph) 0 (dist res)) ∧
    (is_directed negative_edge_graph = true →
     bf_edge_list negative_edge_graph = all_entries negative_edge_graph).
Proof.
  apply (bellman_ford_least_costs 4 negative_edge_graph 0); by_evaluation.
Defined.

(** X3. Take a well-formed graph with [n] vertices and [m] edges whose
    weights are integers of magnitude at most [B], with
    [B * n * (m + 1) <= 2^53], so that no sum [bellman_ford] forms is
    rounded, and a valid source. [bellman_ford] reports a negative cycle
    exactly when its edge array holds a cycle of negative cost that a walk
    of finite cost from the source leads to. *)
Theorem bellman_ford_flag_reachable_cycle (B : Z) (g : Graph)
    (source : Vertex) :
  wf_graph g → in_range (vertex_count g) source →
  exact_sums B (vertex_count g * (edge_count g + 1)) g →
  ∃ res,
    bellman_ford g source = Ok res ∧
    (has_negative_cycle res = false ↔
     no_negative_cycle_from (bf_edge_list g) source).
Proof.
  intros Hwf Hs _. pose proof (bf_edge_list_ok g Hwf) as HE.
  destruct (bellman_ford_passes g source Hwf Hs)
    as (res & Hres & Hlen & Hsound & Hbelow & Hflag).
  exists res. split; [done|]. rewrite Hflag. split.
  - intros Hclosed es1 x es2 Hw1 Hfin Hw2.
    assert (in_range (n_ g) x) as Hx by (by eapply walk_end_in_range).
    assert (below_all (bf_edge_list g) source (dist res)) as Hall.
    { apply (below_all_of_closed _ (n_ g)); [done..|].
      eapply below_source_zero; [|done].
      unfold in_range, vertex_count in Hs. lia. }
    pose proof (Hall (length es1) es1 x (dist_at (dist res) x) Hw1) as Hle.
    unfold in_range in Hx.
    specialize (Hle (le_n _) (proj1 Hx)).
    rewrite dist_at_lookup in Hle by lia. specialize (Hle eq_refl).
    pose proof (closed_potential _ _ _ x es2 x HE Hlen Hclosed Hx Hw2) as Hpot.
    revert Hle Hfin Hpot.
    generalize (dist_at (dist res) x), (cost W0 es1), (cost W0 es2). clear.
    intros a b c Hle Hfin Hpot. destruct b; [|done]. weight_order.
  - intros Hnc. eapply closed_of_least; [done..|].
    intros k es v x Hw _ Hv Hx.
    destruct (walk_shorten_cycles _ (n_ g) source Hnc HE Hs es v Hw)
      as (es' & Hw' & Hlen' & Hc).
    eapply wle_trans; [|done]. eapply Hbelow; [done|lia|done|done].
Qed.

Lemma bellman_ford_flag_reachable_cycle_witness :
  ∃ res,
    bellman_ford negative_cycle_graph 0 = Ok res ∧
    (has_negative_cycle res = false ↔
     no_negative_cycle_from (bf_edge_list negative_cycle_graph) 0).
Proof.
  apply (bellman_ford_flag_reachable_cycle 2 negative_cycle_graph 0);
    by_evaluation.
Defined.

(** The distances that [dijkstra] returns are integers of magnitude at
    most [2^53]: each is the cost of a walk of fewer than [n] edges. *)
Lemma dijkstra_range B g source res :
  wf_graph g → in_range (vertex_count g) source →
  exact_sums B (vertex_count g) g →
  dijkstra g source = Ok res →
  integral_or_INF (2 ^ 53) (dist res).
Proof.
  intros Hwf Hs Hex Hres. pose proof Hex as (_ & HB & Hk).
  pose proof (wf_drop_negative g Hwf) as Hwf'.
  pose proof (drop_negative_nonnegative g) as Hnn.
  rewrite dijkstra_drop_negative in Hres by done.
  destruct (dijkstra_least _ Hwf' Hnn source res Hs Hres)
    as (Hlen & Hsound & Hbelow).
  set (E := all_entries (drop_negative g)) in *.
  assert (∀ e, e ∈ E → integral B (bf_w e)) as HE.
  { intros e He.
    apply elem_of_all_entries in He as (u & x & Hu & Hl & Hx & ->). simpl.
    destruct Hex as (Hall & _). simpl in Hl.
    apply list_lookup_fmap_Some in Hl as (l & Hl' & Hl).
    rewrite Hl' in Hx. apply list_elem_of_filter in Hx as [_ Hx].
    eapply Forall_lookup_1 in Hall; [|exact Hl].
    by eapply Forall_forall in Hall. }
  apply Forall_lookup_2. intros i x Hx.
  destruct x as [q|]; [right|by left].
  destruct (Hsound (Z.of_nat i) q) as (es & Hw & Hc);
    [lia|by rewrite Nat2Z.id|].
  destruct (walk_shorten E (n_ (drop_negative g)) source)
    with (es := es) (v := Z.of_nat i) as (es' & Hw' & Hlen' & Hle);
    [by apply all_entries_nonnegative|by apply all_entries_ok|done|done|].
  assert (wle (Fin q) (cost W0 es')) as Hge.
  { eapply (Hbelow (length es') es' (Z.of_nat i));
      [done|lia|lia|by rewrite Nat2Z.id]. }
  assert (integral (B * Z.of_nat (length es')) (Fin q)) as Hq.
  { eapply (integral_weq _ _ _ (cost W0 es')).
    - rewrite <-Hc. apply cost_integral; [done|].
      apply Forall_forall. intros e He. apply HE.
      destruct Hw as [Hes _]. by eapply Forall_forall in Hes.
    - apply cost_integral; [done|].
      apply Forall_forall. intros e He. apply HE.
      destruct Hw' as [Hes _]. by eapply Forall_forall in Hes.
    - split; [done|]. by rewrite <-Hc. }
  eapply integral_mono; [|exact Hq].
  unfold vertex_count in *. simpl in Hlen'.
  transitivity (B * n_ g); [|done].
  apply Z.mul_le_mono_nonneg_l; lia.
Qed.

(** X4. Take a well-formed graph with [n] vertices whose weights are
    integers of magnitude at most [B], with [B * n <= 2^53], and a valid
    source. [dijkstra] adds a weight only to the distance of the vertex it
    has just taken from the queue, which is the cost of a walk of fewer
    than [n] edges, so no sum it forms is rounded. It returns the least
    costs of walks along the adjacency entries of non-negative weight:
    every distance is infinite or an integer within [2^53], every finite
    distance is the cost of such a walk from the source, and no such walk
    to a vertex costs less than its distance. *)
Theorem dijkstra_least_costs (B : Z) (g : Graph) (source : Vertex) :
  wf_graph g → in_range (vertex_count g) source →
  exact_sums B (vertex_count g) g →
  ∃ res,
    dijkstra g source = Ok res ∧
    DynamicArray.GetSize (dist res) = vertex_count g ∧
    integral_or_INF (2 ^ 53) (dist res) ∧
    sound (all_entries (drop_negative g)) source (dist res) ∧
    below_all (all_entries (drop_negative g)) source (dist res).
Proof.
  intros Hwf Hs Hex. pose proof (wf_drop_negative g Hwf) as Hwf'.
  destruct (dijkstra_ok (drop_negative g) Hwf' source) as (res & Hres & _).
  exists res. rewrite dijkstra_drop_negative by done.
  destruct (dijkstra_least (drop_negative g) Hwf'
              (drop_negative_nonnegative g) source res Hs Hres)
    as (Hlen & Hsound & Hbelow).
  split_and!; [done|exact Hlen| |done|done].
  apply (dijkstra_range B g source); [done..|].
  by rewrite dijkstra_drop_negative.
Qed.

Lemma dijkstra_least_costs_witness :
  ∃ res,
    dijkstra negative_edge_graph 0 = Ok res ∧
    DynamicArray.GetSize (dist res) = vertex_count negative_edge_graph ∧
    integral_or_INF (2 ^ 53) (dist res) ∧
    sound (all_entries (drop_negative negative_edge_graph)) 0 (dist res) ∧
    below_all (all_entries (drop_negative negative_edge_graph)) 0 (dist res).
Proof.
  apply (dijkstra_least_costs 4 negative_edge_graph 0); by_evaluation.
Defined.

(** ** The comparator on directed graphs without negative weights *)

Section directed_runs.
Variables (g : Graph) (source : Vertex).
Hypothesis Hwf : wf_graph g.
Hypothesis Hdir : is_directed g = true.
Hypothesis Hnonneg : Forall (Forall (λ e, ¬ negative e)) (adj_ g).

Lemma directed_distances_agree res_d res_b :
  dijkstra g source = Ok res_d → bellman_ford g source = Ok res_b →
  agree64 (dist res_d) (dist res_b).
Proof.
  intros Hd Hb. pose proof Hwf as (Hn & _).
  destruct (dijkstra_ok g Hwf source) as (res & Hd' & Hld & _).
  assert (res = res_d) as -> by congruence.
  destruct (bellman_ford_ok g source Hwf) as (res & Hb' & Hlb & _).
  assert (res = res_b) as -> by congruence.
  split; [lia|]. intros i x y Hx Hy. apply weq_close64.
  destruct (decide (in_range (vertex_count g) source)) as [Hs|Hs].
  - destruct (dijkstra_least g Hwf Hnonneg source res_d Hs Hd)
      as (_ & Hsd & Hbd).
    destruct (bellman_ford_least g Hwf Hnonneg source res_b Hdir Hs Hb)
      as (_ & Hsb & Hbb).
    by eapply (least_costs_agree (all_entries g) source (n_ g)
                 (dist res_d) (dist res_b)).
  - destruct (invalid_source_result g source Hn Hs) as [Hd'' Hb''].
    rewrite Hd in Hd''. rewrite Hb in Hb''.
    injection Hd'' as ->. injection Hb'' as ->. simpl in Hx, Hy.
    apply lookup_replicate in Hx as [-> _].
    apply lookup_replicate in Hy as [-> _]. split; apply wle_refl.
Qed.

Lemma directed_no_flag res_b :
  bellman_ford g source = Ok res_b → has_negative_cycle res_b = false.
Proof.
  intros Hb. pose proof Hwf as (Hn & _).
  destruct (decide (in_range (vertex_count g) source)) as [Hs|Hs].
  - destruct (bellman_ford_passes g source Hwf Hs)
      as (res & Hres & Hlen & Hsound & Hbelow & Hflag).
    assert (res = res_b) as -> by congruence.
    apply Hflag. rewrite bf_edge_list_directed by done.
    destruct (bellman_ford_least g Hwf Hnonneg source res_b Hdir Hs Hb)
      as (_ & Hsb & Hbb).
    eapply closed_of_least; [by apply all_entries_ok|done..].
  - destruct (invalid_source_result g source Hn Hs) as [_ Hb'].
    rewrite Hb in Hb'. by injection Hb' as ->.
Qed.
End directed_runs.

(** X5. On a well-formed directed graph without negative weights, for every
    source and every clock, the comparator returns the record of Dijkstra
    and then the record of Bellman-Ford, each with the vertex count, the
    edge count and the elapsed time of its run; Dijkstra is reported ok
    exactly when the graph has a vertex, Bellman-Ford always. *)
Theorem comparator_directed_ok (clock : nat → Z) (g : Graph) (source : Vertex) :
  wf_graph g → is_directed g = true →
  Forall (Forall (λ e, ¬ negative e)) (adj_ g) →
  compare_algorithms_on_graph clock g source =
    Ok [mkRecord (vertex_count g) (edge_count g) "Dijkstra"
          (elapsed_ms (clock 0%nat) (clock 1%nat)) (0 <? vertex_count g);
        mkRecord (vertex_count g) (edge_count g) "Bellman-Ford"
          (elapsed_ms (clock 2%nat) (clock 3%nat)) true].
Proof.
  intros Hwf Hdir Hnn.
  destruct (dijkstra_ok g Hwf source) as (res_d & Hd & Hld & _).
  destruct (bellman_ford_ok g source Hwf) as (res_b & Hb & _).
  destruct (same_dist_agree (dist res_d) (dist res_b)) as (s & Hsame & Hs).
  assert (s = true) as ->
    by (apply Hs; by apply (directed_distances_agree g source)).
  unfold compare_algorithms_on_graph. rewrite Hd, Hb. monad_step.
  rewrite Hsame. monad_step.
  rewrite (directed_no_flag g source Hwf Hdir Hnn res_b Hb).
  unfold DynamicArray.GetSize, vertex_count. rewrite Hld. reflexivity.
Qed.

Lemma comparator_directed_ok_witness :
  compare_algorithms_on_graph (λ k, 250 * Z.of_nat k) test_graph 0 =
    Ok [mkRecord (vertex_count test_graph) (edge_count test_graph) "Dijkstra"
          (elapsed_ms 0 250) (0 <? vertex_count test_graph);
        mkRecord (vertex_count test_graph) (edge_count test_graph)
          "Bellman-Ford" (elapsed_ms 500 750) true].
Proof.
  apply (comparator_directed_ok (λ k, 250 * Z.of_nat k) test_graph 0);
    [by_evaluation|reflexivity|by_evaluation].
Defined.

(** ** Path reconstruction: the path that is returned *)

Section source_walk.
Variables (source : Vertex) (parent : list Vertex).

Lemma source_trace_deterministic v l1 l2 :
  source_trace source parent v l1 → source_trace source parent v l2 → l1 = l2.
Proof.
  intros H1. revert l2.
  induction H1 as [Hs|v p l Hs Hn Hv Hp H1 IH]; intros l2 H2.
  - by inversion H2.
  - inversion H2; simplify_eq. f_equal. by apply IH.
Qed.

Lemma source_trace_suffix v l x :
  source_trace source parent v l → x ∈ l →
  ∃ l', source_trace source parent x l' ∧ (length l' ≤ length l)%nat.
Proof.
  induction 1 as [Hs|v p l Hs Hn Hv Hp H1 IH]; intros Hx.
  - apply list_elem_of_singleton in Hx as ->.
    exists [source]. split; [by constructor|done].
  - apply elem_of_cons in Hx as [->|Hx].
    + exists (v :: l). split; [by econstructor|done].
    + destruct (IH Hx) as (l' & Hl' & Hlen). exists l'. split; [done|].
      simpl. lia.
Qed.

Lemma source_trace_NoDup v l : source_trace source parent v l → NoDup l.
Proof.
  induction 1 as [Hs|v p l Hs Hn Hv Hp H1 IH].
  - apply NoDup_singleton.
  - apply NoDup_cons. split; [|done]. intros Hin.
    destruct (source_trace_suffix _ _ _ H1 Hin) as (l' & Hl' & Hlen).
    assert (l' = v :: l) as ->
      by (eapply source_trace_deterministic; [done|by econstructor]).
    simpl in Hlen. lia.
Qed.

Lemma source_trace_in_range v l x :
  in_range (Z.of_nat (length parent)) source →
  source_trace source parent v l → x ∈ l →
  in_range (Z.of_nat (length parent)) x.
Proof.
  intros Hsrc. induction 1 as [Hs|v p l Hs Hn Hv Hp H1 IH]; intros Hx.
  - by apply list_elem_of_singleton in Hx as ->.
  - apply elem_of_cons in Hx as [->|Hx]; [|by apply IH].
    apply lookup_lt_Some in Hp. unfold in_range. lia.
Qed.

(** A walk that arrives at a source inside the array visits no vertex
    twice, so it is no longer than the array. *)
Lemma source_trace_length v l :
  in_range (Z.of_nat (length parent)) source →
  source_trace source parent v l → (length l ≤ length parent)%nat.
Proof.
  intros Hsrc H.
  assert (l ⊆+ seqZ 0 (Z.of_nat (length parent))) as Hsub.
  { apply NoDup_submseteq; [by eapply source_trace_NoDup|].
    intros x Hx. apply elem_of_seqZ.
    destruct (source_trace_in_range _ _ _ Hsrc H Hx). lia. }
  apply submseteq_length in Hsub. rewrite length_seqZ in Hsub. lia.
Qed.

Lemma take_insert_snoc {A} (rev : list A) (k : nat) x :
  (k < length rev)%nat → take (S k) (<[k := x]> rev) = take k rev ++ [x].
Proof.
  intros Hk. rewrite (take_S_r _ _ x) by (by apply list_lookup_insert_eq).
  by rewrite take_insert_ge.
Qed.

(** What the loop of [restore_path] has written when it ends: the vertices
    it visited, none of them the source if it ended at [-1]. *)
Lemma walk_back_inv fuel v rev len rev' len' :
  walk_back fuel source parent v rev len = Ok (rev', len') →
  0 ≤ len ≤ Z.of_nat (length rev) →
  ∃ l, len' = len + Z.of_nat (length l) ∧ length rev' = length rev ∧
       len' ≤ Z.of_nat (length rev) ∧
       take (Z.to_nat len') rev' = take (Z.to_nat len) rev ++ l ∧
       (Forall (λ x, x ≠ source) l ∨ source_trace source parent v l).
Proof.
  revert v rev len.
  induction fuel as [|fuel IH]; intros v rev len; simpl;
    destruct (Z.eqb_spec v (-1)) as [->|Hv].
  - intros [= <- <-] Hlen. exists []. simpl. rewrite app_nil_r.
    split_and!; [lia|done|lia|done|by left].
  - done.
  - intros [= <- <-] Hlen. exists []. simpl. rewrite app_nil_r.
    split_and!; [lia|done|lia|done|by left].
  - destruct (DynamicArray.Set_ rev len v) as [rev1| |] eqn:Hset; [|done..].
    apply Set_inv in Hset as [Hlen1 ->]. monad_step.
    assert (take (Z.to_nat (len + 1)) (<[Z.to_nat len := v]> rev)
            = take (Z.to_nat len) rev ++ [v]) as Htake.
    { replace (Z.to_nat (len + 1)) with (S (Z.to_nat len)) by lia.
      apply take_insert_snoc. lia. }
    destruct (Z.eqb_spec v source) as [->|Hs].
    + intros [= <- <-] Hlen. exists [source]. rewrite length_insert.
      split_and!; [simpl; lia|done|lia|done|].
      right. by constructor.
    + destruct (DynamicArray.Get parent v) as [v'| |] eqn:Hget; [|done..].
      apply Get_inv in Hget as [Hvr Hv']. monad_step. intros Hrun Hlen.
      apply IH in Hrun as (l & -> & Hlen' & Hle & Htake' & Hl);
        [|rewrite length_insert; lia].
      rewrite length_insert in Hlen', Hle.
      exists (v :: l). split_and!; [simpl; lia|done|done| |].
      * rewrite Htake', Htake, <-app_assoc. done.
      * destruct Hl as [Hl|Hl]; [left; by constructor|].
        right. by eapply source_trace_next; [..|done]; [done|done|lia|done].
Qed.

(** The loop follows a chain that arrives at the source to its end. *)
Lemma walk_back_source_trace v l :
  source_trace source parent v l →
  ∀ fuel rev len,
    (length l ≤ fuel)%nat → 0 ≤ len →
    len + Z.of_nat (length l) ≤ Z.of_nat (length rev) →
    ∃ rev',
      walk_back fuel source parent v rev len
        = Ok (rev', len + Z.of_nat (length l)) ∧
      take (Z.to_nat (len + Z.of_nat (length l))) rev'
        = take (Z.to_nat len) rev ++ l.
Proof.
  induction 1 as [Hs|v p l Hs Hn Hv Hp H1 IH];
    intros fuel rev len Hfuel Hlen Hrev; simpl in Hfuel, Hrev;
    (destruct fuel as [|fuel]; [lia|]); simpl.
  - replace (source =? -1) with false by lia.
    rewrite Set_in_range by lia. monad_step. rewrite Z.eqb_refl.
    eexists. split; [done|]. change (Z.of_nat 1) with 1.
    replace (Z.to_nat (len + 1)) with (S (Z.to_nat len)) by lia.
    apply take_insert_snoc. lia.
  - replace (v =? -1) with false by lia.
    rewrite Set_in_range by lia. monad_step.
    replace (v =? source) with false by lia.
    rewrite (Get_lookup _ _ _ Hv Hp). monad_step.
    destruct (IH fuel (<[Z.to_nat len := v]> rev) (len + 1))
      as (rev' & Hrun & Htake); [lia|lia|rewrite length_insert; lia|].
    exists rev'. rewrite Hrun.
    replace (len + 1 + Z.of_nat (length l))
      with (len + Z.of_nat (S (length l))) in * by lia.
    split; [done|]. rewrite Htake.
    replace (Z.to_nat (len + 1)) with (S (Z.to_nat len)) by lia.
    rewrite take_insert_snoc by lia. by rewrite <-app_assoc.
Qed.
End source_walk.

(** The last loop of [restore_path] copies the first [len] slots of [rev]
    in reverse order. *)
Lemma reverse_copy_loop (rev : list Z) (len k : nat) :
  (k ≤ len ≤ length rev)%nat →
  for_each
    (λ path i,
       x ← DynamicArray.Get rev (Z.of_nat len - 1 - i);
       DynamicArray.Set_ path i x)
    (seqZ 0 (Z.of_nat k)) (replicate len 0)
  = Ok (reverse (drop (len - k) (take len rev)) ++ replicate (len - k) 0).
Proof.
  induction k as [|k IH]; intros Hk.
  - simpl. rewrite Nat.sub_0_r, drop_ge by (rewrite length_take; lia). done.
  - rewrite seqZ_S, for_each_app, IH by lia. monad_step. cbn [for_each].
    replace (Z.of_nat len - 1 - (0 + Z.of_nat k))
      with (Z.of_nat (len - S k)) by lia.
    destruct (lookup_lt_is_Some_2 rev (len - S k)) as [x Hx]; [lia|].
    rewrite (Get_lookup _ _ x) by (rewrite ?Nat2Z.id; done || lia).
    monad_step.
    assert (length (reverse (drop (len - k) (take len rev))) = k) as Hlen.
    { rewrite length_reverse, length_drop, length_take. lia. }
    rewrite Set_in_range
      by (rewrite length_app, Hlen, length_replicate; lia).
    monad_step. f_equal.
    rewrite insert_app_r_alt by lia.
    replace (Z.to_nat (0 + Z.of_nat k) - _)%nat with 0%nat by lia.
    rewrite (drop_S _ x (len - S k))
      by (rewrite lookup_take_lt by lia; done).
    replace (S (len - S k)) with (len - k)%nat by lia.
    rewrite reverse_cons, <-app_assoc. f_equal.
    replace (len - k)%nat with (S (len - S k)) by lia. done.
Qed.

Lemma reverse_copy (rev : list Z) (len : Z) :
  0 ≤ len ≤ Z.of_nat (length rev) →
  for_each
    (λ path i,
       x ← DynamicArray.Get rev (len - 1 - i);
       DynamicArray.Set_ path i x)
    (seqZ 0 len) (DynamicArray.make len 0)
  = Ok (reverse (take (Z.to_nat len) rev)).
Proof.
  intros Hlen. unfold DynamicArray.make.
  pose proof (reverse_copy_loop rev (Z.to_nat len) (Z.to_nat len)) as H.
  rewrite Z2Nat.id, Nat.sub_diag in H by lia. simpl in H.
  rewrite app_nil_r in H. apply H. lia.
Qed.

Lemma source_trace_last source parent v l :
  source_trace source parent v l → l !! (length l - 1)%nat = Some source.
Proof.
  induction 1 as [Hs|v p l Hs Hn Hv Hp H1 IH]; [done|].
  destruct H1; simpl in *; [done|].
  by rewrite Nat.sub_0_r in IH.
Qed.

Lemma restore_path_trace source target parent l :
  in_range (DynamicArray.GetSize parent) source →
  source_trace source parent target l →
  restore_path source target parent = Ok (reverse l).
Proof.
  unfold DynamicArray.GetSize. intros Hsrc Hl.
  pose proof (source_trace_length _ _ _ _ Hsrc Hl) as Hlen.
  pose proof (source_trace_last _ _ _ _ Hl) as Hlast.
  assert (in_range (Z.of_nat (length parent)) target) as Ht.
  { eapply source_trace_in_range; [done..|]. destruct Hl; left. }
  assert (l ≠ []) as Hne by (by destruct Hl).
  destruct (walk_back_source_trace _ _ _ _ Hl (S (length parent))
              (replicate (length parent) 0) 0)
    as (rev' & Hrun & Htake); [lia|done|rewrite length_replicate; lia|].
  rewrite Z.add_0_l in *. simpl in Htake. rewrite Nat2Z.id in Htake.
  assert (0 < length l)%nat as Hpos by (destruct l; simpl; [done|lia]).
  assert (length l ≤ length rev')%nat as Hrev'.
  { apply (f_equal length) in Htake. rewrite length_take in Htake. lia. }
  assert (rev' !! (length l - 1)%nat = Some source) as Hsrc'.
  { pose proof (f_equal (λ x, x !! (length l - 1)%nat) Htake) as Heq.
    simpl in Heq. rewrite lookup_take_lt in Heq by lia. congruence. }
  unfold restore_path, DynamicArray.GetSize, DynamicArray.make, in_range in *.
  replace ((target <? 0) || (target >=? Z.of_nat (length parent)))
    with false by lia.
  destruct (Get_in_range parent target Ht) as (pt & -> & Hpt). monad_step.
  replace ((pt =? -1) && negb (target =? source)) with false.
  2:{ destruct Hl as [|v p l ???? Hl]; [by rewrite Z.eqb_refl, andb_false_r|].
      assert (pt = p) as -> by congruence.
      replace (p =? -1) with false; [done|]. destruct Hl; lia. }
  rewrite Nat2Z.id, Hrun. monad_step.
  replace (Z.of_nat (length l) =? 0) with false by lia.
  rewrite (Get_lookup _ _ source); [|lia|rewrite <-Hsrc'; f_equal; lia].
  monad_step. rewrite Z.eqb_refl. cbn [negb].
  rewrite reverse_copy by lia. by rewrite Nat2Z.id, Htake.
Qed.

Lemma restore_path_nonempty source target parent path :
  restore_path source target parent = Ok path → path ≠ [] →
  source_trace source parent target (reverse path).
Proof.
  unfold restore_path, DynamicArray.GetSize, DynamicArray.make.
  destruct ((target <? 0) || (target >=? Z.of_nat (length parent)));
    [by intros [= <-]|].
  destruct (DynamicArray.Get parent target) as [pt| |]; [|done..]. monad_step.
  destruct ((pt =? -1) && negb (target =? source)); [by intros [= <-]|].
  destruct (walk_back _ _ _ _ _ _) as [[rev' len']| |] eqn:Hrun; [|done..].
  monad_step.
  apply walk_back_inv in Hrun as (l & Hlen' & Hrev' & Hle & Htake & Hl); [|lia].
  rewrite Z.add_0_l in Hlen'. subst len'. simpl in Htake.
  rewrite Nat2Z.id in Htake.
  destruct (Z.eqb_spec (Z.of_nat (length l)) 0) as [|Hne]; [by intros [= <-]|].
  destruct (DynamicArray.Get rev' _) as [last| |] eqn:Hget; [|done..].
  apply Get_inv in Hget as [_ Hget]. monad_step.
  destruct (Z.eqb_spec last source) as [->|]; [|by intros [= <-]].
  cbn [negb]. rewrite reverse_copy by lia. rewrite Nat2Z.id, Htake.
  intros [= <-] _. rewrite reverse_involutive.
  destruct Hl as [Hl|Hl]; [|done].
  assert (source ∈ l) as Hin.
  { rewrite <-Htake.
    apply (list_elem_of_lookup_2 _ (Z.to_nat (Z.of_nat (length l) - 1))).
    rewrite lookup_take_lt by lia. done. }
  by eapply Forall_forall in Hl.
Qed.

(** X6. For a source inside the array, [restore_path] returns a non-empty
    path exactly when the parent chain that starts at [target] arrives at
    [source]; the path lists the vertices of that chain from [source] to
    [target]. *)
Theorem restore_path_chain (source target : Vertex) (parent path : list Vertex) :
  in_range (DynamicArray.GetSize parent) source →
  restore_path source target parent = Ok path ∧ path ≠ [] ↔
  source_trace source parent target (reverse path).
Proof.
  intros Hsrc. split.
  - intros [Hrun Hne]. by apply restore_path_nonempty.
  - intros Hl. split.
    + rewrite (restore_path_trace _ _ _ _ Hsrc Hl). by rewrite reverse_involutive.
    + intros ->. inversion Hl.
Qed.

Lemma restore_path_chain_witness :
  restore_path 0 4 [-1; 0; 1; 1; 3] = Ok [0; 1; 3; 4] ∧ [0; 1; 3; 4] ≠ [] ↔
  source_trace 0 [-1; 0; 1; 1; 3] 4 (reverse [0; 1; 3; 4]).
Proof.
  apply (restore_path_chain 0 4 [-1; 0; 1; 1; 3] [0; 1; 3; 4]).
  unfold in_range, DynamicArray.GetSize. simpl. lia.
Defined.

(** ** Path reconstruction: parent chains that never end *)

Lemma rev_writes_overrun source parent steps v len (k : nat) :
  (k < steps)%nat →
  (∀ j : nat, (j ≤ k)%nat →
     in_range (Z.of_nat (length parent)) (ancestor parent j v) ∧
     ancestor parent j v ≠ source) →
  (len + Z.of_nat k, ancestor parent k v)
  ∈ rev_writes steps source parent v len.
Proof.
  revert v len k. induction steps as [|steps IH]; intros v len k Hk Hanc;
    [lia|].
  destruct (Hanc 0%nat) as [Hv Hs]; [lia|]. simpl in Hv, Hs.
  unfold in_range in Hv. cbn [rev_writes].
  replace (v =? -1) with false by lia.
  replace (v =? source) with false by lia.
  destruct k as [|k].
  { simpl. rewrite Z.add_0_r. by left. }
  right. destruct (Get_in_range parent v Hv) as (v' & -> & Hv').
  replace (len + Z.of_nat (S k)) with (len + 1 + Z.of_nat k) by lia.
  replace (ancestor parent (S k) v) with (ancestor parent k v')
    by (simpl; by rewrite Hv').
  apply IH; [lia|]. intros j Hj. specialize (Hanc (S j)).
  simpl in Hanc. rewrite Hv' in Hanc. apply Hanc. lia.
Qed.

(** X7. If the parent chain that starts at [target] stays inside the array
    and away from [source] for as many steps as the array has slots (so it
    runs in a cycle), [restore_path] passes its two tests and its loop
    goes on until it calls [rev.Set(n, v)], where [n] is the number of
    slots of [rev]: it writes one past the last slot of its scratch
    array. *)
Theorem restore_path_cycle (source target : Vertex) (parent : list Vertex) :
  (∀ k : nat, (k ≤ length parent)%nat →
     in_range (DynamicArray.GetSize parent) (ancestor parent k target) ∧
     ancestor parent k target ≠ source) →
  (DynamicArray.GetSize parent, ancestor parent (length parent) target)
  ∈ restore_path_writes source target parent.
Proof.
  unfold DynamicArray.GetSize. intros Hanc.
  destruct (Hanc 0%nat) as [Ht Hs]; [lia|]. simpl in Ht, Hs.
  unfold in_range in Ht.
  destruct (Hanc 1%nat) as [Hp _]; [lia|]. simpl in Hp.
  unfold restore_path_writes, DynamicArray.GetSize.
  replace ((target <? 0) || (target >=? Z.of_nat (length parent)))
    with false by lia.
  destruct (Get_in_range parent target Ht) as (pt & -> & Hpt).
  rewrite Hpt in Hp. simpl in Hp. unfold in_range in Hp.
  replace (pt =? -1) with false by lia. cbn [andb].
  rewrite Nat2Z.id.
  apply (rev_writes_overrun source parent (S (length parent)) target 0
           (length parent)); [lia|done].
Qed.

Lemma restore_path_cycle_witness :
  (DynamicArray.GetSize [-1; 2; 1], ancestor [-1; 2; 1] 3 1)
  ∈ restore_path_writes 0 1 [-1; 2; 1].
Proof.
  apply (restore_path_cycle 0 1 [-1; 2; 1]).
  intros k Hk. simpl in Hk.
  assert (k = 0 ∨ k = 1 ∨ k = 2 ∨ k = 3)%nat as [-> | [-> | [-> | ->]]] by lia;
    (split; [unfold in_range, DynamicArray.GetSize; simpl; lia|simpl; lia]).
Defined.

(** ** Dijkstra: the parent array holds least-cost walks *)

Lemma parent_inv_ext E n s rank bound st st' :
  d_dist st' = d_dist st → d_parent st' = d_parent st →
  d_used st' = d_used st →
  parent_inv E n s rank bound st → parent_inv E n s rank bound st'.
Proof.
  destruct st, st'. simpl. intros -> -> -> []. by split.
Qed.

Section dijkstra_parent.
Variables (E : list BFEdge) (n : Z) (s : Z).
Hypothesis HE : Forall (bf_edge_ok n) E.
Hypothesis Hnn : nonnegative E.
Hypothesis Hs : in_range n s.

(** Relaxing an edge out of the vertex being finalised keeps the
    invariant of the parent array. *)
Lemma dijkstra_relax_parent settled rank bound u st e st' :
  dijkstra_inv E n s settled st → inv_top n u st →
  in_range n u → used_at (d_used st) u = true →
  mkBFEdge u (to e) (weight e) ∈ E →
  parent_inv E n s rank bound st →
  dijkstra_relax u st e = Ok st' →
  parent_inv E n s rank bound st'.
Proof.
  intros Hinv Htop Hu Hused He Hpar.
  pose proof (proj1 (Forall_forall _ _) HE _ He) as [_ Hv].
  pose proof (proj1 (Forall_forall _ _) Hnn _ He) as Hw. simpl in Hv, Hw.
  destruct Hinv as [(Hd & Hp & Hus) Hsound Hsrc Hq Hcov Huq Hfin Hset].
  unfold in_range in Hu, Hv, Hs.
  unfold dijkstra_relax.
  rewrite Hw, (Get_dist_at (d_dist st) u) by lia. monad_step.
  rewrite (Hfin u) by done. rewrite (Get_dist_at _ (to e)) by lia. monad_step.
  set (du := dist_at (d_dist st) u). set (cur := dist_at (d_dist st) (to e)).
  assert (wle du (wadd du (weight e))) as Hnd.
  { revert Hw. generalize (weight e), du. clear. intros w du Hw. weight_order. }
  destruct (wltb (wadd du (weight e)) cur) eqn:Hlt; cycle 1.
  { by intros [= <-]. }
  rewrite !Set_in_range by lia. monad_step. intros [= <-].
  assert (used_at (d_used st) (to e) = false) as Hfresh.
  { destruct (used_at (d_used st) (to e)) eqn:Hue; [|done].
    pose proof (Htop (to e) Hv Hue) as Hle. fold cur du in Hle.
    assert (wle cur (wadd du (weight e))) as Habs by (by eapply wle_trans).
    unfold wle in Habs. congruence. }
  assert (to e ≠ u) as Hne by (intros Heq; rewrite Heq in Hfresh; congruence).
  destruct Hpar as [Hsd Hsp Hedge Hnone Hinf Hbound Hrank].
  assert (to e ≠ s) as Hnes.
  { intros Heq. unfold cur in Hlt. rewrite Heq, Hsd in Hlt.
    assert (wle W0 du) as Hdu0.
    { pose proof (Hfin u Hu Hused) as Hfu. fold du in Hfu.
      destruct du as [q|] eqn:Hdu; [|done].
      destruct (Hsound u q) as (es & [Hes _] & <-);
        [lia|by rewrite <-Hdu; apply dist_at_lookup; lia|].
      by eapply cost_nonneg. }
    revert Hlt Hdu0 Hw. generalize (weight e), du. clear.
    intros w du Hlt Hdu0 Hw. weight_order. }
  assert (is_INF (wadd du (weight e)) = false) as Hndfin.
  { destruct (wadd du (weight e)); [done|]. by destruct cur. }
  split; simpl.
  - by rewrite dist_at_insert_ne by lia.
  - by rewrite list_lookup_insert_ne by lia.
  - intros v p Hv' Hpv Hp1. unfold in_range in Hv'.
    destruct (decide (v = to e)) as [->|Hnv].
    + rewrite list_lookup_insert_eq in Hpv by lia. injection Hpv as <-.
      split_and!; [done..|]. exists (weight e). split; [done|].
      rewrite dist_at_insert_eq by lia. by rewrite dist_at_insert_ne by lia.
    + rewrite list_lookup_insert_ne in Hpv by lia.
      destruct (Hedge v p) as (Hpr & Hpu & w & HwE & Hdv); [done..|].
      split_and!; [done..|]. exists w. split; [done|].
      unfold in_range in Hpr.
      assert (p ≠ to e) by (intros ->; congruence).
      by rewrite !dist_at_insert_ne by lia.
  - intros v Hv' Hpv. unfold in_range in Hv'.
    destruct (decide (v = to e)) as [->|Hnv].
    + rewrite list_lookup_insert_eq in Hpv by lia. injection Hpv as ->. lia.
    + rewrite list_lookup_insert_ne in Hpv by lia.
      rewrite dist_at_insert_ne by lia. by apply Hnone.
  - intros v Hv' Hi. unfold in_range in Hv'.
    destruct (decide (v = to e)) as [->|Hnv].
    + rewrite dist_at_insert_eq in Hi by lia. congruence.
    + rewrite dist_at_insert_ne in Hi by lia.
      rewrite list_lookup_insert_ne by lia. by apply Hinf.
  - done.
  - intros v p Hv' Huv Hpv Hp1. unfold in_range in Hv'.
    destruct (decide (v = to e)) as [->|Hnv]; [congruence|].
    rewrite list_lookup_insert_ne in Hpv by lia. by eapply Hrank.
Qed.

Lemma dijkstra_relax_all_parent settled rank bound u neigh st st' :
  dijkstra_inv E n s settled st → inv_top n u st →
  in_range n u → used_at (d_used st) u = true →
  Forall (λ e, mkBFEdge u (to e) (weight e) ∈ E) neigh →
  parent_inv E n s rank bound st →
  for_each (dijkstra_relax u) neigh st = Ok st' →
  parent_inv E n s rank bound st'.
Proof.
  intros Hinv Htop Hu Hused Hneigh. revert settled st Hinv Htop Hused.
  induction Hneigh as [|e neigh He _ IH]; intros settled st Hinv Htop Hused Hpar;
    cbn [for_each].
  - by intros [= <-].
  - destruct (dijkstra_relax u st e) as [st1| |] eqn:Hstep; [|done..].
    monad_step. intros Hrun.
    destruct (dijkstra_relax_inv E n s HE Hnn Hs settled u st e st1)
      as (Hinv1 & Htop1 & Hu1); [done..|].
    eapply (IH _ st1 Hinv1 Htop1); [congruence| |done].
    exact (dijkstra_relax_parent settled rank bound u st e st1
             Hinv Htop Hu Hused He Hpar Hstep).
Qed.

(** Finalising a vertex gives it the next rank. *)
Lemma parent_inv_mark rank bound dist parent pq pq' used u :
  parent_inv E n s rank bound (mkDState dist parent pq used) →
  in_range n u → used_at used u = false →
  parent_inv E n s (λ x, if decide (x = u) then bound else rank x) (S bound)
    (mkDState dist parent pq' (<[Z.to_nat u := true]> used)).
Proof.
  intros [Hsd Hsp Hedge Hnone Hinf Hbound Hrank] Hu Hfresh. simpl in *.
  assert (∀ p, in_range n p → used_at used p = true →
            used_at (<[Z.to_nat u := true]> used) p = true ∧ p ≠ u) as Hold.
  { intros p Hp Hpu. assert (p ≠ u) by (intros ->; congruence).
    unfold in_range in Hp, Hu. by rewrite used_at_insert_ne by lia. }
  split; simpl; try done.
  - intros v p Hv Hpv Hp1.
    destruct (Hedge v p) as (Hpr & Hpu & Hw); [done..|].
    split_and!; [done| |done]. by apply Hold.
  - intros u' Hu' Hused'. destruct (decide (u' = u)) as [->|Hne]; [lia|].
    unfold in_range in Hu', Hu.
    rewrite used_at_insert_ne in Hused' by lia.
    specialize (Hbound u' Hu' Hused'). lia.
  - intros v p Hv Huv Hpv Hp1.
    destruct (Hedge v p) as (Hpr & Hpu & _); [done..|].
    destruct (Hold p Hpr Hpu) as [_ Hpne].
    destruct (decide (p = u)) as [|_]; [done|].
    destruct (decide (v = u)) as [->|Hne]; [by apply Hbound|].
    unfold in_range in Hv, Hu.
    rewrite used_at_insert_ne in Huv by lia. by eapply Hrank.
Qed.

(** Every finalised vertex has a parent chain that arrives at the source. *)
Lemma used_source_trace settled rank bound st :
  dijkstra_inv E n s settled st → parent_inv E n s rank bound st →
  ∀ u, in_range n u → used_at (d_used st) u = true →
       ∃ l, source_trace s (d_parent st) u l.
Proof.
  intros Hinv Hpar u. remember (rank u) as k eqn:Hk. revert u Hk.
  induction k as [k IH] using lt_wf_ind. intros u -> Hu Hused.
  pose proof (inv_sized _ _ _ _ _ Hinv) as (_ & Hplen & _).
  unfold in_range in Hu, Hs.
  destruct (decide (u = s)) as [->|Hne].
  { exists [s]. constructor. lia. }
  destruct (lookup_lt_is_Some_2 (d_parent st) (Z.to_nat u)) as [p Hp]; [lia|].
  destruct (decide (p = -1)) as [->|Hp1].
  { destruct (pi_none _ _ _ _ _ _ Hpar u Hu Hp) as [?|Hi]; [done|].
    rewrite (inv_used_finite _ _ _ _ _ Hinv u Hu Hused) in Hi. done. }
  destruct (pi_edge _ _ _ _ _ _ Hpar u p Hu Hp Hp1) as (Hpr & Hpu & _).
  pose proof (pi_rank _ _ _ _ _ _ Hpar u p Hu Hused Hp Hp1) as Hlt.
  destruct (IH (rank p) Hlt p eq_refl Hpr Hpu) as (l & Hl).
  exists (u :: l). eapply source_trace_next; [done|lia|lia|done|done].
Qed.

(** A parent chain that arrives at the source is a walk whose cost is the
    distance of the vertex it starts from. *)
Lemma source_trace_walk rank bound st v l :
  Z.of_nat (length (d_parent st)) = n →
  parent_inv E n s rank bound st →
  source_trace s (d_parent st) v l →
  ∃ es, walk E s es v ∧ reverse l = s :: (bf_v <$> es) ∧
        cost W0 es = dist_at (d_dist st) v.
Proof.
  intros Hlen Hpar. induction 1 as [Hs1|v p l Hvs Hv1 Hv Hp Hl IH].
  - exists []. split_and!; [apply walk_nil|done|].
    by rewrite (pi_source_dist _ _ _ _ _ _ Hpar).
  - destruct IH as (es & Hw & Hrev & Hc).
    assert (p ≠ -1) as Hp1 by (destruct Hl; lia).
    assert (in_range n v) as Hvr.
    { apply lookup_lt_Some in Hp. unfold in_range. lia. }
    destruct (pi_edge _ _ _ _ _ _ Hpar v p Hvr Hp Hp1)
      as (Hpr & Hpu & w & HwE & Hdv).
    exists (es ++ [mkBFEdge p v w]). split_and!.
    + by apply (walk_snoc E s es (mkBFEdge p v w)).
    + rewrite reverse_cons, Hrev, fmap_app. done.
    + by rewrite cost_snoc, Hc, Hdv.
Qed.
End dijkstra_parent.

Section dijkstra_paths.
Variable g : Graph.
Hypothesis Hwf : wf_graph g.
Hypothesis Hnonneg : Forall (Forall (λ e, ¬ negative e)) (adj_ g).

(** Both invariants hold when the main loop ends, with an empty queue. *)
Lemma dijkstra_loop_parent s fuel st st' rank bound :
  in_range (n_ g) s →
  dijkstra_inv (all_entries g) (n_ g) s
    (settled_by (all_entries g) (d_used st)) st →
  parent_inv (all_entries g) (n_ g) s rank bound st →
  dijkstra_loop fuel g st = Ok st' →
  ∃ rank' bound', parent_inv (all_entries g) (n_ g) s rank' bound' st'.
Proof.
  intros Hs. revert st rank bound.
  induction fuel as [|fuel IH]; intros st rank bound Hinv Hpar; simpl;
    destruct (HashTablePriorityQueue.IsEmpty (d_pq st)) eqn:Hq.
  - intros [= <-]. eauto.
  - done.
  - intros [= <-]. eauto.
  - unfold HashTablePriorityQueue.Dequeue.
    destruct (HashTablePriorityQueue.extract_min (d_pq st))
      as [[[u pr] pq']|] eqn:Hmin; [|done].
    monad_step. unfold vertex_count.
    assert (in_range (n_ g) u) as Hu.
    { eapply (inv_queue _ _ _ _ _ Hinv u pr).
      apply (extract_min_spec _ _ _ Hmin). by left. }
    replace ((u <? 0) || (u >=? n_ g)) with false
      by (unfold in_range in Hu; lia).
    cbn [d_used d_dist d_parent d_pq].
    destruct (used_at (d_used st) u) eqn:Hused.
    { apply (IH _ rank bound).
      - simpl. by eapply dijkstra_pop_used.
      - by eapply parent_inv_ext; [..|exact Hpar]. }
    destruct (dijkstra_pop_fresh (all_entries g) (n_ g) s (all_entries_ok g Hwf)
                _ st u pr pq' Hinv Hmin Hused) as (_ & Hinv2 & Htop2 & Hused2).
    assert (parent_inv (all_entries g) (n_ g) s
              (λ x, if decide (x = u) then bound else rank x) (S bound)
              (mkDState (d_dist st) (d_parent st) pq'
                 (<[Z.to_nat u := true]> (d_used st)))) as Hpar2.
    { apply (parent_inv_mark _ _ _ _ _ _ _ (d_pq st)); [|done..].
      by destruct st. }
    destruct (for_each (dijkstra_relax u) (neighbors g u) _)
      as [st3| |] eqn:Hinner; [|done..].
    monad_step.
    destruct (dijkstra_relax_all_inv (all_entries g) (n_ g) s
                (all_entries_ok g Hwf) (all_entries_nonnegative g Hnonneg) Hs
                _ u (neighbors g u) _ st3
                Hinv2 Htop2 Hu Hused2 (neighbors_entries g Hwf u Hu) Hinner)
      as (Hinv3 & _ & Hused3).
    pose proof (dijkstra_relax_all_parent (all_entries g) (n_ g) s
                  (all_entries_ok g Hwf) (all_entries_nonnegative g Hnonneg) Hs
                  _ _ _ u (neighbors g u) _ st3
                  Hinv2 Htop2 Hu Hused2 (neighbors_entries g Hwf u Hu)
                  Hpar2 Hinner) as Hpar3.
    apply (λ H, IH st3 _ _ H Hpar3).
    eapply dijkstra_inv_weaken; [|exact Hinv3].
    intros e [He Heu]. rewrite Hused3 in Heu. simpl in Heu.
    destruct (decide (bf_u e = u)) as [<-|Hne].
    + right. by apply entries_of_vertex.
    + left. split; [done|].
      pose proof (proj1 (Forall_forall _ _) (all_entries_ok g Hwf) _ He)
        as [Hue _].
      unfold in_range in Hu, Hue.
      by rewrite used_at_insert_ne in Heu by lia.
Qed.

Lemma parent_initial_inv s :
  in_range (n_ g) s →
  parent_inv (all_entries g) (n_ g) s (λ _, 0%nat) 0
    (mkDState (<[Z.to_nat s := W0]> (replicate (Z.to_nat (n_ g)) INF))
       (replicate (Z.to_nat (n_ g)) (-1))
       (HashTablePriorityQueue.Enqueue HashTablePriorityQueue.empty s W0)
       (replicate (Z.to_nat (n_ g)) false)).
Proof.
  intros Hs. unfold in_range in Hs.
  assert (∀ v, used_at (replicate (Z.to_nat (n_ g)) false) v = false)
    as Hunused.
  { intros v. unfold used_at.
    destruct (replicate _ _ !! Z.to_nat v) eqn:Hl; [|done].
    by apply lookup_replicate in Hl as [-> _]. }
  split; simpl.
  - apply dist_at_insert_eq. rewrite length_replicate. lia.
  - apply lookup_replicate. split; [done|lia].
  - intros v p _ Hp Hp1. apply lookup_replicate in Hp as [-> _]. done.
  - intros v Hv _. unfold in_range in Hv.
    destruct (decide (v = s)) as [->|Hne]; [by left|right].
    rewrite dist_at_insert_ne by lia. unfold dist_at.
    by rewrite lookup_replicate_2 by lia.
  - intros v Hv _. unfold in_range in Hv. apply lookup_replicate. lia.
  - intros u _ Hu. by rewrite Hunused in Hu.
  - intros v p _ Hv. by rewrite Hunused in Hv.
Qed.

(** The state in which [dijkstra] ends. *)
Lemma dijkstra_final s res :
  in_range (n_ g) s → dijkstra g s = Ok res →
  ∃ st rank bound,
    dist res = d_dist st ∧ parent res = d_parent st ∧ d_pq st = [] ∧
    dijkstra_inv (all_entries g) (n_ g) s
      (settled_by (all_entries g) (d_used st)) st ∧
    parent_inv (all_entries g) (n_ g) s rank bound st.
Proof.
  intros Hs. pose proof Hwf as (Hn & _).
  unfold dijkstra, vertex_count. rewrite init_result_ok by done. monad_step.
  replace ((s <? 0) || (s >=? n_ g)) with false by (unfold in_range in Hs; lia).
  cbn [dist parent has_negative_cycle].
  rewrite Set_in_range by (unfold in_range in Hs; rewrite length_replicate; lia).
  monad_step.
  destruct (dijkstra_loop _ g _) as [st| |] eqn:Hloop; [|done..].
  monad_step. intros [= <-]. simpl.
  pose proof (dijkstra_initial_inv g Hwf s Hs) as Hinit. cbv zeta in Hinit.
  pose proof (parent_initial_inv s Hs) as Hpinit.
  pose proof Hloop as Hloop'.
  eapply dijkstra_loop_parent in Hloop' as (rank & bound & Hpar);
    [|done|exact Hinit|exact Hpinit].
  eapply dijkstra_loop_inv in Hloop as [Hinv Hempty]; [|done..].
  exists st, rank, bound. done.
Qed.
End dijkstra_paths.

(** X8. Take a well-formed graph with [n] vertices whose weights are
    integers of magnitude at most [B], with [B * n <= 2^53], so that no sum
    [dijkstra] forms is rounded, a valid source and a valid target.
    [dijkstra] followed by [restore_path] on its parent array returns
    without an exception. If the distance of the target is infinite the
    path is empty. Otherwise the path lists the vertices of a walk from
    the source to the target along adjacency entries of non-negative
    weight, the cost of that walk is the distance of the target, and no
    such walk from the source to the target costs less. *)
Theorem dijkstra_shortest_path (B : Z) (g : Graph) (source target : Vertex) :
  wf_graph g → in_range (vertex_count g) source →
  in_range (vertex_count g) target →
  exact_sums B (vertex_count g) g →
  ∃ res path,
    dijkstra g source = Ok res ∧
    restore_path source target (parent res) = Ok path ∧
    (is_INF (dist_at (dist res) target) = true → path = []) ∧
    (is_INF (dist_at (dist res) target) = false →
     ∃ es, walk (all_entries (drop_negative g)) source es target ∧
           path = source :: (bf_v <$> es) ∧
           cost W0 es = dist_at (dist res) target ∧
           ∀ es', walk (all_entries (drop_negative g)) source es' target →
                  wle (cost W0 es) (cost W0 es')).
Proof.
  intros Hwf Hs Ht _. pose proof (wf_drop_negative g Hwf) as Hwf'.
  pose proof (drop_negative_nonnegative g) as Hnn.
  destruct (dijkstra_ok (drop_negative g) Hwf' source) as (res & Hres & _).
  destruct (dijkstra_final _ Hwf' Hnn source res Hs Hres)
    as (st & rank & bound & Hd & Hp & Hempty & Hinv & Hpar).
  destruct (dijkstra_least _ Hwf' Hnn source res Hs Hres) as (_ & _ & Hbelow).
  pose proof (inv_sized _ _ _ _ _ Hinv) as (Hdlen & Hplen & _).
  change (n_ (drop_negative g)) with (n_ g) in *.
  unfold vertex_count, in_range in Hs, Ht.
  exists res. rewrite dijkstra_drop_negative by done. rewrite Hd, Hp in *.
  set (E := all_entries (drop_negative g)) in *.
  destruct (is_INF (dist_at (d_dist st) target)) eqn:Hinf.
  - exists []. split_and!; [done| |done|done].
    apply restore_path_reaches_none. apply reaches_none_here; [|lia|].
    + intros ->. by rewrite (pi_source_dist _ _ _ _ _ _ Hpar) in Hinf.
    + by apply (pi_inf _ _ _ _ _ _ Hpar).
  - assert (used_at (d_used st) target = true) as Hused.
    { destruct (used_at (d_used st) target) eqn:Hu; [done|].
      pose proof (inv_covered _ _ _ _ _ Hinv target Ht Hu Hinf) as Hin.
      rewrite Hempty in Hin. by apply elem_of_nil in Hin. }
    destruct (used_source_trace E (n_ g) source Hs _ rank bound st Hinv Hpar
                target Ht Hused) as (l & Hl).
    destruct (source_trace_walk E (n_ g) source rank bound st target l
                Hplen Hpar Hl) as (es & Hw & Hrev & Hc).
    exists (reverse l). split_and!; [done| |done|].
    + apply restore_path_trace; [|done].
      unfold in_range, DynamicArray.GetSize. lia.
    + intros _. exists es. split_and!; [done..|].
      intros es' Hw'. rewrite Hc.
      apply (Hbelow (length es') es' target); [done|lia|lia|].
      apply dist_at_lookup. lia.
Qed.

Lemma dijkstra_shortest_path_witness :
  ∃ res path,
    dijkstra test_graph 0 = Ok res ∧
    restore_path 0 4 (parent res) = Ok path ∧
    (is_INF (dist_at (dist res) 4) = true → path = []) ∧
    (is_INF (dist_at (dist res) 4) = false →
     ∃ es, walk (all_entries (drop_negative test_graph)) 0 es 4 ∧
           path = 0 :: (bf_v <$> es) ∧
           cost W0 es = dist_at (dist res) 4 ∧
           ∀ es', walk (all_entries (drop_negative test_graph)) 0 es' 4 →
                  wle (cost W0 es) (cost W0 es')).
Proof.
  apply (dijkstra_shortest_path 5 test_graph 0 4); by_evaluation.
Defined.

(** ** The parent array of Bellman-Ford *)

(** Distances that leave no edge to relax rule out a negative cycle that
    can be reached. *)
Lemma closed_no_negative_cycle E n s d :
  Forall (bf_edge_ok n) E → in_range n s → Z.of_nat (length d) = n →
  below_all E s d → closed E d → no_negative_cycle_from E s.
Proof.
  intros HE Hs Hlen Hall Hclosed es1 x es2 Hw1 Hfin Hw2.
  assert (in_range n x) as Hx by (by eapply walk_end_in_range).
  pose proof (Hall (length es1) es1 x (dist_at d x) Hw1) as Hle.
  unfold in_range in Hx. specialize (Hle (le_n _) (proj1 Hx)).
  rewrite dist_at_lookup in Hle by lia. specialize (Hle eq_refl).
  pose proof (closed_potential _ _ _ x es2 x HE Hlen Hclosed Hx Hw2) as Hpot.
  revert Hle Hfin Hpot.
  generalize (dist_at d x), (cost W0 es1), (cost W0 es2). clear.
  intros a b c Hle Hfin Hpot. destruct b; [|done]. weight_order.
Qed.

Lemma rooted_insert_other p v u x l :
  0 ≤ v → rooted p x l → v ∉ l → rooted (<[Z.to_nat v := u]> p) x l.
Proof.
  intros Hv. induction 1 as [x Hx Hp|x y l Hx Hp Hy Hl IH]; intros Hin.
  - apply rooted_root; [done|]. rewrite list_lookup_insert_ne; [done|].
    apply not_elem_of_cons in Hin as [Hne _]. lia.
  - apply not_elem_of_cons in Hin as [Hne Hin].
    eapply rooted_next; [done| |done|by apply IH].
    rewrite list_lookup_insert_ne; [done|]. lia.
Qed.

Lemma rooted_insert_all p p' v lv x l :
  0 ≤ v → rooted p' v lv →
  (∀ y, 0 ≤ y → y ≠ v → p' !! Z.to_nat y = p !! Z.to_nat y) →
  rooted p x l → ∃ l', rooted p' x l'.
Proof.
  intros Hv Hlv Hsame.
  induction 1 as [x Hx Hp|x y l Hx Hp Hy Hl (l' & IH)].
  - destruct (decide (x = v)) as [->|Hne]; [by eauto|].
    exists [x]. apply rooted_root; [done|]. by rewrite Hsame.
  - destruct (decide (x = v)) as [->|Hne]; [by eauto|].
    exists (x :: l'). eapply rooted_next; [done| |done..].
    by rewrite Hsame.
Qed.

Section bellman_ford_tree.
Variables (E : list BFEdge) (n : Z) (s : Z).
Hypothesis HE : Forall (bf_edge_ok n) E.
Hypothesis Hs : in_range n s.
Hypothesis Hnc : no_negative_cycle_from E s.

(** Up the parent chain the distances fall by at least the weights of the
    edges. *)
Lemma rooted_back d p u l :
  bf_tree E n s d p → rooted p u l → in_range n u →
  ∀ v, v ∈ l →
    ∃ es, walk E v es u ∧ wle (cost (dist_at d v) es) (dist_at d u).
Proof.
  intros Ht. induction 1 as [u Hu Hp|u y l Hu Hp Hy Hl IH]; intros Hur v Hv.
  - apply list_elem_of_singleton in Hv as ->.
    exists []. split; [apply walk_nil|apply wle_refl].
  - apply elem_of_cons in Hv as [->|Hv].
    { exists []. split; [apply walk_nil|apply wle_refl]. }
    destruct (bt_edge _ _ _ _ _ Ht u y Hur Hp Hy)
      as (Hyr & w & He & _ & Hle).
    destruct (IH Hyr v Hv) as (es & Hw & Hc).
    exists (es ++ [mkBFEdge y u w]). split.
    + by apply (walk_snoc E v es (mkBFEdge y u w)).
    + rewrite cost_snoc. simpl. eapply wle_trans; [|exact Hle].
      by apply wadd_mono.
Qed.

(** An edge that can be relaxed does not close a cycle of the kind that
    the parent chains follow. *)
Lemma relax_no_back d p e es :
  bf_tree E n s d p → e ∈ E →
  is_INF (dist_at d (bf_u e)) = false →
  wltb (wadd (dist_at d (bf_u e)) (bf_w e)) (dist_at d (bf_v e)) = true →
  walk E (bf_v e) es (bf_u e) →
  wle (cost (dist_at d (bf_v e)) es) (dist_at d (bf_u e)) → False.
Proof.
  intros Ht He Hfin Hlt Hw Hc.
  pose proof (proj1 (Forall_forall _ _) HE _ He) as [[Hu _] _].
  destruct (dist_at d (bf_u e)) as [q|] eqn:Hdu; [|done].
  destruct (bt_sound _ _ _ _ _ Ht (bf_u e) q) as (es1 & Hw1 & Hc1); [done|..].
  { unfold dist_at in Hdu.
    destruct (d !! Z.to_nat (bf_u e)) as [x|]; simpl in Hdu; by subst. }
  assert (walk E (bf_u e) (e :: es) (bf_u e)) as Hcyc.
  { destruct Hw as [Hes Hch]. split; [by constructor|done]. }
  pose proof (Hnc es1 (bf_u e) (e :: es) Hw1) as Hge.
  rewrite Hc1 in Hge. specialize (Hge eq_refl Hcyc).
  change (cost W0 (e :: es)) with (cost (wadd W0 (bf_w e)) es) in Hge.
  pose proof (cost_shift (dist_at d (bf_v e)) es) as H1.
  pose proof (cost_shift (wadd W0 (bf_w e)) es) as H2.
  revert Hlt Hc Hge H1 H2.
  generalize (cost (dist_at d (bf_v e)) es).
  generalize (cost (wadd W0 (bf_w e)) es).
  generalize (cost W0 es), (dist_at d (bf_v e)), (bf_w e). clear.
  intros C dv w B A Hlt Hc Hge H1 H2. weight_order.
Qed.

Lemma bf_relax_tree d p c e :
  e ∈ E → bf_tree E n s d p →
  ∃ d' p' c', bf_relax (d, p, c) e = Ok (d', p', c') ∧ bf_tree E n s d' p'.
Proof.
  intros He Ht. pose proof Ht as [Hdl Hpl Hsound Hsd Hsp Hedge Hinf Hnone Hroot].
  pose proof (proj1 (Forall_forall _ _) HE _ He) as [Hu Hv].
  unfold bf_relax, in_range in *.
  destruct (Get_in_range d (bf_u e)) as (du & -> & Hdu); [lia|]. monad_step.
  destruct (is_INF du) eqn:Hfin; [by eauto 6|].
  destruct (Get_in_range d (bf_v e)) as (dv & -> & Hdv); [lia|]. monad_step.
  destruct (wltb (wadd du (bf_w e)) dv) eqn:Hlt; [|by eauto 6].
  rewrite !Set_in_range by lia. monad_step.
  eexists _, _, _. split; [done|].
  assert (dist_at d (bf_u e) = du) as Hdu' by (unfold dist_at; by rewrite Hdu).
  assert (dist_at d (bf_v e) = dv) as Hdv' by (unfold dist_at; by rewrite Hdv).
  assert (∀ es, walk E (bf_v e) es (bf_u e) →
                wle (cost (dist_at d (bf_v e)) es) (dist_at d (bf_u e)) →
                False) as Hback.
  { intros es. apply (relax_no_back d p e es Ht He); by rewrite ?Hdu', ?Hdv'. }
  assert (bf_v e ≠ bf_u e) as Hvu.
  { intros Heq. apply (Hback []); [rewrite Heq; apply walk_nil|].
    simpl. rewrite Heq. apply wle_refl. }
  assert (bf_v e ≠ s) as Hvs.
  { intros Heq. destruct du as [q|]; [|done].
    destruct (Hsound (bf_u e) q) as (es & Hw & Hc); [lia|done|].
    apply (Hback es); [by rewrite Heq|].
    rewrite Heq, Hsd, Hc, Hdu'. apply wle_refl. }
  destruct (wadd du (bf_w e)) as [x|] eqn:Hx; [|by destruct dv].
  set (d' := <[Z.to_nat (bf_v e) := Fin x]> d).
  set (p' := <[Z.to_nat (bf_v e) := bf_u e]> p).
  assert (∀ y, 0 ≤ y → y ≠ bf_v e → dist_at d' y = dist_at d y) as Hd_ne.
  { intros y Hy Hne. unfold dist_at, d'.
    rewrite list_lookup_insert_ne; [done|lia]. }
  assert (dist_at d' (bf_v e) = Fin x) as Hd_eq.
  { unfold dist_at, d'. rewrite list_lookup_insert_eq; [done|lia]. }
  assert (∀ y, 0 ≤ y → wle (dist_at d' y) (dist_at d y)) as Hd_le.
  { intros y Hy. destruct (decide (y = bf_v e)) as [->|Hne].
    - rewrite Hd_eq, Hdv'. by apply wltb_wle.
    - rewrite Hd_ne by done. apply wle_refl. }
  assert (∀ y, 0 ≤ y → y ≠ bf_v e → p' !! Z.to_nat y = p !! Z.to_nat y)
    as Hp_ne.
  { intros y Hy Hne. unfold p'. rewrite list_lookup_insert_ne; [done|lia]. }
  assert (p' !! Z.to_nat (bf_v e) = Some (bf_u e)) as Hp_eq.
  { unfold p'. rewrite list_lookup_insert_eq; [done|lia]. }
  split.
  - unfold d'. by rewrite length_insert.
  - unfold p'. by rewrite length_insert.
  - eapply sound_insert; [exact HE|done..].
  - by rewrite Hd_ne by (lia || done).
  - by rewrite Hp_ne by (lia || done).
  - intros v u Hvr Hp Hu1. pose proof Hvr as [Hv0 _]. destruct (decide (v = bf_v e)) as [->|Hne].
    + rewrite Hp_eq in Hp. injection Hp as <-. split; [done|].
      exists (bf_w e). split_and!; [by destruct e|by rewrite Hd_eq|].
      rewrite Hd_eq, Hd_ne, Hdu', Hx by (lia || done). apply wle_refl.
    + rewrite Hp_ne in Hp by (lia || done).
      destruct (Hedge v u Hvr Hp Hu1) as (Hur & w & Hw & Hfv & Hle).
      split; [done|]. exists w. rewrite (Hd_ne v) by (lia || done).
      split_and!; [done..|]. eapply wle_trans; [|exact Hle].
      apply wadd_mono, Hd_le. lia.
  - intros v Hvr Hv_inf. pose proof Hvr as [Hv0 _]. destruct (decide (v = bf_v e)) as [->|Hne].
    { by rewrite Hd_eq in Hv_inf. }
    rewrite Hd_ne in Hv_inf by (lia || done).
    rewrite Hp_ne by (lia || done). by apply Hinf.
  - intros v Hvr Hp. pose proof Hvr as [Hv0 _]. destruct (decide (v = bf_v e)) as [->|Hne].
    { rewrite Hp_eq in Hp. injection Hp as Hp. lia. }
    rewrite Hp_ne in Hp by (lia || done). rewrite Hd_ne by (lia || done).
    by apply Hnone.
  - intros v Hvr. destruct (Hroot (bf_u e) Hu) as (lu & Hlu).
    assert (bf_v e ∉ lu) as Hnot.
    { intros Hin.
      destruct (rooted_back d p (bf_u e) lu Ht Hlu Hu _ Hin)
        as (es & Hw & Hc).
      by apply (Hback es). }
    destruct (Hroot v Hvr) as (l & Hl).
    apply (rooted_insert_all p p' (bf_v e) (bf_v e :: lu) v l);
      [lia| |done|done].
    eapply rooted_next; [lia|done|lia|].
    apply rooted_insert_other; [lia|done..].
Qed.

Lemma bf_pass_tree edges d p c :
  Forall (λ e, e ∈ E) edges → bf_tree E n s d p →
  ∃ d' p' c',
    for_each bf_relax edges (d, p, c) = Ok (d', p', c') ∧
    bf_tree E n s d' p'.
Proof.
  intros Hedges Ht.
  destruct (for_each_invariant
    (λ st : list Weight * list Vertex * bool, bf_tree E n s st.1.1 st.1.2)
    bf_relax edges (d, p, c)) as ([[d' p'] c'] & Hrun & Ht'); [done| |by eauto].
  intros [[d1 p1] c1] e He Ht1. simpl in Ht1.
  destruct (bf_relax_tree d1 p1 c1 e) as (d2 & p2 & c2 & -> & Ht2);
    [by eapply Forall_forall in Hedges|done|].
  by exists (d2, p2, c2).
Qed.

Lemma bf_main_tree passes d p d' p' :
  bf_main passes E (d, p) = Ok (d', p') →
  bf_tree E n s d p → bf_tree E n s d' p'.
Proof.
  revert d p. induction passes as [|passes IH]; intros d p; simpl.
  - by intros [= <- <-].
  - intros Hrun Ht.
    destruct (bf_pass_tree E d p false) as (d1 & p1 & c1 & Hpass & Ht1);
      [by apply Forall_forall|done|].
    rewrite Hpass in Hrun. revert Hrun. monad_step.
    destruct c1; [intros Hrun; by eapply IH|]. by intros [= <- <-].
Qed.

Lemma bf_tree_initial :
  bf_tree E n s (<[Z.to_nat s := W0]> (replicate (Z.to_nat n) INF))
    (replicate (Z.to_nat n) (-1)).
Proof.
  destruct (source_initial E n s Hs) as (Hlen & Hsound & _).
  unfold in_range in Hs.
  assert (∀ v, in_range n v →
            replicate (Z.to_nat n) (-1) !! Z.to_nat v = Some (-1)) as Hpar.
  { intros v Hv. unfold in_range in Hv. apply lookup_replicate. split; lia. }
  split; [done|by rewrite length_replicate; lia|done|..].
  - unfold dist_at. rewrite list_lookup_insert_eq; [done|].
    rewrite length_replicate. lia.
  - by apply Hpar.
  - intros v u Hv Hp Hu. rewrite Hpar in Hp by done. congruence.
  - intros v Hv _. by apply Hpar.
  - intros v Hv _. destruct (decide (v = s)) as [->|Hne]; [by left|right].
    unfold dist_at, in_range in *. rewrite list_lookup_insert_ne by lia.
    rewrite (proj2 (lookup_replicate (Z.to_nat n) INF INF (Z.to_nat v)));
      [done|]. split; [done|lia].
  - intros v Hv. exists [v]. apply rooted_root; [|by apply Hpar].
    unfold in_range in Hv. lia.
Qed.

(** Once no edge can be relaxed, the parent chain of a vertex at finite
    distance leads back to the source along a walk that costs the distance
    of the vertex. *)
Lemma bf_tree_trace d p v l0 :
  bf_tree E n s d p → closed E d → rooted p v l0 → in_range n v →
  is_INF (dist_at d v) = false →
  ∃ l es, source_trace s p v l ∧ walk E s es v ∧
          reverse l = s :: (bf_v <$> es) ∧
          weq (cost W0 es) (dist_at d v).
Proof.
  intros Ht Hclosed. pose proof Ht as [Hdl Hpl _ Hsd Hsp Hedge _ Hnone _].
  induction 1 as [v Hv Hp|v u l0 Hv Hp Hu Hl IH]; intros Hvr Hfin.
  - destruct (Hnone v Hvr Hp) as [->|Hinf]; [|congruence].
    exists [s], []. split_and!; [|apply walk_nil|done|].
    + constructor. unfold in_range in Hs. lia.
    + simpl. rewrite Hsd. weight_order.
  - assert (v ≠ s) as Hvs by (intros ->; congruence).
    destruct (Hedge v u Hvr Hp Hu) as (Hur & w & He & _ & Hle).
    assert (is_INF (dist_at d u) = false) as Hfu.
    { revert Hle Hfin. generalize (dist_at d u), (dist_at d v). clear.
      intros a b Hle Hfin. destruct a; [done|]. destruct b; [|done].
      weight_order. }
    destruct (IH Hur Hfu) as (l & es & Hl' & Hw & Hrev & Hc).
    exists (v :: l), (es ++ [mkBFEdge u v w]). split_and!.
    + eapply source_trace_next; [done|lia|done..].
    + by apply (walk_snoc E s es (mkBFEdge u v w)).
    + rewrite reverse_cons, Hrev, fmap_app. done.
    + rewrite cost_snoc. simpl.
      assert (wle (dist_at d v) (wadd (dist_at d u) w)) as Hge.
      { unfold wle. destruct (wltb (wadd (dist_at d u) w) (dist_at d v))
          eqn:Hlt; [|done].
        destruct (Hclosed _ He). unfold in_range in *.
        exists (dist_at d u), (dist_at d v). simpl.
        split_and!; [apply dist_at_lookup; lia..|done|done]. }
      revert Hc Hle Hge.
      generalize (cost W0 es), (dist_at d u), (dist_at d v). clear.
      intros a b c Hc Hle Hge. weight_order.
Qed.
End bellman_ford_tree.

(** X9. Take a well-formed graph with [n] vertices and [m] edges whose
    weights are integers of magnitude at most [B], with
    [B * n * (m + 1) <= 2^53], so that no sum [bellman_ford] forms is
    rounded, a valid source and a valid target. [bellman_ford] returns,
    and if it reports no negative cycle, [restore_path] on its parent
    array returns without an exception. If the distance of the target is
    infinite the path is empty. Otherwise the path lists the vertices of a
    walk from the source to the target along the stored edges, the cost of
    that walk is the distance of the target, and no walk from the source
    to the target costs less. *)
Theorem bellman_ford_shortest_path (B : Z) (g : Graph)
    (source target : Vertex) :
  wf_graph g → in_range (vertex_count g) source →
  in_range (vertex_count g) target →
  exact_sums B (vertex_count g * (edge_count g + 1)) g →
  ∃ res,
    bellman_ford g source = Ok res ∧
    (has_negative_cycle res = false →
     ∃ path,
       restore_path source target (parent res) = Ok path ∧
       (is_INF (dist_at (dist res) target) = true → path = []) ∧
       (is_INF (dist_at (dist res) target) = false →
        ∃ es, walk (bf_edge_list g) source es target ∧
              path = source :: (bf_v <$> es) ∧
              weq (cost W0 es) (dist_at (dist res) target) ∧
              ∀ es', walk (bf_edge_list g) source es' target →
                     wle (cost W0 es) (cost W0 es'))).
Proof.
  intros Hwf Hs Ht _. pose proof (bf_edge_list_ok g Hwf) as HE.
  destruct (bellman_ford_passes g source Hwf Hs)
    as (res & Hres & Hlen & Hsound & Hbelow & Hflag).
  destruct (bellman_ford_run g source Hwf Hs)
    as (res' & d0 & Hres' & Hd0 & Hmain & _).
  rewrite Hres in Hres'. injection Hres' as <-.
  apply Set_inv in Hd0 as [_ ->].
  exists res. split; [done|]. intros Hno.
  assert (closed (bf_edge_list g) (dist res)) as Hclosed by (by apply Hflag).
  unfold vertex_count in *.
  assert (below_all (bf_edge_list g) source (dist res)) as Hall.
  { apply (below_all_of_closed _ (n_ g)); [done..|].
    eapply below_source_zero; [|done]. unfold in_range in Hs. lia. }
  pose proof (closed_no_negative_cycle _ _ _ _ HE Hs Hlen Hall Hclosed) as Hnc.
  pose proof (bf_main_tree _ _ _ HE Hs Hnc _ _ _ _ _ Hmain
                (bf_tree_initial _ _ _ Hs)) as Htree.
  pose proof Htree as [_ Hpl _ Hsd _ _ Hinf _ Hroot].
  destruct (is_INF (dist_at (dist res) target)) eqn:Hfin.
  - exists []. split_and!; [|done|done].
    apply restore_path_reaches_none. apply reaches_none_here.
    + intros ->. by rewrite Hsd in Hfin.
    + unfold in_range in Ht. lia.
    + by apply Hinf.
  - destruct (Hroot target Ht) as (l0 & Hl0).
    destruct (bf_tree_trace _ _ _ Hs _ _ _ _ Htree Hclosed Hl0 Ht Hfin)
      as (l & es & Hl & Hw & Hrev & Hc).
    exists (reverse l). split_and!; [|done|].
    + apply restore_path_trace; [|done].
      unfold DynamicArray.GetSize. by rewrite Hpl.
    + intros _. exists es. split_and!; [done..|].
      intros es' Hw'.
      assert (wle (dist_at (dist res) target) (cost W0 es')) as Hle.
      { apply (Hall (length es') es' target); [done|lia| |].
        - unfold in_range in Ht. lia.
        - apply dist_at_lookup. unfold in_range in Ht. lia. }
      revert Hc Hle.
      generalize (cost W0 es), (cost W0 es'), (dist_at (dist res) target).
      clear. intros a b c Hc Hle. weight_order.
Qed.

Lemma bellman_ford_shortest_path_witness :
  ∃ res,
    bellman_ford negative_edge_graph 0 = Ok res ∧
    (has_negative_cycle res = false →
     ∃ path,
       restore_path 0 2 (parent res) = Ok path ∧
       (is_INF (dist_at (dist res) 2) = true → path = []) ∧
       (is_INF (dist_at (dist res) 2) = false →
        ∃ es, walk (bf_edge_list negative_edge_graph) 0 es 2 ∧
              path = 0 :: (bf_v <$> es) ∧
              weq (cost W0 es) (dist_at (dist res) 2) ∧
              ∀ es', walk (bf_edge_list negative_edge_graph) 0 es' 2 →
                     wle (cost W0 es) (cost W0 es'))).
Proof.
  apply (bellman_ford_shortest_path 4 negative_edge_graph 0 2); by_evaluation.
Defined.

(** ** The graph container: runs of insertions *)

Lemma neighbors_append g u e x :
  wf_graph g → in_range (n_ g) u → 0 ≤ x →
  neighbors (append_adj g u e) x
  = neighbors g x ++ (if u =? x then [e] else []).
Proof.
  intros (Hn & Hlen & _) Hu Hx. unfold in_range in Hu.
  destruct (Z.eqb_spec u x) as [->|Hne].
  - apply neighbors_append_same. lia.
  - rewrite neighbors_append_other by lia. by rewrite app_nil_r.
Qed.

Lemma add_edges_run es g :
  wf_graph g → Forall (valid_pair (n_ g)) es →
  ∃ g', add_edges es g = (g', Ok tt) ∧ wf_graph g' ∧ n_ g' = n_ g ∧
        directed_ g' = directed_ g ∧
        (∀ u, 0 ≤ u →
           neighbors g' u = neighbors g u ++ incident (directed_ g) u es) ∧
        total_entries g' = total_entries g +
          (if directed_ g then Z.of_nat (length es)
           else 2 * Z.of_nat (length es) - loops es).
Proof.
  intros Hwf Hes. remember (n_ g) as n eqn:Hn. revert g Hwf Hn.
  induction Hes as [|[[a b] w] es [Ha Hb] Hes IH]; intros g Hwf ->.
  - exists g. simpl. split_and!; [done..| |].
    + intros u _. by rewrite app_nil_r.
    + unfold loops. simpl. destruct (directed_ g); lia.
  - simpl in Ha, Hb. cbn [add_edges].
    rewrite add_edge_in_range by done.
    set (g1 := if negb (directed_ g) && negb (a =? b)
               then append_adj (append_adj g a (mkEdge b w)) b (mkEdge a w)
               else append_adj g a (mkEdge b w)).
    pose proof (wf_append_adj g a (mkEdge b w) Hwf Hb) as Hwfa.
    assert (wf_graph g1 ∧ n_ g1 = n_ g ∧ directed_ g1 = directed_ g) as
      (Hwf1 & Hn1 & Hd1).
    { unfold g1. destruct (negb (directed_ g) && negb (a =? b));
        (split_and!; [|done..]); [|done].
      by apply wf_append_adj. }
    destruct (IH g1 Hwf1) as (g' & Hrun & Hwf' & Hn' & Hd' & Hnb & Htot);
      [done|].
    exists g'. split_and!; [done|done|congruence|congruence| |].
    + intros u Hu. rewrite Hnb, Hd1 by done. cbn [incident].
      rewrite !app_assoc. f_equal. rewrite <-app_assoc. unfold g1.
      destruct (directed_ g); simpl.
      * rewrite app_nil_r. by apply neighbors_append.
      * destruct (Z.eqb_spec a b) as [->|Hab]; simpl.
        -- rewrite app_nil_r. by apply neighbors_append.
        -- rewrite neighbors_append by done.
           rewrite neighbors_append by done. by rewrite <-app_assoc.
    + rewrite Htot, Hd1. unfold g1, loops. simpl.
      destruct (directed_ g); simpl.
      * rewrite total_entries_append by done. lia.
      * destruct (Z.eqb_spec a b) as [->|Hab]; simpl.
        -- rewrite total_entries_append by done.
           rewrite filter_cons_True by done. simpl. lia.
        -- rewrite !total_entries_append by done.
           rewrite filter_cons_False by done. lia.
Qed.

(** X10. A run of [add_edge] calls with endpoints in range, on a fresh graph
    of [n] vertices, raises nothing and leaves a well-formed graph in which
    the list of every vertex [u] holds, in the order of the calls, the
    target of every triple that starts at [u] and, if the graph is
    undirected, the start of every triple without self-loop that ends at
    [u]. *)
Theorem add_edges_neighbors (n : Z) (directed : bool)
    (es : list (Vertex * Vertex * Weight)) :
  0 ≤ n → Forall (valid_pair n) es →
  ∃ g, add_edges es (Graph_new n directed) = (g, Ok tt) ∧
       wf_graph g ∧ vertex_count g = n ∧ is_directed g = directed ∧
       ∀ u, 0 ≤ u → neighbors g u = incident directed u es.
Proof.
  intros Hn Hes.
  destruct (add_edges_run es (Graph_new n directed))
    as (g & Hrun & Hwf & Hn' & Hd & Hnb & _); [by apply wf_graph_new|done|].
  exists g. split_and!; [done..|].
  intros u Hu. rewrite Hnb by done. simpl.
  unfold neighbors. simpl.
  destruct (replicate (Z.to_nat n) [] !! Z.to_nat u) eqn:Hl; [|done].
  by apply lookup_replicate in Hl as [-> _].
Qed.

Lemma add_edges_neighbors_witness :
  ∃ g, add_edges [(0, 1, Fin 1); (2, 2, Fin 3); (1, 0, Fin 2)]
         (Graph_new 3 false) = (g, Ok tt) ∧
       wf_graph g ∧ vertex_count g = 3 ∧ is_directed g = false ∧
       ∀ u, 0 ≤ u →
         neighbors g u
         = incident false u [(0, 1, Fin 1); (2, 2, Fin 3); (1, 0, Fin 2)].
Proof.
  apply (add_edges_neighbors 3 false
           [(0, 1, Fin 1); (2, 2, Fin 3); (1, 0, Fin 2)]); [lia|].
  repeat constructor; simpl; lia.
Defined.

(** X11. After such a run [edge_count] is the number of calls if the graph
    is directed. If it is undirected a self-loop is stored once and every
    other edge twice, and [edge_count] halves the total: with [k] calls of
    which [l] are self-loops it returns [(2k - l) / 2], rounded down. *)
Theorem add_edges_edge_count (n : Z) (directed : bool)
    (es : list (Vertex * Vertex * Weight)) :
  0 ≤ n → Forall (valid_pair n) es →
  ∃ g, add_edges es (Graph_new n directed) = (g, Ok tt) ∧
       edge_count g =
         if directed then Z.of_nat (length es)
         else (2 * Z.of_nat (length es) - loops es) / 2.
Proof.
  intros Hn Hes.
  destruct (add_edges_run es (Graph_new n directed))
    as (g & Hrun & Hwf & Hn' & Hd & _ & Htot); [by apply wf_graph_new|done|].
  exists g. split; [done|]. unfold edge_count.
  rewrite Htot, Hd, total_entries_new by done. simpl.
  by destruct directed.
Qed.

(** Two calls on an undirected graph, one of them a self-loop: three
    stored entries, and an edge count of one. *)
Lemma add_edges_edge_count_witness :
  ∃ g, add_edges [(0, 1, Fin 1); (2, 2, Fin 3)] (Graph_new 3 false)
         = (g, Ok tt) ∧
       edge_count g = 1.
Proof.
  destruct (add_edges_edge_count 3 false [(0, 1, Fin 1); (2, 2, Fin 3)])
    as (g & Hrun & Hcount); [lia|repeat constructor; simpl; lia|].
  exists g. split; [exact Hrun|]. rewrite Hcount. reflexivity.
Defined.

(** ** The graph container: resizing *)

Lemma resize_copy (f : Z → list Edge) (k m : nat) :
  (k ≤ m)%nat →
  fold_left (λ a i, <[Z.to_nat i := f i]> a) (seqZ 0 (Z.of_nat k))
            (replicate m [])
  = ((λ j : nat, f (Z.of_nat j)) <$> seq 0 k) ++ replicate (m - k) [].
Proof.
  induction k as [|k IH]; intros Hk.
  - simpl. by rewrite Nat.sub_0_r.
  - rewrite seqZ_S, fold_left_app, IH, seq_S, fmap_app by lia.
    cbn [fold_left fmap list_fmap].
    replace (Z.to_nat (0 + Z.of_nat k)) with (k + 0)%nat by lia.
    rewrite insert_app_r_alt by (rewrite length_fmap, length_seq; lia).
    rewrite length_fmap, length_seq.
    replace (k + 0 - k)%nat with 0%nat by lia.
    replace (m - k)%nat with (S (m - S k)) by lia. simpl.
    by rewrite <-app_assoc.
Qed.

Lemma neighbors_beyond g u :
  wf_graph g → n_ g ≤ u → neighbors g u = [].
Proof.
  intros (Hn & Hlen & _) Hu. unfold neighbors.
  by rewrite lookup_ge_None_2 by lia.
Qed.

Lemma resize_adj n g :
  0 ≤ n_ g → 0 ≤ n → n ≠ n_ g →
  adj_ (resize n g)
  = ((λ j : nat, neighbors g (Z.of_nat j)) <$> seq 0 (Z.to_nat (n `min` n_ g)))
    ++ replicate (Z.to_nat n - Z.to_nat (n `min` n_ g)) [].
Proof.
  intros Hg Hn Hne. unfold resize.
  destruct (Z.eqb_spec n (n_ g)) as [|_]; [done|]. simpl.
  destruct (Z.ltb_spec 0 n) as [Hpos|Hzero].
  - replace (if n <? n_ g then n else n_ g) with (n `min` n_ g)
      by (destruct (Z.ltb_spec n (n_ g)); lia).
    rewrite <-(Z2Nat.id (n `min` n_ g)) at 1 by lia.
    apply resize_copy. lia.
  - replace n with 0 by lia. by rewrite Z.min_l by lia.
Qed.

(** X12. [resize(n)] on a well-formed graph sets the vertex count to [n],
    keeps the direction, keeps the adjacency list of every vertex below
    both the old and the new count exactly as it was, and gives the other
    vertices empty lists. It never drops an entry of a list it keeps, so
    the result is well-formed exactly when no kept entry points at a
    removed vertex. *)
Theorem resize_spec (n : Z) (g : Graph) :
  wf_graph g → 0 ≤ n →
  vertex_count (resize n g) = n ∧
  is_directed (resize n g) = is_directed g ∧
  (∀ u, 0 ≤ u →
     neighbors (resize n g) u
     = if bool_decide (u < n ∧ u < vertex_count g) then neighbors g u else []) ∧
  (wf_graph (resize n g) ↔
   ∀ u e, 0 ≤ u < n → e ∈ neighbors g u → to e < n).
Proof.
  intros Hwf Hn. pose proof Hwf as (Hg & Hlen & Hall).
  unfold vertex_count, is_directed.
  destruct (decide (n = n_ g)) as [->|Hne].
  { unfold resize. rewrite Z.eqb_refl. split_and!; [done..| |].
    - intros u Hu. case_bool_decide; [done|].
      apply neighbors_beyond; [done|lia].
    - split; [|done]. intros _ u e Hu He.
      by apply (wf_neighbors g u e Hwf He). }
  pose proof (resize_adj n g Hg Hn Hne) as Hadj.
  assert (n_ (resize n g) = n ∧ directed_ (resize n g) = directed_ g)
    as [Hn' Hd'].
  { unfold resize. by destruct (Z.eqb_spec n (n_ g)). }
  assert (∀ u, 0 ≤ u →
            neighbors (resize n g) u
            = if bool_decide (u < n ∧ u < n_ g) then neighbors g u else [])
    as Hnb.
  { intros u Hu. unfold neighbors at 1. rewrite Hadj.
    case_bool_decide as Hlt.
    - rewrite lookup_app_l by (rewrite length_fmap, length_seq; lia).
      rewrite list_lookup_fmap, lookup_seq_lt by lia. simpl.
      by rewrite Z2Nat.id by lia.
    - destruct (decide (u < n)) as [Hun|Hun].
      + rewrite lookup_app_r by (rewrite length_fmap, length_seq; lia).
        by rewrite lookup_replicate_2
          by (rewrite length_fmap, length_seq; lia).
      + by rewrite lookup_ge_None_2
          by (rewrite length_app, length_fmap, length_seq, length_replicate;
              lia). }
  split_and!; [done..|]. split.
  - intros Hwf' u e Hu He.
    destruct (decide (u < n_ g)) as [Hug|Hug].
    + assert (e ∈ neighbors (resize n g) u) as He'.
      { rewrite Hnb by lia. by rewrite bool_decide_eq_true_2 by lia. }
      pose proof (wf_neighbors _ _ _ Hwf' He') as Hr.
      rewrite Hn' in Hr. unfold in_range in Hr. lia.
    + rewrite neighbors_beyond in He by (done || lia).
      by apply elem_of_nil in He.
  - intros Hkeep. split_and!; [lia| |].
    + rewrite Hn', Hadj, length_app, length_fmap, length_seq, length_replicate.
      lia.
    + rewrite Hn', Hadj. apply Forall_app. split.
      * apply Forall_fmap, Forall_forall. intros j Hj. simpl.
        apply elem_of_seq in Hj. apply Forall_forall. intros e He.
        pose proof (wf_neighbors _ _ _ Hwf He) as Hr. unfold in_range in *.
        split; [lia|]. apply (Hkeep (Z.of_nat j) e); [lia|done].
      * apply Forall_replicate. constructor.
Qed.

(** Shrinking the graph [0→2] from three vertices to two keeps the entry
    that points at the removed vertex. *)
Lemma resize_spec_witness :
  vertex_count (resize 2 (fst (add_edge 0 2 (Fin 1) (Graph_new 3 true)))) = 2 ∧
  neighbors (resize 2 (fst (add_edge 0 2 (Fin 1) (Graph_new 3 true)))) 0
    = [mkEdge 2 (Fin 1)] ∧
  ¬ wf_graph (resize 2 (fst (add_edge 0 2 (Fin 1) (Graph_new 3 true)))).
Proof.
  destruct (resize_spec 2 (fst (add_edge 0 2 (Fin 1) (Graph_new 3 true))))
    as (Hn & _ & Hnb & Hwf); [by_evaluation|lia|].
  split_and!; [exact Hn|by rewrite Hnb by lia|].
  intros Hwf'.
  pose proof (proj1 Hwf Hwf' 0 (mkEdge 2 (Fin 1))) as Hlt. simpl in Hlt.
  assert (2 < 2) by (apply Hlt; [lia|left]). lia.
Defined.

(** ** Files: what is saved *)

Lemma save_entries_kept directed u neigh out :
  save_entries directed u neigh out = out ++ kept_lines directed u neigh.
Proof.
  unfold save_entries, kept_lines, lines_from. revert out.
  induction neigh as [|e neigh IH]; intros out; cbn [fold_left].
  - simpl. by rewrite app_nil_r.
  - rewrite IH. destruct directed; cbn [negb andb].
    + rewrite filter_cons_True by (by left).
      rewrite fmap_cons, <-app_assoc. done.
    + destruct (Z.ltb_spec (to e) u) as [Hlt|Hge].
      * rewrite filter_cons_False; [done|]. intros [?|?]; [done|lia].
      * rewrite filter_cons_True by (by right).
        rewrite fmap_cons, <-app_assoc. done.
Qed.

Lemma fold_left_pointwise {A B} (f f' : B → A → B) l b :
  (∀ b x, f b x = f' b x) → fold_left f l b = fold_left f' l b.
Proof.
  intros Hf. revert b. induction l as [|x l IH]; intros b; simpl; [done|].
  by rewrite Hf, IH.
Qed.

Lemma fold_rows {B} (row : Z → list Edge → list B) (adj : list (list Edge))
    (k : nat) :
  (k ≤ length adj)%nat →
  fold_left (λ out u, out ++ row u (default [] (adj !! Z.to_nat u)))
            (seqZ 0 (Z.of_nat k)) []
  = concat (imap (λ u l, row (Z.of_nat u) l) (take k adj)).
Proof.
  induction k as [|k IH]; intros Hk; [done|].
  rewrite seqZ_S, fold_left_app, IH by lia. simpl.
  destruct (lookup_lt_is_Some_2 adj k) as [l Hl]; [lia|].
  replace (Z.to_nat (0 + Z.of_nat k)) with k by lia. rewrite Hl. simpl.
  rewrite (take_S_r _ _ _ Hl), imap_app, concat_app. simpl.
  rewrite app_nil_r, length_take_le, Nat.add_0_r by lia.
  by replace (0 + Z.of_nat k) with (Z.of_nat k) by lia.
Qed.

(** The loops of [save_graph_to_file] write the kept lines of every list. *)
Lemma save_graph_lines g :
  wf_graph g →
  save_graph_to_file true g =
    Some (mkGraphFile
            (vertex_count g, edge_count g, if is_directed g then 1 else 0)
            (all_lines g)).
Proof.
  intros (Hn & Hlen & _). unfold save_graph_to_file, all_lines. simpl.
  do 2 f_equal. unfold vertex_count.
  rewrite <-(Z2Nat.id (n_ g)) at 1 by done.
  rewrite <-(firstn_all (adj_ g)) at 1. rewrite Hlen.
  rewrite <-(fold_rows (kept_lines (is_directed g))) by lia.
  apply fold_left_pointwise. intros out u. apply save_entries_kept.
Qed.

(** ** Files: what is loaded *)

Lemma add_edge_outcome u v w g :
  (∃ g', add_edge u v w g = (g', Ok tt)) ∨
  add_edge u v w g = (g, Throw out_of_range).
Proof.
  unfold add_edge.
  destruct ((u <? 0) || (v <? 0) || (u >=? vertex_count g)
            || (v >=? vertex_count g)); [by right|left].
  destruct (negb (directed_ g) && negb (u =? v)); eauto.
Qed.

Lemma load_loop_spec m input tmp g :
  match load_loop m input tmp g with
  | (g', Ok true) =>
      ∃ es, take m input = Some <$> es ∧ length es = m ∧
            add_edges es tmp = (g', Ok tt)
  | (g', Ok false) => g' = g
  | (g', Throw e) => g' = g ∧ e = out_of_range
  | (g', Timeout) => False
  end.
Proof.
  revert input tmp. induction m as [|m IH]; intros input tmp; simpl.
  { by exists []. }
  destruct input as [|[[[u v] w]|] input]; [done| |done].
  destruct (add_edge_outcome u v w tmp) as [[tmp' Hadd]|Hadd]; rewrite Hadd;
    [|done].
  specialize (IH input tmp').
  destruct (load_loop m input tmp' g) as [g' [[]| |]]; [|done..].
  destruct IH as (es & Htake & Hlen & Hrun).
  exists ((u, v, w) :: es). simpl. rewrite Htake, Hlen, Hadd. done.
Qed.

(** X13. [load_graph_from_file] replaces the caller's graph only when it
    returns [true], and then by the graph that [add_edge] builds, on a
    fresh graph with the vertex count and direction of the header, from
    the first [m] lines, all of which were readable; what follows them in
    the file is ignored. When it returns [false] the caller's graph is as
    before. The only exception it lets through is the [out_of_range] of
    [add_edge], and then too the caller's graph is as before. *)
Theorem load_graph_from_file_spec (file : option GraphInput) (g : Graph) :
  match load_graph_from_file file g with
  | (g', Ok true) =>
      ∃ f n m d es,
        file = Some f ∧ in_header f = Some (n, m, d) ∧
        take (Z.to_nat m) (in_lines f) = Some <$> es ∧
        length es = Z.to_nat m ∧
        add_edges es (Graph_new n (negb (d =? 0))) = (g', Ok tt)
  | (g', Ok false) => g' = g
  | (g', Throw e) => g' = g ∧ e = out_of_range
  | (g', Timeout) => False
  end.
Proof.
  unfold load_graph_from_file. destruct file as [f|]; [|done].
  destruct (in_header f) as [[[n m] d]|] eqn:Hh; [|done].
  pose proof (load_loop_spec (Z.to_nat m) (in_lines f)
                (Graph_new n (negb (d =? 0))) g) as Hloop.
  destruct (load_loop _ _ _ _) as [g' [[]| |]]; [|done..].
  destruct Hloop as (es & Htake & Hlen & Hrun).
  by exists f, n, m, d, es.
Qed.

(** ** Files: saving and loading again *)

Lemma incident_app directed u es1 es2 :
  incident directed u (es1 ++ es2)
  = incident directed u es1 ++ incident directed u es2.
Proof.
  induction es1 as [|[[a b] w] es1 IH]; simpl; [done|].
  by rewrite IH, !app_assoc.
Qed.

Lemma incident_lines_from (h : Weight → Weight) x u neigh :
  incident true u ((λ l, (l.1, h l.2)) <$> lines_from x neigh)
  = if x =? u then (λ e, mkEdge (to e) (h (weight e))) <$> neigh else [].
Proof.
  induction neigh as [|e neigh IH]; [by destruct (x =? u)|].
  unfold lines_from in *. rewrite !fmap_cons. cbn [incident fst snd].
  rewrite IH. by destruct (x =? u).
Qed.

Lemma incident_rows (h : Weight → Weight) (adj : list (list Edge)) u :
  0 ≤ u →
  incident true u
    ((λ l, (l.1, h l.2))
       <$> concat (imap (λ x l, lines_from (Z.of_nat x) l) adj))
  = (λ e, mkEdge (to e) (h (weight e))) <$> default [] (adj !! Z.to_nat u).
Proof.
  intros Hu. induction adj as [|l adj IH] using rev_ind; [done|].
  rewrite imap_app, concat_app, fmap_app, incident_app, IH. simpl.
  rewrite app_nil_r, incident_lines_from, Nat.add_0_r.
  destruct (Z.eqb_spec (Z.of_nat (length adj)) u) as [<-|Hne].
  - rewrite Nat2Z.id, lookup_ge_None_2 by done.
    by rewrite lookup_app_r, Nat.sub_diag by done.
  - rewrite app_nil_r. destruct (decide (Z.to_nat u < length adj)%nat).
    + by rewrite lookup_app_l by done.
    + by rewrite !lookup_ge_None_2 by (rewrite ?length_app; simpl; lia).
Qed.

Lemma load_loop_run es rest tmp tmp' g :
  add_edges es tmp = (tmp', Ok tt) →
  load_loop (length es) ((Some <$> es) ++ rest) tmp g = (tmp', Ok true).
Proof.
  revert tmp. induction es as [|[[u v] w] es IH]; intros tmp; simpl.
  - by intros [= <-].
  - destruct (add_edge u v w tmp) as [tmp1 [[]| |]]; [|by intros [= _ ?]..].
    apply IH.
Qed.

(** Two graphs with the same vertex count, direction and lists are one. *)
Lemma graph_ext g1 g2 :
  wf_graph g1 → wf_graph g2 → n_ g1 = n_ g2 → directed_ g1 = directed_ g2 →
  (∀ u, 0 ≤ u → neighbors g1 u = neighbors g2 u) → g1 = g2.
Proof.
  destruct g1 as [n1 d1 adj1], g2 as [n2 d2 adj2].
  intros (_ & Hl1 & _) (_ & Hl2 & _). simpl in *. intros <- <- Hnb.
  f_equal. apply list_eq_same_length with (Z.to_nat n1); [done..|].
  intros i l1 l2 Hi H1 H2. specialize (Hnb (Z.of_nat i)).
  unfold neighbors in Hnb. simpl in Hnb.
  rewrite Nat2Z.id, H1, H2 in Hnb. apply Hnb. lia.
Qed.

Lemma wf_with_weights h g : wf_graph g → wf_graph (with_weights h g).
Proof.
  intros (Hn & Hlen & Hall). split_and!; simpl; [done| |].
  - by rewrite length_fmap.
  - apply Forall_fmap. eapply Forall_impl; [exact Hall|]. simpl.
    intros l Hl. apply Forall_fmap. eapply Forall_impl; [exact Hl|]. done.
Qed.

Lemma all_lines_valid g :
  wf_graph g → Forall (valid_pair (n_ g)) (all_lines g).
Proof.
  intros (Hn & Hlen & Hall). apply Forall_forall.
  intros t (l & Ht & Hl)%elem_of_concat.
  apply elem_of_lookup_imap in Hl as (i & neigh & -> & Hi).
  unfold kept_lines, lines_from in Ht.
  apply list_elem_of_fmap in Ht as (e & -> & He).
  apply list_elem_of_filter in He as [_ He].
  apply lookup_lt_Some in Hi as Hlt.
  eapply Forall_lookup_1 in Hall; [|done].
  eapply Forall_forall in Hall; [|done].
  split; simpl; [unfold in_range; lia|done].
Qed.

Lemma all_lines_directed g :
  is_directed g = true →
  all_lines g = concat (imap (λ x l, lines_from (Z.of_nat x) l) (adj_ g)).
Proof.
  intros Hd. unfold all_lines. rewrite Hd. f_equal. apply imap_ext.
  intros i l _. unfold kept_lines. f_equal.
  induction l as [|e l IH]; [done|].
  by rewrite filter_cons_True, IH by (by left).
Qed.

Lemma length_all_lines_directed g :
  wf_graph g → is_directed g = true →
  Z.of_nat (length (all_lines g)) = edge_count g.
Proof.
  intros Hwf Hd. pose proof Hwf as (Hn & Hlen & _).
  unfold edge_count. unfold is_directed in Hd. rewrite Hd. simpl.
  rewrite total_entries_concat, all_lines_directed by done. f_equal.
  generalize (adj_ g). intros adj.
  induction adj as [|l adj IH] using rev_ind; [done|].
  rewrite imap_app, !concat_app, !length_app, IH. simpl.
  unfold lines_from. by rewrite !app_nil_r, length_fmap.
Qed.

(** X14. Saving a well-formed directed graph and loading the file again
    gives back a graph with the same vertices, the same direction and the
    same adjacency lists, entry by entry and in the same order, each
    weight being the one that is read back from its printed form; the
    graph itself, if every weight reads back as it was written. *)
Theorem save_load_directed (reread : Weight → option Weight)
    (h : Weight → Weight) (g g0 : Graph) :
  wf_graph g → is_directed g = true →
  Forall (Forall (λ e, reread (weight e) = Some (h (weight e)))) (adj_ g) →
  ∃ f, save_graph_to_file true g = Some f ∧
       load_graph_from_file (Some (read_back reread f)) g0
         = (with_weights h g, Ok true) ∧
       ((∀ w, h w = w) → with_weights h g = g).
Proof.
  intros Hwf Hd Hre. pose proof Hwf as (Hn & Hlen & Hall).
  eexists. split; [by apply save_graph_lines|]. split.
  - unfold load_graph_from_file, read_back. simpl. rewrite Hd. simpl.
    rewrite <-length_all_lines_directed, Nat2Z.id by done.
    set (es := (λ l, (l.1, h l.2)) <$> all_lines g).
    assert ((λ l, w ← reread l.2; Some (l.1, w)) <$> all_lines g
            = (Some <$> es) ++ []) as ->.
    { rewrite app_nil_r. unfold es. rewrite <-list_fmap_compose.
      apply Forall_fmap_ext_1, Forall_forall.
      intros t (l & Ht & Hl)%elem_of_concat.
      apply elem_of_lookup_imap in Hl as (i & neigh & -> & Hi).
      apply list_elem_of_fmap in Ht as (e & -> & He).
      apply list_elem_of_filter in He as [_ He]. simpl.
      eapply Forall_lookup_1 in Hre; [|done].
      eapply Forall_forall in Hre; [|done]. by rewrite Hre. }
    assert (Forall (valid_pair (n_ g)) es) as Hes.
    { unfold es. apply Forall_fmap.
      eapply Forall_impl; [by apply all_lines_valid|]. by intros [[??]?]. }
    destruct (add_edges_run es (Graph_new (vertex_count g) true))
      as (g' & Hrun & Hwf' & Hn' & Hd' & Hnb & _);
      [by apply wf_graph_new|done|].
    replace (length (all_lines g)) with (length es)
      by (unfold es; by rewrite length_fmap).
    rewrite (load_loop_run es [] _ g' g0 Hrun). f_equal.
    simpl in Hn', Hd'. unfold is_directed in Hd.
    apply graph_ext; [done|by apply wf_with_weights|done|simpl; congruence|].
    intros u Hu. rewrite Hnb by done. simpl. unfold es.
    rewrite all_lines_directed, incident_rows by done.
    unfold neighbors. simpl. rewrite list_lookup_fmap.
    destruct (replicate _ _ !! _) eqn:Hrep;
      [apply lookup_replicate in Hrep as [-> _]|];
      by destruct (adj_ g !! Z.to_nat u).
  - intros Hid. destruct g as [n d adj]. unfold with_weights. simpl. f_equal.
    rewrite <-(list_fmap_id adj) at 2. apply list_fmap_ext. intros _ l _.
    rewrite <-(list_fmap_id l) at 2. apply list_fmap_ext. intros _ [t w] _.
    simpl. by rewrite Hid.
Qed.

(** The example graph of the tests, whose weights [1], [2], [3] and [5]
    read back as they are printed, comes back as it was. *)
Lemma save_load_directed_witness :
  ∃ f, save_graph_to_file true test_graph = Some f ∧
       load_graph_from_file (Some (read_back Some f)) (Graph_new 0 true)
         = (test_graph, Ok true).
Proof.
  destruct (save_load_directed Some (λ w, w) test_graph (Graph_new 0 true))
    as (f & Hsave & Hload & Hid).
  - by_evaluation.
  - reflexivity.
  - repeat constructor.
  - exists f. split; [exact Hsave|]. rewrite Hload, Hid; done.
Defined.

(** ** Files: undirected graphs *)

Lemma concat_imap_alter {A B} (f : nat → list A → list B)
    (g : list A → list A) (i : nat) (ls : list (list A)) (extra : list B) :
  (i < length ls)%nat →
  (∀ l, ls !! i = Some l → f i (g l) = f i l ++ extra) →
  concat (imap f (alter g i ls)) ≡ₚ concat (imap f ls) ++ extra.
Proof.
  revert f i. induction ls as [|l ls IH]; intros f i Hi Hf; simpl in *; [lia|].
  destruct i as [|i]; simpl.
  - rewrite (Hf l) by done. rewrite <-!app_assoc. f_equiv.
    apply Permutation_app_comm.
  - change (list_alter g i ls) with (alter g i ls).
    rewrite (IH (f ∘ S) i) by (done || lia). by rewrite app_assoc.
Qed.

Lemma all_lines_append g x e :
  wf_graph g → in_range (n_ g) x →
  all_lines (append_adj g x e)
  ≡ₚ all_lines g ++ kept_lines (directed_ g) x [e].
Proof.
  intros (Hn & Hlen & _) Hx. unfold in_range in Hx.
  unfold all_lines, append_adj, is_directed. simpl.
  apply concat_imap_alter; [lia|]. intros l _.
  rewrite Z2Nat.id by lia. unfold kept_lines, lines_from, LinkedList.Append.
  by rewrite filter_app, fmap_app.
Qed.

Lemma kept_lines_singleton directed x e :
  kept_lines directed x [e]
  = if directed || (x <=? to e) then [(x, to e, weight e)] else [].
Proof.
  unfold kept_lines, lines_from. destruct directed; cbn [orb].
  - by rewrite filter_cons_True by (by left).
  - destruct (Z.leb_spec x (to e)).
    + by rewrite filter_cons_True by (by right).
    + rewrite filter_cons_False; [done|]. intros [?|?]; [done|lia].
Qed.

(** Every insertion adds one line to what [save_graph_to_file] writes. *)
Lemma add_edges_lines es g :
  wf_graph g → Forall (valid_pair (n_ g)) es →
  ∃ g', add_edges es g = (g', Ok tt) ∧
        all_lines g' ≡ₚ all_lines g ++ (stored_line (directed_ g) <$> es).
Proof.
  intros Hwf Hes. remember (n_ g) as n eqn:Hn. revert g Hwf Hn.
  induction Hes as [|[[a b] w] es [Ha Hb] Hes IH]; intros g Hwf ->.
  - exists g. simpl. by rewrite app_nil_r.
  - simpl in Ha, Hb. cbn [add_edges].
    rewrite add_edge_in_range by done.
    set (g1 := if negb (directed_ g) && negb (a =? b)
               then append_adj (append_adj g a (mkEdge b w)) b (mkEdge a w)
               else append_adj g a (mkEdge b w)).
    pose proof (wf_append_adj g a (mkEdge b w) Hwf Hb) as Hwfa.
    assert (wf_graph g1 ∧ n_ g1 = n_ g ∧ directed_ g1 = directed_ g ∧
            all_lines g1
            ≡ₚ all_lines g ++ [stored_line (directed_ g) (a, b, w)])
      as (Hwf1 & Hn1 & Hd1 & Hl1).
    { unfold g1, stored_line. simpl.
      pose proof (all_lines_append g a (mkEdge b w) Hwf Ha) as H1.
      rewrite kept_lines_singleton in H1. simpl in H1.
      destruct (directed_ g) eqn:Hd; simpl in *; [done|].
      destruct (Z.eqb_spec a b) as [->|Hab]; simpl.
      - split_and!; [done..|]. by rewrite Z.leb_refl in *.
      - pose proof (all_lines_append (append_adj g a (mkEdge b w)) b
                      (mkEdge a w) Hwfa Hb) as H2.
        rewrite kept_lines_singleton in H2. simpl in H2. rewrite Hd in H2.
        simpl in H2. split_and!; [by apply wf_append_adj|done..|].
        rewrite H2, H1.
        destruct (Z.leb_spec a b), (Z.leb_spec b a); try lia;
          by rewrite <-app_assoc. }
    destruct (IH g1 Hwf1) as (g' & Hrun & Hl'); [done|].
    exists g'. split; [done|].
    rewrite Hl', Hl1, Hd1, fmap_cons, <-app_assoc. done.
Qed.

Lemma incident_Permutation directed u es1 es2 :
  es1 ≡ₚ es2 → incident directed u es1 ≡ₚ incident directed u es2.
Proof.
  induction 1 as [|[[a b] w] es1 es2 _ IH|[[a b] w] [[a' b'] w'] es|];
    simpl; [done|by rewrite IH| |by etrans].
  rewrite !app_assoc. f_equiv. rewrite <-!app_assoc.
  set (A := if a =? u then _ else _).
  set (B := if negb directed && negb (a =? b) && (b =? u) then _ else _).
  set (A' := if a' =? u then _ else _).
  set (B' := if negb directed && negb (a' =? b') && (b' =? u) then _ else _).
  rewrite (app_assoc A), (app_assoc A'). apply Permutation_app_comm.
Qed.

Lemma incident_stored_line u es :
  incident false u (stored_line false <$> es) = incident false u es.
Proof.
  induction es as [|[[a b] w] es IH]; [done|].
  rewrite fmap_cons. unfold stored_line at 1. cbn [fst snd orb].
  destruct (Z.leb_spec a b); cbn [incident]; rewrite IH; [done|].
  rewrite !app_assoc. f_equal.
  destruct (Z.eqb_spec a u), (Z.eqb_spec b u), (Z.eqb_spec a b),
    (Z.eqb_spec b a); simpl; try done; lia.
Qed.

Lemma incident_weights directed (h : Weight → Weight) u es :
  incident directed u ((λ l, (l.1, h l.2)) <$> es)
  = (λ e, mkEdge (to e) (h (weight e))) <$> incident directed u es.
Proof.
  induction es as [|[[a b] w] es IH]; [done|].
  rewrite fmap_cons. cbn [incident fst snd]. rewrite IH, !fmap_app.
  by destruct (a =? u), (negb directed && negb (a =? b) && (b =? u)).
Qed.

Lemma all_lines_new n directed : all_lines (Graph_new n directed) = [].
Proof.
  unfold all_lines. simpl. generalize (Z.to_nat n). intros k.
  induction k as [|k IH] using nat_ind; [done|].
  rewrite replicate_S_end, imap_app, concat_app, IH. done.
Qed.

(** X15. After a run of [add_edge] calls with endpoints in range on a fresh
    graph, the saved file holds one line per call: the triple as given if
    the graph is directed, smaller endpoint first if it is undirected, in
    some order. The edge count of its header is that of [edge_count]; for
    an undirected graph with a self-loop it is less than the number of
    lines that follow. *)
Theorem save_header_and_lines (n : Z) (directed : bool)
    (es : list (Vertex * Vertex * Weight)) :
  0 ≤ n → Forall (valid_pair n) es →
  ∃ g f m,
    add_edges es (Graph_new n directed) = (g, Ok tt) ∧
    save_graph_to_file true g = Some f ∧
    file_lines f ≡ₚ stored_line directed <$> es ∧
    file_header f = (n, m, if directed then 1 else 0) ∧
    m = (if directed then Z.of_nat (length es)
         else (2 * Z.of_nat (length es) - loops es) / 2) ∧
    (directed = false → 0 < loops es → m < Z.of_nat (length (file_lines f))).
Proof.
  intros Hn Hes.
  destruct (add_edges_run es (Graph_new n directed))
    as (g & Hrun & Hwf & Hn' & Hd & _ & Htot); [by apply wf_graph_new|done|].
  destruct (add_edges_lines es (Graph_new n directed))
    as (g' & Hrun' & Hlines); [by apply wf_graph_new|done|].
  assert (g' = g) as -> by congruence.
  rewrite all_lines_new in Hlines. simpl in Hlines, Hn', Hd.
  rewrite total_entries_new in Htot by done. simpl in Htot.
  exists g, (mkGraphFile
               (vertex_count g, edge_count g, if is_directed g then 1 else 0)
               (all_lines g)), (edge_count g).
  assert (edge_count g = if directed then Z.of_nat (length es)
                          else (2 * Z.of_nat (length es) - loops es) / 2)
    as Hm.
  { unfold edge_count. rewrite Htot, Hd. by destruct directed. }
  split; [done|]. split; [by apply save_graph_lines|]. simpl.
  split; [done|].
  split; [unfold vertex_count, is_directed; by rewrite Hn', Hd|].
  split; [done|].
  intros -> Hloops. rewrite Hm, Hlines, length_fmap.
  apply Z.div_lt_upper_bound; lia.
Qed.

(** Two calls on an undirected graph, the first a self-loop: the header
    announces one edge, two lines follow, and loading the file again keeps
    the self-loop and loses the edge [{0, 1}]. *)
Lemma save_header_and_lines_witness :
  ∃ g f,
    add_edges [(0, 0, Fin 1); (0, 1, Fin 2)] (Graph_new 2 false) = (g, Ok tt) ∧
    save_graph_to_file true g = Some f ∧
    file_header f = (2, 1, 0) ∧ length (file_lines f) = 2%nat ∧
    load_graph_from_file (Some (read_back Some f)) g
      = (fst (add_edges [(0, 0, Fin 1)] (Graph_new 2 false)), Ok true).
Proof.
  destruct (save_header_and_lines 2 false [(0, 0, Fin 1); (0, 1, Fin 2)])
    as (g & f & m & Hrun & Hsave & Hlines & Hh & -> & _);
    [lia|repeat constructor; simpl; lia|].
  exists g, f. split_and!; [exact Hrun|exact Hsave|exact Hh| |].
  - by rewrite Hlines.
  - injection Hrun as <-. injection Hsave as <-. reflexivity.
Defined.

Lemma loops_zero es :
  Forall (λ t : Vertex * Vertex * Weight, t.1.1 ≠ t.1.2) es → loops es = 0.
Proof.
  intros Hes. unfold loops.
  induction Hes as [|t es Ht _ IH]; [done|].
  by rewrite filter_cons_False.
Qed.

(** X16. An undirected graph built by [add_edge] calls without self-loops,
    saved and loaded again, comes back with the same vertices, undirected,
    with the same edge count, and with, for every vertex, the adjacency
    entries it had, each weight being the one read back from its printed
    form; the order of the entries within a list may differ. *)
Theorem save_load_undirected (reread : Weight → option Weight)
    (h : Weight → Weight) (n : Z) (es : list (Vertex * Vertex * Weight))
    (g0 : Graph) :
  0 ≤ n → Forall (proper_pair n) es →
  Forall (λ t, reread t.2 = Some (h t.2)) es →
  ∃ g f g',
    add_edges es (Graph_new n false) = (g, Ok tt) ∧
    save_graph_to_file true g = Some f ∧
    load_graph_from_file (Some (read_back reread f)) g0 = (g', Ok true) ∧
    vertex_count g' = n ∧ is_directed g' = false ∧
    edge_count g' = edge_count g ∧
    ∀ u, 0 ≤ u → neighbors g' u ≡ₚ neighbors (with_weights h g) u.
Proof.
  intros Hn Hes Hre.
  assert (Forall (valid_pair n) es) as Hval.
  { eapply Forall_impl; [exact Hes|]. by intros t (? & ? & _). }
  assert (loops es = 0) as Hloops.
  { apply loops_zero. eapply Forall_impl; [exact Hes|]. by intros t (_ & _ & ?). }
  destruct (add_edges_run es (Graph_new n false))
    as (g & Hrun & Hwf & Hng & Hdg & Hnbg & Htot); [by apply wf_graph_new|done|].
  destruct (add_edges_lines es (Graph_new n false))
    as (g1 & Hrun1 & Hlines); [by apply wf_graph_new|done|].
  assert (g1 = g) as -> by congruence.
  rewrite all_lines_new in Hlines. simpl in Hlines, Hng, Hdg, Htot.
  rewrite total_entries_new, Hloops in Htot by done.
  assert (edge_count g = Z.of_nat (length es)) as Hm.
  { unfold edge_count. rewrite Htot, Hdg. simpl.
    replace (0 + (2 * Z.of_nat (length es) - 0))
      with (Z.of_nat (length es) * 2) by lia.
    by rewrite Z.div_mul. }
  set (L := (λ l, (l.1, h l.2)) <$> all_lines g).
  assert (Forall (valid_pair n) L) as HL.
  { unfold L. apply Forall_fmap. rewrite <-Hng.
    eapply Forall_impl; [by apply all_lines_valid|]. by intros [[??]?]. }
  assert (Forall (λ t : Vertex * Vertex * Weight, t.1.1 ≠ t.1.2) L) as HLl.
  { unfold L. apply Forall_fmap. rewrite Hlines. apply Forall_fmap.
    eapply Forall_impl; [exact Hes|]. intros [[a b] w] (_ & _ & Hab).
    unfold stored_line. simpl in *. destruct (a <=? b); simpl; lia. }
  assert ((λ l, w ← reread l.2; Some (l.1, w)) <$> all_lines g
          = (Some <$> L) ++ []) as Hread.
  { rewrite app_nil_r. unfold L. rewrite <-list_fmap_compose.
    apply Forall_fmap_ext_1. rewrite Hlines. apply Forall_fmap.
    eapply Forall_impl; [exact Hre|]. intros [[a b] w] Hw.
    unfold stored_line. simpl in *. destruct (a <=? b); simpl; by rewrite Hw. }
  destruct (add_edges_run L (Graph_new n false))
    as (g' & Hrun' & Hwf' & Hn' & Hd' & Hnb' & Htot');
    [by apply wf_graph_new|done|].
  simpl in Hn', Hd', Htot'.
  rewrite total_entries_new, (loops_zero L HLl) in Htot' by done.
  assert (length L = length es) as HLlen.
  { unfold L. by rewrite length_fmap, Hlines, length_fmap. }
  exists g, (mkGraphFile
               (vertex_count g, edge_count g, if is_directed g then 1 else 0)
               (all_lines g)), g'.
  split; [done|]. split; [by apply save_graph_lines|]. split_and!.
  - unfold load_graph_from_file, read_back. simpl.
    unfold is_directed, vertex_count. rewrite Hdg, Hng, Hm, Nat2Z.id, Hread.
    simpl. rewrite <-HLlen. by apply load_loop_run.
  - done.
  - done.
  - rewrite Hm. unfold edge_count. rewrite Htot', Hd', HLlen. simpl.
    replace (0 + (2 * Z.of_nat (length es) - 0))
      with (Z.of_nat (length es) * 2) by lia.
    by rewrite Z.div_mul.
  - intros u Hu. rewrite Hnb' by done. simpl.
    unfold neighbors at 1. simpl.
    replace (default [] (replicate (Z.to_nat n) [] !! Z.to_nat u))
      with (@nil Edge).
    2:{ destruct (replicate _ _ !! _) eqn:Hrep; [|done].
        by apply lookup_replicate in Hrep as [-> _]. }
    simpl. unfold L. rewrite incident_weights.
    rewrite (incident_Permutation false u _ _ Hlines), incident_stored_line.
    unfold neighbors at 1. simpl. rewrite list_lookup_fmap.
    specialize (Hnbg u Hu). simpl in Hnbg. unfold neighbors in Hnbg.
    simpl in Hnbg.
    replace (default [] (replicate (Z.to_nat n) [] !! Z.to_nat u))
      with (@nil Edge) in Hnbg.
    2:{ destruct (replicate _ _ !! _) eqn:Hrep; [|done].
        by apply lookup_replicate in Hrep as [-> _]. }
    simpl in Hnbg. destruct (adj_ g !! Z.to_nat u); simpl in *;
      by rewrite <-Hnbg.
Qed.

Lemma save_load_undirected_witness :
  ∃ g f g',
    add_edges [(1, 2, Fin 1); (0, 2, Fin 3)] (Graph_new 3 false) = (g, Ok tt) ∧
    save_graph_to_file true g = Some f ∧
    load_graph_from_file (Some (read_back Some f)) (Graph_new 0 true)
      = (g', Ok true) ∧
    vertex_count g' = 3 ∧ is_directed g' = false ∧
    edge_count g' = edge_count g ∧
    ∀ u, 0 ≤ u → neighbors g' u ≡ₚ neighbors (with_weights (λ w, w) g) u.
Proof.
  apply (save_load_undirected Some (λ w, w) 3 [(1, 2, Fin 1); (0, 2, Fin 3)]
           (Graph_new 0 true)); [lia| |by repeat constructor].
  repeat constructor; simpl; lia.
Defined.

(** ** Random graphs: what every run gives *)

Lemma StronglySorted_snoc (l : list Z) (x : Z) :
  StronglySorted Z.lt l → Forall (λ y, y < x) l →
  StronglySorted Z.lt (l ++ [x]).
Proof.
  induction 1 as [|y l Hl IH Hy]; intros Hx; simpl.
  - constructor; [constructor|done].
  - apply Forall_cons in Hx as [Hyx Hx]. constructor; [by apply IH|].
    apply Forall_app. split; [done|]. by constructor.
Qed.

Lemma add_edge_neighbors u v w g :
  wf_graph g → in_range (n_ g) u → in_range (n_ g) v →
  ∃ g', add_edge u v w g = (g', Ok tt) ∧ wf_graph g' ∧ n_ g' = n_ g ∧
        directed_ g' = directed_ g ∧
        ∀ x, 0 ≤ x →
          neighbors g' x
          = neighbors g x ++ (if u =? x then [mkEdge v w] else [])
              ++ (if negb (directed_ g) && negb (u =? v) && (v =? x)
                  then [mkEdge u w] else []).
Proof.
  intros Hwf Hu Hv. pose proof (add_edge_in_range u v w g Hu Hv) as Hrun.
  destruct (add_edge_wf u v w g _ _ Hwf Hrun) as (Hwf' & Hn' & Hd').
  eexists. split; [exact Hrun|]. split_and!; [done..|].
  intros x Hx. destruct (negb (directed_ g) && negb (u =? v)); simpl.
  - rewrite neighbors_append; [|by apply wf_append_adj|done|done].
    rewrite neighbors_append by done. by rewrite <-app_assoc.
  - rewrite neighbors_append by done. by rewrite app_nil_r.
Qed.

Lemma neighbors_new n d x : neighbors (Graph_new n d) x = [].
Proof.
  unfold neighbors, Graph_new. simpl.
  destruct (replicate (Z.to_nat n) [] !! Z.to_nat x) as [l|] eqn:Hl; [|done].
  by apply lookup_replicate in Hl as [-> _].
Qed.

Section generate.
Variables (gen : Engine) (p : Q) (lo hi : Weight) (n : Z) (directed : bool).

Lemma gen_inv_weaken u v u' v' g :
  (∀ x y, 0 ≤ x → tried directed u v x y → tried directed u' v' x y) →
  gen_inv n directed u v g → gen_inv n directed u' v' g.
Proof.
  intros Hmono [Hwf Hn Hd Hs He]. split; [done..|].
  intros x e Hx Hin. destruct (He x e Hx Hin) as (? & ? & ?).
  split_and!; auto.
Qed.

Lemma generate_step_inv u v g k :
  in_range n u → in_range n v → gen_inv n directed u v g →
  ∃ g' k',
    generate_step gen p lo hi directed u (g, k) v = Ok (g', k') ∧
    gen_inv n directed u (v + 1) g'.
Proof.
  intros Hu Hv Hinv. unfold generate_step.
  assert (gen_inv n directed u (v + 1) g) as Hskip.
  { eapply gen_inv_weaken; [|done]. intros x y _. unfold tried.
    destruct directed; lia. }
  destruct (negb directed && (v <=? u)) eqn:Hle; [by eauto|].
  destruct (Z.eqb_spec u v) as [Heq|Hne]; [by eauto|].
  destruct (Qle_bool (gen k) p); [|by eauto].
  destruct Hinv as [Hwf Hn Hd Hs He].
  destruct (add_edge_neighbors u v (uniform_real lo hi (gen (S k))) g)
    as (g' & -> & Hwf' & Hn' & Hd' & Hnb0); [done|by rewrite Hn..|].
  generalize dependent (uniform_real lo hi (gen (S k))). intros w Hnb0.
  exists g', (S (S k)). split; [done|].
  assert (∀ x, 0 ≤ x →
            neighbors g' x
            = neighbors g x ++ (if u =? x then [mkEdge v w] else [])
                ++ (if negb directed && (v =? x) then [mkEdge u w] else []))
    as Hnb.
  { intros x Hx. rewrite Hnb0, Hd by done.
    replace (u =? v) with false by lia. by rewrite andb_true_r. }
  clear Hnb0.
  assert (0 ≤ u ∧ 0 ≤ v) as [Hu0 Hv0] by (unfold in_range in *; lia).
  assert (directed = false → u < v) as Hlt.
  { intros ->. simpl in Hle. lia. }
  assert (∀ x e, 0 ≤ x → e ∈ neighbors g x → e ∈ neighbors g' x) as Hold.
  { intros x e Hx Hin. rewrite Hnb by done. apply elem_of_app. by left. }
  assert (∀ x e, 0 ≤ x → e ∈ neighbors g x → 0 ≤ to e) as Hto.
  { intros x e Hx Hin. destruct Hwf as (_ & _ & Hadj).
    unfold neighbors in Hin.
    destruct (adj_ g !! Z.to_nat x) as [l|] eqn:Hl;
      [|by apply elem_of_nil in Hin].
    eapply Forall_lookup_1 in Hadj; [|exact Hl].
    simpl in Hin. eapply Forall_forall in Hadj; [|exact Hin].
    unfold in_range in Hadj. lia. }
  split; [done|by rewrite Hn'|by rewrite Hd'| |].
  - intros x Hx. rewrite Hnb, !fmap_app by done.
    assert (Forall (λ y, y < v) (to <$> neighbors g u)) as Hbelow_v.
    { apply Forall_fmap, Forall_forall. intros e Hin.
      destruct (He u e Hu0 Hin) as (_ & Ht & _).
      unfold tried in Ht. simpl. destruct directed; [lia|].
      specialize (Hlt eq_refl). lia. }
    assert (directed = false →
            Forall (λ y, y < u) (to <$> neighbors g v)) as Hbelow_u.
    { intros ->. apply Forall_fmap, Forall_forall. intros e Hin.
      destruct (He v e Hv0 Hin) as (_ & Ht & _).
      unfold tried in Ht. simpl. specialize (Hlt eq_refl). lia. }
    destruct (Z.eqb_spec u x) as [Hux|Hux];
      destruct (Z.eqb_spec v x) as [Hvx|Hvx]; [lia|..].
    + subst x. rewrite andb_false_r. simpl. rewrite ?app_nil_r.
      apply StronglySorted_snoc; [by apply Hs|done].
    + subst x. destruct directed; simpl; rewrite ?app_nil_r.
      * by apply Hs.
      * apply StronglySorted_snoc; [by apply Hs|by apply Hbelow_u].
    + rewrite andb_false_r. simpl. rewrite ?app_nil_r. by apply Hs.
  - intros x e Hx Hin. rewrite Hnb in Hin by done.
    apply elem_of_app in Hin as [Hin|Hin].
    { destruct (He x e Hx Hin) as (? & Ht & Hsym).
      split_and!; [done| |].
      - unfold tried in *. destruct directed; lia.
      - intros Hnd. apply Hold; [by eapply Hto|by apply Hsym]. }
    apply elem_of_app in Hin as [Hin|Hin].
    + destruct (Z.eqb_spec u x) as [Hux|Hux]; [|by apply elem_of_nil in Hin].
      subst x. apply list_elem_of_singleton in Hin as ->. simpl.
      split_and!; [done| |].
      * unfold tried. destruct directed; [lia|].
        specialize (Hlt eq_refl). lia.
      * intros ->. rewrite Hnb by done. simpl.
        rewrite Z.eqb_refl, !elem_of_app. right. right.
        by apply list_elem_of_singleton.
    + destruct directed; [by apply elem_of_nil in Hin|]. simpl in Hin.
      destruct (Z.eqb_spec v x) as [Hvx|Hvx]; [|by apply elem_of_nil in Hin].
      subst x. apply list_elem_of_singleton in Hin as ->. simpl.
      specialize (Hlt eq_refl).
      split_and!; [lia| |].
      * unfold tried. lia.
      * intros _. rewrite Hnb by done.
        rewrite Z.eqb_refl, !elem_of_app. right. left.
        by apply list_elem_of_singleton.
Qed.

Lemma generate_loops k :
  0 ≤ n →
  ∃ g k',
    for_each
      (λ st u,
         for_each (generate_step gen p lo hi directed u) (seqZ 0 n) st)
      (seqZ 0 n) (Graph_new n directed, k) = Ok (g, k') ∧
    gen_inv n directed n 0 g.
Proof.
  intros Hn.
  destruct (for_each_seqZ
    (λ u (st : Graph * nat), gen_inv n directed u 0 st.1)
    (λ st u,
       for_each (generate_step gen p lo hi directed u) (seqZ 0 n) st)
    0 n (Graph_new n directed, k)) as ([g k'] & Hrun & Hinv); [done| | |].
  - split; [by apply wf_graph_new|done|done|..].
    + intros x _. simpl. rewrite neighbors_new. constructor.
    + intros x e _ Hin. simpl in Hin. rewrite neighbors_new in Hin.
      by apply elem_of_nil in Hin.
  - intros u [g1 k1] Hu Hinv. simpl in Hinv.
    destruct (for_each_seqZ
      (λ v (st : Graph * nat), gen_inv n directed u v st.1)
      (generate_step gen p lo hi directed u) 0 n (g1, k1))
      as ([g2 k2] & Hrun & Hinv2); [done|done| |].
    + intros v [g3 k3] Hv Hinv3. simpl in Hinv3.
      destruct (generate_step_inv u v g3 k3) as (g4 & k4 & Hstep & Hinv4);
        [unfold in_range; lia..|done|].
      by exists (g4, k4).
    + exists (g2, k2). split; [done|]. simpl in *.
      eapply gen_inv_weaken; [|exact Hinv2].
      intros x y _. unfold tried. destruct directed; lia.
  - exists g, k'. split; [done|]. by rewrite Z.add_0_l in Hinv.
Qed.
End generate.

(** X17. For a vertex count [n >= 0] and a probability in [0, 1]
    [generate_random_graph] returns, whatever the engine draws and
    whatever the weight bounds, a well-formed graph with [n] vertices of
    the kind asked for, in which the targets of every adjacency list are
    strictly increasing (no two entries of a vertex have the same target)
    and differ from the vertex (no self-loop). In an undirected graph
    every entry has its mirror entry with the same weight. *)
Theorem generate_random_graph_simple (gen : Engine) (n : Z) (p : Q)
    (min_w max_w : Weight) (directed : bool) :
  0 ≤ n → (0 <= p <= 1)%Q →
  ∃ g,
    generate_random_graph gen n p min_w max_w directed = Ok g ∧
    wf_graph g ∧ vertex_count g = n ∧ is_directed g = directed ∧
    ∀ u, 0 ≤ u →
      StronglySorted Z.lt (to <$> neighbors g u) ∧
      ∀ e, e ∈ neighbors g u →
        to e ≠ u ∧
        (directed = false → mkEdge u (weight e) ∈ neighbors g (to e)).
Proof.
  intros Hn [Hp0 Hp1]. unfold generate_random_graph.
  replace (n <? 0) with false by lia.
  replace (Qltb p 0 || Qltb 1 p) with false.
  2: { symmetry. apply orb_false_iff. unfold Qltb.
       rewrite !negb_false_iff, !Qle_bool_iff. done. }
  destruct (if wltb max_w min_w then (max_w, min_w) else (min_w, max_w))
    as [lo hi].
  destruct (generate_loops gen p lo hi n directed) with (k := 0%nat)
    as (g & k' & -> & [Hwf Hgn Hd Hs He]); [done|].
  monad_step. exists g. split_and!; [done..|].
  intros u Hu. split; [by apply Hs|]. intros e Hin.
  destruct (He u e Hu Hin) as (Hne & _ & Hsym). done.
Qed.

Lemma generate_random_graph_simple_witness :
  ∃ g,
    generate_random_graph (λ _, 1 # 2)%Q 3 (1 # 2) (Fin 10) (Fin 1) false
      = Ok g ∧
    wf_graph g ∧ vertex_count g = 3 ∧ is_directed g = false ∧
    ∀ u, 0 ≤ u →
      StronglySorted Z.lt (to <$> neighbors g u) ∧
      ∀ e, e ∈ neighbors g u →
        to e ≠ u ∧
        (false = false → mkEdge u (weight e) ∈ neighbors g (to e)).
Proof.
  apply (generate_random_graph_simple (λ _, 1 # 2)%Q 3 (1 # 2)
           (Fin 10) (Fin 1) false).
  - lia.
  - split; unfold Qle; simpl; lia.
Defined.

(** * Tic-tac-toe *)

(** ** Boards *)

Lemma board_index b r c :
  wf_board b → on_board b r c →
  0 ≤ r * size b + c < Z.of_nat (length (cells b)).
Proof.
  intros (Hn & Hlen) (Hr & Hc). rewrite Hlen. nia.
Qed.

Lemma get_cell b r c :
  wf_board b → on_board b r c →
  ∃ v, get b r c = Ok v ∧ cell b r c = Some v.
Proof.
  intros Hwf Hon. apply Get_in_range. by apply board_index.
Qed.

Lemma set_place b r c v :
  wf_board b → on_board b r c → set b r c v = Ok (place b r c v).
Proof.
  intros Hwf Hon. unfold set, place.
  by rewrite Set_in_range by (by apply board_index).
Qed.

Lemma wf_place b r c v : wf_board b → wf_board (place b r c v).
Proof. intros (Hn & Hlen). split; simpl; [done|by rewrite length_insert]. Qed.

Lemma place_place b r c v v' :
  place (place b r c v) r c v' = place b r c v'.
Proof. unfold place. simpl. by rewrite list_insert_insert_eq. Qed.

Lemma place_same b r c v : cell b r c = Some v → place b r c v = b.
Proof.
  unfold cell, place. intros Hv. destruct b as [n cs]. simpl in *.
  by rewrite list_insert_id.
Qed.

(** Distinct cells of the board have distinct indices. *)
Lemma cell_place_ne b r c v r' c' :
  wf_board b → on_board b r c → on_board b r' c' → (r, c) ≠ (r', c') →
  cell (place b r c v) r' c' = cell b r' c'.
Proof.
  intros (Hn & Hlen) (Hr & Hc) (Hr' & Hc') Hne. unfold cell, place. simpl.
  apply list_lookup_insert_ne. intros Heq.
  assert (r * size b + c = r' * size b + c') as Heq' by nia.
  assert (r = r') by nia. assert (c = c') by nia. congruence.
Qed.

Lemma cell_place_eq b r c v :
  wf_board b → on_board b r c → cell (place b r c v) r c = Some v.
Proof.
  intros Hwf Hon. unfold cell, place. simpl.
  apply list_lookup_insert_eq. pose proof (board_index b r c Hwf Hon). lia.
Qed.

(** ** Winning lines *)

Lemma line_all_spec b p line :
  wf_board b → Forall (λ rc, on_board b rc.1 rc.2) line →
  ∃ w, line_all b p line = Ok w ∧
       (w = true ↔ ∀ rc, rc ∈ line → cell b rc.1 rc.2 = Some p).
Proof.
  intros Hwf. induction 1 as [|[r c] line Hon _ (w & IH & Hw)]; simpl.
  - exists true. split; [done|]. split; [|done].
    intros _ rc Hrc. by apply elem_of_nil in Hrc.
  - destruct (get_cell b r c Hwf Hon) as (v & -> & Hv). monad_step.
    destruct (Ascii.eqb_spec v p) as [->|Hne]; simpl.
    + exists w. split; [done|]. rewrite Hw. split.
      * intros Hall rc [->|Hrc]%elem_of_cons; [done|by apply Hall].
      * intros Hall rc Hrc. apply Hall. by right.
    + exists false. split; [done|]. split; [done|]. intros Hall.
      specialize (Hall (r, c)). simpl in Hall. rewrite Hv in Hall.
      destruct Hne. assert (Some v = Some p) as [= ->] by (apply Hall; left).
      done.
Qed.

Lemma any_line_spec b p lines :
  wf_board b → Forall (Forall (λ rc, on_board b rc.1 rc.2)) lines →
  ∃ w, any_line b p lines = Ok w ∧
       (w = true ↔
        ∃ line, line ∈ lines ∧ ∀ rc, rc ∈ line → cell b rc.1 rc.2 = Some p).
Proof.
  intros Hwf. induction 1 as [|line lines Hon _ (w & IH & Hw)]; simpl.
  - exists false. split; [done|]. split; [done|].
    intros (line & Hl & _). by apply elem_of_nil in Hl.
  - destruct (line_all_spec b p line Hwf Hon) as (w1 & -> & Hw1). monad_step.
    destruct w1.
    + exists true. split; [done|]. split; [|done]. intros _.
      exists line. split; [left|by apply Hw1].
    + exists w. split; [done|]. rewrite Hw. split.
      * intros (l & Hl & Hall). exists l. split; [by right|done].
      * intros (l & [->|Hl]%elem_of_cons & Hall); [|by exists l].
        assert (false = true) by (by apply Hw1). done.
Qed.

Lemma ttt_check_win_wins (b : TTTBoard) (p : ascii) :
  wf_board b →
  ∃ w, ttt_check_win b p = Ok w ∧ (w = true ↔ wins b p).
Proof.
  intros Hwf. pose proof Hwf as (Hn & _). unfold ttt_check_win.
  destruct (any_line_spec b p
              ((λ r, (λ c, (r, c)) <$> seqZ 0 (size b)) <$> seqZ 0 (size b)))
    as (rows & -> & Hrows); [done| |].
  { apply Forall_fmap, Forall_forall. intros r Hr%elem_of_seqZ. simpl.
    apply Forall_fmap, Forall_forall. intros c Hc%elem_of_seqZ. simpl.
    unfold on_board. simpl. lia. }
  destruct (any_line_spec b p
              ((λ c, (λ r, (r, c)) <$> seqZ 0 (size b)) <$> seqZ 0 (size b)))
    as (cols & -> & Hcols); [done| |].
  { apply Forall_fmap, Forall_forall. intros c Hc%elem_of_seqZ. simpl.
    apply Forall_fmap, Forall_forall. intros r Hr%elem_of_seqZ. simpl.
    unfold on_board. simpl. lia. }
  destruct (line_all_spec b p ((λ i, (i, i)) <$> seqZ 0 (size b)))
    as (main & -> & Hmain); [done| |].
  { apply Forall_fmap, Forall_forall. intros i Hi%elem_of_seqZ.
    unfold on_board. simpl. lia. }
  destruct (line_all_spec b p
              ((λ i, (i, size b - 1 - i)) <$> seqZ 0 (size b)))
    as (anti & -> & Hanti); [done| |].
  { apply Forall_fmap, Forall_forall. intros i Hi%elem_of_seqZ.
    unfold on_board. simpl. lia. }
  assert (rows = true ↔
          ∃ r, 0 ≤ r < size b ∧ ∀ c, 0 ≤ c < size b → cell b r c = Some p)
    as Hrows'.
  { rewrite Hrows. split.
    - intros (line & (r & -> & Hr%elem_of_seqZ)%list_elem_of_fmap & Hall).
      exists r. split; [lia|]. intros c Hc. apply (Hall (r, c)).
      apply list_elem_of_fmap. exists c. split; [done|]. apply elem_of_seqZ. lia.
    - intros (r & Hr & Hall). eexists. split.
      + apply list_elem_of_fmap. exists r. split; [done|]. apply elem_of_seqZ. lia.
      + intros rc (c & -> & Hc%elem_of_seqZ)%list_elem_of_fmap. simpl.
        apply Hall. lia. }
  assert (cols = true ↔
          ∃ c, 0 ≤ c < size b ∧ ∀ r, 0 ≤ r < size b → cell b r c = Some p)
    as Hcols'.
  { rewrite Hcols. split.
    - intros (line & (c & -> & Hc%elem_of_seqZ)%list_elem_of_fmap & Hall).
      exists c. split; [lia|]. intros r Hr. apply (Hall (r, c)).
      apply list_elem_of_fmap. exists r. split; [done|]. apply elem_of_seqZ. lia.
    - intros (c & Hc & Hall). eexists. split.
      + apply list_elem_of_fmap. exists c. split; [done|]. apply elem_of_seqZ. lia.
      + intros rc (r & -> & Hr%elem_of_seqZ)%list_elem_of_fmap. simpl.
        apply Hall. lia. }
  assert (main = true ↔ ∀ i, 0 ≤ i < size b → cell b i i = Some p) as Hmain'.
  { rewrite Hmain. split.
    - intros Hall i Hi. apply (Hall (i, i)). apply list_elem_of_fmap.
      exists i. split; [done|]. apply elem_of_seqZ. lia.
    - intros Hall rc (i & -> & Hi%elem_of_seqZ)%list_elem_of_fmap. simpl.
      apply Hall. lia. }
  assert (anti = true ↔
          ∀ i, 0 ≤ i < size b → cell b i (size b - 1 - i) = Some p) as Hanti'.
  { rewrite Hanti. split.
    - intros Hall i Hi. apply (Hall (i, size b - 1 - i)).
      apply list_elem_of_fmap. exists i. split; [done|]. apply elem_of_seqZ. lia.
    - intros Hall rc (i & -> & Hi%elem_of_seqZ)%list_elem_of_fmap. simpl.
      apply Hall. lia. }
  unfold wins. monad_step.
  destruct rows; [exists true; split; [done|]; tauto|]. monad_step.
  destruct cols; [exists true; split; [done|]; tauto|]. monad_step.
  destruct main; [exists true; split; [done|]; tauto|]. monad_step.
  destruct anti; [exists true; split; [done|]; tauto|].
  exists false. split; [done|].
  split; [done|]. intros [H|[H|[H|H]]].
  - by apply Hrows' in H.
  - by apply Hcols' in H.
  - by apply Hmain' in H.
  - by apply Hanti' in H.
Qed.

(** X18. On a board with [n * n] cells [ttt_check_win(b, p)] returns, and
    returns [true] exactly when [p] fills a row, a column, the main
    diagonal or the other diagonal. On a board of size [0] no cell has to
    be filled, and it returns [true] for every [p]. *)
Theorem ttt_check_win_spec (b : TTTBoard) (p : ascii) :
  wf_board b →
  ∃ w, ttt_check_win b p = Ok w ∧
       (w = true ↔ wins b p) ∧
       (size b = 0 → w = true).
Proof.
  intros Hwf. destruct (ttt_check_win_wins b p Hwf) as (w & Hrun & Hw).
  exists w. split_and!; [done..|].
  intros Hz. apply Hw. right. right. left. intros i Hi. lia.
Qed.

Lemma ttt_check_win_spec_witness :
  ∃ w, ttt_check_win (mkBoard 0 []) "X"%char = Ok w ∧
       (w = true ↔ wins (mkBoard 0 []) "X"%char) ∧
       (size (mkBoard 0 []) = 0 → w = true).
Proof.
  apply (ttt_check_win_spec (mkBoard 0 []) "X"%char).
  split; simpl; [lia|reflexivity].
Defined.

(** ** Free cells *)

Lemma has_dot_spec cs idx :
  Forall (λ i, 0 ≤ i < Z.of_nat (length cs)) idx →
  ∃ e, has_dot cs idx = Ok e ∧
       (e = true ↔ ∃ i, i ∈ idx ∧ cs !! Z.to_nat i = Some "."%char).
Proof.
  induction 1 as [|i idx Hi _ (e & IH & He)]; simpl.
  - exists false. split; [done|]. split; [done|].
    intros (i & Hi & _). by apply elem_of_nil in Hi.
  - destruct (Get_in_range cs i Hi) as (v & -> & Hv). monad_step.
    destruct (Ascii.eqb_spec v "."%char) as [->|Hne].
    + exists true. split; [done|]. split; [|done]. intros _.
      exists i. split; [left|done].
    + exists e. split; [done|]. rewrite He. split.
      * intros (j & Hj & Hd). exists j. split; [by right|done].
      * intros (j & [->|Hj]%elem_of_cons & Hd); [congruence|by exists j].
Qed.

Lemma free_index b :
  wf_board b →
  (∃ i, 0 ≤ i < size b * size b ∧ cells b !! Z.to_nat i = Some "."%char) ↔
  ∃ r c, free b r c.
Proof.
  intros (Hn & Hlen). split.
  - intros (i & Hi & Hd). assert (0 < size b) as Hpos by nia.
    exists (i `div` size b), (i `mod` size b).
    pose proof (Z.mod_pos_bound i (size b) Hpos) as Hmod.
    pose proof (Z.div_mod i (size b)) as Hdm.
    assert (0 ≤ i `div` size b < size b) as Hdiv.
    { split; [apply Z.div_pos; lia|apply Z.div_lt_upper_bound; nia]. }
    split; [split; lia|]. unfold cell.
    by replace (i `div` size b * size b + i `mod` size b) with i by lia.
  - intros (r & c & (Hr & Hc) & Hd). exists (r * size b + c).
    split; [nia|done].
Qed.

Lemma ttt_has_empty_spec b :
  wf_board b →
  ∃ e, ttt_has_empty b = Ok e ∧ (e = true ↔ ∃ r c, free b r c).
Proof.
  intros Hwf. pose proof Hwf as (Hn & Hlen). unfold ttt_has_empty.
  destruct (has_dot_spec (cells b) (seqZ 0 (size b * size b)))
    as (e & -> & He).
  { apply Forall_forall. intros i Hi%elem_of_seqZ. lia. }
  exists e. split; [done|]. rewrite He, <-free_index by done.
  split; intros (i & Hi & Hd); exists i; (split; [|done]).
  - apply elem_of_seqZ in Hi. lia.
  - apply elem_of_seqZ. lia.
Qed.

Lemma ttt_static_eval_spec b :
  wf_board b →
  ∃ s, ttt_static_eval b = Ok s ∧
       (s = 10 ↔ wins b "O"%char) ∧
       (s = -10 ↔ ¬ wins b "O"%char ∧ wins b "X"%char) ∧
       (s = 10 ∨ s = -10 ∨ s = 0).
Proof.
  intros Hwf. unfold ttt_static_eval.
  destruct (ttt_check_win_wins b "O"%char Hwf) as (o & -> & Ho).
  destruct (ttt_check_win_wins b "X"%char Hwf) as (x & Hx' & Hx).
  monad_step. destruct o.
  { exists 10. split_and!; [done|tauto| |lia]. split; [lia|]. tauto. }
  rewrite Hx'. monad_step. destruct x.
  - exists (-10). split_and!; [done| | |lia].
    + split; [lia|]. intros H. by apply Ho in H.
    + split; [|done]. intros _. split; [|tauto]. intros H. by apply Ho in H.
  - exists 0. split_and!; [done| | |lia].
    + split; [lia|]. intros H. by apply Ho in H.
    + split; [lia|]. intros [_ H]. by apply Hx in H.
Qed.

(** X19. On a board with [n * n] cells [ttt_has_empty] returns, and returns
    [true] exactly when some cell of the board is free. *)
Theorem ttt_has_empty_free (b : TTTBoard) :
  wf_board b →
  ∃ e, ttt_has_empty b = Ok e ∧ (e = true ↔ ∃ r c, free b r c).
Proof.
  intros Hwf. by apply ttt_has_empty_spec.
Qed.

Lemma ttt_has_empty_free_witness :
  let b := mkBoard 3 (list_ascii_of_string "XXOOOXXO.") in
  ∃ e, ttt_has_empty b = Ok e ∧ (e = true ↔ ∃ r c, free b r c).
Proof.
  apply (ttt_has_empty_free (mkBoard 3 (list_ascii_of_string "XXOOOXXO."))).
  split; simpl; [lia|reflexivity].
Defined.

(** X20. On a board with [n * n] cells [ttt_static_eval] returns [10], [-10]
    or [0]: [10] exactly when O fills a line, and [-10] exactly when X
    fills a line and O does not; a board on which both fill a line counts
    for O. *)
Theorem ttt_static_eval_lines (b : TTTBoard) :
  wf_board b →
  ∃ v, ttt_static_eval b = Ok v ∧
       (v = 10 ↔ wins b "O"%char) ∧
       (v = -10 ↔ ¬ wins b "O"%char ∧ wins b "X"%char) ∧
       (v = 10 ∨ v = -10 ∨ v = 0).
Proof.
  intros Hwf. by apply ttt_static_eval_spec.
Qed.

Lemma ttt_static_eval_lines_witness :
  let b := mkBoard 2 (list_ascii_of_string "XOXO") in
  ∃ v, ttt_static_eval b = Ok v ∧
       (v = 10 ↔ wins b "O"%char) ∧
       (v = -10 ↔ ¬ wins b "O"%char ∧ wins b "X"%char) ∧
       (v = 10 ∨ v = -10 ∨ v = 0).
Proof.
  apply (ttt_static_eval_lines (mkBoard 2 (list_ascii_of_string "XOXO"))).
  split; simpl; [lia|reflexivity].
Defined.

(** ** The active box *)

Lemma box_step_inv b r c st :
  wf_board b → on_board b r c → box_inv b r c st →
  ∃ st', box_step b r st c = Ok st' ∧ box_inv b r (c + 1) st'.
Proof.
  intros Hwf Hon [Hnone Hin Htop Hbot Hleft Hright].
  destruct st as [any box]. simpl in *. unfold box_step.
  destruct (get_cell b r c Hwf Hon) as (v & -> & Hv). monad_step.
  assert (∀ r' c', scanned r (c + 1) r' c' ↔
                   scanned r c r' c' ∨ (r' = r ∧ c' = c)) as Hscan
    by (unfold scanned; lia).
  destruct (Ascii.eqb v "."%char || Ascii.eqb v " "%char) eqn:Hfree.
  { assert (¬ occupied b r c) as Hocc.
    { intros (_ & v' & Hv' & Hd & Hs). assert (v' = v) as -> by congruence.
      apply orb_true_iff in Hfree as [?%Ascii.eqb_eq|?%Ascii.eqb_eq]; done. }
    eexists. split; [done|]. split; simpl.
    - intros Hany r' c' [Hs|[-> ->]]%Hscan; [by apply Hnone|done].
    - intros Hany r' c' [Hs|[-> ->]]%Hscan; [by apply Hin|done].
    - intros Hany. destruct (Htop Hany) as (c' & Hs & Ho).
      exists c'. split; [apply Hscan; by left|done].
    - intros Hany. destruct (Hbot Hany) as (c' & Hs & Ho).
      exists c'. split; [apply Hscan; by left|done].
    - intros Hany. destruct (Hleft Hany) as (r' & Hs & Ho).
      exists r'. split; [apply Hscan; by left|done].
    - intros Hany. destruct (Hright Hany) as (r' & Hs & Ho).
      exists r'. split; [apply Hscan; by left|done]. }
  assert (occupied b r c) as Hocc.
  { split; [done|]. exists v. apply orb_false_iff in Hfree as [H1 H2].
    split_and!; [done|by apply Ascii.eqb_neq..]. }
  assert (scanned r (c + 1) r c) as Hnow by (apply Hscan; by right).
  destruct any; simpl.
  - eexists. split; [done|].
    specialize (Hin eq_refl). specialize (Htop eq_refl).
    specialize (Hbot eq_refl). specialize (Hleft eq_refl).
    specialize (Hright eq_refl).
    split; simpl; [done|intros _..].
    + intros r' c' [Hs|[-> ->]]%Hscan Ho; unfold in_box in *; simpl.
      * specialize (Hin r' c' Hs Ho).
        destruct (Z.ltb_spec r (r_min box)), (Z.ltb_spec (r_max box) r),
          (Z.ltb_spec c (c_min box)), (Z.ltb_spec (c_max box) c); lia.
      * destruct (Z.ltb_spec r (r_min box)), (Z.ltb_spec (r_max box) r),
          (Z.ltb_spec c (c_min box)), (Z.ltb_spec (c_max box) c); lia.
    + destruct (Z.ltb_spec r (r_min box)); [by exists c|].
      destruct Htop as (c' & Hs & Ho). exists c'.
      split; [apply Hscan; by left|done].
    + destruct (Z.ltb_spec (r_max box) r); [by exists c|].
      destruct Hbot as (c' & Hs & Ho). exists c'.
      split; [apply Hscan; by left|done].
    + destruct (Z.ltb_spec c (c_min box)); [by exists r|].
      destruct Hleft as (r' & Hs & Ho). exists r'.
      split; [apply Hscan; by left|done].
    + destruct (Z.ltb_spec (c_max box) c); [by exists r|].
      destruct Hright as (r' & Hs & Ho). exists r'.
      split; [apply Hscan; by left|done].
  - eexists. split; [done|]. specialize (Hnone eq_refl).
    split; simpl; [done|intros _..].
    + intros r' c' [Hs|[-> ->]]%Hscan Ho; [by destruct (Hnone r' c')|].
      unfold in_box. simpl. lia.
    + by exists c.
    + by exists c.
    + by exists r.
    + by exists r.
Qed.

Lemma box_inv_next_row b r st :
  box_inv b r (size b) st → box_inv b (r + 1) 0 st.
Proof.
  intros [Hnone Hin Htop Hbot Hleft Hright].
  assert (∀ r' c', occupied b r' c' → scanned (r + 1) 0 r' c' →
                   scanned r (size b) r' c') as Hscan.
  { intros r' c' ((Hr & Hc) & _). unfold scanned. lia. }
  assert (∀ r' c', scanned r (size b) r' c' → scanned (r + 1) 0 r' c')
    as Hscan' by (unfold scanned; lia).
  split.
  - intros Hany r' c' Hs Ho. apply (Hnone Hany r' c'); [|done]. by apply Hscan.
  - intros Hany r' c' Hs Ho. apply (Hin Hany r' c'); [|done]. by apply Hscan.
  - intros Hany. destruct (Htop Hany) as (c' & Hs & Ho). eauto.
  - intros Hany. destruct (Hbot Hany) as (c' & Hs & Ho). eauto.
  - intros Hany. destruct (Hleft Hany) as (r' & Hs & Ho). eauto.
  - intros Hany. destruct (Hright Hany) as (r' & Hs & Ho). eauto.
Qed.

Lemma box_scan b :
  wf_board b →
  ∃ st, for_each (λ st r, for_each (box_step b r) (seqZ 0 (size b)) st)
          (seqZ 0 (size b)) (false, mkBox (size b) (-1) (size b) (-1))
        = Ok st ∧
        box_inv b (size b) 0 st.
Proof.
  intros Hwf. pose proof Hwf as (Hn & _).
  apply (for_each_seqZ (λ r st, box_inv b r 0 st) _ 0 (size b)); [done| |].
  - split; simpl; try done.
    intros _ r' c' Hs ((Hr & Hc) & _). unfold scanned in Hs. lia.
  - intros r st Hr Hinv.
    destruct (for_each_seqZ (λ c st, box_inv b r c st) (box_step b r)
                0 (size b) st) as (st' & Hrun & Hinv'); [done|done| |].
    + intros c st1 Hc Hst1. apply box_step_inv; [done| |done].
      unfold on_board. lia.
    + exists st'. split; [done|]. by apply box_inv_next_row.
Qed.

Lemma active_box_cases (b : TTTBoard) :
  wf_board b →
  ∃ box,
    ttt_compute_active_box b = Ok box ∧
    (((∀ r c, ¬ occupied b r c) ∧
      box = mkBox 0 (size b - 1) 0 (size b - 1)) ∨
     ((∀ r c, occupied b r c →
         r_min box ≤ Z.max 0 (r - 1) ∧
         Z.min (size b - 1) (r + 1) ≤ r_max box ∧
         c_min box ≤ Z.max 0 (c - 1) ∧
         Z.min (size b - 1) (c + 1) ≤ c_max box) ∧
      (∃ r c, occupied b r c ∧ r_min box = Z.max 0 (r - 1)) ∧
      (∃ r c, occupied b r c ∧ r_max box = Z.min (size b - 1) (r + 1)) ∧
      (∃ r c, occupied b r c ∧ c_min box = Z.max 0 (c - 1)) ∧
      (∃ r c, occupied b r c ∧ c_max box = Z.min (size b - 1) (c + 1)))).
Proof.
  intros Hwf. unfold ttt_compute_active_box.
  destruct (box_scan b Hwf) as ([any box] & -> & Hinv). monad_step.
  destruct Hinv as [Hnone Hin Htop Hbot Hleft Hright]. simpl in *.
  assert (∀ r c, occupied b r c → scanned (size b) 0 r c) as Hall.
  { intros r c ((Hr & Hc) & _). unfold scanned. lia. }
  destruct any; simpl.
  - specialize (Hin eq_refl).
    destruct (Htop eq_refl) as (ct & _ & Hot).
    destruct (Hbot eq_refl) as (cb & _ & Hob).
    destruct (Hleft eq_refl) as (rl & _ & Hol).
    destruct (Hright eq_refl) as (rr & _ & Hor).
    pose proof Hot as ((Ht1 & _) & _). pose proof Hob as ((Hb1 & _) & _).
    pose proof Hol as ((_ & Hl1) & _). pose proof Hor as ((_ & Hr1) & _).
    eexists. split; [done|]. right. simpl. split_and!.
    + intros r c Ho. destruct (Hin r c (Hall r c Ho) Ho) as [Hr Hc].
      destruct (Z.ltb_spec 0 (r_min box)),
        (Z.ltb_spec (r_max box + 1) (size b)),
        (Z.ltb_spec 0 (c_min box)),
        (Z.ltb_spec (c_max box + 1) (size b)); lia.
    + exists (r_min box), ct. split; [done|].
      destruct (Z.ltb_spec 0 (r_min box)); lia.
    + exists (r_max box), cb. split; [done|].
      destruct (Z.ltb_spec (r_max box + 1) (size b)); lia.
    + exists rl, (c_min box). split; [done|].
      destruct (Z.ltb_spec 0 (c_min box)); lia.
    + exists rr, (c_max box). split; [done|].
      destruct (Z.ltb_spec (c_max box + 1) (size b)); lia.
  - specialize (Hnone eq_refl).
    eexists. split; [done|]. left. split; [|done].
    intros r c Ho. by destruct (Hnone r c (Hall r c Ho)).
Qed.

(** The active box lies on the board, is not empty unless the board is,
    holds every cell next to an occupied cell, and every cell if none is
    occupied. *)
Lemma active_box_board (b : TTTBoard) :
  wf_board b →
  ∃ box,
    ttt_compute_active_box b = Ok box ∧
    (∀ r c, in_box box r c → on_board b r c) ∧
    0 ≤ r_max box - r_min box + 1 ∧ 0 ≤ c_max box - c_min box + 1 ∧
    (0 < size b → in_box box (r_min box) (c_min box)) ∧
    (∀ r c r' c', occupied b r c → on_board b r' c' →
       r - 1 ≤ r' ≤ r + 1 → c - 1 ≤ c' ≤ c + 1 → in_box box r' c') ∧
    ((∀ r c, ¬ occupied b r c) → ∀ r c, on_board b r c → in_box box r c).
Proof.
  intros Hwf. pose proof Hwf as (Hn & _).
  destruct (active_box_cases b Hwf) as (box & Hrun & Hcases).
  exists box. split; [done|].
  destruct Hcases as [[Hno ->]|(Hin & Ht & Hb & Hl & Hr)];
    unfold in_box, on_board; simpl.
  - split_and!; lia.
  - destruct Ht as (rt & ct & Hot & Het), Hb as (rb & cb & Hob & Heb),
      Hl as (rl & cl & Hol & Hel), Hr as (rr & cr & Hor & Her).
    assert (0 ≤ r_min box ∧ r_max box ≤ size b - 1 ∧ r_min box ≤ r_max box)
      as (Hr1 & Hr2 & Hr3).
    { pose proof Hot as ((? & ?) & _). pose proof Hob as ((? & ?) & _).
      pose proof (Hin _ _ Hot) as (? & ? & _). lia. }
    assert (0 ≤ c_min box ∧ c_max box ≤ size b - 1 ∧ c_min box ≤ c_max box)
      as (Hc1 & Hc2 & Hc3).
    { pose proof Hol as ((? & ?) & _). pose proof Hor as ((? & ?) & _).
      pose proof (Hin _ _ Hol) as (_ & _ & ? & ?). lia. }
    clear Het Heb Hel Her. split_and!; try lia.
    + intros r c r' c' Ho (? & ?) ? ?. pose proof (Hin _ _ Ho).
      clear Hin. lia.
    + intros Hno. by destruct (Hno _ _ Hot).
Qed.

(** X21. On a board with [n * n] cells [ttt_compute_active_box] returns the
    whole board if no cell is occupied. Otherwise it returns the bounding
    box of the occupied cells widened by one cell on every side and cut
    off at the edge of the board: for every occupied cell [(r, c)] the box
    reaches from row [max 0 (r - 1)] to row [min (n - 1) (r + 1)] and from
    column [max 0 (c - 1)] to column [min (n - 1) (c + 1)] at least, and
    each of its four sides is at that distance from some occupied cell. *)
Theorem ttt_compute_active_box_spec (b : TTTBoard) :
  wf_board b →
  ∃ box,
    ttt_compute_active_box b = Ok box ∧
    ((∀ r c, ¬ occupied b r c) →
     box = mkBox 0 (size b - 1) 0 (size b - 1)) ∧
    (∀ r c, occupied b r c →
       r_min box ≤ Z.max 0 (r - 1) ∧ Z.min (size b - 1) (r + 1) ≤ r_max box ∧
       c_min box ≤ Z.max 0 (c - 1) ∧ Z.min (size b - 1) (c + 1) ≤ c_max box) ∧
    ((∃ r c, occupied b r c) →
     (∃ r c, occupied b r c ∧ r_min box = Z.max 0 (r - 1)) ∧
     (∃ r c, occupied b r c ∧ r_max box = Z.min (size b - 1) (r + 1)) ∧
     (∃ r c, occupied b r c ∧ c_min box = Z.max 0 (c - 1)) ∧
     (∃ r c, occupied b r c ∧ c_max box = Z.min (size b - 1) (c + 1))).
Proof.
  intros Hwf. destruct (active_box_cases b Hwf) as (box & Hrun & Hcases).
  exists box. split; [done|].
  destruct Hcases as [[Hno ->]|(Hin & Ht & Hb & Hl & Hr)].
  - split_and!; [done| |].
    + intros r c Ho. by destruct (Hno r c).
    + intros (r & c & Ho). by destruct (Hno r c).
  - split_and!; [|done..]. intros Hno.
    destruct Ht as (r & c & Ho & _). by destruct (Hno r c).
Qed.

(** A three by three board with a single mark in a corner. *)
Lemma ttt_compute_active_box_spec_witness :
  let b := mkBoard 3 (list_ascii_of_string "X........") in
  ∃ box,
    ttt_compute_active_box b = Ok box ∧
    ((∀ r c, ¬ occupied b r c) →
     box = mkBox 0 (size b - 1) 0 (size b - 1)) ∧
    (∀ r c, occupied b r c →
       r_min box ≤ Z.max 0 (r - 1) ∧ Z.min (size b - 1) (r + 1) ≤ r_max box ∧
       c_min box ≤ Z.max 0 (c - 1) ∧ Z.min (size b - 1) (c + 1) ≤ c_max box) ∧
    ((∃ r c, occupied b r c) →
     (∃ r c, occupied b r c ∧ r_min box = Z.max 0 (r - 1)) ∧
     (∃ r c, occupied b r c ∧ r_max box = Z.min (size b - 1) (r + 1)) ∧
     (∃ r c, occupied b r c ∧ c_min box = Z.max 0 (c - 1)) ∧
     (∃ r c, occupied b r c ∧ c_max box = Z.min (size b - 1) (c + 1))).
Proof.
  apply (ttt_compute_active_box_spec
           (mkBoard 3 (list_ascii_of_string "X........"))).
  split; simpl; [lia|reflexivity].
Defined.

(** ** Trying the moves of the active box *)

Section try_moves.
Variables (b : TTTBoard) (box : Box) (mark : ascii).
Variables (value : TTTBoard → result (Z * TTTBoard)) (better : Z → Z → bool).
Variables (init : Z) (Q : Z → Prop).
Hypothesis Hwf : wf_board b.
Hypothesis Hbox : ∀ r c, in_box box r c → on_board b r c.
Hypothesis Hrows : 0 ≤ r_max box - r_min box + 1.
Hypothesis Hcols : 0 ≤ c_max box - c_min box + 1.
Hypothesis Hvalue : ∀ r c, in_box box r c → free b r c →
  ∃ v, value (place b r c mark) = Ok (v, place b r c mark) ∧ Q v.
Hypothesis Hinit : ∀ v, Q v → better v init = true ∨ Q init.

(** The loop frees every cell it has tried, and ends with the value of a
    move, unless the box has no free cell. *)
Lemma try_moves_spec :
  ∃ best,
    try_moves box mark value better (init, b) = Ok (best, b) ∧
    ((best = init ∧ ∀ r c, in_box box r c → ¬ free b r c) ∨ Q best).
Proof.
  unfold try_moves.
  destruct (for_each_seqZ
    (λ r (st : Z * TTTBoard),
       st.2 = b ∧
       ((st.1 = init ∧
         ∀ r' c', in_box box r' c' → r' < r → ¬ free b r' c') ∨ Q st.1))
    (λ st r,
       for_each
         (λ st c,
            let '(best, b) := (st : Z * TTTBoard) in
            v ← get b r c;
            if negb (Ascii.eqb v "."%char) then Ok st
            else
              b1 ← set b r c mark;
              r1 ← value b1;
              let '(val, b2) := (r1 : Z * TTTBoard) in
              b3 ← set b2 r c "."%char;
              Ok (if better val best then val else best, b3))
         (seqZ (c_min box) (c_max box - c_min box + 1)) st)
    (r_min box) (r_max box - r_min box + 1) (init, b))
    as ([best b'] & Hrun & Hb' & Hbest); [done| |..].
  - split; [done|]. left. split; [done|].
    intros r' c' [Hr _]. lia.
  - intros r st Hr [Hb Hst].
    destruct (for_each_seqZ
      (λ c (st : Z * TTTBoard),
         st.2 = b ∧
         ((st.1 = init ∧
           ∀ r' c', in_box box r' c' → scanned r c r' c' → ¬ free b r' c')
          ∨ Q st.1))
      (λ st c,
         let '(best, b) := (st : Z * TTTBoard) in
         v ← get b r c;
         if negb (Ascii.eqb v "."%char) then Ok st
         else
           b1 ← set b r c mark;
           r1 ← value b1;
           let '(val, b2) := (r1 : Z * TTTBoard) in
           b3 ← set b2 r c "."%char;
           Ok (if better val best then val else best, b3))
      (c_min box) (c_max box - c_min box + 1) st)
      as (st' & Hrun & Hb' & Hst'); [done| | |].
    + split; [done|]. destruct Hst as [[Hi Hno]|HQ]; [left|by right].
      split; [done|]. intros r' c' Hin Hs. apply Hno; [done|].
      destruct Hin as [_ Hc]. unfold scanned in Hs. lia.
    + intros c [best b1] Hc [Hb1 Hst1]. simpl in Hb1, Hst1. subst b1.
      assert (in_box box r c) as Hin by (unfold in_box; lia).
      pose proof (Hbox r c Hin) as Hon.
      destruct (get_cell b r c Hwf Hon) as (v & -> & Hv). monad_step.
      assert (∀ r' c', scanned r (c + 1) r' c' ↔
                       scanned r c r' c' ∨ (r' = r ∧ c' = c)) as Hscan
        by (unfold scanned; lia).
      destruct (Ascii.eqb_spec v "."%char) as [->|Hne]; simpl.
      * destruct (Hvalue r c Hin (conj Hon Hv)) as (val & Hval & HQ).
        rewrite set_place by done. monad_step. rewrite Hval. monad_step.
        rewrite set_place by (by apply wf_place || done). monad_step.
        rewrite place_place, (place_same b r c) by done.
        eexists. split; [done|]. split; [done|]. right. simpl.
        destruct (better val best) eqn:Hbetter; [done|].
        destruct Hst1 as [[-> _]|HQ']; [|done].
        destruct (Hinit val HQ) as [?|?]; [congruence|done].
      * eexists. split; [done|]. split; [done|].
        destruct Hst1 as [[Hi Hno]|HQ]; [left|by right]. split; [done|].
        intros r' c' Hin' [Hs|[-> ->]]%Hscan; [by apply Hno|].
        intros [_ Hfree]. congruence.
    + exists st'. split; [done|]. split; [done|].
      destruct Hst' as [[Hi Hno]|HQ]; [left|by right]. split; [done|].
      intros r' c' Hin Hlt. apply Hno; [done|].
      destruct Hin as [_ Hc]. unfold scanned. lia.
  - simpl in Hb', Hbest. subst b'. exists best. split; [done|].
    destruct Hbest as [[Hi Hno]|HQ]; [left|by right]. split; [done|].
    intros r c Hin. apply Hno; [done|]. destruct Hin as [Hr _]. lia.
Qed.
End try_moves.

(** ** Minimax *)

Lemma ttt_minimax_fuel_restores max_depth fuel :
  ∀ b o_turn depth,
    wf_board b → (Z.to_nat (max_depth - depth) ≤ fuel)%nat →
    ∃ v, ttt_minimax_fuel fuel b o_turn depth max_depth = Ok (v, b).
Proof.
  induction fuel as [|fuel IH]; intros b o_turn depth Hwf Hfuel;
    cbn [ttt_minimax_fuel];
    destruct (ttt_static_eval_spec b Hwf) as (s & -> & _); monad_step;
    (destruct ((s =? 10) || (s =? -10)); [by eexists|]);
    destruct (ttt_has_empty_spec b Hwf) as (e & -> & _); monad_step;
    (destruct (Z.geb_spec depth max_depth) as [Hge|Hlt];
       [rewrite orb_true_r; by eexists|]);
    (destruct e; simpl; [|by eexists]); [lia|].
  destruct (active_box_board b Hwf)
    as (box & -> & Hon & Hrows & Hcols & _). monad_step.
  destruct o_turn.
  - destruct (try_moves_spec b box "O"%char
                (λ b1, ttt_minimax_fuel fuel b1 false (depth + 1) max_depth)
                (λ val best, best <? val) INT_MIN (λ _, True))
      as (best & -> & _); [done..| |by right|by eexists].
    intros r c _ _. destruct (IH (place b r c "O"%char) false (depth + 1))
      as (v & ->); [by apply wf_place|lia|]. by exists v.
  - destruct (try_moves_spec b box "X"%char
                (λ b1, ttt_minimax_fuel fuel b1 true (depth + 1) max_depth)
                (λ val best, val <? best) INT_MAX (λ _, True))
      as (best & -> & _); [done..| |by right|by eexists].
    intros r c _ _. destruct (IH (place b r c "X"%char) true (depth + 1))
      as (v & ->); [by apply wf_place|lia|]. by exists v.
Qed.

(** X22. On every board with [n * n] cells, for either player and every
    depth and depth limit, [ttt_minimax] returns a value: no access leaves
    the board, no exception is raised, the nesting of calls stays within
    [max_depth - depth]; and the board, which the function modifies in
    place, is after the call as it was before. *)
Theorem ttt_minimax_restores (b : TTTBoard) (o_turn : bool)
    (depth max_depth : Z) :
  wf_board b →
  ∃ v, ttt_minimax b o_turn depth max_depth = Ok (v, b).
Proof.
  intros Hwf. by apply ttt_minimax_fuel_restores.
Qed.

Lemma ttt_minimax_restores_witness :
  ∃ v, ttt_minimax (mkBoard 3 (list_ascii_of_string "XX.OO....")) true 0 5
       = Ok (v, mkBoard 3 (list_ascii_of_string "XX.OO....")).
Proof.
  apply (ttt_minimax_restores
           (mkBoard 3 (list_ascii_of_string "XX.OO....")) true 0 5).
  split; simpl; [lia|reflexivity].
Defined.

Lemma proper_cell b r c :
  wf_board b → proper_board b → on_board b r c →
  free b r c ∨
  (occupied b r c ∧
   (cell b r c = Some "X"%char ∨ cell b r c = Some "O"%char)).
Proof.
  intros Hwf Hp Hon.
  destruct (get_cell b r c Hwf Hon) as (v & _ & Hv).
  unfold proper_board in Hp. eapply Forall_lookup_1 in Hp; [|exact Hv].
  destruct Hp as [-> | [-> | ->]]; [by left|right..];
    (split; [|by auto]); (split; [done|]); eexists; (split; [done|]); done.
Qed.

Lemma proper_place b r c v :
  proper_board b → v = "."%char ∨ v = "X"%char ∨ v = "O"%char →
  proper_board (place b r c v).
Proof.
  intros Hp Hv. unfold proper_board, place. simpl. by apply Forall_insert.
Qed.

(** On a board of dots, crosses and noughts the active box holds a free
    cell if the board has one. *)
Lemma free_in_box b box :
  wf_board b → proper_board b →
  (∀ r c, in_box box r c → on_board b r c) →
  (0 < size b → in_box box (r_min box) (c_min box)) →
  (∀ r c r' c', occupied b r c → on_board b r' c' →
     r - 1 ≤ r' ≤ r + 1 → c - 1 ≤ c' ≤ c + 1 → in_box box r' c') →
  (∃ r c, free b r c) → ∃ r c, in_box box r c ∧ free b r c.
Proof.
  intros Hwf Hp Hon Hcorner Hnear (r0 & c0 & Hfree).
  pose proof Hfree as ((Hr0 & Hc0) & _).
  destruct (Hcorner ltac:(lia)) as [Hrr Hcc].
  assert (∀ r c, in_box box r c →
            (∃ r' c', on_board b r' c' ∧ ¬ in_box box r' c' ∧
                      r - 1 ≤ r' ≤ r + 1 ∧ c - 1 ≤ c' ≤ c + 1) →
            free b r c) as Hedge.
  { intros r c Hin (r' & c' & Hon' & Hout & Hr' & Hc').
    destruct (proper_cell b r c Hwf Hp (Hon r c Hin)) as [?|[Ho _]]; [done|].
    destruct Hout. by eapply Hnear. }
  destruct (decide (r0 < r_min box)) as [H1|H1].
  { exists (r_min box), (c_min box). split; [done|]. apply Hedge; [done|].
    exists (r_min box - 1), (c_min box).
    pose proof (Hon _ _ (conj Hrr Hcc)) as (? & ?).
    unfold on_board, in_box. split_and!; lia. }
  destruct (decide (r_max box < r0)) as [H2|H2].
  { assert (in_box box (r_max box) (c_min box)) as Hin
      by (unfold in_box; lia).
    exists (r_max box), (c_min box). split; [done|]. apply Hedge; [done|].
    exists (r_max box + 1), (c_min box).
    pose proof (Hon _ _ Hin) as (? & ?).
    unfold on_board, in_box. split_and!; lia. }
  destruct (decide (c0 < c_min box)) as [H3|H3].
  { exists (r_min box), (c_min box). split; [done|]. apply Hedge; [done|].
    exists (r_min box), (c_min box - 1).
    pose proof (Hon _ _ (conj Hrr Hcc)) as (? & ?).
    unfold on_board, in_box. split_and!; lia. }
  destruct (decide (c_max box < c0)) as [H4|H4].
  { assert (in_box box (r_min box) (c_max box)) as Hin
      by (unfold in_box; lia).
    exists (r_min box), (c_max box). split; [done|]. apply Hedge; [done|].
    exists (r_min box), (c_max box + 1).
    pose proof (Hon _ _ Hin) as (? & ?).
    unfold on_board, in_box. split_and!; lia. }
  exists r0, c0. split; [unfold in_box; lia|done].
Qed.

Lemma ttt_minimax_fuel_bounds max_depth fuel :
  max_depth ≤ 10 →
  ∀ b o_turn depth,
    wf_board b → proper_board b → 0 ≤ depth ≤ 10 →
    (Z.to_nat (max_depth - depth) ≤ fuel)%nat →
    ∃ v, ttt_minimax_fuel fuel b o_turn depth max_depth = Ok (v, b) ∧
         depth - 10 ≤ v ≤ 10 - depth ∧
         (depth < 10 → (v = 10 - depth ↔ wins b "O"%char)).
Proof.
  intros Hmax.
  induction fuel as [|fuel IH]; intros b o_turn depth Hwf Hp Hd Hfuel;
    cbn [ttt_minimax_fuel];
    destruct (ttt_static_eval_spec b Hwf) as (s & -> & Ho & Hx & Hs);
    monad_step;
    (destruct Hs as [-> | [-> | ->]]; simpl;
     [exists (10 - depth); split_and!; [done|lia|lia|];
      intros _; split; [intros _; by apply Ho|done]
     |exists (-10 + depth); split_and!; [done|lia|lia|];
      intros Hlt; split; [lia|]; intros Hw; apply Hx in Hw; [done|lia]
     | ]);
    (assert (¬ wins b "O"%char) as Hno by (intros Hw; apply Ho in Hw; lia));
    destruct (ttt_has_empty_spec b Hwf) as (e & -> & He); monad_step;
    (destruct (Z.geb_spec depth max_depth) as [Hge|Hlt];
       [rewrite orb_true_r; exists 0; split_and!; [done|lia|lia|];
        intros ?; split; [lia|done]|]);
    (destruct e; simpl;
       [|exists 0; split_and!; [done|lia|lia|];
         intros ?; split; [lia|done]]); [lia|].
  destruct (active_box_board b Hwf)
    as (box & -> & Hon & Hrows & Hcols & Hcorner & Hnear & _). monad_step.
  destruct (free_in_box b box Hwf Hp Hon Hcorner Hnear)
    as (rf & cf & Hinf & Hfree); [by apply He|].
  destruct o_turn.
  - destruct (try_moves_spec b box "O"%char
                (λ b1, ttt_minimax_fuel fuel b1 false (depth + 1) max_depth)
                (λ val best, best <? val) INT_MIN
                (λ v, depth - 9 ≤ v ≤ 9 - depth))
      as (best & -> & Hbest); [done..| | |].
    + intros r c _ _.
      destruct (IH (place b r c "O"%char) false (depth + 1))
        as (v & -> & Hv & _);
        [by apply wf_place|apply proper_place; auto|lia|lia|].
      exists v. split; [done|lia].
    + intros v Hv. left. apply Z.ltb_lt. unfold INT_MIN. lia.
    + destruct Hbest as [[_ Hnone]|Hbest]; [by destruct (Hnone rf cf)|].
      exists best. split_and!; [done|lia|lia|]. intros ?. split; [lia|done].
  - destruct (try_moves_spec b box "X"%char
                (λ b1, ttt_minimax_fuel fuel b1 true (depth + 1) max_depth)
                (λ val best, val <? best) INT_MAX
                (λ v, depth - 9 ≤ v ≤ 9 - depth))
      as (best & -> & Hbest); [done..| | |].
    + intros r c _ _.
      destruct (IH (place b r c "X"%char) true (depth + 1))
        as (v & -> & Hv & _);
        [by apply wf_place|apply proper_place; auto|lia|lia|].
      exists v. split; [done|lia].
    + intros v Hv. left. apply Z.ltb_lt. unfold INT_MAX. lia.
    + destruct Hbest as [[_ Hnone]|Hbest]; [by destruct (Hnone rf cf)|].
      exists best. split_and!; [done|lia|lia|]. intros ?. split; [lia|done].
Qed.

(** X23. On a board of dots, crosses and noughts with [n * n] cells, at a
    depth between [0] and [10] and with a depth limit of at most [10],
    the value that [ttt_minimax] returns lies between [depth - 10] and
    [10 - depth]; it is never one of the two sentinels with which the
    search starts. Below depth [10] it is [10 - depth] exactly when O
    fills a line of the given position. *)
Theorem ttt_minimax_bounds (b : TTTBoard) (o_turn : bool)
    (depth max_depth : Z) :
  wf_board b → proper_board b → 0 ≤ depth ≤ 10 → max_depth ≤ 10 →
  ∃ v, ttt_minimax b o_turn depth max_depth = Ok (v, b) ∧
       depth - 10 ≤ v ≤ 10 - depth ∧
       (depth < 10 → (v = 10 - depth ↔ wins b "O"%char)).
Proof.
  intros Hwf Hp Hd Hmax. by apply ttt_minimax_fuel_bounds.
Qed.

Lemma ttt_minimax_bounds_witness :
  let b := mkBoard 3 (list_ascii_of_string "XX.OO....") in
  ∃ v, ttt_minimax b true 0 5 = Ok (v, b) ∧
       0 - 10 ≤ v ≤ 10 - 0 ∧
       (0 < 10 → (v = 10 - 0 ↔ wins b "O"%char)).
Proof.
  apply (ttt_minimax_bounds
           (mkBoard 3 (list_ascii_of_string "XX.OO....")) true 0 5);
    [split; simpl; [lia|reflexivity]| |lia|lia].
  unfold proper_board. simpl.
  repeat (apply Forall_cons_2; [auto|]). apply Forall_nil_2.
Defined.

(** ** The recommended move *)

Lemma count_empty_spec b :
  wf_board b → count_empty b = Ok (free_count b).
Proof.
  intros (Hn & Hlen). unfold count_empty, free_count.
  destruct (for_each_seqZ
    (λ i cnt,
       cnt = Z.of_nat
               (count_occ ascii_dec (take (Z.to_nat i) (cells b)) "."%char))
    (λ cnt i,
       v ← DynamicArray.Get (cells b) i;
       Ok (if Ascii.eqb v "."%char then cnt + 1 else cnt))
    0 (size b * size b) 0) as (k & -> & Hk); [nia|done| |].
  - intros i cnt Hi ->.
    destruct (Get_in_range (cells b) i) as (v & -> & Hv); [lia|].
    monad_step. eexists. split; [done|].
    replace (Z.to_nat (i + 1)) with (S (Z.to_nat i)) by lia.
    erewrite take_S_r by done. rewrite count_occ_app. simpl.
    destruct (Ascii.eqb_spec v "."%char) as [->|Hne];
      destruct (ascii_dec _ _); (done || lia).
  - rewrite Hk, Z.add_0_l, firstn_all2 by lia. done.
Qed.

Lemma move_value_exists b k r c :
  wf_board b → ∃ v, move_value b k r c v.
Proof.
  intros Hwf. apply ttt_minimax_fuel_restores; [by apply wf_place|done].
Qed.

Section recommend.
Variables (b : TTTBoard) (box : Box) (k r0 c0 : Z).
Hypothesis Hwf : wf_board b.
Hypothesis Hbox : ∀ r c, in_box box r c → on_board b r c.
Hypothesis Hrows : 0 ≤ r_max box - r_min box + 1.
Hypothesis Hcols : 0 ≤ c_max box - c_min box + 1.

Lemma best_so_far_ext r1 c1 r2 c2 st :
  (∀ r' c', in_box box r' c' → scanned r1 c1 r' c' → scanned r2 c2 r' c') →
  (∀ r' c', in_box box r' c' → scanned r2 c2 r' c' → scanned r1 c1 r' c') →
  best_so_far b box k r0 c0 r1 c1 st → best_so_far b box k r0 c0 r2 c2 st.
Proof.
  intros H12 H21 [Hb Hst]. split; [done|]. destruct (found st).
  - destruct Hst as (Hin & Hs & Hf & Hv & Hall). split_and!; [done|auto|done..|].
    intros r' c' v Hin' Hs'. apply Hall; auto.
  - destruct Hst as (Hr & Hc & Hno). split_and!; [done..|].
    intros r' c' Hin' Hs'. apply Hno; auto.
Qed.

Lemma recommend_step r c st :
  in_box box r c → best_so_far b box k r0 c0 r c st →
  ∃ st',
    (v ← get (work st) r c;
     if negb (Ascii.eqb v "."%char) then Ok st
     else
       w1 ← set (work st) r c "O"%char;
       r1 ← ttt_minimax w1 false 1 k;
       let '(val, w2) := (r1 : Z * TTTBoard) in
       w3 ← set w2 r c "."%char;
       if negb (found st) || (best_val st <? val)
       then Ok (mkAdvice w3 true val r c)
       else Ok (mkAdvice w3 (found st) (best_val st)
                  (best_r st) (best_c st))) = Ok st' ∧
    best_so_far b box k r0 c0 r (c + 1) st'.
Proof.
  intros Hin [Hb Hst]. rewrite Hb. pose proof (Hbox r c Hin) as Hon.
  destruct (get_cell b r c Hwf Hon) as (v & -> & Hv). monad_step.
  assert (∀ r' c', scanned r (c + 1) r' c' ↔
                   scanned r c r' c' ∨ (r' = r ∧ c' = c)) as Hscan
    by (unfold scanned; lia).
  destruct (Ascii.eqb_spec v "."%char) as [->|Hne]; simpl.
  - destruct (move_value_exists b k r c Hwf) as (val & Hval).
    rewrite set_place by done. monad_step.
    unfold move_value in Hval. rewrite Hval. monad_step.
    rewrite set_place by (by apply wf_place || done). monad_step.
    rewrite place_place, (place_same b r c) by done.
    assert (free b r c) as Hfree by done.
    destruct (found st) eqn:Hfound; simpl.
    + destruct Hst as (Hin0 & Hs0 & Hf0 & Hv0 & Hall).
      destruct (Z.ltb_spec (best_val st) val) as [Hlt|Hge].
      * eexists. split; [done|]. split; [done|]. simpl.
        split_and!; [done|apply Hscan; auto|done|done|].
        intros r' c' v Hin' [Hs'|[-> ->]]%Hscan Hf' Hv'.
        -- destruct (Hall r' c' v Hin' Hs' Hf' Hv') as [Hle _]. lia.
        -- unfold move_value in Hv'. rewrite Hval in Hv'.
           injection Hv' as <-. split; [lia|]. unfold scanned. lia.
      * eexists. split; [done|]. split; [done|]. simpl.
        split_and!; [done|apply Hscan; auto|done|done|].
        intros r' c' v Hin' [Hs'|[-> ->]]%Hscan Hf' Hv'; [by apply Hall|].
        unfold move_value in Hv'. rewrite Hval in Hv'.
        injection Hv' as <-. split; [lia|].
        unfold scanned in *. lia.
    + destruct Hst as (_ & _ & Hno).
      eexists. split; [done|]. split; [done|]. simpl.
      split_and!; [done|apply Hscan; auto|done|done|].
      intros r' c' v Hin' [Hs'|[-> ->]]%Hscan Hf' Hv';
        [by destruct (Hno r' c' Hin' Hs')|].
      unfold move_value in Hv'. rewrite Hval in Hv'.
      injection Hv' as <-. split; [lia|]. unfold scanned. lia.
  - exists st. split; [done|]. split; [done|].
    destruct (found st).
    + destruct Hst as (Hin0 & Hs0 & Hf0 & Hv0 & Hall).
      split_and!; [done|apply Hscan; auto|done|done|].
      intros r' c' v' Hin' [Hs'|[-> ->]]%Hscan Hf' Hv'; [by apply Hall|].
      destruct Hf' as [_ Hf']. congruence.
    + destruct Hst as (Hr & Hc & Hno). split_and!; [done..|].
      intros r' c' Hin' [Hs'|[-> ->]]%Hscan; [by apply Hno|].
      intros [_ Hf']. congruence.
Qed.

(** The search ends with the board as it was and with the first of the
    free cells of the box whose value is the greatest. *)
Lemma recommend_search :
  ∃ st,
    for_each
      (λ st r,
         for_each
           (λ st c,
              v ← get (work st) r c;
              if negb (Ascii.eqb v "."%char) then Ok st
              else
                w1 ← set (work st) r c "O"%char;
                r1 ← ttt_minimax w1 false 1 k;
                let '(val, w2) := (r1 : Z * TTTBoard) in
                w3 ← set w2 r c "."%char;
                if negb (found st) || (best_val st <? val)
                then Ok (mkAdvice w3 true val r c)
                else Ok (mkAdvice w3 (found st) (best_val st)
                           (best_r st) (best_c st)))
           (seqZ (c_min box) (c_max box - c_min box + 1)) st)
      (seqZ (r_min box) (r_max box - r_min box + 1))
      (mkAdvice b false INT_MIN r0 c0) = Ok st ∧
    best_so_far b box k r0 c0 (r_max box + 1) (c_min box) st.
Proof.
  destruct (for_each_seqZ
    (λ r st, best_so_far b box k r0 c0 r (c_min box) st)
    (λ st r,
       for_each
         (λ st c,
            v ← get (work st) r c;
            if negb (Ascii.eqb v "."%char) then Ok st
            else
              w1 ← set (work st) r c "O"%char;
              r1 ← ttt_minimax w1 false 1 k;
              let '(val, w2) := (r1 : Z * TTTBoard) in
              w3 ← set w2 r c "."%char;
              if negb (found st) || (best_val st <? val)
              then Ok (mkAdvice w3 true val r c)
              else Ok (mkAdvice w3 (found st) (best_val st)
                         (best_r st) (best_c st)))
         (seqZ (c_min box) (c_max box - c_min box + 1)) st)
    (r_min box) (r_max box - r_min box + 1) (mkAdvice b false INT_MIN r0 c0))
    as (st & Hrun & Hst); [done| | |].
  - split; [done|]. simpl. split_and!; [done..|].
    intros r' c' [[Hr _] [Hc _]] Hs. unfold scanned in Hs. lia.
  - intros r st Hr Hst.
    destruct (for_each_seqZ
      (λ c st, best_so_far b box k r0 c0 r c st)
      (λ st c,
         v ← get (work st) r c;
         if negb (Ascii.eqb v "."%char) then Ok st
         else
           w1 ← set (work st) r c "O"%char;
           r1 ← ttt_minimax w1 false 1 k;
           let '(val, w2) := (r1 : Z * TTTBoard) in
           w3 ← set w2 r c "."%char;
           if negb (found st) || (best_val st <? val)
           then Ok (mkAdvice w3 true val r c)
           else Ok (mkAdvice w3 (found st) (best_val st)
                      (best_r st) (best_c st)))
      (c_min box) (c_max box - c_min box + 1) st)
      as (st' & Hrun & Hst'); [done|done| |].
    + intros c st1 Hc Hst1. apply recommend_step; [|done].
      unfold in_box. lia.
    + exists st'. split; [done|].
      eapply best_so_far_ext; [| |exact Hst'];
        intros r' c' [_ Hc'] Hs; unfold scanned in *; lia.
  - exists st. split; [done|].
    by replace (r_max box + 1)
      with (r_min box + (r_max box - r_min box + 1)) by lia.
Qed.
End recommend.

(** The run of [ttt_recommend_move_O] on a board with [n * n] cells. *)
Lemma recommend_run b r0 c0 :
  wf_board b →
  ∃ box st,
    ttt_compute_active_box b = Ok box ∧
    ttt_recommend_move_O b r0 c0 = Ok (found st, best_r st, best_c st) ∧
    best_so_far b box (free_count b) r0 c0 (r_max box + 1) (c_min box) st.
Proof.
  intros Hwf. unfold ttt_recommend_move_O.
  destruct (active_box_board b Hwf)
    as (box & Hbox & Hon & Hrows & Hcols & _).
  rewrite Hbox, count_empty_spec by done. monad_step.
  destruct (recommend_search b box (free_count b) r0 c0 Hwf Hon Hrows Hcols)
    as (st & -> & Hst).
  monad_step. by exists box, st.
Qed.

Lemma wins_place_mono b p r c :
  wf_board b → on_board b r c → wins b p → wins (place b r c p) p.
Proof.
  intros Hwf Hon Hw.
  assert (∀ r' c', on_board b r' c' → cell b r' c' = Some p →
                   cell (place b r c p) r' c' = Some p) as Hcell.
  { intros r' c' Hon' Hc. destruct (decide ((r, c) = (r', c'))) as [Heq|Hne].
    - injection Heq as <- <-. by apply cell_place_eq.
    - by rewrite cell_place_ne. }
  unfold wins, on_board in *. simpl.
  destruct Hw as [(r1 & Hr1 & Hw)|[(c1 & Hc1 & Hw)|[Hw|Hw]]].
  - left. exists r1. split; [done|]. intros c' Hc'. apply Hcell; auto.
  - right. left. exists c1. split; [done|]. intros r' Hr'. apply Hcell; auto.
  - right. right. left. intros i Hi. apply Hcell; auto.
  - right. right. right. intros i Hi. apply Hcell; [lia|auto].
Qed.

(** A free cell that completes a line of O has a mark next to it, or is
    the only cell of the board: it lies in the active box, unless O fills
    a line already. *)
Lemma winning_move_in_box b box r c :
  wf_board b →
  (∀ r c r' c', occupied b r c → on_board b r' c' →
     r - 1 ≤ r' ≤ r + 1 → c - 1 ≤ c' ≤ c + 1 → in_box box r' c') →
  ((∀ r c, ¬ occupied b r c) → ∀ r c, on_board b r c → in_box box r c) →
  free b r c → wins (place b r c "O"%char) "O"%char →
  wins b "O"%char ∨ in_box box r c.
Proof.
  intros Hwf Hnear Hall [Hon Hfree] Hw. pose proof Hon as [Hr Hc].
  assert (∀ r' c', on_board b r' c' → (r, c) ≠ (r', c') →
            cell (place b r c "O"%char) r' c' = Some "O"%char →
            cell b r' c' = Some "O"%char) as Hback.
  { intros r' c' Hon' Hne. by rewrite cell_place_ne. }
  assert (∀ r' c', on_board b r' c' → (r, c) ≠ (r', c') →
            cell (place b r c "O"%char) r' c' = Some "O"%char →
            r - 1 ≤ r' ≤ r + 1 → c - 1 ≤ c' ≤ c + 1 →
            in_box box r c) as Hnext.
  { intros r' c' Hon' Hne Hc' Hr1 Hc1.
    apply (Hnear r' c' r c); [|done|lia|lia].
    split; [done|]. exists "O"%char. split; [by apply Hback|done]. }
  destruct (decide (size b = 1)) as [H1|H1].
  { right. apply Hall; [|done]. intros r' c' [[Hr' Hc'] (v & Hv & Hne & _)].
    assert (r' = r ∧ c' = c) as [-> ->] by lia. congruence. }
  unfold wins in Hw. simpl in Hw. unfold wins.
  destruct Hw as [(r1 & Hr1 & Hw)|[(c1 & Hc1 & Hw)|[Hw|Hw]]].
  - destruct (decide (r1 = r)) as [->|Hne].
    + right. destruct (decide (c + 1 < size b)).
      * apply (Hnext r (c + 1)); [split; lia|intros [=]; lia|apply Hw; lia|lia..].
      * apply (Hnext r (c - 1)); [split; lia|intros [=]; lia|apply Hw; lia|lia..].
    + left. left. exists r1. split; [done|]. intros c' Hc'.
      apply Hback; [done|intros [=]; lia|by apply Hw].
  - destruct (decide (c1 = c)) as [->|Hne].
    + right. destruct (decide (r + 1 < size b)).
      * apply (Hnext (r + 1) c); [split; lia|intros [=]; lia|apply Hw; lia|lia..].
      * apply (Hnext (r - 1) c); [split; lia|intros [=]; lia|apply Hw; lia|lia..].
    + left. right. left. exists c1. split; [done|]. intros r' Hr'.
      apply Hback; [done|intros [=]; lia|by apply Hw].
  - destruct (decide (r = c)) as [->|Hne].
    + right. destruct (decide (c + 1 < size b)).
      * apply (Hnext (c + 1) (c + 1));
          [split; lia|intros [=]; lia|apply Hw; lia|lia..].
      * apply (Hnext (c - 1) (c - 1));
          [split; lia|intros [=]; lia|apply Hw; lia|lia..].
    + left. right. right. left. intros i Hi.
      apply Hback; [done|intros [=]; lia|by apply Hw].
  - destruct (decide (c = size b - 1 - r)) as [->|Hne].
    + right. destruct (decide (r + 1 < size b)).
      * apply (Hnext (r + 1) (size b - 1 - (r + 1)));
          [split; lia|intros [=]; lia|apply Hw; lia|lia..].
      * apply (Hnext (r - 1) (size b - 1 - (r - 1)));
          [split; lia|intros [=]; lia|apply Hw; lia|lia..].
    + left. right. right. right. intros i Hi.
      apply Hback; [split; lia|intros [=]; lia|by apply Hw].
Qed.

(** The value of a move of O on a board with at most ten free cells. *)
Lemma move_value_bounds b k r c v :
  wf_board b → proper_board b → k ≤ 10 → move_value b k r c v →
  v ≤ 9 ∧ (v = 9 ↔ wins (place b r c "O"%char) "O"%char).
Proof.
  intros Hwf Hp Hk Hv.
  destruct (ttt_minimax_fuel_bounds k (Z.to_nat (k - 1)) Hk
              (place b r c "O"%char) false 1)
    as (v' & Hv' & Hb & Hw);
    [by apply wf_place|apply proper_place; auto|lia|done|].
  unfold move_value, ttt_minimax in Hv. rewrite Hv' in Hv.
  injection Hv as <-. split; [lia|]. rewrite <-Hw by lia. lia.
Qed.

Lemma recommend_outcome (b : TTTBoard) (r0 c0 : Z) :
  wf_board b →
  ∃ fnd r c,
    ttt_recommend_move_O b r0 c0 = Ok (fnd, r, c) ∧
    (fnd = true → free b r c) ∧
    (fnd = false → r = r0 ∧ c = c0) ∧
    (proper_board b → (fnd = true ↔ ∃ r' c', free b r' c')).
Proof.
  intros Hwf.
  destruct (recommend_run b r0 c0 Hwf) as (box & st & Hbox & -> & _ & Hst).
  destruct (active_box_board b Hwf)
    as (box' & Hbox' & Hon & _ & _ & Hcorner & Hnear & _).
  rewrite Hbox in Hbox'. injection Hbox' as <-.
  exists (found st), (best_r st), (best_c st). split; [done|].
  destruct (found st).
  - destruct Hst as (_ & _ & Hfree & _).
    split_and!; [done|done|]. intros _. split; [by eauto|done].
  - destruct Hst as (-> & -> & Hno).
    split_and!; [done|done|]. intros Hp. split; [done|]. intros Hex.
    destruct (free_in_box b box Hwf Hp Hon Hcorner Hnear Hex)
      as (r & c & Hin & Hfree).
    destruct (Hno r c Hin); [|done].
    destruct Hin as [Hr _]. unfold scanned. lia.
Qed.

(** X24. On a board with [n * n] cells [ttt_recommend_move_O] returns
    without an exception. When it answers [true], the cell it leaves in
    [best_r] and [best_c] is a free cell of the board; when it answers
    [false], the two are as they were before the call. On a board of dots,
    crosses and noughts it answers [true] exactly when the board has a
    free cell. *)
Theorem ttt_recommend_move_O_spec (b : TTTBoard) (r0 c0 : Z) :
  wf_board b →
  ∃ fnd r c,
    ttt_recommend_move_O b r0 c0 = Ok (fnd, r, c) ∧
    (fnd = true → free b r c) ∧
    (fnd = false → r = r0 ∧ c = c0) ∧
    (proper_board b → (fnd = true ↔ ∃ r' c', free b r' c')).
Proof.
  intros Hwf. by apply recommend_outcome.
Qed.

Lemma ttt_recommend_move_O_spec_witness :
  let b := mkBoard 3 (list_ascii_of_string "XX.OO....") in
  ∃ fnd r c,
    ttt_recommend_move_O b (-1) (-1) = Ok (fnd, r, c) ∧
    (fnd = true → free b r c) ∧
    (fnd = false → r = -1 ∧ c = -1) ∧
    (proper_board b → (fnd = true ↔ ∃ r' c', free b r' c')).
Proof.
  apply (ttt_recommend_move_O_spec
           (mkBoard 3 (list_ascii_of_string "XX.OO....")) (-1) (-1)).
  split; simpl; [lia|reflexivity].
Defined.

(** X25. The cell that [ttt_recommend_move_O] recommends lies in the active
    box, and no free cell of the active box has a greater value, where the
    value of a cell is what [ttt_minimax] returns for the board with O in
    that cell, X to move, at depth [1] with the number of free cells as
    the depth limit. Among the cells of the greatest value it is the first
    one in the row-by-row order. *)
Theorem ttt_recommend_move_O_best (b : TTTBoard) (box : Box)
    (r0 c0 r c : Z) :
  wf_board b →
  ttt_compute_active_box b = Ok box →
  ttt_recommend_move_O b r0 c0 = Ok (true, r, c) →
  in_box box r c ∧
  ∃ val,
    move_value b (free_count b) r c val ∧
    ∀ r' c' v, in_box box r' c' → free b r' c' →
      move_value b (free_count b) r' c' v →
      v ≤ val ∧ (scanned r c r' c' → v < val).
Proof.
  intros Hwf Hbox Hrun.
  destruct (recommend_run b r0 c0 Hwf)
    as (box' & st & Hbox' & Hrun' & _ & Hst).
  rewrite Hbox in Hbox'. injection Hbox' as <-.
  rewrite Hrun in Hrun'. injection Hrun' as Hf Hr Hc. subst r c.
  rewrite <-Hf in Hst.
  destruct Hst as (Hin & _ & _ & Hval & Hall). split; [done|].
  exists (best_val st). split; [done|].
  intros r' c' v Hin' Hfree Hv. apply Hall; [done| |done..].
  destruct Hin' as [Hr _]. unfold scanned. lia.
Qed.

Lemma ttt_recommend_move_O_best_witness :
  let b := mkBoard 3 (list_ascii_of_string "XX.OO....") in
  let box := mkBox 0 2 0 2 in
  in_box box 1 2 ∧
  ∃ val,
    move_value b (free_count b) 1 2 val ∧
    ∀ r' c' v, in_box box r' c' → free b r' c' →
      move_value b (free_count b) r' c' v →
      v ≤ val ∧ (scanned 1 2 r' c' → v < val).
Proof.
  apply (ttt_recommend_move_O_best
           (mkBoard 3 (list_ascii_of_string "XX.OO....")) (mkBox 0 2 0 2)
           (-1) (-1) 1 2).
  - split; simpl; [lia|reflexivity].
  - vm_compute. reflexivity.
  - vm_compute. reflexivity.
Defined.

(** X26. On a board of dots, crosses and noughts with [n * n] cells of which
    at most ten are free: if O can fill a line by taking some free cell,
    [ttt_recommend_move_O] recommends a free cell that fills a line of
    O. *)
Theorem ttt_recommend_move_O_wins (b : TTTBoard) (r0 c0 : Z) :
  wf_board b → proper_board b → free_count b ≤ 10 →
  (∃ r c, free b r c ∧ wins (place b r c "O"%char) "O"%char) →
  ∃ r c,
    ttt_recommend_move_O b r0 c0 = Ok (true, r, c) ∧
    free b r c ∧ wins (place b r c "O"%char) "O"%char.
Proof.
  intros Hwf Hp Hk (rw & cw & Hfw & Hww).
  destruct (recommend_run b r0 c0 Hwf) as (box & st & Hbox & -> & _ & Hst).
  destruct (active_box_board b Hwf)
    as (box' & Hbox' & Hon & _ & _ & Hcorner & Hnear & Hall).
  rewrite Hbox in Hbox'. injection Hbox' as <-.
  assert (∃ r c, in_box box r c ∧ free b r c ∧
                 wins (place b r c "O"%char) "O"%char)
    as (r2 & c2 & Hin2 & Hf2 & Hw2).
  { destruct (winning_move_in_box b box rw cw Hwf Hnear Hall Hfw Hww)
      as [Hw|Hin]; [|by exists rw, cw].
    destruct (free_in_box b box Hwf Hp Hon Hcorner Hnear)
      as (r2 & c2 & Hin2 & Hf2); [by eauto|].
    exists r2, c2. split_and!; [done..|].
    apply wins_place_mono; [done|by destruct Hf2|done]. }
  assert (scanned (r_max box + 1) (c_min box) r2 c2) as Hs2.
  { destruct Hin2 as [Hr _]. unfold scanned. lia. }
  destruct (found st).
  - destruct Hst as (_ & _ & Hfree & Hval & Hbest).
    exists (best_r st), (best_c st). split_and!; [done..|].
    destruct (move_value_exists b (free_count b) r2 c2 Hwf) as (v2 & Hv2).
    destruct (Hbest r2 c2 v2 Hin2 Hs2 Hf2 Hv2) as [Hle _].
    destruct (move_value_bounds b _ r2 c2 v2 Hwf Hp Hk Hv2) as [_ H2].
    destruct (move_value_bounds b _ _ _ _ Hwf Hp Hk Hval) as [H9 Hw].
    apply Hw. apply H2 in Hw2. lia.
  - destruct Hst as (_ & _ & Hno). by destruct (Hno r2 c2).
Qed.

Lemma ttt_recommend_move_O_wins_witness :
  let b := mkBoard 3 (list_ascii_of_string "XX.OO....") in
  ∃ r c,
    ttt_recommend_move_O b (-1) (-1) = Ok (true, r, c) ∧
    free b r c ∧ wins (place b r c "O"%char) "O"%char.
Proof.
  apply (ttt_recommend_move_O_wins
           (mkBoard 3 (list_ascii_of_string "XX.OO....")) (-1) (-1)).
  - split; simpl; [lia|reflexivity].
  - unfold proper_board. simpl.
    repeat (apply Forall_cons_2; [auto|]). apply Forall_nil_2.
  - vm_compute. discriminate.
  - exists 1, 2. split; [split; [unfold on_board; simpl; lia|reflexivity]|].
    left. exists 1. simpl. split; [lia|]. intros c Hc.
    assert (c = 0 ∨ c = 1 ∨ c = 2) as [-> | [-> | ->]] by lia; reflexivity.
Defined.

(** ** The console advisor *)

Lemma TTTBoard_new_dots n :
  TTTBoard_new n = Ok (mkBoard n (replicate (Z.to_nat (n * n)) "."%char)).
Proof.
  unfold TTTBoard_new, DynamicArray.make.
  destruct (for_each_seqZ
    (λ i cs, cs = replicate (Z.to_nat i) "."%char
                  ++ replicate (Z.to_nat (n * n - i)) "000"%char)
    (λ cs i, DynamicArray.Set_ cs i "."%char)
    0 (n * n) (replicate (Z.to_nat (n * n)) "000"%char))
    as (cs & -> & Hcs); [nia|by rewrite Z.sub_0_r| |].
  - intros i cs Hi ->. rewrite Set_in_range
      by (rewrite length_app, !length_replicate; lia).
    eexists. split; [done|].
    rewrite insert_app_r_alt by (rewrite length_replicate; lia).
    rewrite length_replicate, Nat.sub_diag.
    replace (Z.to_nat (n * n - i)) with (S (Z.to_nat (n * n - (i + 1))))
      by lia.
    replace (Z.to_nat (i + 1)) with (S (Z.to_nat i)) by lia.
    rewrite (replicate_S_end (Z.to_nat i) "."%char), <-app_assoc. done.
  - monad_step. rewrite Hcs, Z.add_0_l, Z.sub_diag. simpl.
    by rewrite app_nil_r.
Qed.

Lemma wf_dots n :
  0 ≤ n → wf_board (mkBoard n (replicate (Z.to_nat (n * n)) "."%char)).
Proof. intros Hn. split; simpl; [done|by rewrite length_replicate]. Qed.

Lemma proper_dots n :
  proper_board (mkBoard n (replicate (Z.to_nat (n * n)) "."%char)).
Proof. apply Forall_replicate. by left. Qed.

Lemma ttt_print_board_total b :
  wf_board b → ∃ text, ttt_print_board b = Ok text.
Proof.
  intros Hwf. pose proof Hwf as [Hn _]. unfold ttt_print_board.
  destruct (for_each_seqZ (λ _ (_ : string), True)
    (λ out r,
       out ← for_each
               (λ out c,
                  v ← get b r c;
                  Ok (String.append out
                        (String v (if c + 1 <? size b then " "%string
                                   else EmptyString))))
               (seqZ 0 (size b)) out;
       Ok (String.append out newline))
    0 (size b) EmptyString) as (text & Hrun & _); [done|done| |by eauto].
  intros r out Hr _.
  destruct (for_each_seqZ (λ _ (_ : string), True)
    (λ out c,
       v ← get b r c;
       Ok (String.append out
             (String v (if c + 1 <? size b then " "%string
                        else EmptyString))))
    0 (size b) out) as (out' & -> & _); [done|done| |].
  - intros c out1 Hc _.
    destruct (get_cell b r c Hwf) as (v & -> & _); [split; lia|].
    monad_step. by eauto.
  - monad_step. by eauto.
Qed.

Lemma string_get_length s k :
  is_Some (String.get k s) ↔ (k < String.length s)%nat.
Proof.
  revert k. induction s as [|a s IH]; intros k; simpl.
  - split; [by intros [? ?]|lia].
  - destruct k as [|k]; [split; [lia|by eauto]|].
    rewrite IH. lia.
Qed.

Section read_rows.
Variables (n : Z) (rows : list string).
Hypothesis Hn : 0 < n.

Lemma read_cell r c st :
  0 ≤ r < n → 0 ≤ c < n →
  n ≤ Z.of_nat (String.length (default EmptyString (rows !! Z.to_nat r))) →
  read_inv n rows r c st →
  ∃ st',
    match st with
    | inl rep => Ok (inl rep)
    | inr b =>
        match String.get (Z.to_nat c)
                (default EmptyString (rows !! Z.to_nat r)) with
        | None => Throw out_of_range
        | Some ch =>
            if negb (Ascii.eqb ch "X"%char) && negb (Ascii.eqb ch "O"%char)
               && negb (Ascii.eqb ch "."%char)
            then Ok (inl (BadSymbol ch r c))
            else b' ← set b r c ch; Ok (inr b')
        end
    end = Ok st' ∧
    read_inv n rows r (c + 1) st'.
Proof.
  intros Hr Hc Hlen Hst. destruct st as [rep|b]; [by eauto|].
  destruct Hst as (Hwf & Hsize & Hp & Hcells).
  destruct (rows !! Z.to_nat r) as [row|] eqn:Hrow; simpl in *; [|lia].
  destruct (proj2 (string_get_length row (Z.to_nat c))) as [ch Hch]; [lia|].
  rewrite Hch.
  assert (typed rows r c = Some ch) as Htyped.
  { unfold typed. rewrite Hrow. done. }
  destruct (Ascii.eqb_spec ch "X"%char) as [HX|HX];
    destruct (Ascii.eqb_spec ch "O"%char) as [HO|HO];
    destruct (Ascii.eqb_spec ch "."%char) as [HD|HD]; simpl.
  8: { eexists. split; [done|]. split; [|by eauto].
       intros Hvalid. destruct (Hvalid r c Hr Hc) as (ch' & Hch' & Hok).
       rewrite Htyped in Hch'. injection Hch' as <-.
       by destruct Hok as [?|[?|?]]. }
  all: rewrite set_place by (done || (split; lia)); monad_step;
    eexists; (split; [done|]);
    (split_and!; [by apply wf_place|done|apply proper_place; auto|]);
    intros r' c' Hon Hs;
    (destruct (decide ((r, c) = (r', c'))) as [Heq|Hne];
     [injection Heq as <- <-; rewrite cell_place_eq by (done || (split; lia));
      done|]);
    (rewrite cell_place_ne by (done || (split; lia))); apply Hcells;
    [done|]; unfold scanned in *;
    (assert (r' ≠ r ∨ c' ≠ c) by
       (destruct (decide (r' = r)); [right; intros ->; by subst|by left]));
    lia.
Qed.

Lemma read_rows_spec board :
  wf_board board → size board = n → proper_board board →
  ∃ st, read_rows n rows board = Ok st ∧ read_inv n rows n 0 st.
Proof.
  intros Hwf Hsize Hp. unfold read_rows.
  destruct (for_each_seqZ (λ r st, read_inv n rows r 0 st)
    (λ st r,
       match st with
       | inl rep => Ok (inl rep)
       | inr b =>
           let row := default EmptyString (rows !! Z.to_nat r) in
           if Z.of_nat (String.length row) <? n then Ok (inl ShortRow)
           else
             for_each
               (λ st c,
                  match st with
                  | inl rep => Ok (inl rep)
                  | inr b =>
                      match String.get (Z.to_nat c) row with
                      | None => Throw out_of_range
                      | Some ch =>
                          if negb (Ascii.eqb ch "X"%char)
                             && negb (Ascii.eqb ch "O"%char)
                             && negb (Ascii.eqb ch "."%char)
                          then Ok (inl (BadSymbol ch r c))
                          else
                            b' ← set b r c ch;
                            Ok (inr b')
                      end
                  end)
               (seqZ 0 n) (inr b)
       end)
    0 n (inr board)) as (st & Hrun & Hst); [lia| | |].
  - split_and!; [done..|]. intros r' c' [[Hr' _] [Hc' _]] Hs.
    unfold scanned in Hs. lia.
  - intros r st Hr Hst. destruct st as [rep|b]; [by eauto|]. cbn zeta.
    destruct (Z.ltb_spec
                (Z.of_nat (String.length
                             (default EmptyString (rows !! Z.to_nat r)))) n)
      as [Hshort|Hlong].
    { eexists. split; [done|]. split; [|by left].
      intros Hvalid. destruct (Hvalid r (n - 1)) as (ch & Hch & _); [lia..|].
      unfold typed in Hch.
      destruct (rows !! Z.to_nat r) as [row|]; simpl in *; [|done].
      assert (is_Some (String.get (Z.to_nat (n - 1)) row)) as Hsome
        by by eexists.
      apply string_get_length in Hsome. lia. }
    destruct (for_each_seqZ (λ c st, read_inv n rows r c st)
      (λ st c,
         match st with
         | inl rep => Ok (inl rep)
         | inr b =>
             match String.get (Z.to_nat c)
                     (default EmptyString (rows !! Z.to_nat r)) with
             | None => Throw out_of_range
             | Some ch =>
                 if negb (Ascii.eqb ch "X"%char)
                    && negb (Ascii.eqb ch "O"%char)
                    && negb (Ascii.eqb ch "."%char)
                 then Ok (inl (BadSymbol ch r c))
                 else
                   b' ← set b r c ch;
                   Ok (inr b')
             end
         end)
      0 n (inr b)) as (st' & Hrun & Hst'); [lia|done| |].
    + intros c st1 Hc Hst1. by apply read_cell; [lia..|].
    + exists st'. split; [done|]. rewrite Z.add_0_l in Hst'.
      destruct st' as [rep|b']; [done|].
      destruct Hst' as (Hwf' & Hsize' & Hp' & Hcells).
      split_and!; [done..|]. intros r' c' Hon Hs. apply Hcells; [done|].
      destruct Hon as [_ Hc']. unfold scanned in *. lia.
  - exists st. split; [done|]. by rewrite Z.add_0_l in Hst.
Qed.
End read_rows.

(** The run of the advisor on a size that it accepts. *)
Lemma advisor_outcome n rows :
  0 < n →
  ∃ st,
    read_inv n rows n 0 st ∧
    match st with
    | inl rep => run_tictactoe_advisor (Some n) rows = Ok rep
    | inr b =>
        ∃ shown,
          ttt_print_board b = Ok shown ∧
          (((∀ r c, ¬ free b r c) ∧
            run_tictactoe_advisor (Some n) rows = Ok (NoFreeCell shown)) ∨
           (∃ br bc after,
              free b br bc ∧
              ttt_print_board (place b br bc "O"%char) = Ok after ∧
              run_tictactoe_advisor (Some n) rows
              = Ok (Recommended shown br bc after)))
    end.
Proof.
  intros Hn. unfold run_tictactoe_advisor.
  replace (n <=? 0) with false by lia.
  rewrite TTTBoard_new_dots. monad_step.
  destruct (read_rows_spec n rows Hn _ (wf_dots n ltac:(lia)) eq_refl
              (proper_dots n)) as (st & -> & Hst).
  monad_step. exists st. split; [done|]. destruct st as [rep|b]; [done|].
  destruct Hst as (Hwf & Hsize & Hp & Hcells).
  destruct (ttt_print_board_total b Hwf) as (shown & Hshown).
  exists shown. split; [done|]. rewrite Hshown. monad_step.
  destruct (ttt_has_empty_spec b Hwf) as (e & -> & He). monad_step.
  destruct e; simpl.
  - right. destruct (recommend_outcome b (-1) (-1) Hwf)
      as (fnd & br & bc & -> & Hfree & _ & Hfnd).
    monad_step. destruct fnd; simpl.
    + specialize (Hfree eq_refl). pose proof Hfree as [Hon _].
      rewrite set_place by done. monad_step.
      destruct (ttt_print_board_total (place b br bc "O"%char))
        as (after & Hafter); [by apply wf_place|].
      rewrite Hafter. monad_step. by exists br, bc, after.
    + apply Hfnd in Hp. destruct Hp as [_ Hp].
      by discriminate Hp; apply He.
  - left. split; [|done]. intros r c Hfree.
    destruct He as [_ He]. by discriminate He; eauto.
Qed.

(** X27. Given a size [n > 0] whose square is an [int] and a position
    typed with a dot, an X or an O for each of the [n * n] cells,
    [run_tictactoe_advisor] reads the board as typed and shows it. If the
    board has no free cell it says so; otherwise it recommends a free cell
    of the board and shows the board with an O there. *)
Theorem run_tictactoe_advisor_valid (n : Z) (rows : list string) :
  0 < n → n * n ≤ INT_MAX → valid_rows n rows →
  ∃ b shown,
    wf_board b ∧ size b = n ∧
    (∀ r c, on_board b r c → cell b r c = typed rows r c) ∧
    ttt_print_board b = Ok shown ∧
    (((∀ r c, ¬ free b r c) ∧
      run_tictactoe_advisor (Some n) rows = Ok (NoFreeCell shown)) ∨
     (∃ br bc after,
        free b br bc ∧
        ttt_print_board (place b br bc "O"%char) = Ok after ∧
        run_tictactoe_advisor (Some n) rows
        = Ok (Recommended shown br bc after))).
Proof.
  intros Hn _ Hvalid.
  destruct (advisor_outcome n rows Hn) as ([rep|b] & Hst & Hrun).
  { by destruct Hst as [Hst _]. }
  destruct Hst as (Hwf & Hsize & _ & Hcells).
  destruct Hrun as (shown & Hshown & Hrun).
  exists b, shown. split_and!; [done..| |done|done].
  intros r c Hon. apply Hcells; [done|].
  destruct Hon as [Hr _]. unfold scanned. lia.
Qed.

Lemma run_tictactoe_advisor_valid_witness :
  let rows := ["XX."; "OO."; "..."]%string in
  ∃ b shown,
    wf_board b ∧ size b = 3 ∧
    (∀ r c, on_board b r c → cell b r c = typed rows r c) ∧
    ttt_print_board b = Ok shown ∧
    (((∀ r c, ¬ free b r c) ∧
      run_tictactoe_advisor (Some 3) rows = Ok (NoFreeCell shown)) ∨
     (∃ br bc after,
        free b br bc ∧
        ttt_print_board (place b br bc "O"%char) = Ok after ∧
        run_tictactoe_advisor (Some 3) rows
        = Ok (Recommended shown br bc after))).
Proof.
  apply (run_tictactoe_advisor_valid 3 ["XX."; "OO."; "..."]%string).
  - lia.
  - unfold INT_MAX. lia.
  - intros r c Hr Hc.
    assert (r = 0 ∨ r = 1 ∨ r = 2) as [-> | [-> | ->]] by lia;
      (assert (c = 0 ∨ c = 1 ∨ c = 2) as [-> | [-> | ->]] by lia);
      eexists; (split; [reflexivity|auto]).
Defined.

(** X28. Whatever the input, as long as the square of the size that is
    read is an [int], [run_tictactoe_advisor] ends with one of its reports
    and without an exception, and the report is never the one for a board
    with a free cell on which no move was found. *)
Theorem run_tictactoe_advisor_total (size_in : option Z)
    (rows : list string) :
  (∀ n, size_in = Some n → n * n ≤ INT_MAX) →
  ∃ rep, run_tictactoe_advisor size_in rows = Ok rep ∧
         ∀ shown, rep ≠ NoMove shown.
Proof.
  intros _. destruct size_in as [n|]; [|by exists BadSize].
  destruct (Z.leb_spec n 0) as [Hle|Hlt].
  { exists BadSize. unfold run_tictactoe_advisor.
    by replace (n <=? 0) with true by lia. }
  destruct (advisor_outcome n rows Hlt) as ([rep|b] & Hst & Hrun).
  - exists rep. split; [done|].
    by destruct Hst as [_ [->|(ch & r & c & ->)]].
  - destruct Hrun as (shown & _ & [[_ Hrun]|(br & bc & after & _ & _ & Hrun)]);
      eexists; by split.
Qed.

Lemma run_tictactoe_advisor_total_witness :
  ∃ rep, run_tictactoe_advisor (Some 2) ["XO"; "O."]%string = Ok rep ∧
         ∀ shown, rep ≠ NoMove shown.
Proof.
  apply (run_tictactoe_advisor_total (Some 2) ["XO"; "O."]%string).
  intros n [= <-]. unfold INT_MAX. lia.
Defined.
